(** * Declarative 3D custom elements: a shallow embedding and its properties

    The development follows the bundled custom-element layer
    (AsyncElement, ComponentElement and its subclasses, AssetElement,
    EntityElement, AppElement, SkyElement, the attribute parsers) and the
    viewer script (FrameScene.handleWheel, the XR start/end handlers).
    Further parts cover picking and pointer listeners, the script
    attributes, the worker pool and the unpacking of the bundled mesh
    decoder, and the camera animation and on-demand rendering of the viewer.

    Engine objects live in a heap addressed by locations; every call into
    the engine that the element layer performs is recorded in a call log, and
    console output in a console log. *)

From Stdlib Require Import String Ascii List ZArith QArith Lia Bool.
From Stdlib Require Import Qround Qabs Lqa.
From stdpp Require Import gmap strings list fin_maps.
Import ListNotations.

Local Open Scope string_scope.
Local Open Scope list_scope.

(** ** JavaScript primitives used by the element layer *)
Module JS.

(** [a !== b] on two strings. *)
Definition strict_neq (a b : string) : bool := negb (String.eqb a b).

(** [newValue !== 'false'] where [newValue] is a string or [null]. *)
Definition neq_literal (v : option string) (lit : string) : bool :=
  match v with
  | Some s => strict_neq s lit
  | None => true
  end.

(** [Array.prototype.includes] on an array of strings. *)
Fixpoint includes (xs : list string) (v : string) : bool :=
  match xs with
  | [] => false
  | x :: rest => if String.eqb x v then true else includes rest v
  end.

(** Truthiness of a string-or-null value: [null] and [''] are falsy. *)
Definition truthy (v : option string) : bool :=
  match v with
  | Some EmptyString => false
  | Some _ => true
  | None => false
  end.

(** [String.prototype.split(sep)] for a one-character separator: the
    pieces between the separators, empty pieces included; never empty. *)
Fixpoint split (sep : ascii) (s : string) : list string :=
  match s with
  | EmptyString => [EmptyString]
  | String c rest =>
      if Ascii.eqb c sep then EmptyString :: split sep rest
      else match split sep rest with
           | [] => [String c EmptyString]
           | piece :: pieces => String c piece :: pieces
           end
  end.

(** [Array.prototype.pop] read as "the last element" ([undefined] on []). *)
Definition pop (xs : list string) : option string := List.last (List.map Some xs) None.

(** [x || ''] for a string-or-undefined [x]. *)
Definition or_empty (x : option string) : string :=
  if truthy x then match x with Some s => s | None => "" end else "".

(** The lower case of a character. A string is the sequence of its code
    units, which are below 256: the letters A to Z and the capital letters
    from U+00C0 to U+00DE (U+00D7, the multiplication sign, is none) have
    a lower case, 32 further on; the other characters of the range are
    their own lower case. *)
Definition lower_ascii (c : ascii) : ascii :=
  let n := nat_of_ascii c in
  if (Nat.leb 65 n && Nat.leb n 90)%bool then ascii_of_nat (n + 32)
  else if (Nat.leb 192 n && Nat.leb n 222 && negb (Nat.eqb n 215))%bool
       then ascii_of_nat (n + 32)
       else c.

(** [String.prototype.toLowerCase] *)
Fixpoint toLowerCase (s : string) : string :=
  match s with
  | EmptyString => EmptyString
  | String c rest => String (lower_ascii c) (toLowerCase rest)
  end.

(** [value.startsWith(c)] for a one-character prefix. *)
Definition startsWith (s : string) (c : ascii) : bool :=
  match s with
  | String d _ => Ascii.eqb d c
  | EmptyString => false
  end.

End JS.

(** ** Engine objects and the world the elements act on *)

Definition loc := positive.

(** The fields of an engine component that the element layer reads or
    writes: the owning entity, the enabled flag and, for lights, the type. *)
Record EngineComponent := mkEngineComponent {
  comp_entity : option loc;
  comp_enabled : bool;
  comp_type : string
}.

Inductive EngineCall :=
| CallAddComponent (entity : loc) (name : string)
| CallRemoveComponent (entity : loc) (name : string)
| CallSetEnabled (component : loc) (value : bool)
| CallSetType (component : loc) (value : string).

Record World := mkWorld {
  heap : gmap loc EngineComponent;
  calls : list EngineCall;
  console : list string
}.

Definition log_call (c : EngineCall) (w : World) : World :=
  mkWorld (heap w) (calls w ++ [c]) (console w).

Definition warn (msg : string) (w : World) : World :=
  mkWorld (heap w) (calls w) (console w ++ [msg]).

Definition set_heap (h : gmap loc EngineComponent) (w : World) : World :=
  mkWorld h (calls w) (console w).

(** How a call ends: it returns, or it throws and the statements after it
    in the caller are skipped. *)
Inductive Completion := Returned | Thrown.

(** ** ComponentElement *)
Module ComponentElement.

Record t := mk {
  _enabled : bool;
  _component : option loc;
  _componentName : string
}.

(** [constructor(componentName)] *)
Definition constructor (componentName : string) : t :=
  mk true None componentName.

(** [get component()] *)
Definition component (el : t) : option loc := _component el.

Definition with_component (c : option loc) (el : t) : t :=
  mk (_enabled el) c (_componentName el).

Definition with_enabled (b : bool) (el : t) : t :=
  mk b (_component el) (_componentName el).

Section Engine.

(** What the engine does to its own objects when a component is removed
    from an entity, and whether the call returns, is the engine's business.
    [Entity.removeComponent] reads the component systems of the entity's
    application, so it throws on an entity whose application has been
    destroyed, which is what [AppElement.disconnectedCallback] does
    ([this.app.destroy()]) before the callbacks of the elements below the
    pc-app run. *)
Variable engine_removeComponent :
  loc -> string -> gmap loc EngineComponent -> gmap loc EngineComponent * Completion.

(** [disconnectedCallback()]:
    if (this.component && this.component.entity) {
        this._component.entity.removeComponent(this._componentName);
        this._component = null;
    }
    The assignment follows the engine call, so it is skipped when the call
    throws, and the exception leaves the callback. *)
Definition disconnectedCallback (el : t) (w : World) : (t * World) * Completion :=
  match component el with
  | Some c =>
      match heap w !! c with
      | Some obj =>
          match comp_entity obj with
          | Some e =>
              let w1 := log_call (CallRemoveComponent e (_componentName el)) w in
              match engine_removeComponent e (_componentName el) (heap w1) with
              | (h, Returned) => ((with_component None el, set_heap h w1), Returned)
              | (h, Thrown) => ((el, set_heap h w1), Thrown)
              end
          | None => ((el, w), Returned)
          end
      | None => ((el, w), Returned)
      end
  | None => ((el, w), Returned)
  end.

End Engine.

(** [set enabled(value)] *)
Definition set_enabled (value : bool) (el : t) (w : World) : t * World :=
  let el1 := with_enabled value el in
  match component el1 with
  | Some c =>
      match heap w !! c with
      | Some obj =>
          let obj' := mkEngineComponent (comp_entity obj) value (comp_type obj) in
          (el1, set_heap (<[c := obj']> (heap w)) (log_call (CallSetEnabled c value) w))
      | None => (el1, w)
      end
  | None => (el1, w)
  end.

(** [attributeChangedCallback(name, _oldValue, newValue)] of the base class. *)
Definition attributeChangedCallback
    (name : string) (_oldValue newValue : option string) (el : t) (w : World) : t * World :=
  if String.eqb name "enabled"
  then set_enabled (JS.neq_literal newValue "false") el w
  else (el, w).

End ComponentElement.

(** ** Subclasses of ComponentElement *)

Inductive ComponentKind :=
| ListenerComponent | CameraComponent | CollisionComponent | ElementComponent
| SplatComponent | LightComponent | ParticleSystemComponent | RenderComponent
| RigidBodyComponent | ScreenComponent | ScriptComponent | SoundComponent.

(** The name each subclass passes to [super(componentName)]. *)
Definition componentName (k : ComponentKind) : string :=
  match k with
  | ListenerComponent => "audiolistener"
  | CameraComponent => "camera"
  | CollisionComponent => "collision"
  | ElementComponent => "element"
  | SplatComponent => "gsplat"
  | LightComponent => "light"
  | ParticleSystemComponent => "particlesystem"
  | RenderComponent => "render"
  | RigidBodyComponent => "rigidbody"
  | ScreenComponent => "screen"
  | ScriptComponent => "script"
  | SoundComponent => "sound"
  end.

(** The [case] labels of the [switch (name)] in each subclass's own
    [attributeChangedCallback]; the listener and script elements do not
    override the callback. *)
Definition subclass_cases (k : ComponentKind) : list string :=
  match k with
  | ListenerComponent => []
  | CameraComponent =>
      ["clear-color"; "clear-color-buffer"; "clear-depth-buffer"; "clear-stencil-buffer";
       "cull-faces"; "far-clip"; "flip-faces"; "fov"; "frustum-culling"; "gamma";
       "horizontal-fov"; "near-clip"; "orthographic"; "ortho-height"; "priority"; "rect";
       "scissor-rect"; "tonemap"]
  | CollisionComponent =>
      ["angular-offset"; "axis"; "convex-hull"; "half-extents"; "height"; "linear-offset";
       "radius"; "type"]
  | ElementComponent =>
      ["anchor"; "asset"; "auto-width"; "color"; "font-size"; "line-height"; "pivot"; "text";
       "type"; "width"; "wrap-lines"]
  | SplatComponent => ["asset"]
  | LightComponent =>
      ["color"; "cast-shadows"; "inner-cone-angle"; "intensity"; "normal-offset-bias";
       "outer-cone-angle"; "range"; "shadow-bias"; "shadow-distance"; "shadow-resolution";
       "shadow-intensity"; "shadow-type"; "type"; "vsm-bias"]
  | ParticleSystemComponent => ["asset"]
  | RenderComponent => ["cast-shadows"; "material"; "receive-shadows"; "type"]
  | RigidBodyComponent =>
      ["angular-damping"; "angular-factor"; "friction"; "linear-damping"; "linear-factor";
       "mass"; "restitution"; "rolling-friction"; "type"]
  | ScreenComponent =>
      ["priority"; "reference-resolution"; "resolution"; "scale-blend"; "blend"; "screen-space"]
  | ScriptComponent => []
  | SoundComponent =>
      ["distance-model"; "max-distance"; "pitch"; "positional"; "ref-distance";
       "roll-off-factor"; "volume"]
  end.

Module Subclass.

Section Dispatch.

(** The fields a subclass adds to the base element. *)
Context {Fields : Type}.

(** The body of a subclass's own [switch]: one property setter per
    [case] label. The setters are specific to each engine component. *)
Variable own_setter :
  ComponentKind -> string -> option string ->
  ComponentElement.t * Fields -> World -> (ComponentElement.t * Fields) * World.

(** [attributeChangedCallback(name, _oldValue, newValue)] of a subclass:
    super.attributeChangedCallback(name, _oldValue, newValue);
    switch (name) { case ...: ...; break; } *)
Definition attributeChangedCallback (k : ComponentKind)
    (name : string) (_oldValue newValue : option string)
    (el : ComponentElement.t * Fields) (w : World)
  : (ComponentElement.t * Fields) * World :=
  let '(base, w1) :=
    ComponentElement.attributeChangedCallback name _oldValue newValue (fst el) w in
  if JS.includes (subclass_cases k) name
  then own_setter k name newValue (base, snd el) w1
  else ((base, snd el), w1).

(** [disconnectedCallback()] as each subclass runs it: only the script
    element overrides it, to disconnect its mutation observer (a DOM
    call) before calling the inherited callback. *)
Definition disconnectedCallback
    (engine_removeComponent :
       loc -> string -> gmap loc EngineComponent -> gmap loc EngineComponent * Completion)
    (k : ComponentKind) (el : ComponentElement.t * Fields) (w : World)
  : ((ComponentElement.t * Fields) * World) * Completion :=
  let '((base, w1), completion) :=
    ComponentElement.disconnectedCallback engine_removeComponent (fst el) w in
  (((base, snd el), w1), completion).

End Dispatch.

End Subclass.

(** ** LightComponentElement *)
Module LightComponentElement.

Record Color := mkColor { r : Q; g : Q; b : Q; a : Q }.

Record t := mk {
  base : ComponentElement.t;
  _castShadows : bool;
  _color : Color;
  _innerConeAngle : Q;
  _intensity : Q;
  _normalOffsetBias : Q;
  _outerConeAngle : Q;
  _range : Q;
  _shadowBias : Q;
  _shadowDistance : Q;
  _shadowIntensity : Q;
  _shadowResolution : Q;
  _shadowType : string;
  _type : string;
  _vsmBias : Q
}.

Definition constructor : t :=
  mk (ComponentElement.constructor "light") false (mkColor 1 1 1 1) 40 1 (5 # 100) 45 10
     (2 # 10) 16 1 1024 "pcf3-32f" "directional" (1 # 100).

Definition with_type (v : string) (el : t) : t :=
  mk (base el) (_castShadows el) (_color el) (_innerConeAngle el) (_intensity el)
     (_normalOffsetBias el) (_outerConeAngle el) (_range el) (_shadowBias el)
     (_shadowDistance el) (_shadowIntensity el) (_shadowResolution el) (_shadowType el)
     v (_vsmBias el).

Definition light_types : list string := ["directional"; "omni"; "spot"].

(** [set type(value)]:
      if (!['directional', 'omni', 'spot'].includes(value)) {
          console.warn(`Invalid light type '${value}', using default type '${this._type}'.`);
          return;
      }
      this._type = value;
      if (this.component) { this.component.type = value; } *)
Definition set_type (value : string) (el : t) (w : World) : t * World :=
  if negb (JS.includes light_types value) then
    (el, warn ("Invalid light type '" ++ value ++ "', using default type '"
                 ++ _type el ++ "'.")%string w)
  else
    let el1 := with_type value el in
    match ComponentElement.component (base el1) with
    | Some c =>
        match heap w !! c with
        | Some obj =>
            let obj' := mkEngineComponent (comp_entity obj) (comp_enabled obj) value in
            (el1, set_heap (<[c := obj']> (heap w)) (log_call (CallSetType c value) w))
        | None => (el1, w)
        end
    | None => (el1, w)
    end.

(** [get type()] *)
Definition type (el : t) : string := _type el.

(** The type the engine light component currently has, when it exists. *)
Definition engine_type (el : t) (w : World) : option string :=
  match ComponentElement.component (base el) with
  | Some c => comp_type <$> heap w !! c
  | None => None
  end.

End LightComponentElement.

(** ** AssetElement and the asset loop of AppElement.connectedCallback *)
Module AssetElement.

(** What [new Asset(id, type, { url: src })] followed by the assignment to
    [preload] leaves in the asset. *)
Record Asset := mkAsset {
  asset_name : string;
  asset_type : string;
  asset_url : string;
  asset_preload : bool
}.

Record t := mk {
  attributes : gmap string string;
  _lazy : bool;
  asset : option Asset
}.

Definition getAttribute (name : string) (el : t) : option string := attributes el !! name.

Definition extToType : gmap string string :=
  list_to_map
    [("bin", "binary"); ("css", "css"); ("frag", "shader"); ("glb", "container");
     ("glsl", "shader"); ("hdr", "texture"); ("html", "html"); ("jpg", "texture");
     ("js", "script"); ("json", "json"); ("mp3", "audio"); ("mjs", "script");
     ("ply", "gsplat"); ("png", "texture"); ("txt", "text"); ("vert", "shader");
     ("webp", "texture")].

(** [src.split('.').pop()] *)
Definition extension (src : string) : option string := JS.pop (JS.split "." src).

(** The type [createAsset] settles on: the [type] attribute when it is a
    non-empty string, otherwise the type inferred from the extension. *)
Definition resolve_type (el : t) (src : string) : option string :=
  let type := getAttribute "type" el in
  if JS.truthy type then type
  else extToType !! JS.or_empty (extension src).

(** [createAsset()]. (The later build in the bundle passes one more option
    to [new Asset] for 'container' assets; the rest is the same.) *)
Definition createAsset (el : t) (console : list string) : t * list string :=
  let id := JS.or_empty (getAttribute "id" el) in
  let src := JS.or_empty (getAttribute "src" el) in
  let type := resolve_type el src in
  if negb (JS.truthy type) then
    (el, console ++ [("Unsupported asset type: " ++ src)%string])
  else
    (mk (attributes el) (_lazy el)
        (Some (mkAsset id (JS.or_empty type) src (negb (_lazy el)))),
     console).

(** The state the asset loop of [AppElement.connectedCallback] threads:
    the elements visited so far (as they are left), the assets added to
    [app.assets], and the console. *)
Record LoopState := mkLoop {
  visited : list t;
  registry : list Asset;
  loop_console : list string
}.

(** The body of the [forEach]:
      assetElement.createAsset();
      const asset = assetElement.asset;
      if (asset) { this.app.assets.add(asset); } *)
Definition visit (st : LoopState) (el : t) : LoopState :=
  let '(el', console') := createAsset el (loop_console st) in
  match asset el' with
  | Some a => mkLoop (visited st ++ [el']) (registry st ++ [a]) console'
  | None => mkLoop (visited st ++ [el']) (registry st) console'
  end.

(** [Array.from(assetElements).forEach(...)] *)
Definition add_assets (assetElements : list t) (st : LoopState) : LoopState :=
  fold_left visit assetElements st.

End AssetElement.

(** ** Attribute parsers *)
Module Parse.

(** The values a property read on the [CSS_COLORS] object literal can give. *)
Inductive JSValue :=
| VUndefined
| VString (s : string)
| VFunction (name : string)
| VObject (name : string).

Definition truthy (v : JSValue) : bool :=
  match v with
  | VUndefined => false
  | VString EmptyString => false
  | _ => true
  end.

(** The own properties of [CSS_COLORS]. *)
Definition CSS_COLORS : gmap string string :=
  list_to_map [
  ("aliceblue", "#f0f8ff"); ("antiquewhite", "#faebd7"); ("aqua", "#00ffff");
  ("aquamarine", "#7fffd4"); ("azure", "#f0ffff"); ("beige", "#f5f5dc");
  ("bisque", "#ffe4c4"); ("black", "#000000"); ("blanchedalmond", "#ffebcd");
  ("blue", "#0000ff"); ("blueviolet", "#8a2be2"); ("brown", "#a52a2a");
  ("burlywood", "#deb887"); ("cadetblue", "#5f9ea0"); ("chartreuse", "#7fff00");
  ("chocolate", "#d2691e"); ("coral", "#ff7f50"); ("cornflowerblue", "#6495ed");
  ("cornsilk", "#fff8dc"); ("crimson", "#dc143c"); ("cyan", "#00ffff");
  ("darkblue", "#00008b"); ("darkcyan", "#008b8b"); ("darkgoldenrod", "#b8860b");
  ("darkgray", "#a9a9a9"); ("darkgreen", "#006400"); ("darkgrey", "#a9a9a9");
  ("darkkhaki", "#bdb76b"); ("darkmagenta", "#8b008b"); ("darkolivegreen", "#556b2f");
  ("darkorange", "#ff8c00"); ("darkorchid", "#9932cc"); ("darkred", "#8b0000");
  ("darksalmon", "#e9967a"); ("darkseagreen", "#8fbc8f"); ("darkslateblue", "#483d8b");
  ("darkslategray", "#2f4f4f"); ("darkslategrey", "#2f4f4f");
  ("darkturquoise", "#00ced1"); ("darkviolet", "#9400d3"); ("deeppink", "#ff1493");
  ("deepskyblue", "#00bfff"); ("dimgray", "#696969"); ("dimgrey", "#696969");
  ("dodgerblue", "#1e90ff"); ("firebrick", "#b22222"); ("floralwhite", "#fffaf0");
  ("forestgreen", "#228b22"); ("fuchsia", "#ff00ff"); ("gainsboro", "#dcdcdc");
  ("ghostwhite", "#f8f8ff"); ("gold", "#ffd700"); ("goldenrod", "#daa520");
  ("gray", "#808080"); ("green", "#008000"); ("greenyellow", "#adff2f");
  ("grey", "#808080"); ("honeydew", "#f0fff0"); ("hotpink", "#ff69b4");
  ("indianred", "#cd5c5c"); ("indigo", "#4b0082"); ("ivory", "#fffff0");
  ("khaki", "#f0e68c"); ("lavender", "#e6e6fa"); ("lavenderblush", "#fff0f5");
  ("lawngreen", "#7cfc00"); ("lemonchiffon", "#fffacd"); ("lightblue", "#add8e6");
  ("lightcoral", "#f08080"); ("lightcyan", "#e0ffff");
  ("lightgoldenrodyellow", "#fafad2"); ("lightgray", "#d3d3d3");
  ("lightgreen", "#90ee90"); ("lightgrey", "#d3d3d3"); ("lightpink", "#ffb6c1");
  ("lightsalmon", "#ffa07a"); ("lightseagreen", "#20b2aa"); ("lightskyblue", "#87cefa");
  ("lightslategray", "#778899"); ("lightslategrey", "#778899");
  ("lightsteelblue", "#b0c4de"); ("lightyellow", "#ffffe0"); ("lime", "#00ff00");
  ("limegreen", "#32cd32"); ("linen", "#faf0e6"); ("magenta", "#ff00ff");
  ("maroon", "#800000"); ("mediumaquamarine", "#66cdaa"); ("mediumblue", "#0000cd");
  ("mediumorchid", "#ba55d3"); ("mediumpurple", "#9370db");
  ("mediumseagreen", "#3cb371"); ("mediumslateblue", "#7b68ee");
  ("mediumspringgreen", "#00fa9a"); ("mediumturquoise", "#48d1cc");
  ("mediumvioletred", "#c71585"); ("midnightblue", "#191970"); ("mintcream", "#f5fffa");
  ("mistyrose", "#ffe4e1"); ("moccasin", "#ffe4b5"); ("navajowhite", "#ffdead");
  ("navy", "#000080"); ("oldlace", "#fdf5e6"); ("olive", "#808000");
  ("olivedrab", "#6b8e23"); ("orange", "#ffa500"); ("orangered", "#ff4500");
  ("orchid", "#da70d6"); ("palegoldenrod", "#eee8aa"); ("palegreen", "#98fb98");
  ("paleturquoise", "#afeeee"); ("palevioletred", "#db7093"); ("papayawhip", "#ffefd5");
  ("peachpuff", "#ffdab9"); ("peru", "#cd853f"); ("pink", "#ffc0cb");
  ("plum", "#dda0dd"); ("powderblue", "#b0e0e6"); ("purple", "#800080");
  ("rebeccapurple", "#663399"); ("red", "#ff0000"); ("rosybrown", "#bc8f8f");
  ("royalblue", "#4169e1"); ("saddlebrown", "#8b4513"); ("salmon", "#fa8072");
  ("sandybrown", "#f4a460"); ("seagreen", "#2e8b57"); ("seashell", "#fff5ee");
  ("sienna", "#a0522d"); ("silver", "#c0c0c0"); ("skyblue", "#87ceeb");
  ("slateblue", "#6a5acd"); ("slategray", "#708090"); ("slategrey", "#708090");
  ("snow", "#fffafa"); ("springgreen", "#00ff7f"); ("steelblue", "#4682b4");
  ("tan", "#d2b48c"); ("teal", "#008080"); ("thistle", "#d8bfd8"); ("tomato", "#ff6347");
  ("turquoise", "#40e0d0"); ("violet", "#ee82ee"); ("wheat", "#f5deb3");
  ("white", "#ffffff"); ("whitesmoke", "#f5f5f5"); ("yellow", "#ffff00");
  ("yellowgreen", "#9acd32")
  ].

(** [CSS_COLORS] is an object literal, so a property read that finds no own
    property goes on to [Object.prototype]. *)
Definition Object_prototype (key : string) : JSValue :=
  if JS.includes
       ["constructor"; "hasOwnProperty"; "isPrototypeOf"; "propertyIsEnumerable";
        "toLocaleString"; "toString"; "valueOf"; "__defineGetter__"; "__defineSetter__";
        "__lookupGetter__"; "__lookupSetter__"] key
  then VFunction key
  else if String.eqb key "__proto__" then VObject "Object.prototype"
  else VUndefined.

(** [CSS_COLORS[key]] *)
Definition CSS_COLORS_get (key : string) : JSValue :=
  match CSS_COLORS !! key with
  | Some hex => VString hex
  | None => Object_prototype key
  end.

Section Numbers.

(** JavaScript numbers and the built-in [Number] conversion. *)
Context {num : Type}.
Variable Number : string -> num.
Variable zero : num.

(** The engine call [parseColor] ends in, with its argument. *)
Inductive ColorCall :=
| Color_fromString (hex : JSValue)
| Color_new (components : list num).

(** [parseColor(value)] *)
Definition parseColor (value : string) : ColorCall :=
  let hexColor := CSS_COLORS_get (JS.toLowerCase value) in
  if truthy hexColor then Color_fromString hexColor
  else if JS.startsWith value "#" then Color_fromString (VString value)
  else Color_new (List.map Number (JS.split " " value)).

(** The spec's words for [parseColor]: a case-insensitive CSS
    colour-name lookup first, otherwise a hex string when the value starts
    with '#', otherwise the space-separated numeric components. *)
Definition parseColor_spec (value : string) : ColorCall :=
  match CSS_COLORS !! JS.toLowerCase value with
  | Some hex => Color_fromString (VString hex)
  | None =>
      if JS.startsWith value "#" then Color_fromString (VString value)
      else Color_new (List.map Number (JS.split " " value))
  end.

(** A field of a [Vec3]: a number, or whatever array was passed. *)
Inductive Field :=
| FNum (n : num)
| FArray (components : list num).

Record Vec3 := mkVec3 { x : Field; y : Field; z : Field }.

(** Modelled from the spec: the engine's [Vec3] class is imported from
    the engine package and is not part of this repository. Its constructor
    [Vec3(x = 0, y = 0, z = 0)], given an array of length 3, populates the
    three components from the array in order; given anything else it
    stores its arguments as they are. *)
Definition Vec3_new (components : list num) : Vec3 :=
  match components with
  | [c0; c1; c2] => mkVec3 (FNum c0) (FNum c1) (FNum c2)
  | _ => mkVec3 (FArray components) (FNum zero) (FNum zero)
  end.

(** [parseVec3(value)] *)
Definition parseVec3 (value : string) : Vec3 :=
  let components := List.map Number (JS.split " " value) in
  Vec3_new components.

End Numbers.

(** The characters of a decimal number literal: digits, a decimal point,
    a sign and an exponent marker. *)
Definition literal_char (c : ascii) : bool :=
  let n := nat_of_ascii c in
  ((Nat.leb 48 n && Nat.leb n 57) || Nat.eqb n 46 || Nat.eqb n 43 || Nat.eqb n 45
   || Nat.eqb n 101 || Nat.eqb n 69)%bool.

Fixpoint all_chars (p : ascii -> bool) (s : string) : bool :=
  match s with
  | EmptyString => true
  | String c rest => (p c && all_chars p rest)%bool
  end.

(** A non-empty string of literal characters; every decimal number
    literal is one. *)
Definition decimal_literal (s : string) : bool :=
  (negb (String.eqb s "") && all_chars literal_char s)%bool.

(** [Number] on unsigned digit strings, for running the parsers: the value
    of the digits, [None] standing for every other result. *)
Fixpoint digits_value (acc : N) (s : string) : option N :=
  match s with
  | EmptyString => Some acc
  | String c rest =>
      let n := nat_of_ascii c in
      if (Nat.leb 48 n && Nat.leb n 57)%bool
      then digits_value (acc * 10 + N.of_nat (n - 48)) rest
      else None
  end.

Definition digits_Number (s : string) : option N :=
  if String.eqb s "" then Some 0%N else digits_value 0%N s.

End Parse.

(** ** Asynchronous connection of a component element

    [connectedCallback] and [addComponent] of ComponentElement are async
    functions. Each invocation of [connectedCallback] is a task that is
    suspended at one of its [await]s; the event loop resumes a task once the
    promise it waits for has resolved. Other code (the app, the entities, the
    page's scripts) runs between the resumptions: it resolves readiness
    promises and changes the document. *)
Module Async.

Definition elem := positive.

(** What a task reads from the document and the engine when it runs. *)
Record Env := mkEnv {
  (** [this.parentElement?.closest('pc-app')] *)
  closestApp : elem -> option elem;
  (** [this.parentElement?.closest('pc-entity')] *)
  closestEntity : elem -> option elem;
  (** the [entity] field of an entity element *)
  entity : elem -> option loc;
  (** whether [getInitialComponentData()] throws for the element *)
  initialDataThrows : elem -> bool;
  (** what the engine's [entity.addComponent(name, data)] returns *)
  addComponentResult : loc -> string -> option loc;
  (** whether the engine component has a [_text._material] *)
  hasTextMaterial : loc -> bool
}.

(** Where a [connectedCallback] task is suspended. *)
Inductive pc :=
| AwaitApp (app : option elem)   (* await this.closestApp?.ready() *)
| AwaitEntity (e : elem)         (* inside addComponent: await entityElement.ready() *)
| AwaitAddComponent              (* await this.addComponent(), its promise fulfilled *)
| Completed
| Rejected.

Inductive Event :=
| EvAwaitApp (task : nat) (el : elem) (app : option elem)
| EvAwaitEntity (task : nat) (el : elem) (e : elem)
| EvAddComponent (task : nat) (el : elem) (e : elem) (ent : loc) (name : string)
| EvReady (el : elem).

Record State := mkState {
  env : Env;
  (** the elements whose [_onReady] has run: their promise is resolved *)
  readied : gset elem;
  (** the [_component] field of the component elements ([null] when absent) *)
  components : gmap elem loc;
  (** one task per [connectedCallback] invocation, in order of invocation *)
  tasks : list (elem * pc);
  trace : list Event
}.

Definition init (v : Env) (ready0 : gset elem) : State :=
  mkState v ready0 ∅ [] [].

Inductive Action :=
| Connect (el : elem)      (* the browser connects a component element *)
| Resume (task : nat)      (* the event loop resumes a suspended task *)
| OnReady (x : elem)       (* some element runs its _onReady() *)
| Mutate (v : Env).        (* the document or the engine objects change *)

Definition emit (ev : Event) (s : State) : State :=
  mkState (env s) (readied s) (components s) (tasks s) (trace s ++ [ev]).

Definition set_pc (i : nat) (el : elem) (p : pc) (s : State) : State :=
  mkState (env s) (readied s) (components s) (<[i := (el, p)]> (tasks s)) (trace s).

(** [_onReady()]: resolve the readiness promise and dispatch 'ready'. *)
Definition _onReady (x : elem) (s : State) : State :=
  emit (EvReady x) (mkState (env s) ({[x]} ∪ readied s) (components s) (tasks s) (trace s)).

Definition set_component (el : elem) (c : option loc) (s : State) : State :=
  let cs := match c with
            | Some l => <[el := l]> (components s)
            | None => delete el (components s)
            end in
  mkState (env s) (readied s) cs (tasks s) (trace s).

Section Kinds.

(** The class of each component element. *)
Variable kindOf : elem -> ComponentKind.

(** [initComponent()]: [false] when it throws. The element component
    runs [this.component._text._material.useFog = true]; the script
    component creates its child scripts through [createScript], which
    returns at once when [this.component] is null; the other classes
    inherit the empty method. *)
Definition initComponent (el : elem) (s : State) : bool :=
  match kindOf el with
  | ElementComponent =>
      match components s !! el with
      | Some c => hasTextMaterial (env s) c
      | None => false
      end
  | _ => true
  end.

(** [connectedCallback()] up to its first [await]. *)
Definition connectedCallback (el : elem) (s : State) : State :=
  let i := length (tasks s) in
  let app := closestApp (env s) el in
  emit (EvAwaitApp i el app)
    (mkState (env s) (readied s) (components s)
             (tasks s ++ [(el, AwaitApp app)]) (trace s)).

(** The promise a suspended task waits for has resolved. *)
Definition enabled (p : pc) (s : State) : bool :=
  match p with
  | AwaitApp (Some a) => bool_decide (a ∈ readied s)
  | AwaitApp None => true
  | AwaitEntity e => bool_decide (e ∈ readied s)
  | AwaitAddComponent => true
  | Completed | Rejected => false
  end.

(** One resumption of task [i]: it runs to its next [await], to its end
    or to an exception. *)
Definition resume (i : nat) (s : State) : State :=
  match tasks s !! i with
  | None => s
  | Some (el, p) =>
      if negb (enabled p s) then s else
      match p with
      | AwaitApp _ =>
          (* addComponent(): const entityElement = this.closestEntity; *)
          match closestEntity (env s) el with
          | Some e => emit (EvAwaitEntity i el e) (set_pc i el (AwaitEntity e) s)
          | None => set_pc i el AwaitAddComponent s
          end
      | AwaitEntity e =>
          (* const data = this.getInitialComponentData();
             this._component = entityElement.entity.addComponent(name, data); *)
          if initialDataThrows (env s) el then set_pc i el Rejected s
          else match entity (env s) e with
               | None => set_pc i el Rejected s
               | Some ent =>
                   let name := componentName (kindOf el) in
                   let c := addComponentResult (env s) ent name in
                   set_pc i el AwaitAddComponent
                     (set_component el c (emit (EvAddComponent i el e ent name) s))
               end
      | AwaitAddComponent =>
          (* this.initComponent(); this._onReady(); *)
          if initComponent el s
          then set_pc i el Completed (_onReady el s)
          else set_pc i el Rejected s
      | Completed | Rejected => s
      end
  end.

Definition exec (s : State) (a : Action) : State :=
  match a with
  | Connect el => connectedCallback el s
  | Resume i => resume i s
  | OnReady x => _onReady x s
  | Mutate v => mkState v (readied s) (components s) (tasks s) (trace s)
  end.

Definition run (acts : list Action) (s : State) : State := fold_left exec acts s.

End Kinds.

(** The promise of [x] was resolved before position [n] of the trace:
    at the start already, or by an earlier [_onReady]. *)
Definition resolved_before (ready0 : gset elem) (tr : list Event) (n : nat) (x : elem) : Prop :=
  x ∈ ready0 \/ exists j, j < n /\ tr !! j = Some (EvReady x).

(** What C1 says of the [EvAddComponent] at position [n] of a trace: the
    task awaited the app's readiness first (position [k]) and the entity's
    readiness second (position [m]); the app's promise, when there is an
    app, was resolved before the second await began, and the entity's
    promise before the component was added. *)
Definition added_after_both (ready0 : gset elem) (tr : list Event)
    (n i : nat) (el e : elem) : Prop :=
  exists k m app,
    k < m /\ m < n /\
    tr !! k = Some (EvAwaitApp i el app) /\
    tr !! m = Some (EvAwaitEntity i el e) /\
    (forall a, app = Some a -> resolved_before ready0 tr m a) /\
    resolved_before ready0 tr n e.

(** What the trace holds about a suspended task. *)
Definition task_inv (ready0 : gset elem) (tr : list Event) (i : nat) (el : elem) (p : pc) : Prop :=
  match p with
  | AwaitApp app => exists k, tr !! k = Some (EvAwaitApp i el app)
  | AwaitEntity e =>
      exists k m app,
        k < m /\
        tr !! k = Some (EvAwaitApp i el app) /\
        tr !! m = Some (EvAwaitEntity i el e) /\
        (forall a, app = Some a -> resolved_before ready0 tr m a)
  | _ => True
  end.

Record invariant (ready0 : gset elem) (s : State) : Prop := mkInvariant {
  inv_ready : forall x, x ∈ readied s -> resolved_before ready0 (trace s) (length (trace s)) x;
  inv_tasks : forall i el p, tasks s !! i = Some (el, p) -> task_inv ready0 (trace s) i el p;
  inv_added : forall n i el e ent name,
      trace s !! n = Some (EvAddComponent i el e ent name) ->
      added_after_both ready0 (trace s) n i el e
}.

(** *** The steps of a run

    What a task awaits is read from the document when the task reaches the
    [await], and the document may change between two steps; the steps of a
    run are therefore named by their number in the list of actions. *)
Section History.

Variable kindOf : elem -> ComponentKind.
Variable v : Env.
Variable ready0 : gset elem.
Variable acts : list Action.

(** The state in which action number [k] is executed. *)
Definition before (k : nat) : State := run kindOf (take k acts) (init v ready0).

(** The position in the trace of the event that action number [k] emits. *)
Definition position (k : nat) : nat := length (trace (before k)).

(** Action [k] connects [el]: the [connectedCallback] that starts is task
    [i], and it awaits the readiness of [app], which is
    [this.closestApp] as the document is at that moment. *)
Definition connected_at (k i : nat) (el : elem) (app : option elem) : Prop :=
  acts !! k = Some (Connect el) /\
  i = length (tasks (before k)) /\
  app = closestApp (env (before k)) el.

(** Action [k] resumes task [i] of [el] from its await of [app], whose
    promise is resolved at that moment; [addComponent()] starts and awaits
    the readiness of [e], which is [this.closestEntity] as the document is
    at that moment. *)
Definition app_awaited_at (k i : nat) (el : elem) (app : option elem) (e : elem) : Prop :=
  acts !! k = Some (Resume i) /\
  tasks (before k) !! i = Some (el, AwaitApp app) /\
  (forall a, app = Some a -> a ∈ readied (before k)) /\
  closestEntity (env (before k)) el = Some e.

(** Action [k] resumes task [i] of [el] from its await of [e], whose
    promise is resolved at that moment; [ent] is [entityElement.entity] at
    that moment, the entity on which [addComponent] is called. *)
Definition entity_awaited_at (k i : nat) (el e : elem) (ent : loc) : Prop :=
  acts !! k = Some (Resume i) /\
  tasks (before k) !! i = Some (el, AwaitEntity e) /\
  e ∈ readied (before k) /\
  entity (env (before k)) e = Some ent.

(** The steps behind a suspended task. *)
Definition task_hist (i : nat) (el : elem) (p : pc) : Prop :=
  match p with
  | AwaitApp app => exists ka, ka < length acts /\ connected_at ka i el app
  | AwaitEntity e =>
      exists ka ke app,
        ka < ke /\ ke < length acts /\
        connected_at ka i el app /\ app_awaited_at ke i el app e
  | _ => True
  end.

(** The steps behind the [EvAddComponent] at position [n] of the trace:
    the connection of the element, the resumption after the app's
    readiness and the resumption after the entity's readiness, in this
    order; the last one makes the call. *)
Definition added_hist (n i : nat) (el e : elem) (ent : loc) (name : string) : Prop :=
  exists ka ke kn app,
    ka < ke /\ ke < kn /\ kn < length acts /\
    connected_at ka i el app /\
    app_awaited_at ke i el app e /\
    entity_awaited_at kn i el e ent /\
    name = componentName (kindOf el) /\
    n = position kn.

Definition history : Prop :=
  (forall i el p,
      tasks (run kindOf acts (init v ready0)) !! i = Some (el, p) -> task_hist i el p) /\
  (forall n i el e ent name,
      trace (run kindOf acts (init v ready0)) !! n = Some (EvAddComponent i el e ent name) ->
      added_hist n i el e ent name).

(** What C1 says of the [EvAddComponent] at position [n] of the trace of
    the run: it was made by a [connectedCallback] of [el] (action [ka])
    that awaited the readiness of the closest pc-app of [el], was resumed
    (action [ke]) when that promise was resolved, then awaited the
    readiness of the closest pc-entity [e] of [el], and was resumed again
    (action [kn]) when that promise was resolved; this last step calls
    [addComponent] with the component name of the element's class on the
    entity of [e]. The three events are in the trace in this order, and
    the readiness events of the app and of the entity element come before
    the second await and before the call. *)
Definition added_by_connection (n i : nat) (el e : elem) (ent : loc) (name : string) : Prop :=
  exists ka ke kn app,
    ka < ke /\ ke < kn /\ kn < length acts /\
    connected_at ka i el app /\
    app_awaited_at ke i el app e /\
    entity_awaited_at kn i el e ent /\
    name = componentName (kindOf el) /\
    n = position kn /\
    position ka < position ke /\ position ke < n /\
    trace (run kindOf acts (init v ready0)) !! position ka = Some (EvAwaitApp i el app) /\
    trace (run kindOf acts (init v ready0)) !! position ke = Some (EvAwaitEntity i el e) /\
    (forall a, app = Some a ->
       resolved_before ready0 (trace (run kindOf acts (init v ready0))) (position ke) a) /\
    resolved_before ready0 (trace (run kindOf acts (init v ready0))) n e.

End History.

End Async.

(** ** Entity creation and hierarchy building in AppElement.connectedCallback *)
Module Hierarchy.

(** The subtree of the app element. An element is identified by its path
    from the app element: the child indices, outermost first. *)
#[local] Unset Elimination Schemes.
Inductive Node := El (tag : string) (children : list Node).
#[local] Set Elimination Schemes.

Definition path := list nat.

Definition tag_of (n : Node) : string := match n with El tag _ => tag end.
Definition children_of (n : Node) : list Node := match n with El _ kids => kids end.

(** The element at a path below a list of sibling nodes. *)
Fixpoint node_at (forest : list Node) (p : path) : option Node :=
  match p with
  | [] => None
  | i :: rest =>
      match nth_error forest i with
      | Some n => match rest with
                  | [] => Some n
                  | _ => node_at (children_of n) rest
                  end
      | None => None
      end
  end.

Definition has_tag (forest : list Node) (sel : string) (p : path) : bool :=
  match node_at forest p with
  | Some n => String.eqb (tag_of n) sel
  | None => false
  end.

(** The elements with tag [sel] in the subtree of [n], [n] included, in
    document order, as paths relative to [n]. *)
Fixpoint select (sel : string) (n : Node) : list path :=
  match n with
  | El tag kids =>
      (if String.eqb tag sel then [[]] else []) ++
      (fix below (l : list Node) (i : nat) : list path :=
         match l with
         | [] => []
         | k :: rest => List.map (cons i) (select sel k) ++ below rest (S i)
         end) kids 0
  end.

Fixpoint select_forest (sel : string) (l : list Node) (i : nat) : list path :=
  match l with
  | [] => []
  | k :: rest => List.map (cons i) (select sel k) ++ select_forest sel rest (S i)
  end.

(** [this.querySelectorAll(sel)] on the app element: its descendants with
    tag [sel], in document order. *)
Definition querySelectorAll (forest : list Node) (sel : string) : list path :=
  select_forest sel forest 0.

(** [element.closest(sel)] inside the app's subtree, on a path written
    innermost first: the element itself if it has the tag, otherwise the
    same question for its parent; [None] once the walk reaches the app
    element. *)
Fixpoint closest (forest : list Node) (sel : string) (rp : list nat) : option path :=
  match rp with
  | [] => None
  | _ :: up =>
      if has_tag forest sel (rev rp) then Some (rev rp) else closest forest sel up
  end.

(** An engine entity: one made by [createEntity] of an element during this
    callback, or one that existed before. *)
Inductive EntityObj :=
| NewEntity (creator : path)
| OtherEntity (l : loc).

Inductive Target :=
| AppRoot
| Entity (e : EntityObj).

Inductive Event :=
| EvCreate (el : path)
| EvAddChild (parent : Target) (child : EntityObj)
| EvReady (el : path).

Record State := mkState {
  (** the [entity] field of the entity elements ([null] when absent) *)
  entityOf : gmap path EntityObj;
  trace : list Event
}.

Section App.

Variable forest : list Node.

(** [closestEntity?.entity] for a walk that leaves the app's subtree:
    the entity of the closest pc-entity element above the app element,
    when there is such an element and it has an entity. *)
Variable outerEntity : option EntityObj.

(** [closestEntity?.entity] of the element at path [p]. *)
Definition closestEntity_entity (p : path) (s : State) : option EntityObj :=
  match closest forest "pc-entity" (tl (rev p)) with
  | Some q => entityOf s !! q
  | None => outerEntity
  end.

(** The parent that the entity of the element at [p] is to get: the
    new entity of its closest ancestor pc-entity element in the app's
    subtree; without one, what [closestEntity?.entity] gives outside the
    subtree, and the application root when that is nothing. *)
Definition expected_parent (p : path) : Target :=
  match closest forest "pc-entity" (tl (rev p)) with
  | Some q => Entity (NewEntity q)
  | None => match outerEntity with
            | Some o => Entity o
            | None => AppRoot
            end
  end.

(** What [buildHierarchy] of the element at [p] adds to the trace. *)
Definition attach_events (p : path) : list Event :=
  [EvAddChild (expected_parent p) (NewEntity p); EvReady p].

(** [createEntity(app)]: [this.entity = new Entity(name, app)]; the
    attribute-driven calls that follow act on the new entity only. *)
Definition createEntity (s : State) (p : path) : State :=
  mkState (<[p := NewEntity p]> (entityOf s)) (trace s ++ [EvCreate p]).

(** [buildHierarchy(app)] *)
Definition buildHierarchy (s : State) (p : path) : State :=
  match entityOf s !! p with
  | None => s
  | Some ent =>
      let parent := match closestEntity_entity p s with
                    | Some pe => Entity pe
                    | None => AppRoot
                    end in
      mkState (entityOf s) (trace s ++ [EvAddChild parent ent; EvReady p])
  end.

(** The entity part of [AppElement.connectedCallback]:
      const entityElements = this.querySelectorAll('pc-entity');
      Array.from(entityElements).forEach(e => e.createEntity(this.app));
      entityElements.forEach(e => e.buildHierarchy(this.app)); *)
Definition connect_entities (s : State) : State :=
  let entityElements := querySelectorAll forest "pc-entity" in
  let s1 := fold_left createEntity entityElements s in
  fold_left buildHierarchy entityElements s1.

End App.

(** [q] is a proper ancestor of [p]. *)
Definition ancestor (q p : path) : Prop := exists rest, rest <> [] /\ p = q ++ rest.

(** [x] occurs before [y] in [l]. *)
Definition before {A : Type} (x y : A) (l : list A) : Prop :=
  exists l1 l2 l3, l = l1 ++ x :: l2 ++ y :: l3.

End Hierarchy.

(** ** The viewer script: wheel zoom of FrameScene

    Numbers are doubles in the script. Finite doubles are rationals, and
    every arithmetic result is rounded to a double: the rounding is the
    function [fl], about which nothing is assumed. The wheel event's
    [deltaY] and the bounding box's extent are finite numbers. *)
Module FrameScene.

Local Open Scope Q_scope.

Definition Math_min (a b : Q) : Q := if Qle_bool a b then a else b.
Definition Math_max (a b : Q) : Q := if Qle_bool a b then b else a.

(** [Math.sign] *)
Definition Math_sign (v : Q) : Q :=
  match Qcompare v 0 with
  | Lt => -1
  | Eq => 0
  | Gt => 1
  end.

Record Vec3 := mkVec3 { vx : Q; vy : Q; vz : Q }.

(** The fields of the script that [initialize] adds for the wheel and
    [handleWheel] uses, and the [renderNextFrame] flag of the app. *)
Record t := mk {
  zoomSpeed : Q;
  minDistance : Q;
  maxDistance : Q;
  targetDistance : option Q;
  currentDistance : option Q;
  targetPosition : option Vec3;
  isWheelActive : bool;
  renderNextFrame : bool
}.

(** What [handleWheel] reads from outside the script: [event.deltaY] and
    the bounding box of the splat ([halfExtents.length()] and [center]),
    when the scene has one. *)
Record WheelInput := mkInput {
  deltaY : Q;
  aabb : option (Q * Vec3)
}.

Section Doubles.

Variable fl : Q -> Q.

(** The wheel part of [initialize()]. *)
Definition initialize (renderNextFrame0 : bool) : t :=
  mk (fl (15 # 100)) (1 # 2) 50 None None None false renderNextFrame0.

(** [handleWheel(event)] *)
Definition handleWheel (s : t) (ev : WheelInput) : t :=
  let s1 :=
    match targetDistance s with
    | None =>
        match aabb ev with
        | Some (sceneSize, center) =>
            let d := fl (sceneSize * 2) in
            mk (zoomSpeed s) (minDistance s) (maxDistance s) (Some d) (Some d)
               (Some center) (isWheelActive s) (renderNextFrame s)
        | None =>
            mk (zoomSpeed s) (minDistance s) (maxDistance s) (Some 5) (Some 5)
               (Some (mkVec3 0 0 0)) (isWheelActive s) (renderNextFrame s)
        end
    | Some _ => s
    end in
  let delta := fl (- Math_sign (deltaY ev) * zoomSpeed s1) in
  let target :=
    match targetDistance s1 with
    | Some d =>
        Some (Math_max (minDistance s1)
                (Math_min (maxDistance s1) (fl (d * fl (1 - delta)))))
    | None => None
    end in
  (* this.cancelAnimation is never assigned: the call is skipped *)
  mk (zoomSpeed s1) (minDistance s1) (maxDistance s1) target (currentDistance s1)
     (targetPosition s1) true true.

(** A sequence of wheel events after [initialize]. *)
Definition wheels (events : list WheelInput) (s : t) : t := fold_left handleWheel events s.

End Doubles.

(** The bounds are set once by [initialize] and never written again. *)
Definition bounds_set (s : t) : Prop :=
  minDistance s = 1 # 2 /\ maxDistance s = 50.

(** [d] lies in the closed interval from 0.5 to 50. *)
Definition in_zoom_range (d : option Q) : Prop :=
  exists q, d = Some q /\ 1 # 2 <= q /\ q <= 50.

End FrameScene.

(** ** The viewer script: entering and leaving immersive AR *)
Module XR.

Local Open Scope Q_scope.

Record Color := mkColor { r : Q; g : Q; b : Q; a : Q }.

(** What the sky element's [type] setter reaches in the scene, once the
    skybox is loaded. *)
Record SkyScene := mkSkyScene {
  scene_sky_type : option string;
  layer_enabled : bool
}.

(** The pc-sky element: its [type] markup attribute, its [_type] field
    (a string, or [null] once the attribute was removed) and its scene. *)
Record Sky := mkSky {
  type_attribute : option string;
  _type : option string;
  _scene : option SkyScene
}.

(** [set type(value)] of SkyElement *)
Definition set_type (value : option string) (sky : Sky) : Sky :=
  mkSky (type_attribute sky) value
        (match _scene sky with
         | Some _ => Some (mkSkyScene value (JS.neq_literal value "none"))
         | None => None
         end).

(** [get type()] of SkyElement *)
Definition type (sky : Sky) : option string := _type sky.

(** [sky.removeAttribute('type')]: when the attribute is present it is
    removed and [attributeChangedCallback('type', old, null)] runs
    [this.type = newValue]; when it is absent nothing happens. *)
Definition removeAttribute_type (sky : Sky) : Sky :=
  match type_attribute sky with
  | Some _ => set_type None (mkSky None (_type sky) (_scene sky))
  | None => sky
  end.

Record State := mkState {
  (** [app.xr.type] *)
  xr_type : option string;
  (** [app.xr.camera] *)
  xr_camera : loc;
  (** [camera.clearColor] of each camera entity; the engine's setter
      copies the colour it is given *)
  camera_clearColor : gmap loc Color;
  (** [document.querySelector('pc-sky')] *)
  sky : option Sky;
  (** [app.autoRender] *)
  autoRender : bool;
  (** the handlers' variables [cameraEntity], [skyType], [clearColor] *)
  cameraEntity : option loc;
  skyType : option string;
  clearColor : Color
}.

(** The variables as declared: [let cameraEntity, skyType = null;
    const clearColor = new pc.Color();] *)
Definition declare (xr_type0 : option string) (cam : loc) (colors : gmap loc Color)
    (sky0 : option Sky) (autoRender0 : bool) : State :=
  mkState xr_type0 cam colors sky0 autoRender0 None None (mkColor 0 0 0 1).

Definition is_immersive_ar (s : State) : bool :=
  match xr_type s with
  | Some ty => String.eqb ty "immersive-ar"
  | None => false
  end.

(** [app.xr.on('start', ...)]; [None] when the handler throws. *)
Definition on_start (s : State) : option State :=
  if is_immersive_ar s then
    let cam := xr_camera s in
    match camera_clearColor s !! cam with
    | None => None
    | Some col =>
        let colors := <[cam := mkColor 0 0 0 0]> (camera_clearColor s) in
        let '(sky', skyType') :=
          match sky s with
          | Some sk =>
              if JS.neq_literal (type sk) "none"
              then (Some (set_type (Some "none") sk), type sk)
              else (Some sk, skyType s)
          | None => (None, skyType s)
          end in
        Some (mkState (xr_type s) (xr_camera s) colors sky' true
                      (Some cam) skyType' col)
    end
  else Some s.

(** [app.xr.on('end', ...)]; [None] when the handler throws. *)
Definition on_end (s : State) : option State :=
  if is_immersive_ar s then
    match cameraEntity s with
    | None => None
    | Some cam =>
        match camera_clearColor s !! cam with
        | None => None
        | Some _ =>
            let colors := <[cam := clearColor s]> (camera_clearColor s) in
            let '(sky', skyType') :=
              match sky s with
              | Some sk =>
                  if JS.truthy (skyType s)
                  then (Some (set_type (skyType s) sk), None)
                  else (Some (removeAttribute_type sk), skyType s)
              | None => (None, skyType s)
              end in
            Some (mkState (xr_type s) (xr_camera s) colors sky' false
                          (cameraEntity s) skyType' (clearColor s))
        end
    end
  else Some s.

(** Entering and then leaving. *)
Definition round_trip (s : State) : option State :=
  match on_start s with
  | Some s1 => on_end s1
  | None => None
  end.

Definition sky_type (s : State) : option (option string) := type <$> sky s.

End XR.

(** ** More of the attribute parsers *)
Module ParseMore.

(** How often a character occurs in a string. *)
Fixpoint count (c : ascii) (s : string) : nat :=
  match s with
  | EmptyString => 0
  | String d rest => (if Ascii.eqb d c then 1 else 0) + count c rest
  end.

Section Numbers.

Context {num : Type}.
Variable Number : string -> num.

(** The engine call [parseQuat] ends in; an argument that the
    destructuring leaves [undefined] is [None]. *)
Inductive QuatCall :=
| Quat_setFromEulerAngles (x y z : option num).

(** [parseQuat(value)]:
      const [x, y, z] = value.split(' ').map(Number);
      const q = new Quat();
      q.setFromEulerAngles(x, y, z); *)
Definition parseQuat (value : string) : QuatCall :=
  let components := List.map Number (JS.split " " value) in
  Quat_setFromEulerAngles (nth_error components 0) (nth_error components 1)
    (nth_error components 2).

End Numbers.

End ParseMore.

(** ** The life of a pc-asset element *)
Module AssetOps.

(** The element, the assets it has unloaded, and the console. *)
Record State := mkState {
  element : AssetElement.t;
  unloaded : list AssetElement.Asset;
  console : list string
}.

(** [new AssetElement()] with the attributes of the markup. *)
Definition constructor (attrs : gmap string string) : State :=
  mkState (AssetElement.mk attrs false None) [] [].

(** [createAsset()] *)
Definition createAsset (s : State) : State :=
  let '(el, c) := AssetElement.createAsset (element s) (console s) in
  mkState el (unloaded s) c.

(** [destroyAsset()]:
      if (this.asset) { this.asset.unload(); this.asset = null; } *)
Definition destroyAsset (s : State) : State :=
  match AssetElement.asset (element s) with
  | Some a =>
      mkState (AssetElement.mk (AssetElement.attributes (element s))
                 (AssetElement._lazy (element s)) None)
              (unloaded s ++ [a]) (console s)
  | None => s
  end.

(** [disconnectedCallback()] *)
Definition disconnectedCallback (s : State) : State := destroyAsset s.

(** [set lazy(value)]:
      this._lazy = value;
      if (this.asset) { this.asset.preload = !value; } *)
Definition set_lazy (value : bool) (s : State) : State :=
  let el := element s in
  let asset' :=
    match AssetElement.asset el with
    | Some a =>
        Some (AssetElement.mkAsset (AssetElement.asset_name a) (AssetElement.asset_type a)
                (AssetElement.asset_url a) (negb value))
    | None => None
    end in
  mkState (AssetElement.mk (AssetElement.attributes el) value asset') (unloaded s) (console s).

(** [this.hasAttribute(name)] *)
Definition hasAttribute (name : string) (s : State) : bool :=
  bool_decide (is_Some (AssetElement.attributes (element s) !! name)).

(** [attributeChangedCallback(name, _oldValue, _newValue)]:
      if (name === 'lazy') { this.lazy = this.hasAttribute('lazy'); } *)
Definition attributeChangedCallback (name : string) (s : State) : State :=
  if String.eqb name "lazy" then set_lazy (hasAttribute "lazy" s) s else s.

Definition with_attributes (attrs : gmap string string) (s : State) : State :=
  mkState (AssetElement.mk attrs (AssetElement._lazy (element s))
             (AssetElement.asset (element s)))
          (unloaded s) (console s).

(** [observedAttributes] is ['lazy']. *)
Definition observed (name : string) : bool := String.eqb name "lazy".

(** [element.setAttribute(name, value)]: the attribute is set and, the
    name being observed, the callback runs. *)
Definition setAttribute (name value : string) (s : State) : State :=
  let s1 := with_attributes (<[name := value]> (AssetElement.attributes (element s))) s in
  if observed name then attributeChangedCallback name s1 else s1.

(** [element.removeAttribute(name)]: nothing happens when the attribute is
    absent. *)
Definition removeAttribute (name : string) (s : State) : State :=
  match AssetElement.attributes (element s) !! name with
  | Some _ =>
      let s1 := with_attributes (delete name (AssetElement.attributes (element s))) s in
      if observed name then attributeChangedCallback name s1 else s1
  | None => s
  end.

Inductive Op :=
| OpCreateAsset
| OpDestroyAsset
| OpDisconnect
| OpSetLazy (value : bool)
| OpSetAttribute (name value : string)
| OpRemoveAttribute (name : string).

Definition step (s : State) (op : Op) : State :=
  match op with
  | OpCreateAsset => createAsset s
  | OpDestroyAsset => destroyAsset s
  | OpDisconnect => disconnectedCallback s
  | OpSetLazy v => set_lazy v s
  | OpSetAttribute n v => setAttribute n v s
  | OpRemoveAttribute n => removeAttribute n s
  end.

Definition run (ops : list Op) (s : State) : State := fold_left step ops s.

(** The asset, when there is one, is preloaded exactly when the element
    is not lazy. *)
Definition preload_matches_lazy (s : State) : Prop :=
  forall a, AssetElement.asset (element s) = Some a ->
            AssetElement.asset_preload a = negb (AssetElement._lazy (element s)).

End AssetOps.

(** ** Assignments to a light's type *)
Module LightOps.

(** [light.type = v] for each [v] of a list, in order. *)
Definition assign_types (values : list string) (el : LightComponentElement.t) (w : World)
  : LightComponentElement.t * World :=
  fold_left (fun st v => LightComponentElement.set_type v (fst st) (snd st)) values (el, w).

(** The element's type is one of the three light types and, when the
    engine component exists, it has the same type. *)
Definition type_valid_and_synced (el : LightComponentElement.t) (w : World) : Prop :=
  In (LightComponentElement._type el) LightComponentElement.light_types /\
  forall c, ComponentElement.component (LightComponentElement.base el) = Some c ->
            exists obj, heap w !! c = Some obj /\ comp_type obj = LightComponentElement._type el.

End LightOps.

(** ** Pointer listeners of entities and the app's canvas handlers

    The five pointer event types that the entity and app elements handle
    are the domain here; listeners and bound handlers are told apart by a
    number. An absent [_listeners[type]] and an empty array are the same to
    the three entity methods and are both the empty list. *)
Module Pointer.

Inductive PointerType :=
| pointermove | pointerdown | pointerup | pointerenter | pointerleave.

#[global] Instance PointerType_eq_dec : EqDecision PointerType.
Proof. solve_decision. Defined.

Definition listener := nat.
Definition handler := nat.

(** The [_listeners] field of an entity element. *)
Definition EntityListeners := PointerType -> list listener.

Definition no_listeners : EntityListeners := fun _ => [].

(** [hasListeners(type)]: [Boolean(this._listeners[type]?.length)] *)
Definition hasListeners (t : PointerType) (e : EntityListeners) : bool :=
  match e t with
  | [] => false
  | _ :: _ => true
  end.

(** The [_listeners] update of [addEventListener(type, listener)]. *)
Definition push_listener (t : PointerType) (l : listener) (e : EntityListeners)
  : EntityListeners :=
  fun t' => if decide (t' = t) then e t ++ [l] else e t'.

(** The [_listeners] update of [removeEventListener(type, listener)]:
    [this._listeners[type].filter(l => l !== listener)]. *)
Definition drop_listener (t : PointerType) (l : listener) (e : EntityListeners)
  : EntityListeners :=
  fun t' => if decide (t' = t)
            then List.filter (fun l' => negb (Nat.eqb l' l)) (e t)
            else e t'.

(** The listeners attached to a canvas: pairs of an event type and a
    handler; attaching a pair twice leaves one. *)
Definition Canvas := list (PointerType * handler).

Definition canvas_add (t : PointerType) (h : handler) (c : Canvas) : Canvas :=
  if decide ((t, h) ∈ c) then c else c ++ [(t, h)].

Definition canvas_remove (t : PointerType) (h : handler) (c : Canvas) : Canvas :=
  List.filter (fun p => negb (bool_decide (p = (t, h)))) c.

(** The [_hasPointerListeners] object: one flag per pointer type. *)
Record Flags := mkFlags {
  flag_enter : bool;
  flag_leave : bool;
  flag_down : bool;
  flag_up : bool;
  flag_move : bool
}.

Definition get_flag (t : PointerType) (f : Flags) : bool :=
  match t with
  | pointerenter => flag_enter f
  | pointerleave => flag_leave f
  | pointerdown => flag_down f
  | pointerup => flag_up f
  | pointermove => flag_move f
  end.

Definition put_flag (t : PointerType) (v : bool) (f : Flags) : Flags :=
  match t with
  | pointerenter => mkFlags v (flag_leave f) (flag_down f) (flag_up f) (flag_move f)
  | pointerleave => mkFlags (flag_enter f) v (flag_down f) (flag_up f) (flag_move f)
  | pointerdown => mkFlags (flag_enter f) (flag_leave f) v (flag_up f) (flag_move f)
  | pointerup => mkFlags (flag_enter f) (flag_leave f) (flag_down f) v (flag_move f)
  | pointermove => mkFlags (flag_enter f) (flag_leave f) (flag_down f) (flag_up f) v
  end.

Record App := mkApp {
  _canvas : option Canvas;
  _picker : bool;
  _hasPointerListeners : Flags;
  (** [_pointerHandlers.pointermove], [.pointerdown], [.pointerup] *)
  handler_move : option handler;
  handler_down : option handler;
  handler_up : option handler;
  (** how many times [_pickerCreate] has registered the app's listeners for
      the ':connect' and ':disconnect' events (they are never removed) *)
  registrations : nat;
  (** the next fresh handler identity *)
  next_handler : handler
}.

(** [new AppElement()] *)
Definition constructor : App :=
  mkApp None false (mkFlags false false false false false) None None None 0 0.

(** The canvas event type a pointer type is served by:
    [type === 'pointerenter' || type === 'pointerleave' ? 'pointermove' : type] *)
Definition canvas_type (t : PointerType) : PointerType :=
  match t with
  | pointerenter | pointerleave => pointermove
  | _ => t
  end.

(** [this._pointerHandlers[type]] for the three canvas event types. *)
Definition pointerHandler (t : PointerType) (a : App) : option handler :=
  match t with
  | pointermove => handler_move a
  | pointerdown => handler_down a
  | pointerup => handler_up a
  | _ => None
  end.

(** The handler [_onPointerListenerAdded] and [_onPointerListenerRemoved]
    pick: the move handler for enter and leave, otherwise the type's own. *)
Definition handler_for (t : PointerType) (a : App) : option handler :=
  pointerHandler (canvas_type t) a.

Definition set_flag (t : PointerType) (v : bool) (a : App) : Flags :=
  put_flag t v (_hasPointerListeners a).

(** [_pickerCreate()] *)
Definition _pickerCreate (a : App) : App :=
  let h := next_handler a in
  mkApp (_canvas a) true (_hasPointerListeners a)
        (Some h) (Some (S h)) (Some (S (S h)))
        (S (registrations a)) (S (S (S h))).

(** [_pickerDestroy()] *)
Definition _pickerDestroy (a : App) : App :=
  let detach (t : PointerType) (h : option handler) (c : Canvas) : Canvas :=
    match h with
    | Some h' => canvas_remove t h' c
    | None => c
    end in
  let canvas' :=
    match _canvas a with
    | Some c =>
        Some (detach pointerup (handler_up a)
                (detach pointerdown (handler_down a)
                   (detach pointermove (handler_move a) c)))
    | None => None
    end in
  mkApp canvas' false (_hasPointerListeners a) None None None
        (registrations a) (next_handler a).

(** The picker part of [connectedCallback()]: a new canvas is created and
    appended, then [_pickerCreate()] runs. *)
Definition connect_picker (a : App) : App :=
  _pickerCreate (mkApp (Some []) (_picker a) (_hasPointerListeners a)
                       (handler_move a) (handler_down a) (handler_up a)
                       (registrations a) (next_handler a)).

(** The picker part of [disconnectedCallback()]: [_pickerDestroy()], then
    the canvas is removed and forgotten. *)
Definition disconnect_picker (a : App) : App :=
  let a1 := _pickerDestroy a in
  mkApp None (_picker a1) (_hasPointerListeners a1)
        (handler_move a1) (handler_down a1) (handler_up a1)
        (registrations a1) (next_handler a1).

(** [_onPointerListenerAdded(type)] *)
Definition _onPointerListenerAdded (t : PointerType) (a : App) : App :=
  match _canvas a with
  | Some c =>
      if get_flag t (_hasPointerListeners a) then a
      else
        let c' := match handler_for t a with
                  | Some h => canvas_add (canvas_type t) h c
                  | None => c
                  end in
        mkApp (Some c') (_picker a) (set_flag t true a)
              (handler_move a) (handler_down a) (handler_up a)
              (registrations a) (next_handler a)
  | None => a
  end.

(** [_onPointerListenerRemoved(type)], given the entity elements of the
    app's subtree. *)
Definition _onPointerListenerRemoved (entities : list EntityListeners)
    (t : PointerType) (a : App) : App :=
  let some_has := existsb (hasListeners t) entities in
  match _canvas a with
  | Some c =>
      if some_has then a
      else
        let c' := match handler_for t a with
                  | Some h => canvas_remove (canvas_type t) h c
                  | None => c
                  end in
        mkApp (Some c') (_picker a) (set_flag t false a)
              (handler_move a) (handler_down a) (handler_up a)
              (registrations a) (next_handler a)
  | None => a
  end.

(** The app and the entity elements of its subtree, in document order. *)
Record System := mkSystem {
  app : App;
  entities : list EntityListeners
}.

(** [entity.addEventListener(type, listener)] on the [i]-th entity: the
    listener is pushed, then the bubbling [type + ':connect'] event runs
    every registered app listener. *)
Definition addEventListener (i : nat) (t : PointerType) (l : listener) (s : System) : System :=
  match entities s !! i with
  | Some e =>
      let es := <[i := push_listener t l e]> (entities s) in
      mkSystem (Nat.iter (registrations (app s)) (_onPointerListenerAdded t) (app s)) es
  | None => s
  end.

(** [entity.removeEventListener(type, listener)] on the [i]-th entity. *)
Definition removeEventListener (i : nat) (t : PointerType) (l : listener) (s : System)
  : System :=
  match entities s !! i with
  | Some e =>
      let es := <[i := drop_listener t l e]> (entities s) in
      mkSystem (Nat.iter (registrations (app s)) (_onPointerListenerRemoved es t) (app s)) es
  | None => s
  end.

Inductive Op :=
| OpAdd (i : nat) (t : PointerType) (l : listener)
| OpRemove (i : nat) (t : PointerType) (l : listener).

Definition step (s : System) (op : Op) : System :=
  match op with
  | OpAdd i t l => addEventListener i t l s
  | OpRemove i t l => removeEventListener i t l s
  end.

Definition run (ops : list Op) (s : System) : System := fold_left step ops s.

(** The canvas has the app's current handler for the canvas event type
    that serves [t]. *)
Definition routed (t : PointerType) (a : App) : Prop :=
  exists c h, _canvas a = Some c /\ handler_for t a = Some h /\ (canvas_type t, h) ∈ c.

(** A system whose app has just been connected for the first time and
    whose [n] entities have no listeners yet. *)
Definition fresh (n : nat) : System :=
  mkSystem (connect_picker constructor) (repeat no_listeners n).

(** The types with a canvas handler of their own. *)
Definition own_type (t : PointerType) : Prop := t = pointerdown \/ t = pointerup.

(** What holds of the down and up types along every run from a fresh
    system: the flag says whether some entity has a listener, and the
    canvas has the handler exactly when the flag is set. *)
Definition own_type_inv (t : PointerType) (s : System) : Prop :=
  exists c h,
    _canvas (app s) = Some c /\
    pointerHandler t (app s) = Some h /\
    1 <= registrations (app s) /\
    get_flag t (_hasPointerListeners (app s)) = existsb (hasListeners t) (entities s) /\
    ((t, h) ∈ c <-> get_flag t (_hasPointerListeners (app s)) = true).

End Pointer.

(** ** Connecting and disconnecting a pc-entity element in a running app *)
Module EntityLifecycle.

Import Hierarchy.

(** The hierarchy state and the entities destroyed so far. *)
Record LState := mkL {
  st : State;
  destroyed : list EntityObj
}.

Section App.

Variable forest : list Node.
Variable outerEntity : option EntityObj.

(** [this.querySelectorAll('pc-entity')] on the element at path [p]: the
    pc-entity elements below it, in document order. *)
Definition descendants (p : path) : list path :=
  match node_at forest p with
  | Some n => List.map (app p) (select_forest "pc-entity" (children_of n) 0)
  | None => []
  end.

(** [disconnectedCallback()] of the entity element at [p]:
      if (this.entity) {
          children.forEach((child) => { child.entity = null; });
          this.entity.destroy();
          this.entity = null;
      } *)
Definition disconnectedCallback (p : path) (s : LState) : LState :=
  match entityOf (st s) !! p with
  | Some ent =>
      let cleared := fold_left (fun m q => delete q m) (descendants p) (entityOf (st s)) in
      mkL (mkState (delete p cleared) (trace (st s))) (destroyed s ++ [ent])
  | None => s
  end.

(** What the entity element reads from its closest pc-app element. *)
Record AppEl := mkAppEl {
  (** the [hierarchyReady] getter: the field is set at the end of the
      app's [connectedCallback] and never reset *)
  hierarchyReady : bool;
  (** [closestApp.app] is set: it is [null] again once the app's
      [disconnectedCallback] has run *)
  application : bool
}.

(** [buildHierarchy(app)] where [app] may be [null]; [None] when it
    throws: with no entity to attach to, the call reads [app.root]. *)
Definition buildHierarchy_app (application : bool) (s : State) (p : path) : option State :=
  match entityOf s !! p with
  | None => Some s
  | Some _ =>
      match closestEntity_entity forest outerEntity p s with
      | Some _ => Some (buildHierarchy forest outerEntity s p)
      | None =>
          if application then Some (buildHierarchy forest outerEntity s p) else None
      end
  end.

(** [childEntities.forEach((child) => { child.buildHierarchy(app); })]:
    an exception ends the loop. *)
Fixpoint forEach_buildHierarchy (application : bool) (l : list path) (s : State)
  : State * Completion :=
  match l with
  | [] => (s, Returned)
  | q :: rest =>
      match buildHierarchy_app application s q with
      | Some s' => forEach_buildHierarchy application rest s'
      | None => (s, Thrown)
      end
  end.

(** [connectedCallback()] of the entity element at [p]; [closestApp] is
    [None] when no pc-app encloses the element. [createEntity(app)] hands
    [app] to the engine's [Entity] constructor, which stores it. *)
Definition connectedCallback (closestApp : option AppEl) (p : path) (s : LState)
  : LState * Completion :=
  match closestApp with
  | None => (s, Returned)
  | Some a =>
      if hierarchyReady a then
        let s1 := createEntity (st s) p in
        match buildHierarchy_app (application a) s1 p with
        | None => (mkL s1 (destroyed s), Thrown)
        | Some s2 =>
            let childEntities := descendants p in
            let s3 := fold_left createEntity childEntities s2 in
            let '(s4, completion) :=
              forEach_buildHierarchy (application a) childEntities s3 in
            (mkL s4 (destroyed s), completion)
        end
      else (s, Returned)
  end.

(** [q] is the element at [p] or a pc-entity element below it. *)
Definition in_subtree (p q : path) : Prop :=
  q = p \/ (ancestor p q /\ has_tag forest "pc-entity" q = true).

End App.

End EntityLifecycle.

(** ** Picking: the app element's canvas pointer handlers

    [_onPointerMove], [_onPointerDown] and [_onPointerUp] pick the mesh
    under the pointer and walk from its graph node towards the root, looking
    up for each node the first pc-entity element of the app whose [name]
    attribute is the node's name. The entity elements are numbered in
    document order; a picked node is given by the names of the node and of
    its ancestors, nearest first. Node names are taken to be free of quotes
    and backslashes, so that the selector built from them is the attribute
    test it is meant to be. *)
Module Picking.

Import Pointer.

Record EntityEl := mkEntityEl {
  (** the [name] attribute, when present *)
  name : option string;
  _listeners : EntityListeners
}.

(** What a handler reads when it runs. *)
Record PointerEv := mkPointerEv {
  (** [this._picker] is set *)
  picker : bool;
  (** [this.app] is set *)
  application : bool;
  (** [this.app.root.findComponent('camera')] finds a camera *)
  camera : bool;
  (** [selection[0].node] and its ancestors, when the selection is not empty *)
  selection : option (list string)
}.

Record State := mkState {
  _hoveredEntity : option nat;
  (** the [dispatchEvent] calls on entity elements, oldest first *)
  dispatched : list (PointerType * nat)
}.

(** [new AppElement()] *)
Definition constructor : State := mkState None [].

Section Elements.

(** The pc-entity elements below the app, in document order. *)
Variable es : list EntityEl.

Fixpoint querySelector_from (i : nat) (l : list EntityEl) (nm : string) : option nat :=
  match l with
  | [] => None
  | e :: rest =>
      if bool_decide (name e = Some nm) then Some i
      else querySelector_from (S i) rest nm
  end.

(** [this.querySelector(`pc-entity[name="${nm}"]`)] *)
Definition querySelector (nm : string) : option nat := querySelector_from 0 es nm.

(** [entityElement.hasListeners(type)] *)
Definition has (t : PointerType) (i : nat) : bool :=
  match es !! i with
  | Some e => hasListeners t (_listeners e)
  | None => false
  end.

(** The loop of [_onPointerMove]: the first node, going up, that has an
    entity element. *)
Fixpoint hover_walk (chain : list string) : option nat :=
  match chain with
  | [] => None
  | nm :: up =>
      match querySelector nm with
      | Some i => Some i
      | None => hover_walk up
      end
  end.

(** The loop of [_onPointerDown]: the first node, going up, whose entity
    element has a pointerdown listener. *)
Fixpoint down_walk (chain : list string) : option nat :=
  match chain with
  | [] => None
  | nm :: up =>
      match querySelector nm with
      | Some i => if has pointerdown i then Some i else down_walk up
      | None => down_walk up
      end
  end.

Definition dispatch_if (t : PointerType) (target : option nat) : list (PointerType * nat) :=
  match target with
  | Some i => if has t i then [(t, i)] else []
  | None => []
  end.

(** [_onPointerMove(event)] *)
Definition _onPointerMove (ev : PointerEv) (s : State) : State :=
  if negb (picker ev) || negb (application ev) then s
  else if negb (camera ev) then s
  else
    let newHoverEntity :=
      match selection ev with
      | Some chain => hover_walk chain
      | None => None
      end in
    let enter_leave :=
      if bool_decide (_hoveredEntity s = newHoverEntity) then []
      else dispatch_if pointerleave (_hoveredEntity s)
             ++ dispatch_if pointerenter newHoverEntity in
    mkState newHoverEntity
      (dispatched s ++ enter_leave ++ dispatch_if pointermove newHoverEntity).

(** [_onPointerDown(event)] *)
Definition _onPointerDown (ev : PointerEv) (s : State) : State :=
  if negb (picker ev) || negb (application ev) then s
  else if negb (camera ev) then s
  else
    match selection ev with
    | Some chain =>
        match down_walk chain with
        | Some i => mkState (_hoveredEntity s) (dispatched s ++ [(pointerdown, i)])
        | None => s
        end
    | None => s
    end.

(** [_onPointerUp(event)]: only the picked node itself is looked up. *)
Definition _onPointerUp (ev : PointerEv) (s : State) : State :=
  if negb (picker ev) || negb (application ev) then s
  else if negb (camera ev) then s
  else
    match selection ev with
    | Some (nm :: _) =>
        mkState (_hoveredEntity s)
          (dispatched s ++ dispatch_if pointerup (querySelector nm))
    | _ => s
    end.

Inductive CanvasEvent :=
| Move (ev : PointerEv)
| Down (ev : PointerEv)
| Up (ev : PointerEv).

Definition handle (s : State) (c : CanvasEvent) : State :=
  match c with
  | Move ev => _onPointerMove ev s
  | Down ev => _onPointerDown ev s
  | Up ev => _onPointerUp ev s
  end.

Definition handle_all (cs : list CanvasEvent) (s : State) : State := fold_left handle cs s.

(** The elements a lookup by name can return: the first of their name. *)
Definition first_of_name (i : nat) : Prop :=
  exists nm, querySelector nm = Some i.

(** A dispatch to an element that has a listener of the type and is the
    first of its name. *)
Definition target_ok (d : PointerType * nat) : Prop :=
  has d.1 d.2 = true /\ first_of_name d.2.

Definition targets_inv (s : State) : Prop :=
  (forall h, _hoveredEntity s = Some h -> first_of_name h) /\
  Forall target_ok (dispatched s).

End Elements.

(** What an entity element [e] may see of enter, move and leave: reading
    the dispatches in order, an enter only while the pointer is outside, a
    move or a leave only while it is inside. The result says where the
    pointer is at the end; [None] when the order is broken. *)
Fixpoint hover_protocol (e : nat) (inside : bool) (log : list (PointerType * nat))
  : option bool :=
  match log with
  | [] => Some inside
  | (t, x) :: rest =>
      if Nat.eqb x e then
        match t with
        | pointerenter => if inside then None else hover_protocol e true rest
        | pointerleave => if inside then hover_protocol e false rest else None
        | pointermove => if inside then hover_protocol e true rest else None
        | _ => hover_protocol e inside rest
        end
      else hover_protocol e inside rest
  end.

End Picking.

(** ** Counting the [addComponent] calls of a connection task *)
Module AsyncCount.

Import Async.

(** The event is an [addComponent] call made by task [i]. *)
Definition is_add (i : nat) (ev : Event) : bool :=
  match ev with
  | EvAddComponent j _ _ _ _ => Nat.eqb j i
  | _ => false
  end.

(** How many times task [i] has called [addComponent]. *)
Definition adds (i : nat) (tr : list Event) : nat := length (List.filter (is_add i) tr).

(** The task is past the [addComponent] call of its [connectedCallback]. *)
Definition past_add (p : pc) : bool :=
  match p with
  | AwaitAddComponent | Completed | Rejected => true
  | AwaitApp _ | AwaitEntity _ => false
  end.

Definition once_inv (s : State) : Prop :=
  forall i,
    adds i (trace s) <= 1 /\
    (adds i (trace s) = 1 ->
     exists el p, tasks s !! i = Some (el, p) /\ past_add p = true).

(** The event is an [addComponent] call made for the element [el]. *)
Definition is_add_of (el : elem) (ev : Event) : bool :=
  match ev with
  | EvAddComponent _ el' _ _ _ => bool_decide (el' = el)
  | _ => false
  end.

(** How many [addComponent] calls were made for [el]. *)
Definition adds_of (el : elem) (tr : list Event) : nat :=
  length (List.filter (is_add_of el) tr).

(** The task is an invocation of [el.connectedCallback()]. *)
Definition task_of (el : elem) (t : elem * pc) : bool := bool_decide (t.1 = el).

(** ... that has not reached its [addComponent] call yet. *)
Definition waiting_of (el : elem) (t : elem * pc) : bool :=
  bool_decide (t.1 = el) && negb (past_add t.2).

Definition is_connect (el : elem) (a : Action) : bool :=
  match a with
  | Connect el' => bool_decide (el' = el)
  | _ => false
  end.

(** How many times the browser connected [el]. *)
Definition connects (el : elem) (acts : list Action) : nat :=
  length (List.filter (is_connect el) acts).

Definition budget_inv (el : elem) (s : State) : Prop :=
  adds_of el (trace s) + length (List.filter (waiting_of el) (tasks s))
  <= length (List.filter (task_of el) (tasks s)).

End AsyncCount.

(** ** The camera animation of the viewer script

    The state that one call of [FrameScene.initCamera] sets up: its local
    variables [animating] and [animationTimer], the handlers it registers,
    and the [cameraAnim] object made by [initialize]. Numbers are rationals;
    [fl] rounds the result of an addition, a subtraction, a multiplication
    or a division to a double. The remainder [%] and the doubling of the
    duration are exact in binary floating point and are not rounded. *)
Module CameraAnim.

Local Open Scope Q_scope.

Definition Qlt_bool (a b : Q) : bool := negb (Qle_bool b a).

(** Rounding towards zero. *)
Definition trunc (x : Q) : Z := if Qle_bool 0 x then Qfloor x else Qceiling x.

(** [a % b] for a divisor that is not zero (JavaScript gives NaN for
    zero, which the rationals do not have). *)
Definition js_rem (a b : Q) : Q := a - b * inject_Z (trunc (a / b)).

(** [track.duration] and [track.loopMode] *)
Record Track := mkTrack { duration : Q; loopMode : string }.

(** [this.cameraAnim]: the cursor [time] and the [result] array that
    [spline.evaluate] fills. *)
Record Anim := mkAnim { time : Q; result : list Q }.

Inductive Call :=
(* this.frameScene(bbox, smooth) is called *)
| FrameSceneCall (smooth : bool)
(* this.resetCamera(bbox, smooth) is called; the call throws while
   [this.target] is null or undefined, see [initCamera] *)
| ResetCameraCall (smooth : bool)
(* cameraControls.focus(new Vec3(r[3], r[4], r[5]), new Vec3(r[0], r[1], r[2]), false) *)
| Focus (target position : list (option Q))
| Evaluate (t : Q)
| SetPosition (x y z : option Q)
| LookAt (x y z : option Q)
(* the loading indicator and the poster are hidden, window.firstFrame is called *)
| FirstFrame.

Record State := mkState {
  cameraAnim : option Anim;
  animating : bool;
  animationTimer : Q;
  (** the canvas event types that [handler] is attached for *)
  canvas_handler : list string;
  (** the sorter's 'updated' handler is registered *)
  sorter_handle : bool;
  (** the app's 'frameend' handler is registered *)
  frame_handle : bool;
  renderNextFrame : bool;
  calls : list Call;
  (** the window's keydown listener is registered *)
  keydown_handle : bool
}.

Inductive Event :=
| CanvasEvent (type : string)
| KeyDown (key : string) (ctrlKey altKey metaKey : bool)
| SorterUpdated
| FrameEnd
| Update (deltaTime : Q).

Definition events : list string := ["wheel"; "pointerdown"; "contextmenu"].

(** [this.cameraAnim] as [initialize] leaves it when the settings name
    an animation track. *)
Definition new_cameraAnim : Anim := mkAnim 0 [].

(** The state after [initCamera()]: [reset] is the outcome of
    [bbox.halfExtents.length() > 100 || this.position || this.target],
    [hasTarget] says whether [this.target] is neither null nor undefined,
    and [hasSorter] whether the splat has a sorter to listen to.
    [resetCamera] evaluates [this.target ?? Vec3.ZERO], and the script
    binds no [Vec3] (it imports the engine as [pc]): without a target the
    call throws a ReferenceError, [initCamera] ends there and registers
    no handler. *)
Definition initCamera (anim : option Anim) (hasSorter reset hasTarget : bool)
    (renderNextFrame0 : bool) : State :=
  if reset && negb hasTarget then
    mkState anim false 0 [] false false renderNextFrame0 [ResetCameraCall false] false
  else
    mkState anim false 0 events hasSorter false renderNextFrame0
      [if reset then ResetCameraCall false else FrameSceneCall false] true.

(** [cancelAnimation()] *)
Definition cancelAnimation (s : State) : State :=
  if animating s then
    let focus :=
      match cameraAnim s with
      | Some a =>
          let r := result a in
          [Focus [r !! 3%nat; r !! 4%nat; r !! 5%nat] [r !! 0%nat; r !! 1%nat; r !! 2%nat]]
      | None => []
      end in
    mkState (cameraAnim s) false (animationTimer s) (canvas_handler s)
      (sorter_handle s) (frame_handle s) (renderNextFrame s) (calls s ++ focus)
      (keydown_handle s)
  else s.

Definition log (c : Call) (s : State) : State :=
  mkState (cameraAnim s) (animating s) (animationTimer s) (canvas_handler s)
    (sorter_handle s) (frame_handle s) (renderNextFrame s) (calls s ++ [c])
    (keydown_handle s).

(** [handler]: cancel the animation and detach from the three events. *)
Definition handler (s : State) : State :=
  let s1 := cancelAnimation s in
  mkState (cameraAnim s1) (animating s1) (animationTimer s1)
    (List.filter (fun t => negb (JS.includes events t)) (canvas_handler s1))
    (sorter_handle s1) (frame_handle s1) (renderNextFrame s1) (calls s1)
    (keydown_handle s1).

(** The window's keydown listener, when [initCamera] got to register
    it. *)
Definition keydown (key : string) (ctrlKey altKey metaKey : bool) (s : State) : State :=
  if negb (keydown_handle s) then s
  else if ctrlKey || altKey || metaKey then s
  else if String.eqb key "f" then log (FrameSceneCall true) (cancelAnimation s)
  else if String.eqb key "r" then log (ResetCameraCall true) (cancelAnimation s)
  else s.

(** The sorter's first 'updated' event. *)
Definition sorter_updated (s : State) : State :=
  if sorter_handle s then
    mkState (cameraAnim s) (animating s) (animationTimer s) (canvas_handler s)
      false true true (calls s) (keydown_handle s)
  else s.

(** The first 'frameend' event after that. *)
Definition frameend (s : State) : State :=
  if frame_handle s then
    mkState (cameraAnim s)
      (match cameraAnim s with Some _ => true | None => animating s end)
      (animationTimer s) (canvas_handler s)
      (sorter_handle s) false (renderNextFrame s) (calls s ++ [FirstFrame])
      (keydown_handle s)
  else s.

Section Update.

Variable fl : Q -> Q.
(** [Math.pow] *)
Variable Math_pow : Q -> Q -> Q.
(** [spline.evaluate(time, result)]: what it leaves in [result] *)
Variable evaluate : Q -> list Q.
(** [params.noanim] *)
Variable noanim : bool.
Variable track : Track.

(** The cursor after the wrap at the end of the track. *)
Definition wrap (t : Q) : Q :=
  if Qle_bool (duration track) t then
    if String.eqb (loopMode track) "none" then duration track
    else if String.eqb (loopMode track) "repeat" then js_rem t (duration track)
    else if String.eqb (loopMode track) "pingpong" then js_rem t (duration track * 2)
    else t
  else t.

(** The time the spline is evaluated at. *)
Definition evaluation_time (t : Q) : Q :=
  if Qlt_bool (duration track) t then fl (duration track - t) else t.

(** The app's 'update' handler. *)
Definition update (deltaTime : Q) (s : State) : State :=
  match cameraAnim s with
  | Some a =>
      if animating s && negb noanim then
        let animationTimer' := fl (animationTimer s + deltaTime) in
        let time1 :=
          if Qlt_bool animationTimer' 5
          then fl (time a + fl (deltaTime * Math_pow (fl (animationTimer' / 5)) (1 # 2)))
          else fl (time a + deltaTime) in
        let time2 := wrap time1 in
        let r := evaluate (evaluation_time time2) in
        mkState (Some (mkAnim time2 r)) (animating s) animationTimer' (canvas_handler s)
          (sorter_handle s) (frame_handle s) (renderNextFrame s)
          (calls s ++ [Evaluate (evaluation_time time2);
                       SetPosition (r !! 0%nat) (r !! 1%nat) (r !! 2%nat);
                       LookAt (r !! 3%nat) (r !! 4%nat) (r !! 5%nat)])
          (keydown_handle s)
      else s
  | None => s
  end.

Definition step (s : State) (ev : Event) : State :=
  match ev with
  | CanvasEvent type => if JS.includes (canvas_handler s) type then handler s else s
  | KeyDown key c a m => keydown key c a m s
  | SorterUpdated => sorter_updated s
  | FrameEnd => frameend s
  | Update deltaTime => update deltaTime s
  end.

Definition run (evs : list Event) (s : State) : State := fold_left step evs s.

End Update.

(** A keydown that reaches [cancelAnimation]. *)
Definition cancel_key (ev : Event) : bool :=
  match ev with
  | KeyDown key c a m => negb (c || a || m) && (String.eqb key "f" || String.eqb key "r")
  | _ => false
  end.

(** Both one-shot handlers that lead to the start of the animation have
    been used up or were never registered. *)
Definition start_spent (s : State) : Prop :=
  sorter_handle s = false /\ frame_handle s = false.

(** What holds along every run after [initCamera]: while the animation
    runs there is a [cameraAnim] and nothing is left that could start it. *)
Definition started_inv (s : State) : Prop :=
  (animating s = true -> start_spent s /\ cameraAnim s <> None) /\
  (frame_handle s = true -> sorter_handle s = false).

(** The range the cursor stays in, by loop mode. *)
Definition cursor_in_range (track : Track) (t : Q) : Prop :=
  0 <= t /\
  (loopMode track = "none" -> t <= duration track) /\
  (loopMode track = "repeat" -> t < duration track) /\
  (loopMode track = "pingpong" -> t < duration track * 2).

End CameraAnim.

(** ** The cursor of the camera animation *)
Module CameraCursor.

Import CameraAnim.

Local Open Scope Q_scope.

(** The times the spline may be evaluated at: within the track, and in
    pingpong mode also the rounding of [duration - c] for a cursor [c] in the
    second half of the cycle. *)
Definition eval_ok (fl : Q -> Q) (track : Track) (t : Q) : Prop :=
  (0 <= t /\ t <= duration track) \/
  (loopMode track = "pingpong" /\
   exists c, duration track < c /\ c < duration track * 2 /\ t = fl (duration track - c)).

Definition cursor_inv (fl : Q -> Q) (track : Track) (s : State) : Prop :=
  0 <= animationTimer s /\
  (exists a, cameraAnim s = Some a /\ cursor_in_range track (time a)) /\
  (forall t, In (Evaluate t) (calls s) ->
             loopMode track = "none" \/ loopMode track = "repeat" \/
             loopMode track = "pingpong" ->
             eval_ok fl track t).

End CameraCursor.

(** ** On-demand rendering in the viewer script

    [nearlyEquals] and the app's 'framerender' handler that [initCamera]
    registers. The arrays are the [data] of the camera's world transform and
    projection matrix. *)
Module OnDemand.

Local Open Scope Q_scope.

Record State := mkState {
  autoRender : bool;
  renderNextFrame : bool;
  (** [prevWorld.data] and [prevProj.data] *)
  prevWorld : list Q;
  prevProj : list Q
}.

Section Doubles.

Variable fl : Q -> Q.

(** [a.some((v, i) => Math.abs(v - b[i]) >= epsilon)]: where [b] has no
    entry the difference is NaN and the comparison is false. *)
Fixpoint some_far (epsilon : Q) (a b : list Q) : bool :=
  match a with
  | [] => false
  | v :: a' =>
      match b with
      | w :: b' => Qle_bool epsilon (Qabs (fl (v - w))) || some_far epsilon a' b'
      | [] => some_far epsilon a' []
      end
  end.

Definition nearlyEquals (a b : list Q) (epsilon : Q) : bool :=
  negb (some_far epsilon a b).

(** The default value [1e-4] of [epsilon]. *)
Definition epsilon : Q := fl (1 # 10000).

(** The 'framerender' handler, given the camera's current matrices. *)
Definition framerender (world proj : list Q) (s : State) : State :=
  if negb (autoRender s) && negb (renderNextFrame s) then
    let r1 := if negb (nearlyEquals world (prevWorld s) epsilon) then true
              else renderNextFrame s in
    let r2 := if negb (nearlyEquals proj (prevProj s) epsilon) then true else r1 in
    if r2 then mkState (autoRender s) r2 world proj
    else mkState (autoRender s) r2 (prevWorld s) (prevProj s)
  else s.

(** Every entry of [a] is closer than [epsilon] to the entry of [b] at
    the same index, where [b] has one. *)
Definition within (a b : list Q) : Prop :=
  forall i v w, a !! i = Some v -> b !! i = Some w -> Qabs (fl (v - w)) < epsilon.

End Doubles.

End OnDemand.

(** ** The pc-sky element and the scene's sky

    The element keeps its properties in fields of its own and writes them
    to the scene of the app once it holds one in [_scene]. Vectors are
    triples; an asset is known by a number. The bundle holds two builds of
    the element layer; their pc-sky elements differ in one statement of
    [_generateSkybox]. *)
Module SkyOps.

Local Open Scope Q_scope.

Definition Vec3 := (Q * Q * Q)%type.

(** The part of the app's scene that the element writes. *)
Record Scene := mkScene {
  (** the asset the skybox cubemap was generated from *)
  skybox : option nat;
  (** the asset the lighting atlas was generated from *)
  envAtlas : option nat;
  (** the [enabled] flag of the skybox layer, when the scene has that layer *)
  skybox_layer : option bool;
  sky_type : option string;
  sky_scale : Vec3;
  sky_center : Vec3;
  skyboxIntensity : Q;
  skyboxMip : Q;
  (** the Euler angles [skyboxRotation] was last made from by the element *)
  skyboxRotation : option Vec3;
  (** the textures that had [destroy()] called, oldest first *)
  destroyed : list nat
}.

Record Sky := mkSky {
  _asset : string;
  _center : Vec3;
  _intensity : Q;
  _rotation : Vec3;
  _level : Q;
  _lighting : bool;
  _scale : Vec3;
  _type : option string;
  (** [this._scene] is the app's scene (not null) *)
  _scene : bool
}.

Record State := mkState { el : Sky; scene : Scene }.

(** [new SkyElement()] *)
Definition constructor : Sky :=
  mkSky "" (0, 1 # 100, 0) 1 (0, 0, 0) 0 false (100, 100, 100) (Some "infinite") false.

(** [this._type !== 'none'] *)
Definition not_none (t : option string) : bool :=
  match t with
  | Some v => negb (String.eqb v "none")
  | None => true
  end.

(** [if (layer) layer.enabled = this._type !== 'none'] *)
Definition set_layer (t : option string) (layer : option bool) : option bool :=
  match layer with
  | Some _ => Some (not_none t)
  | None => None
  end.

(** The two builds of the element layer in the bundle. *)
Inductive Build := FirstBuild | SecondBuild.

Section Builds.

Variable build : Build.

(** [_generateSkybox(asset)]; the cubemap's anisotropy is left out. The
    second build ends with [this._scene.skyboxMip = this._level], which
    the first build does not have. *)
Definition _generateSkybox (asset : nat) (s : State) : State :=
  if _scene (el s) then
    let sc := scene s in
    mkState (el s)
      (mkScene (Some asset)
         (if _lighting (el s) then Some asset else envAtlas sc)
         (set_layer (_type (el s)) (skybox_layer sc))
         (_type (el s)) (_scale (el s)) (_center (el s)) (_intensity (el s))
         (match build with
          | FirstBuild => skyboxMip sc
          | SecondBuild => _level (el s)
          end)
         (skyboxRotation sc) (destroyed sc))
  else s.

Definition with_scene (attached : bool) (e : Sky) : Sky :=
  mkSky (_asset e) (_center e) (_intensity e) (_rotation e) (_level e) (_lighting e)
    (_scale e) (_type e) attached.

(** [_loadSkybox()] from its await on: [app] says whether the closest app
    element has an application, [asset] is what [AssetElement.get] finds
    for [_asset], with its [loaded] flag. When the asset is not loaded yet
    the skybox is generated by the asset's 'load' event. *)
Definition _loadSkybox (app : bool) (asset : option (nat * bool)) (s : State) : State :=
  if negb app then s
  else
    match asset with
    | None => s
    | Some (a, loaded) =>
        let s1 := mkState (with_scene true (el s)) (scene s) in
        if loaded then _generateSkybox a s1 else s1
    end.

(** [_unloadSkybox()] *)
Definition _unloadSkybox (s : State) : State :=
  if _scene (el s) then
    let sc := scene s in
    let gone := match skybox sc with Some a => [a] | None => [] end
                  ++ match envAtlas sc with Some a => [a] | None => [] end in
    mkState (with_scene false (el s))
      (mkScene None None (skybox_layer sc) (sky_type sc) (sky_scale sc) (sky_center sc)
         (skyboxIntensity sc) (skyboxMip sc) (skyboxRotation sc) (destroyed sc ++ gone))
  else s.

Inductive Op :=
| SetAsset (value : string)
| SetCenter (value : Vec3)
| SetIntensity (value : Q)
| SetLevel (value : Q)
| SetLighting (value : bool)
| SetRotation (value : Vec3)
| SetScale (value : Vec3)
| SetType (value : option string)
(* the rest of a _loadSkybox() call after its await *)
| LoadSkybox (app : bool) (asset : option (nat * bool))
(* the 'load' event of an asset that _loadSkybox() listens to *)
| AssetLoad (asset : nat)
| Disconnect.

(** The property setters, [_loadSkybox], the asset's load callback and
    [disconnectedCallback]. The [_loadSkybox()] call that an assignment to
    [asset] starts on a connected element is a [LoadSkybox] of its own, as
    is the one of [connectedCallback]. *)
Definition step (s : State) (op : Op) : State :=
  let e := el s in
  let sc := scene s in
  match op with
  | SetAsset v =>
      mkState (mkSky v (_center e) (_intensity e) (_rotation e) (_level e) (_lighting e)
                 (_scale e) (_type e) (_scene e)) sc
  | SetCenter v =>
      mkState (mkSky (_asset e) v (_intensity e) (_rotation e) (_level e) (_lighting e)
                 (_scale e) (_type e) (_scene e))
        (if _scene e
         then mkScene (skybox sc) (envAtlas sc) (skybox_layer sc) (sky_type sc) (sky_scale sc)
                v (skyboxIntensity sc) (skyboxMip sc) (skyboxRotation sc) (destroyed sc)
         else sc)
  | SetIntensity v =>
      mkState (mkSky (_asset e) (_center e) v (_rotation e) (_level e) (_lighting e)
                 (_scale e) (_type e) (_scene e))
        (if _scene e
         then mkScene (skybox sc) (envAtlas sc) (skybox_layer sc) (sky_type sc) (sky_scale sc)
                (sky_center sc) v (skyboxMip sc) (skyboxRotation sc) (destroyed sc)
         else sc)
  | SetLevel v =>
      mkState (mkSky (_asset e) (_center e) (_intensity e) (_rotation e) v (_lighting e)
                 (_scale e) (_type e) (_scene e))
        (if _scene e
         then mkScene (skybox sc) (envAtlas sc) (skybox_layer sc) (sky_type sc) (sky_scale sc)
                (sky_center sc) (skyboxIntensity sc) v (skyboxRotation sc) (destroyed sc)
         else sc)
  | SetLighting v =>
      mkState (mkSky (_asset e) (_center e) (_intensity e) (_rotation e) (_level e) v
                 (_scale e) (_type e) (_scene e)) sc
  | SetRotation v =>
      mkState (mkSky (_asset e) (_center e) (_intensity e) v (_level e) (_lighting e)
                 (_scale e) (_type e) (_scene e))
        (if _scene e
         then mkScene (skybox sc) (envAtlas sc) (skybox_layer sc) (sky_type sc) (sky_scale sc)
                (sky_center sc) (skyboxIntensity sc) (skyboxMip sc) (Some v) (destroyed sc)
         else sc)
  | SetScale v =>
      mkState (mkSky (_asset e) (_center e) (_intensity e) (_rotation e) (_level e)
                 (_lighting e) v (_type e) (_scene e))
        (if _scene e
         then mkScene (skybox sc) (envAtlas sc) (skybox_layer sc) (sky_type sc) v
                (sky_center sc) (skyboxIntensity sc) (skyboxMip sc) (skyboxRotation sc)
                (destroyed sc)
         else sc)
  | SetType v =>
      mkState (mkSky (_asset e) (_center e) (_intensity e) (_rotation e) (_level e)
                 (_lighting e) (_scale e) v (_scene e))
        (if _scene e
         then mkScene (skybox sc) (envAtlas sc) (set_layer v (skybox_layer sc)) v
                (sky_scale sc) (sky_center sc) (skyboxIntensity sc) (skyboxMip sc)
                (skyboxRotation sc) (destroyed sc)
         else sc)
  | LoadSkybox app asset => _loadSkybox app asset s
  | AssetLoad asset => _generateSkybox asset s
  | Disconnect => _unloadSkybox s
  end.

Definition run (ops : list Op) (s : State) : State := fold_left step ops s.

(** The step runs [_generateSkybox] on an element that holds a scene. *)
Definition generates (s : State) (op : Op) : bool :=
  match op with
  | LoadSkybox app (Some (_, loaded)) => app && loaded
  | AssetLoad _ => _scene (el s)
  | _ => false
  end.

(** Some step of the run generates a skybox. *)
Fixpoint generated (ops : list Op) (s : State) : bool :=
  match ops with
  | [] => false
  | op :: rest => generates s op || generated rest (step s op)
  end.

End Builds.

(** The scene shows the element's type, scale, center and intensity. *)
Definition synced (s : State) : Prop :=
  _scene (el s) = true /\
  sky_type (scene s) = _type (el s) /\
  sky_scale (scene s) = _scale (el s) /\
  sky_center (scene s) = _center (el s) /\
  skyboxIntensity (scene s) = _intensity (el s) /\
  (forall b, skybox_layer (scene s) = Some b -> b = not_none (_type (el s))).

Definition is_disconnect (op : Op) : bool :=
  match op with Disconnect => true | _ => false end.

(** An assignment to a property of the element. *)
Definition is_setter (op : Op) : bool :=
  match op with
  | LoadSkybox _ _ | AssetLoad _ | Disconnect => false
  | _ => true
  end.

Definition sets_rotation_or_level (op : Op) : bool :=
  match op with
  | SetRotation _ | SetLevel _ => true
  | _ => false
  end.

End SkyOps.

(** ** The worker pool of the bundled mesh decoder

    [decodeWorker] hands a request to one of the workers made by
    [initWorkers]; the worker's thread answers it in [workerProcess]; the
    answer is handled by the worker's [onmessage] on the main thread.
    Messages between the two threads are queues. Counts are integers (they
    are vertex and index counts, far below the range where doubles stop
    being exact). Of a message only the request id, the count and, in an
    answer, the action are kept; the decoded bytes are left out. *)
Module MeshoptWorkers.

Local Open Scope Z_scope.

Record Request := mkRequest { req_id : nat; req_count : Z }.

(** [resolve] is [true] for the action "resolve", [false] for "reject". *)
Record Response := mkResponse { resp_id : nat; resp_count : Z; resolve : bool }.

Record Worker := mkWorker {
  pending : Z;
  (** the ids that have callbacks in [worker.requests] *)
  requests : list nat;
  (** posted to the worker thread, not yet handled there *)
  inbox : list Request;
  (** posted back by the worker thread, not yet handled by [onmessage] *)
  outbox : list Response
}.

Record Pool := mkPool {
  workers : list Worker;
  requestId : nat;
  (** the promises settled so far: request id and whether resolved *)
  settled : list (nat * bool)
}.

(** [createWorker(url)] *)
Definition createWorker : Worker := mkWorker 0 [] [] [].

(** The pool after [initWorkers(count)]. *)
Definition initWorkers (count : nat) : Pool := mkPool (repeat createWorker count) 0 [].

(** The loop of [decodeWorker]: [best] is the index of [worker], whose
    pending count is [best_pending]; [i] is the index of the head of [ws]. *)
Fixpoint least_pending (best : nat) (best_pending : Z) (i : nat) (ws : list Worker) : nat :=
  match ws with
  | [] => best
  | w :: rest =>
      if pending w <? best_pending
      then least_pending i (pending w) (S i) rest
      else least_pending best best_pending (S i) rest
  end.

(** The worker [decodeWorker] picks, when there is any. *)
Definition choose (ws : list Worker) : option nat :=
  match ws with
  | [] => None
  | w0 :: rest => Some (least_pending 0 (pending w0) 1 rest)
  end.

(** [decodeGltfBufferAsync] with workers: [decodeWorker(count, ...)].
    Without workers the buffer is decoded on the main thread and the pool
    is not touched. *)
Definition decodeWorker (count : Z) (p : Pool) : Pool :=
  match choose (workers p) with
  | Some i =>
      match workers p !! i with
      | Some w =>
          let id := requestId p in
          let w' := mkWorker (pending w + count) (requests w ++ [id])
                      (inbox w ++ [mkRequest id count]) (outbox w) in
          mkPool (<[i := w']> (workers p)) (S id) (settled p)
      | None => p
      end
  | None => p
  end.

(** [workerProcess(event)] on the thread of worker [i], for the oldest
    message it has not handled: [ok] says whether [decode] returned or
    threw. *)
Definition workerProcess (i : nat) (ok : bool) (p : Pool) : Pool :=
  match workers p !! i with
  | Some w =>
      match inbox w with
      | r :: rest =>
          let w' := mkWorker (pending w) (requests w) rest
                      (outbox w ++ [mkResponse (req_id r) (req_count r) ok]) in
          mkPool (<[i := w']> (workers p)) (requestId p) (settled p)
      | [] => p
      end
  | None => p
  end.

(** [worker.object.onmessage] of worker [i], for the oldest answer: the
    count is taken off [pending] first; calling a callback that is not there
    is a TypeError, which leaves the request table as it is. *)
Definition onmessage (i : nat) (p : Pool) : Pool :=
  match workers p !! i with
  | Some w =>
      match outbox w with
      | a :: rest =>
          if bool_decide (resp_id a ∈ requests w) then
            let w' := mkWorker (pending w - resp_count a)
                        (List.filter (fun id => negb (Nat.eqb id (resp_id a))) (requests w))
                        (inbox w) rest in
            mkPool (<[i := w']> (workers p)) (requestId p)
              (settled p ++ [(resp_id a, resolve a)])
          else
            let w' := mkWorker (pending w - resp_count a) (requests w) (inbox w) rest in
            mkPool (<[i := w']> (workers p)) (requestId p) (settled p)
      | [] => p
      end
  | None => p
  end.

Inductive Op :=
| Decode (count : Z)
| Process (i : nat) (ok : bool)
| Deliver (i : nat).

Definition step (p : Pool) (op : Op) : Pool :=
  match op with
  | Decode count => decodeWorker count p
  | Process i ok => workerProcess i ok p
  | Deliver i => onmessage i p
  end.

Definition run (ops : list Op) (p : Pool) : Pool := fold_left step ops p.

(** The ids of the requests of a worker that are under way, oldest
    answer first. *)
Definition in_flight (w : Worker) : list nat :=
  List.map resp_id (outbox w) ++ List.map req_id (inbox w).

(** The counts of the requests of a worker that are under way. *)
Definition in_flight_count (w : Worker) : Z :=
  fold_right Z.add 0 (List.map resp_count (outbox w))
  + fold_right Z.add 0 (List.map req_count (inbox w)).

Definition all_in_flight (p : Pool) : list nat := concat (List.map in_flight (workers p)).

Definition worker_ok (w : Worker) : Prop :=
  pending w = in_flight_count w /\ requests w = in_flight w.

Definition pool_ok (p : Pool) : Prop :=
  Forall worker_ok (workers p) /\
  List.map fst (settled p) ++ all_in_flight p ≡ₚ seq 0 (requestId p).

End MeshoptWorkers.

(** ** Pointer handlers given as attributes of a pc-entity element

    [createEntity] and [attributeChangedCallback] both turn the value of an
    [onpointer...] attribute into a listener that runs
    [new Function('event', code)]. The listener made by [createEntity]
    keeps the attribute's value; the one made by [attributeChangedCallback]
    reads an attribute again each time it runs. What is recorded of a
    dispatch is the code each listener passes to [new Function]. *)
Module EntityHandlers.

Inductive Listener :=
(* made by createEntity: the code is the attribute value read then *)
| FromCreate (code : string)
(* made by attributeChangedCallback: the code is this.getAttribute(eventName) || '' *)
| FromAttribute (eventName : string).

Record Element := mkElement {
  attributes : gmap string string;
  (** the listeners added so far, oldest first, with their event type *)
  listeners : list (string * Listener)
}.

Definition constructor : Element := mkElement ∅ [].

Definition pointerEvents : list string :=
  ["onpointerenter"; "onpointerleave"; "onpointerdown"; "onpointerup"; "onpointermove"].

(** The event types themselves. *)
Definition pointerTypes : list string :=
  ["pointerenter"; "pointerleave"; "pointerdown"; "pointerup"; "pointermove"].

(** [name.substring(2)] *)
Definition substring2 (name : string) : string :=
  String.substring 2 (String.length name - 2) name.

Definition getAttribute (name : string) (el : Element) : option string :=
  attributes el !! name.

Definition addEventListener (type : string) (l : Listener) (el : Element) : Element :=
  mkElement (attributes el) (listeners el ++ [(type, l)]).

(** The pointer part of [createEntity]. *)
Definition createEntity (el : Element) : Element :=
  fold_left
    (fun e eventName =>
       match getAttribute eventName e with
       | Some handler =>
           if JS.truthy (Some handler)
           then addEventListener (substring2 eventName) (FromCreate handler) e
           else e
       | None => e
       end)
    pointerEvents el.

(** The pointer cases of [attributeChangedCallback(name, _, newValue)]. *)
Definition attributeChangedCallback (name : string) (newValue : option string)
    (el : Element) : Element :=
  if JS.includes pointerEvents name then
    if JS.truthy newValue
    then addEventListener (substring2 name) (FromAttribute (substring2 name)) el
    else el
  else el.

Definition setAttribute (name value : string) (el : Element) : Element :=
  attributeChangedCallback name (Some value)
    (mkElement (<[name := value]> (attributes el)) (listeners el)).

Definition removeAttribute (name : string) (el : Element) : Element :=
  match attributes el !! name with
  | Some _ =>
      attributeChangedCallback name None
        (mkElement (delete name (attributes el)) (listeners el))
  | None => el
  end.

Inductive Op :=
| SetAttribute (name value : string)
| RemoveAttribute (name : string)
| CreateEntity.

Definition step (el : Element) (op : Op) : Element :=
  match op with
  | SetAttribute name value => setAttribute name value el
  | RemoveAttribute name => removeAttribute name el
  | CreateEntity => createEntity el
  end.

Definition run (ops : list Op) (el : Element) : Element := fold_left step ops el.

(** The code a listener passes to [new Function] when it runs. *)
Definition code_of (el : Element) (l : Listener) : string :=
  match l with
  | FromCreate code => code
  | FromAttribute eventName => JS.or_empty (getAttribute eventName el)
  end.

(** The codes run, in order, when an event of the type is dispatched on
    the element. *)
Definition dispatched_code (type : string) (el : Element) : list string :=
  List.map (fun tl => code_of el (snd tl))
    (List.filter (fun tl => String.eqb (fst tl) type) (listeners el)).

Definition nonempty (codes : list string) : list string :=
  List.filter (fun c => negb (String.eqb c "")) codes.

(** The op leaves the attributes named like the event types alone. *)
Definition plain_op (op : Op) : bool :=
  match op with
  | SetAttribute name _ | RemoveAttribute name => negb (JS.includes pointerTypes name)
  | CreateEntity => true
  end.

Definition is_create (op : Op) : bool :=
  match op with CreateEntity => true | _ => false end.

(** No attribute is named like an event type, and the listeners made by
    [attributeChangedCallback] read attributes of such names. *)
Definition handlers_inv (el : Element) : Prop :=
  (forall t, In t pointerTypes -> attributes el !! t = None) /\
  (forall type ev, In (type, FromAttribute ev) (listeners el) -> In ev pointerTypes).

End EntityHandlers.

(** ** Script attributes: [ScriptComponentElement.convertAttributes]

    The argument is what [JSON.parse] made of the [attributes] string. An
    object of the argument is the list of its properties as [for...in]
    enumerates them. An object of the result is its prototype and the list
    of its own properties in the order of their creation. *)
Module ScriptAttributes.

#[local] Unset Elimination Schemes.

Inductive Json :=
| JNull
| JBool (b : bool)
| JNumber (n : Q)
| JString (s : string)
| JArray (items : list Json)
| JObject (fields : list (string * Json)).

Inductive Value :=
| VNull
| VBool (b : bool)
| VNumber (n : Q)
| VString (s : string)
| VArray (items : list Value)
| VObject (proto : Proto) (fields : list (string * Value))
(* an engine Asset or Entity, known by a number *)
| VAsset (asset : nat)
| VEntity (entity : nat)
| VVec2 (x y : Q)
| VVec3 (x y z : Q)
| VVec4 (x y z w : Q)
| VColor (r g b a : Q)
(* the prototype of an object made by [{}] *)
with Proto :=
| ObjectPrototype            (* [Object.prototype], as [{}] has it *)
| NullPrototype              (* [null] *)
| PrototypeOf (v : Value).   (* another object *)

#[local] Set Elimination Schemes.

(** What a [document.querySelector] call comes to: the selector is not
    valid and the call throws, no element matches, or the first matching
    element is found, whose [asset] or [entity] field is an object or null. *)
Inductive Lookup :=
| Throws
| NotFound
| Found (field : option nat).

(** What [result[key] = value] comes to for a key that is not an own
    property of [result]: an own property is created; the [__proto__]
    setter of [Object.prototype] runs; another inherited setter runs, or
    nothing is written; or the assignment throws (the code is strict: an
    inherited read-only property or an accessor without setter throws, and
    an inherited setter may throw). *)
Inductive Assignment := OwnProperty | PrototypeSetter | NoProperty | AssignThrows.

(** [key in] the own properties *)
Fixpoint has_key (key : string) (fields : list (string * Value)) : bool :=
  match fields with
  | [] => false
  | (k, _) :: rest => String.eqb k key || has_key key rest
  end.

(** A write to an own data property: in place when the property exists,
    a new last property otherwise. *)
Fixpoint set_property (key : string) (v : Value) (fields : list (string * Value))
  : list (string * Value) :=
  match fields with
  | [] => [(key, v)]
  | (k, x) :: rest =>
      if String.eqb k key then (k, v) :: rest else (k, x) :: set_property key v rest
  end.

(** The [__proto__] setter of [Object.prototype]: an object or [null]
    becomes the prototype, any other value is ignored. *)
Definition set_prototype (v : Value) (proto : Proto) : Proto :=
  match v with
  | VNull => NullPrototype
  | VBool _ | VNumber _ | VString _ => proto
  | _ => PrototypeOf v
  end.

Section Document.

(** [document.querySelector(`pc-asset#${assetId}`)] and
    [document.querySelector(`pc-entity[name="${entityId}"]`)] *)
Variable asset_element : string -> Lookup.
Variable entity_element : string -> Lookup.
(** [Number(s)], [None] for NaN *)
Variable Number : string -> option Q.
(** What an assignment to a property that [result] does not own comes to
    once the prototype of [result] is the object [o]: this depends on the
    properties of [o] and of its prototype chain, which for an engine
    object are the engine's business. *)
Variable inherited : Value -> string -> Assignment.

(** [item.slice(n)] *)
Definition slice (n : nat) (s : string) : string :=
  String.substring n (String.length s - n) s.

(** [item.slice(n).split(',').map(Number)] when no part is NaN *)
Definition numbers (n : nat) (item : string) : option (list Q) :=
  mapM Number (JS.split "," (slice n item)).

(** The [vec2:], [vec3:], [vec4:] and [color:] cases: the first prefix
    that the string starts with decides; a failed conversion returns the
    string. *)
Definition convert_vector (item : string) : Value :=
  let try2 :=
    if String.prefix "vec2:" item then
      match numbers 5 item with
      | Some [x; y] => Some (VVec2 x y)
      | _ => None
      end
    else None in
  let try3 :=
    if String.prefix "vec3:" item then
      match numbers 5 item with
      | Some [x; y; z] => Some (VVec3 x y z)
      | _ => None
      end
    else None in
  let try4 :=
    if String.prefix "vec4:" item then
      match numbers 5 item with
      | Some [x; y; z; w] => Some (VVec4 x y z w)
      | _ => None
      end
    else None in
  let tryc :=
    if String.prefix "color:" item then
      match numbers 6 item with
      | Some [r; g; b; a] => Some (VColor r g b a)
      | _ => None
      end
    else None in
  match try2, try3, try4, tryc with
  | Some v, _, _, _ => v
  | None, Some v, _, _ => v
  | None, None, Some v, _ => v
  | None, None, None, Some v => v
  | None, None, None, None => VString item
  end.

Definition field_value (field : option nat) (wrap : nat -> Value) : Value :=
  match field with
  | Some x => wrap x
  | None => VNull
  end.

(** The string case; [None] when a [querySelector] call throws. *)
Definition convert_string (item : string) : option Value :=
  let after_entity :=
    if String.prefix "entity:" item then
      match entity_element (slice 7 item) with
      | Throws => None
      | Found field => Some (field_value field VEntity)
      | NotFound => Some (convert_vector item)
      end
    else Some (convert_vector item) in
  if String.prefix "asset:" item then
    match asset_element (slice 6 item) with
    | Throws => None
    | Found field => Some (field_value field VAsset)
    | NotFound => after_entity
    end
  else after_entity.

(** How [result[key] = value] is resolved; [own] says whether [result]
    owns the property. [Object.prototype] holds one accessor,
    [__proto__]; its other properties are writable data properties. *)
Definition resolve (proto : Proto) (key : string) (own : bool) : Assignment :=
  if own then OwnProperty
  else match proto with
       | ObjectPrototype =>
           if String.eqb key "__proto__" then PrototypeSetter else OwnProperty
       | NullPrototype => OwnProperty
       | PrototypeOf o => inherited o key
       end.

(** [result[key] = value]; [None] when it throws. *)
Definition assign (key : string) (v : Value) (result : Proto * list (string * Value))
  : option (Proto * list (string * Value)) :=
  let '(proto, fields) := result in
  match resolve proto key (has_key key fields) with
  | OwnProperty => Some (proto, set_property key v fields)
  | PrototypeSetter => Some (set_prototype v proto, fields)
  | NoProperty => Some (proto, fields)
  | AssignThrows => None
  end.

Section Loop.

(** [this.convertAttributes] *)
Variable convert : Json -> option Value.

(** [for (const key in item) { result[key] = this.convertAttributes(item[key]); }]
    over the properties still to visit; [None] when a conversion or an
    assignment throws. *)
Fixpoint assign_each (l : list (string * Json)) (result : Proto * list (string * Value))
  : option (Proto * list (string * Value)) :=
  match l with
  | [] => Some result
  | (key, x) :: rest =>
      match convert x with
      | Some v =>
          match assign key v result with
          | Some result' => assign_each rest result'
          | None => None
          end
      | None => None
      end
  end.

(** The properties converted one by one, each under its key. *)
Fixpoint convert_fields (l : list (string * Json)) : option (list (string * Value)) :=
  match l with
  | [] => Some []
  | (key, x) :: rest =>
      match convert x with
      | Some v =>
          match convert_fields rest with
          | Some vs => Some ((key, v) :: vs)
          | None => None
          end
      | None => None
      end
  end.

End Loop.

(** [convertAttributes(item)]; [None] when it throws. *)
Fixpoint convertAttributes (item : Json) : option Value :=
  match item with
  | JNull => Some VNull
  | JBool b => Some (VBool b)
  | JNumber n => Some (VNumber n)
  | JString s => convert_string s
  | JArray items =>
      let fix each (l : list Json) : option (list Value) :=
        match l with
        | [] => Some []
        | x :: rest =>
            match convertAttributes x with
            | Some v =>
                match each rest with
                | Some vs => Some (v :: vs)
                | None => None
                end
            | None => None
            end
        end in
      match each items with
      | Some vs => Some (VArray vs)
      | None => None
      end
  | JObject fields =>
      (* const result = {}; for (const key in item) ...; return result; *)
      match assign_each convertAttributes fields (ObjectPrototype, []) with
      | Some (proto, vs) => Some (VObject proto vs)
      | None => None
      end
  end.

End Document.

(** The value is what a string may turn into: the string itself or an
    engine object, a vector, a color or null; never an array or a plain
    object. *)
Definition string_or_leaf (s : string) (v : Value) : Prop :=
  match v with
  | VString s' => s' = s
  | VArray _ | VObject _ _ | VBool _ | VNumber _ => False
  | _ => True
  end.

(** The value has the shape of the parsed attributes: the same arrays,
    the same objects with the prototype of [{}] and the same keys in the
    same order, the same numbers, booleans and nulls; only strings may
    have been replaced. *)
Fixpoint same_shape (item : Json) (v : Value) : Prop :=
  match item, v with
  | JNull, VNull => True
  | JBool b, VBool b' => b = b'
  | JNumber n, VNumber n' => n = n'
  | JString s, _ => string_or_leaf s v
  | JArray items, VArray vs =>
      (fix each (l : list Json) (l' : list Value) : Prop :=
         match l, l' with
         | [], [] => True
         | x :: rest, x' :: rest' => same_shape x x' /\ each rest rest'
         | _, _ => False
         end) items vs
  | JObject fields, VObject proto vs =>
      proto = ObjectPrototype /\
      (fix each (l : list (string * Json)) (l' : list (string * Value)) : Prop :=
         match l, l' with
         | [], [] => True
         | (k, x) :: rest, (k', x') :: rest' => k = k' /\ same_shape x x' /\ each rest rest'
         | _, _ => False
         end) fields vs
  | _, _ => False
  end.

(** No string of the item names an asset or an entity. *)
Fixpoint no_lookup (item : Json) : Prop :=
  match item with
  | JString s => String.prefix "asset:" s = false /\ String.prefix "entity:" s = false
  | JArray items =>
      (fix each (l : list Json) : Prop :=
         match l with
         | [] => True
         | x :: rest => no_lookup x /\ each rest
         end) items
  | JObject fields =>
      (fix each (l : list (string * Json)) : Prop :=
         match l with
         | [] => True
         | (_, x) :: rest => no_lookup x /\ each rest
         end) fields
  | _ => True
  end.

(** No key occurs twice. *)
Fixpoint distinct (keys : list string) : bool :=
  match keys with
  | [] => true
  | k :: rest => negb (JS.includes rest k) && distinct rest
  end.

(** Every object of the item lists each of its keys once, as [for...in]
    does, and none of its keys is [__proto__]. *)
Fixpoint ordinary_keys (item : Json) : bool :=
  match item with
  | JArray items =>
      (fix each (l : list Json) : bool :=
         match l with
         | [] => true
         | x :: rest => ordinary_keys x && each rest
         end) items
  | JObject fields =>
      distinct (List.map fst fields) &&
      negb (JS.includes (List.map fst fields) "__proto__") &&
      (fix each (l : list (string * Json)) : bool :=
         match l with
         | [] => true
         | (_, x) :: rest => ordinary_keys x && each rest
         end) fields
  | _ => true
  end.

End ScriptAttributes.

(** ** Unpacking the decoder's WebAssembly module

    [unpack(data)] of the bundled mesh decoder turns the packed text of the
    module into bytes. Its second loop decodes the bytes of the first loop
    in place, in the same array. Character codes and bytes are integers. *)
Module Unpack.

Local Open Scope Z_scope.

Definition wasmpack : list Z :=
  [32; 0; 65; 2; 1; 106; 34; 33; 3; 128; 11; 4; 13; 64; 6; 253; 10; 7; 15; 116;
   127; 5; 8; 12; 40; 16; 19; 54; 20; 9; 27; 255; 113; 17; 42; 67; 24; 23; 146; 148;
   18; 14; 22; 45; 70; 69; 56; 114; 101; 21; 25; 63; 75; 136; 108; 28; 118; 29; 73; 115].

(** [wasmpack[b]] for a byte below 60 *)
Definition wasmpack_at (b : Z) : Z := nth (Z.to_nat b) wasmpack 0.

(** A number stored in a [Uint8Array]. *)
Definition to_uint8 (v : Z) : Z := v mod 256.

(** The first loop: [ch > 96 ? ch - 97 : ch > 64 ? ch - 39 : ch + 4] *)
Definition first_pass (ch : Z) : Z :=
  to_uint8 (if 96 <? ch then ch - 97 else if 64 <? ch then ch - 39 else ch + 4).

(** [(result[i] - 60) * 64 + result[++i]]: past the end the second byte
    is undefined, the sum NaN, and the byte stored 0. *)
Definition escaped (b : Z) (next : option Z) : Z :=
  match next with
  | Some c => to_uint8 ((b - 60) * 64 + c)
  | None => 0
  end.

(** The second loop from the indices [i] and [write] on: [fuel] bounds the
    iterations left; the array is read at [i] and [i + 1] and then written
    at [write]. *)
Fixpoint second_pass (fuel i write : nat) (result : list Z) : nat * list Z :=
  match fuel with
  | O => (write, result)
  | S fuel' =>
      match result !! i with
      | None => (write, result)
      | Some b =>
          if b <? 60
          then second_pass fuel' (S i) (S write) (<[write := wasmpack_at b]> result)
          else second_pass fuel' (S (S i)) (S write)
                 (<[write := escaped b (result !! S i)]> result)
      end
  end.

(** [unpack(data)], given the character codes of [data]: the bytes of
    [result.buffer.slice(0, write)]. *)
Definition unpack (data : list Z) : list Z :=
  let result := List.map first_pass data in
  let '(write, result') := second_pass (length data) 0 0 result in
  take write result'.

(** Decoding a list of first-loop bytes into a list of its own. *)
Fixpoint decode (bytes : list Z) : list Z :=
  match bytes with
  | [] => []
  | b :: rest =>
      if b <? 60 then wasmpack_at b :: decode rest
      else
        match rest with
        | c :: rest' => escaped b (Some c) :: decode rest'
        | [] => [escaped b None]
        end
  end.

End Unpack.

(** ** The properties of a pc-entity element and the entity it creates

    The element keeps every property in a field of its own; a setter
    forwards the value to the entity when there is one. [createEntity]
    takes the values for the new entity from the attributes. What is
    recorded is the sequence of engine calls made on the element's entity. *)
Module EntityProps.

(** [String.prototype.trim] on the ASCII range. *)
Definition is_space (c : ascii) : bool :=
  let n := nat_of_ascii c in
  (Nat.eqb n 32 || (Nat.leb 9 n && Nat.leb n 13))%bool.

Fixpoint trim_start (s : string) : string :=
  match s with
  | String c rest => if is_space c then trim_start rest else s
  | EmptyString => s
  end.

Definition reverse (s : string) : string :=
  string_of_list_ascii (List.rev (list_ascii_of_string s)).

Definition trim (s : string) : string := reverse (trim_start (reverse (trim_start s))).

Section Numbers.

Context {num : Type}.
Variable Number : string -> num.
Variable zero : num.

Inductive Call :=
| NewEntity (name : string)
| SetEnabled (value : bool)
| SetName (value : string)
| SetLocalPosition (value : @Parse.Vec3 num)
| SetLocalEulerAngles (value : @Parse.Vec3 num)
| SetLocalScale (value : @Parse.Vec3 num)
| TagsClear
| TagsAdd (tags : list string).

Record Element := mkElement {
  attributes : gmap string string;
  _enabled : bool;
  _name : string;
  _position : @Parse.Vec3 num;
  _rotation : @Parse.Vec3 num;
  _scale : @Parse.Vec3 num;
  _tags : list string;
  (** [this.entity] is set *)
  entity : bool;
  calls : list Call
}.

Variable one : num.

(** [new EntityElement()], with the attributes of the markup *)
Definition constructor (attrs : gmap string string) : Element :=
  mkElement attrs true "Untitled"
    (Parse.mkVec3 (Parse.FNum zero) (Parse.FNum zero) (Parse.FNum zero))
    (Parse.mkVec3 (Parse.FNum zero) (Parse.FNum zero) (Parse.FNum zero))
    (Parse.mkVec3 (Parse.FNum one) (Parse.FNum one) (Parse.FNum one))
    [] false [].

Definition forward (cs : list Call) (el : Element) : list Call :=
  if entity el then calls el ++ cs else calls el.

(** An assignment to a property of the element. *)
Inductive Assign :=
| AssignEnabled (value : bool)
| AssignName (value : string)
| AssignPosition (value : @Parse.Vec3 num)
| AssignRotation (value : @Parse.Vec3 num)
| AssignScale (value : @Parse.Vec3 num)
| AssignTags (value : list string).

(** The setters of the six properties. *)
Definition assign (el : Element) (a : Assign) : Element :=
  match a with
  | AssignEnabled v =>
      mkElement (attributes el) v (_name el) (_position el) (_rotation el) (_scale el)
        (_tags el) (entity el) (forward [SetEnabled v] el)
  | AssignName v =>
      mkElement (attributes el) (_enabled el) v (_position el) (_rotation el) (_scale el)
        (_tags el) (entity el) (forward [SetName v] el)
  | AssignPosition v =>
      mkElement (attributes el) (_enabled el) (_name el) v (_rotation el) (_scale el)
        (_tags el) (entity el) (forward [SetLocalPosition v] el)
  | AssignRotation v =>
      mkElement (attributes el) (_enabled el) (_name el) (_position el) v (_scale el)
        (_tags el) (entity el) (forward [SetLocalEulerAngles v] el)
  | AssignScale v =>
      mkElement (attributes el) (_enabled el) (_name el) (_position el) (_rotation el) v
        (_tags el) (entity el) (forward [SetLocalScale v] el)
  | AssignTags v =>
      mkElement (attributes el) (_enabled el) (_name el) (_position el) (_rotation el)
        (_scale el) v (entity el) (forward [TagsClear; TagsAdd v] el)
  end.

Definition assign_all (l : list Assign) (el : Element) : Element := fold_left assign l el.

(** The calls [createEntity] makes for an attribute that is set and not
    empty. *)
Definition when_set (name : string) (el : Element) (call : string -> Call) : list Call :=
  match attributes el !! name with
  | Some v => if JS.truthy (Some v) then [call v] else []
  | None => []
  end.

(** [createEntity(app)] without its pointer handlers. *)
Definition createEntity (el : Element) : Element :=
  let name :=
    if JS.truthy (attributes el !! "name")
    then JS.or_empty (attributes el !! "name")
    else _name el in
  mkElement (attributes el) (_enabled el) (_name el) (_position el) (_rotation el)
    (_scale el) (_tags el) true
    (calls el
       ++ [NewEntity name]
       ++ when_set "enabled" el (fun v => SetEnabled (JS.strict_neq v "false"))
       ++ when_set "position" el (fun v => SetLocalPosition (Parse.parseVec3 Number zero v))
       ++ when_set "rotation" el
            (fun v => SetLocalEulerAngles (Parse.parseVec3 Number zero v))
       ++ when_set "scale" el (fun v => SetLocalScale (Parse.parseVec3 Number zero v))
       ++ when_set "tags" el (fun v => TagsAdd (List.map trim (JS.split "," v)))).

Definition is_name (a : Assign) : bool :=
  match a with AssignName _ => true | _ => false end.

(** Two elements without entity that agree on what [createEntity]
    reads. *)
Definition alike (e1 e2 : Element) : Prop :=
  attributes e1 = attributes e2 /\ _name e1 = _name e2 /\
  entity e1 = false /\ entity e2 = false /\ calls e1 = [] /\ calls e2 = [].

End Numbers.

End EntityProps.

(** * Properties *)

(** ** Helper facts about the JavaScript primitives *)

Lemma includes_In (xs : list string) (v : string) : JS.includes xs v = true <-> In v xs.
Proof.
  induction xs as [|x rest IH]; simpl.
  - split; [discriminate | tauto].
  - destruct (String.eqb x v) eqn:E.
    + apply String.eqb_eq in E. split; auto.
    + apply String.eqb_neq in E. rewrite IH. split; [auto | intros [H|H]; congruence].
Qed.

Lemma includes_false (xs : list string) (v : string) : ~ In v xs -> JS.includes xs v = false.
Proof.
  intros H. destruct (JS.includes xs v) eqn:E; [|reflexivity].
  apply includes_In in E. contradiction.
Qed.

Lemma strict_neq_true (a b : string) : a <> b -> JS.strict_neq a b = true.
Proof.
  intros H. unfold JS.strict_neq. apply negb_true_iff. now apply String.eqb_neq.
Qed.

(** ** The light type setter *)

(** C4: for every pc-light element and every string that is not one of
    'directional', 'omni', 'spot', assigning it to the [type] property logs
    one console warning and changes nothing else: the element (its stored
    type included), the engine objects (the light component's type
    included) and the engine call log are as before. *)
Theorem light_invalid_type_changes_nothing
    (value : string) (el : LightComponentElement.t) (w : World) :
  ~ In value ["directional"; "omni"; "spot"] ->
  exists el' w' msg,
    LightComponentElement.set_type value el w = (el', w') /\
    el' = el /\
    LightComponentElement.type el' = LightComponentElement.type el /\
    LightComponentElement.engine_type el' w' = LightComponentElement.engine_type el w /\
    heap w' = heap w /\
    calls w' = calls w /\
    console w' = console w ++ [msg].
Proof.
  intros Hnot.
  unfold LightComponentElement.set_type.
  rewrite (includes_false LightComponentElement.light_types value Hnot). simpl.
  eexists _, _, _. split; [reflexivity|].
  repeat split; reflexivity.
Qed.

Lemma light_invalid_type_changes_nothing_witness :
  exists el' w' msg,
    LightComponentElement.set_type "point"
      (LightComponentElement.with_type "spot" LightComponentElement.constructor)
      (mkWorld ∅ [] []) = (el', w') /\
    el' = LightComponentElement.with_type "spot" LightComponentElement.constructor /\
    LightComponentElement.type el' = "spot" /\
    LightComponentElement.engine_type el' w' = None /\
    heap w' = ∅ /\
    calls w' = [] /\
    console w' = [] ++ [msg].
Proof.
  apply (light_invalid_type_changes_nothing "point"
           (LightComponentElement.with_type "spot" LightComponentElement.constructor)
           (mkWorld ∅ [] [])).
  simpl. intros [H|[H|[H|H]]]; try discriminate H; exact H.
Defined.

(** ** The enabled attribute *)

(** C7: for every component element class and every string value of the
    'enabled' attribute, [attributeChangedCallback] sets the element's
    enabled property to [value !== 'false'] and leaves the subclass's own
    fields alone; when the engine component exists it makes exactly one
    engine call, the component's enabled setter with that boolean, and
    without a component it makes none; every string other than 'false'
    gives [true]. *)
Theorem enabled_attribute_forwarded {Fields : Type}
    (own_setter : ComponentKind -> string -> option string ->
                  ComponentElement.t * Fields -> World ->
                  (ComponentElement.t * Fields) * World)
    (k : ComponentKind) (oldValue : option string) (value : string)
    (el : ComponentElement.t * Fields) (w : World) :
  exists base' w',
    Subclass.attributeChangedCallback own_setter k "enabled" oldValue (Some value) el w
      = ((base', snd el), w') /\
    ComponentElement._enabled base' = JS.strict_neq value "false" /\
    ComponentElement.component base' = ComponentElement.component (fst el) /\
    (forall c obj,
        ComponentElement.component (fst el) = Some c -> heap w !! c = Some obj ->
        calls w' = calls w ++ [CallSetEnabled c (JS.strict_neq value "false")] /\
        heap w' = <[c := mkEngineComponent (comp_entity obj) (JS.strict_neq value "false")
                                          (comp_type obj)]> (heap w)) /\
    (ComponentElement.component (fst el) = None -> w' = w) /\
    (value <> "false" -> ComponentElement._enabled base' = true).
Proof.
  unfold Subclass.attributeChangedCallback, ComponentElement.attributeChangedCallback.
  simpl String.eqb. cbv iota.
  assert (Hcases : JS.includes (subclass_cases k) "enabled" = false)
    by (destruct k; vm_compute; reflexivity).
  unfold ComponentElement.set_enabled, ComponentElement.component. simpl.
  destruct el as [base fields]. simpl.
  destruct (ComponentElement._component base) as [c|] eqn:Hc.
  - destruct (heap w !! c) as [obj|] eqn:Hobj; rewrite Hcases;
      eexists _, _; (split; [reflexivity|]); simpl;
      (split; [reflexivity|]); (split; [exact Hc|]);
      (split; [|split; [discriminate | apply strict_neq_true]]).
    + intros c' obj' Hc' Hobj'. injection Hc' as <-.
      rewrite Hobj in Hobj'. injection Hobj' as <-. split; reflexivity.
    + intros c' obj' Hc' Hobj'. injection Hc' as <-. congruence.
  - rewrite Hcases. eexists _, _. split; [reflexivity|]. simpl.
    split; [reflexivity|]. split; [exact Hc|].
    split; [discriminate|]. split; [reflexivity | apply strict_neq_true].
Qed.

Lemma enabled_attribute_forwarded_witness :
  exists base' w',
    Subclass.attributeChangedCallback (Fields := unit) (fun _ _ _ el w => (el, w))
      LightComponent "enabled" None (Some "False")
      (ComponentElement.mk false (Some 1%positive) "light", tt)
      (mkWorld {[1%positive := mkEngineComponent (Some 7%positive) false "omni"]} [] [])
      = ((base', tt), w') /\
    ComponentElement._enabled base' = true /\
    calls w' = [CallSetEnabled 1%positive true].
Proof.
  destruct (enabled_attribute_forwarded (Fields := unit) (fun _ _ _ el w => (el, w))
              LightComponent None "False"
              (ComponentElement.mk false (Some 1%positive) "light", tt)
              (mkWorld {[1%positive := mkEngineComponent (Some 7%positive) false "omni"]} [] []))
    as (base' & w' & Hrun & _ & _ & Hcall & _ & Hon).
  exists base', w'. split; [exact Hrun|]. split.
  - apply Hon. discriminate.
  - destruct (Hcall 1%positive (mkEngineComponent (Some 7%positive) false "omni")) as [Hc _].
    + reflexivity.
    + simpl. apply lookup_singleton_eq.
    + exact Hc.
Defined.

(** ** Disconnection of a component element *)




(** ** Unsupported assets *)

Lemma add_assets_app (xs ys : list AssetElement.t) (st : AssetElement.LoopState) :
  AssetElement.add_assets (xs ++ ys) st
  = AssetElement.add_assets ys (AssetElement.add_assets xs st).
Proof. unfold AssetElement.add_assets. apply fold_left_app. Qed.

(** The assets an element contributes do not depend on the console. *)
Lemma createAsset_console (el : AssetElement.t) (c1 c2 : list string) :
  fst (AssetElement.createAsset el c1) = fst (AssetElement.createAsset el c2).
Proof.
  unfold AssetElement.createAsset.
  destruct (negb (JS.truthy _)); reflexivity.
Qed.

Lemma visit_registry (st1 st2 : AssetElement.LoopState) (el : AssetElement.t) :
  AssetElement.registry st1 = AssetElement.registry st2 ->
  AssetElement.registry (AssetElement.visit st1 el)
  = AssetElement.registry (AssetElement.visit st2 el).
Proof.
  intros H. unfold AssetElement.visit.
  pose proof (createAsset_console el (AssetElement.loop_console st1)
                (AssetElement.loop_console st2)) as Hel.
  destruct (AssetElement.createAsset el (AssetElement.loop_console st1)) as [e1 k1].
  destruct (AssetElement.createAsset el (AssetElement.loop_console st2)) as [e2 k2].
  simpl in Hel. subst e2.
  destruct (AssetElement.asset e1); simpl; congruence.
Qed.

Lemma add_assets_registry (els : list AssetElement.t) (st1 st2 : AssetElement.LoopState) :
  AssetElement.registry st1 = AssetElement.registry st2 ->
  AssetElement.registry (AssetElement.add_assets els st1)
  = AssetElement.registry (AssetElement.add_assets els st2).
Proof.
  revert st1 st2. induction els as [|el rest IH]; intros st1 st2 H; simpl.
  - exact H.
  - apply IH. now apply visit_registry.
Qed.

Lemma add_assets_visited_length (els : list AssetElement.t) (st : AssetElement.LoopState) :
  length (AssetElement.visited (AssetElement.add_assets els st))
  = length (AssetElement.visited st) + length els.
Proof.
  revert st. induction els as [|el rest IH]; intros st; simpl.
  - lia.
  - unfold AssetElement.add_assets in IH. rewrite IH.
    unfold AssetElement.visit.
    destruct (AssetElement.createAsset el (AssetElement.loop_console st)) as [e1 k1].
    destruct (AssetElement.asset e1); simpl; rewrite length_app; simpl; lia.
Qed.

(** C3: a pc-asset element with no [type] attribute whose [src] ends in
    an extension that the extension-to-type map does not have: [createAsset]
    logs the warning and returns with the element as it was (its asset is
    still null); the asset loop of the app visits every element all the
    same, adds nothing for this one, and adds for the others exactly what it
    adds without it. Nothing is thrown: the functions have no failing
    result. *)
Theorem unsupported_asset_is_skipped
    (el : AssetElement.t) (src : string)
    (before after : list AssetElement.t) (st : AssetElement.LoopState) :
  AssetElement.getAttribute "type" el = None ->
  AssetElement.getAttribute "src" el = Some src ->
  AssetElement.extToType !! JS.or_empty (AssetElement.extension src) = None ->
  AssetElement.asset el = None ->
  (forall console,
      AssetElement.createAsset el console
      = (el, console ++ [("Unsupported asset type: " ++ src)%string])) /\
  AssetElement.asset (fst (AssetElement.createAsset el (AssetElement.loop_console st))) = None /\
  (let st1 := AssetElement.add_assets before st in
   AssetElement.add_assets (before ++ el :: after) st
   = AssetElement.add_assets after
       (AssetElement.mkLoop
          (AssetElement.visited st1 ++ [el])
          (AssetElement.registry st1)
          (AssetElement.loop_console st1 ++ [("Unsupported asset type: " ++ src)%string]))) /\
  AssetElement.registry (AssetElement.add_assets (before ++ el :: after) st)
  = AssetElement.registry (AssetElement.add_assets (before ++ after) st) /\
  length (AssetElement.visited (AssetElement.add_assets (before ++ el :: after) st))
  = length (AssetElement.visited st) + length (before ++ el :: after).
Proof.
  intros Htype Hsrc Hext Hasset.
  assert (Hcreate : forall console,
             AssetElement.createAsset el console
             = (el, console ++ [("Unsupported asset type: " ++ src)%string])).
  { intros console. unfold AssetElement.createAsset, AssetElement.resolve_type.
    rewrite Htype, Hsrc. simpl JS.truthy. cbv iota.
    assert (Hs : JS.or_empty (Some src) = src) by (destruct src; reflexivity).
    rewrite Hs, Hext. reflexivity. }
  assert (Hvisit : forall s,
             AssetElement.visit s el
             = AssetElement.mkLoop (AssetElement.visited s ++ [el]) (AssetElement.registry s)
                 (AssetElement.loop_console s ++ [("Unsupported asset type: " ++ src)%string])).
  { intros s. unfold AssetElement.visit. rewrite Hcreate, Hasset. reflexivity. }
  split; [exact Hcreate|]. split; [rewrite Hcreate; exact Hasset|]. split; [|split].
  - cbv zeta. rewrite add_assets_app. simpl. rewrite Hvisit. reflexivity.
  - rewrite !add_assets_app. simpl. rewrite Hvisit.
    apply add_assets_registry. reflexivity.
  - apply add_assets_visited_length.
Qed.

Lemma unsupported_asset_is_skipped_witness :
  let fbx := AssetElement.mk {["id" := "m"; "src" := "models/robot.fbx"]} false None in
  let png := AssetElement.mk {["id" := "t"; "src" := "wood.png"]} false None in
  let glb := AssetElement.mk {["id" := "g"; "src" := "car.glb"]} true None in
  AssetElement.createAsset fbx [] = (fbx, ["Unsupported asset type: models/robot.fbx"]) /\
  List.map AssetElement.asset_name
    (AssetElement.registry
       (AssetElement.add_assets [png; fbx; glb] (AssetElement.mkLoop [] [] [])))
  = ["t"; "g"].
Proof.
  intros fbx png glb.
  destruct (unsupported_asset_is_skipped fbx "models/robot.fbx" [png] [glb]
              (AssetElement.mkLoop [] [] []))
    as (Hcreate & _ & _ & Hreg & _).
  - vm_compute. reflexivity.
  - vm_compute. reflexivity.
  - vm_compute. reflexivity.
  - reflexivity.
  - split.
    + apply (Hcreate []).
    + change ([png; fbx; glb]) with ([png] ++ fbx :: [glb]).
      rewrite Hreg. vm_compute. reflexivity.
Defined.

(** ** The attribute parsers *)

Lemma split_no_sep (sep : ascii) (s : string) :
  Parse.all_chars (fun c => negb (Ascii.eqb c sep)) s = true ->
  JS.split sep s = [s].
Proof.
  induction s as [|c rest IH]; simpl; intros H.
  - reflexivity.
  - apply andb_true_iff in H as [Hc Hrest].
    apply negb_true_iff in Hc. rewrite Hc, (IH Hrest). reflexivity.
Qed.

Lemma split_append (sep : ascii) (s t : string) :
  Parse.all_chars (fun c => negb (Ascii.eqb c sep)) s = true ->
  JS.split sep (s ++ String sep t)%string = s :: JS.split sep t.
Proof.
  induction s as [|c rest IH]; simpl; intros H.
  - rewrite Ascii.eqb_refl. reflexivity.
  - apply andb_true_iff in H as [Hc Hrest].
    apply negb_true_iff in Hc. rewrite Hc, (IH Hrest). reflexivity.
Qed.

Lemma all_chars_weaken (p q : ascii -> bool) (s : string) :
  (forall c, p c = true -> q c = true) ->
  Parse.all_chars p s = true -> Parse.all_chars q s = true.
Proof.
  intros Hpq. induction s as [|c rest IH]; simpl; intros H.
  - reflexivity.
  - apply andb_true_iff in H as [Hc Hrest].
    rewrite (Hpq c Hc), (IH Hrest). reflexivity.
Qed.

Lemma literal_char_not_space (c : ascii) :
  Parse.literal_char c = true -> negb (Ascii.eqb c " ") = true.
Proof.
  intros H. apply negb_true_iff. apply Ascii.eqb_neq. intros ->.
  vm_compute in H. discriminate.
Qed.

Lemma decimal_literal_no_space (s : string) :
  Parse.decimal_literal s = true ->
  Parse.all_chars (fun c => negb (Ascii.eqb c " ")) s = true.
Proof.
  unfold Parse.decimal_literal. intros H.
  apply andb_true_iff in H as [_ H].
  revert H. apply all_chars_weaken. exact literal_char_not_space.
Qed.

(** The first half of C6: on three decimal number literals separated by
    single spaces, [parseVec3] returns the Vec3 whose components are the three
    converted numbers, in order. *)
Lemma parseVec3_three_literals {num : Type} (Number : string -> num) (zero : num)
    (sx sy sz : string) :
  Parse.decimal_literal sx = true ->
  Parse.decimal_literal sy = true ->
  Parse.decimal_literal sz = true ->
  Parse.parseVec3 Number zero (sx ++ " " ++ sy ++ " " ++ sz)%string
  = Parse.mkVec3 (Parse.FNum (Number sx)) (Parse.FNum (Number sy)) (Parse.FNum (Number sz)).
Proof.
  intros Hx Hy Hz. unfold Parse.parseVec3.
  change (sx ++ " " ++ sy ++ " " ++ sz)%string
    with (sx ++ String " " (sy ++ String " " sz))%string.
  rewrite (split_append " " sx _ (decimal_literal_no_space sx Hx)).
  rewrite (split_append " " sy _ (decimal_literal_no_space sy Hy)).
  rewrite (split_no_sep " " sz (decimal_literal_no_space sz Hz)).
  reflexivity.
Qed.

Lemma parseVec3_three_literals_witness :
  Parse.parseVec3 Parse.digits_Number None "1 20 300"
  = Parse.mkVec3 (Parse.FNum (Some 1%N)) (Parse.FNum (Some 20%N)) (Parse.FNum (Some 300%N)).
Proof.
  apply (parseVec3_three_literals Parse.digits_Number None "1" "20" "300"); reflexivity.
Defined.

(** [parseColor] follows the spec's three steps on every string whose
    lower-case form is not the name of a property that the colour table
    inherits. *)
Lemma parseColor_follows_spec {num : Type} (Number : string -> num) (value : string) :
  Parse.Object_prototype (JS.toLowerCase value) = Parse.VUndefined ->
  Parse.parseColor Number value = Parse.parseColor_spec Number value.
Proof.
  intros Hproto. unfold Parse.parseColor, Parse.parseColor_spec, Parse.CSS_COLORS_get.
  destruct (Parse.CSS_COLORS !! JS.toLowerCase value) as [hex|] eqn:Hlook.
  - assert (Hne : Parse.truthy (Parse.VString hex) = true).
    { assert (Hall : map_Forall (fun _ h => Parse.truthy (Parse.VString h) = true)
                       Parse.CSS_COLORS).
      { apply map_Forall_to_list. vm_compute.
        repeat (apply Forall_cons; split; [reflexivity|]). apply Forall_nil. constructor. }
      exact (Hall _ _ Hlook). }
    rewrite Hne. reflexivity.
  - rewrite Hproto. reflexivity.
Qed.

(** C6: [parseVec3] does what the claim says ([parseVec3_three_literals]),
    and [parseColor] follows the three steps of the claim on every string
    but the names that the colour table inherits
    ([parseColor_follows_spec]). On 'constructor', which is no CSS colour
    name and does not start with '#', the table read finds the inherited
    property, a function, and [parseColor] hands it to [fromString] where
    the claim has the string split into numeric components. *)
Theorem parseColor_inherited_name {num : Type} (Number : string -> num) :
  Parse.CSS_COLORS !! JS.toLowerCase "constructor" = None /\
  JS.startsWith "constructor" "#" = false /\
  Parse.parseColor Number "constructor"
    = Parse.Color_fromString (Parse.VFunction "constructor") /\
  Parse.parseColor_spec Number "constructor" = Parse.Color_new [Number "constructor"] /\
  Parse.parseColor Number "constructor" <> Parse.parseColor_spec Number "constructor".
Proof.
  assert (Hlook : Parse.CSS_COLORS !! JS.toLowerCase "constructor" = None)
    by (vm_compute; reflexivity).
  assert (Hcode : Parse.parseColor Number "constructor"
                  = Parse.Color_fromString (Parse.VFunction "constructor")).
  { unfold Parse.parseColor, Parse.CSS_COLORS_get. rewrite Hlook. reflexivity. }
  assert (Hspec : Parse.parseColor_spec Number "constructor"
                  = Parse.Color_new [Number "constructor"]).
  { unfold Parse.parseColor_spec. rewrite Hlook. reflexivity. }
  split; [exact Hlook|]. split; [reflexivity|]. split; [exact Hcode|].
  split; [exact Hspec|]. rewrite Hcode, Hspec. discriminate.
Qed.

(** ** Wheel zoom *)

Section ZoomRange.

Local Open Scope Q_scope.

Lemma clamp_in_range (lo hi x : Q) :
  lo <= hi ->
  lo <= FrameScene.Math_max lo (FrameScene.Math_min hi x) /\
  FrameScene.Math_max lo (FrameScene.Math_min hi x) <= hi.
Proof.
  intros Hlh. unfold FrameScene.Math_max, FrameScene.Math_min.
  destruct (Qle_bool hi x) eqn:E1.
  - destruct (Qle_bool lo hi) eqn:E2.
    + split; [exact Hlh | apply Qle_refl].
    + split; [apply Qle_refl | exact Hlh].
  - destruct (Qle_bool lo x) eqn:E2.
    + apply Qle_bool_iff in E2. split; [exact E2|].
      destruct (Qlt_le_dec x hi) as [Hlt|Hge].
      * apply Qlt_le_weak. exact Hlt.
      * apply Qle_bool_iff in Hge. congruence.
    + split; [apply Qle_refl | exact Hlh].
Qed.

Variable fl : Q -> Q.

Lemma initialize_bounds (r0 : bool) : FrameScene.bounds_set (FrameScene.initialize fl r0).
Proof. unfold FrameScene.bounds_set. split; reflexivity. Qed.

Lemma handleWheel_bounds (s : FrameScene.t) (ev : FrameScene.WheelInput) :
  FrameScene.bounds_set s -> FrameScene.bounds_set (FrameScene.handleWheel fl s ev).
Proof.
  unfold FrameScene.bounds_set. intros [Hmin Hmax]. unfold FrameScene.handleWheel.
  destruct (FrameScene.targetDistance s); [|destruct (FrameScene.aabb ev) as [[sz ctr]|]];
    simpl; auto.
Qed.

Lemma wheels_bounds (events : list FrameScene.WheelInput) (s : FrameScene.t) :
  FrameScene.bounds_set s -> FrameScene.bounds_set (FrameScene.wheels fl events s).
Proof.
  revert s. induction events as [|ev rest IH]; intros s H; simpl.
  - exact H.
  - apply IH. now apply handleWheel_bounds.
Qed.

Lemma handleWheel_in_range (s : FrameScene.t) (ev : FrameScene.WheelInput) :
  FrameScene.bounds_set s ->
  FrameScene.in_zoom_range (FrameScene.targetDistance (FrameScene.handleWheel fl s ev)).
Proof.
  unfold FrameScene.bounds_set. intros [Hmin Hmax].
  unfold FrameScene.handleWheel, FrameScene.in_zoom_range.
  assert (Hlh : 1 # 2 <= 50) by (unfold Qle; simpl; lia).
  destruct (FrameScene.targetDistance s) as [d|] eqn:Ht;
    [|destruct (FrameScene.aabb ev) as [[sz ctr]|]]; simpl;
    try rewrite Ht; rewrite ?Hmin, ?Hmax;
    eexists; (split; [reflexivity|]); apply clamp_in_range; exact Hlh.
Qed.

End ZoomRange.

(** C8: after [initialize], every invocation of [handleWheel] (the first
    one, which sets the distances up, included) leaves [targetDistance] a
    number in the closed interval from 0.5 to 50, whatever the wheel
    events, the bounding box of the scene and the rounding of the
    arithmetic are. *)
Theorem wheel_target_stays_in_range (fl : Q -> Q) (renderNextFrame0 : bool)
    (events : list FrameScene.WheelInput) (ev : FrameScene.WheelInput) :
  FrameScene.in_zoom_range
    (FrameScene.targetDistance
       (FrameScene.wheels fl (events ++ [ev]) (FrameScene.initialize fl renderNextFrame0))).
Proof.
  unfold FrameScene.wheels. rewrite fold_left_app. simpl.
  apply handleWheel_in_range.
  apply wheels_bounds. apply initialize_bounds.
Qed.

(** ** Entering and leaving immersive AR *)




(** ** Connection of a component element *)

Section AsyncFacts.

Variable kindOf : Async.elem -> ComponentKind.
Variable ready0 : gset Async.elem.

Lemma resolved_before_snoc (tr : list Async.Event) (ev : Async.Event) (n : nat) (x : Async.elem) :
  Async.resolved_before ready0 tr n x -> Async.resolved_before ready0 (tr ++ [ev]) n x.
Proof.
  intros [H|(j & Hj & Hev)]; [left; exact H|].
  right. exists j. split; [exact Hj|]. now apply lookup_app_l_Some.
Qed.

Lemma resolved_before_mono (tr : list Async.Event) (n m : nat) (x : Async.elem) :
  n <= m -> Async.resolved_before ready0 tr n x -> Async.resolved_before ready0 tr m x.
Proof.
  intros Hle [H|(j & Hj & Hev)]; [left; exact H|].
  right. exists j. split; [lia | exact Hev].
Qed.

Lemma task_inv_snoc (tr : list Async.Event) (ev : Async.Event) (i : nat)
    (el : Async.elem) (p : Async.pc) :
  Async.task_inv ready0 tr i el p -> Async.task_inv ready0 (tr ++ [ev]) i el p.
Proof.
  destruct p as [app|e| | |]; simpl; auto.
  - intros (k & Hk). exists k. now apply lookup_app_l_Some.
  - intros (k & m & app & Hkm & Hk & Hm & Happ).
    exists k, m, app. split; [exact Hkm|].
    split; [now apply lookup_app_l_Some|]. split; [now apply lookup_app_l_Some|].
    intros a Ha. apply resolved_before_snoc. now apply Happ.
Qed.

Lemma added_after_both_snoc (tr : list Async.Event) (ev : Async.Event) (n i : nat)
    (el e : Async.elem) :
  Async.added_after_both ready0 tr n i el e ->
  Async.added_after_both ready0 (tr ++ [ev]) n i el e.
Proof.
  intros (k & m & app & Hkm & Hmn & Hk & Hm & Happ & He).
  exists k, m, app. split; [exact Hkm|]. split; [exact Hmn|].
  split; [now apply lookup_app_l_Some|]. split; [now apply lookup_app_l_Some|].
  split; [|now apply resolved_before_snoc].
  intros a Ha. apply resolved_before_snoc. now apply Happ.
Qed.

(** Appending an event that is not an [EvAddComponent] keeps the third
    part of the invariant. *)
Lemma inv_added_snoc (tr : list Async.Event) (ev : Async.Event) :
  (forall n i el e ent name,
      tr !! n = Some (Async.EvAddComponent i el e ent name) ->
      Async.added_after_both ready0 tr n i el e) ->
  (forall i el e ent name,
      ev = Async.EvAddComponent i el e ent name ->
      Async.added_after_both ready0 (tr ++ [ev]) (length tr) i el e) ->
  forall n i el e ent name,
    (tr ++ [ev]) !! n = Some (Async.EvAddComponent i el e ent name) ->
    Async.added_after_both ready0 (tr ++ [ev]) n i el e.
Proof.
  intros Hold Hnew n i el e ent name Hlook.
  apply lookup_snoc_Some in Hlook as [[_ Hlook]|[-> Hev]].
  - apply added_after_both_snoc. eapply Hold. exact Hlook.
  - eapply Hnew. exact Hev.
Qed.

Lemma inv_ready_snoc (tr : list Async.Event) (ev : Async.Event) (x : Async.elem) :
  Async.resolved_before ready0 tr (length tr) x ->
  Async.resolved_before ready0 (tr ++ [ev]) (length (tr ++ [ev])) x.
Proof.
  intros H. apply resolved_before_snoc.
  eapply resolved_before_mono; [|exact H]. rewrite length_app. lia.
Qed.

Lemma init_invariant (v : Async.Env) : Async.invariant ready0 (Async.init v ready0).
Proof.
  constructor; simpl.
  - intros x Hx. left. exact Hx.
  - intros i el p H. rewrite lookup_nil in H. discriminate.
  - intros n i el e ent name H. rewrite lookup_nil in H. discriminate.
Qed.

Lemma connect_invariant (el : Async.elem) (s : Async.State) :
  Async.invariant ready0 s -> Async.invariant ready0 (Async.connectedCallback el s).
Proof.
  intros [Hr Ht Ha]. constructor; simpl.
  - intros x Hx. apply inv_ready_snoc. now apply Hr.
  - intros i el' p Hlook.
    apply lookup_snoc_Some in Hlook as [[_ Hlook]|[-> Heq]].
    + apply task_inv_snoc. now apply Ht.
    + injection Heq as <- <-. simpl. exists (length (Async.trace s)).
      rewrite lookup_app_r by lia. now rewrite Nat.sub_diag.
  - apply inv_added_snoc; [exact Ha | discriminate].
Qed.

Lemma onReady_invariant (x : Async.elem) (s : Async.State) :
  Async.invariant ready0 s -> Async.invariant ready0 (Async._onReady x s).
Proof.
  intros [Hr Ht Ha]. constructor; simpl.
  - intros y Hy. apply elem_of_union in Hy as [Hy|Hy].
    + apply elem_of_singleton in Hy as ->. right.
      exists (length (Async.trace s)). split; [rewrite length_app; simpl; lia|].
      rewrite lookup_app_r by lia. now rewrite Nat.sub_diag.
    + apply inv_ready_snoc. now apply Hr.
  - intros i el p Hlook. apply task_inv_snoc. now apply Ht.
  - apply inv_added_snoc; [exact Ha | discriminate].
Qed.

Lemma set_pc_invariant (i : nat) (el : Async.elem) (p : Async.pc) (s : Async.State) :
  Async.invariant ready0 s ->
  Async.task_inv ready0 (Async.trace s) i el p ->
  Async.invariant ready0 (Async.set_pc i el p s).
Proof.
  intros [Hr Ht Ha] Hp. constructor; simpl.
  - exact Hr.
  - intros j el' p' Hlook.
    apply list_lookup_insert_Some in Hlook as [(-> & Heq & _)|[_ Hlook]].
    + injection Heq as <- <-. exact Hp.
    + now apply Ht.
  - exact Ha.
Qed.

Lemma invariant_ext (s s' : Async.State) :
  Async.readied s' = Async.readied s ->
  Async.tasks s' = Async.tasks s ->
  Async.trace s' = Async.trace s ->
  Async.invariant ready0 s -> Async.invariant ready0 s'.
Proof.
  intros Hr Ht Htr [H1 H2 H3]. constructor; rewrite ?Hr, ?Ht, ?Htr; assumption.
Qed.

Lemma emit_set_pc_invariant (ev : Async.Event) (i : nat) (el : Async.elem) (p : Async.pc)
    (s : Async.State) :
  Async.invariant ready0 s ->
  Async.task_inv ready0 (Async.trace s ++ [ev]) i el p ->
  (forall j el' e ent name,
      ev = Async.EvAddComponent j el' e ent name ->
      Async.added_after_both ready0 (Async.trace s ++ [ev]) (length (Async.trace s)) j el' e) ->
  Async.invariant ready0 (Async.emit ev (Async.set_pc i el p s)).
Proof.
  intros [Hr Ht Ha] Hp Hev. constructor; simpl.
  - intros x Hx. apply inv_ready_snoc. now apply Hr.
  - intros j el' p' Hlook.
    apply list_lookup_insert_Some in Hlook as [(-> & Heq & _)|[_ Hlook]].
    + injection Heq as <- <-. exact Hp.
    + apply task_inv_snoc. now apply Ht.
  - apply inv_added_snoc; [exact Ha | exact Hev].
Qed.

Lemma resume_invariant (i : nat) (s : Async.State) :
  Async.invariant ready0 s -> Async.invariant ready0 (Async.resume kindOf i s).
Proof.
  intros Hinv. unfold Async.resume.
  destruct (Async.tasks s !! i) as [[el p]|] eqn:Hi; [|exact Hinv].
  destruct (negb (Async.enabled p s)) eqn:Hen; [exact Hinv|].
  apply negb_false_iff in Hen.
  pose proof (Async.inv_tasks _ _ Hinv i el p Hi) as Htask.
  destruct p as [app|e| | |]; simpl in Htask.
  - (* resumed after the app: addComponent starts *)
    destruct (Async.closestEntity (Async.env s) el) as [e|].
    + apply emit_set_pc_invariant; [exact Hinv| |discriminate].
      destruct Htask as (k & Hk). simpl.
      exists k, (length (Async.trace s)), app.
      split; [now apply lookup_lt_Some in Hk|].
      split; [now apply lookup_app_l_Some|].
      split; [rewrite lookup_app_r by lia; now rewrite Nat.sub_diag|].
      intros a ->. apply resolved_before_snoc.
      apply (Async.inv_ready _ _ Hinv). simpl in Hen.
      now apply bool_decide_eq_true in Hen.
    + apply set_pc_invariant; [exact Hinv | exact I].
  - (* resumed after the entity: the component is added *)
    destruct (Async.initialDataThrows (Async.env s) el);
      [apply set_pc_invariant; [exact Hinv | exact I]|].
    destruct (Async.entity (Async.env s) e) as [ent|];
      [|apply set_pc_invariant; [exact Hinv | exact I]].
    eapply invariant_ext;
      [| | |apply (emit_set_pc_invariant
                     (Async.EvAddComponent i el e ent (componentName (kindOf el)))
                     i el Async.AwaitAddComponent s Hinv I)];
      try reflexivity.
    intros j el' e' ent' name' Heq. injection Heq as <- <- <- <- <-.
    destruct Htask as (k & m & app & Hkm & Hk & Hm & Happ).
    exists k, m, app. split; [exact Hkm|].
    split; [now apply lookup_lt_Some in Hm|].
    split; [now apply lookup_app_l_Some|]. split; [now apply lookup_app_l_Some|].
    split.
    * intros a Ha. apply resolved_before_snoc. now apply Happ.
    * apply resolved_before_snoc. apply (Async.inv_ready _ _ Hinv).
      simpl in Hen. now apply bool_decide_eq_true in Hen.
  - (* resumed after addComponent: initComponent and _onReady *)
    destruct (Async.initComponent kindOf el s).
    + apply set_pc_invariant; [now apply onReady_invariant | exact I].
    + apply set_pc_invariant; [exact Hinv | exact I].
  - exact Hinv.
  - exact Hinv.
Qed.

Lemma exec_invariant (a : Async.Action) (s : Async.State) :
  Async.invariant ready0 s -> Async.invariant ready0 (Async.exec kindOf s a).
Proof.
  intros Hinv. destruct a as [el|i|x|v]; simpl.
  - now apply connect_invariant.
  - now apply resume_invariant.
  - now apply onReady_invariant.
  - eapply invariant_ext; [| | |exact Hinv]; reflexivity.
Qed.

Lemma run_invariant (acts : list Async.Action) (s : Async.State) :
  Async.invariant ready0 s -> Async.invariant ready0 (Async.run kindOf acts s).
Proof.
  revert s. induction acts as [|a rest IH]; intros s Hinv; simpl.
  - exact Hinv.
  - apply IH. now apply exec_invariant.
Qed.

End AsyncFacts.

Section AsyncHistoryFacts.

Variable kindOf : Async.elem -> ComponentKind.
Variable v : Async.Env.
Variable ready0 : gset Async.elem.

Lemma run_snoc (acts : list Async.Action) (a : Async.Action) (s : Async.State) :
  Async.run kindOf (acts ++ [a]) s = Async.exec kindOf (Async.run kindOf acts s) a.
Proof. unfold Async.run. rewrite fold_left_app. reflexivity. Qed.

Lemma before_S (acts : list Async.Action) (k : nat) (a : Async.Action) :
  acts !! k = Some a ->
  Async.before kindOf v ready0 acts (S k)
  = Async.exec kindOf (Async.before kindOf v ready0 acts k) a.
Proof.
  intros H. unfold Async.before. rewrite (take_S_r _ _ _ H). apply run_snoc.
Qed.

Lemma before_ge (acts : list Async.Action) (k : nat) :
  length acts <= k ->
  Async.before kindOf v ready0 acts k = Async.run kindOf acts (Async.init v ready0).
Proof. intros H. unfold Async.before. now rewrite take_ge by lia. Qed.

Lemma before_snoc (acts : list Async.Action) (a : Async.Action) (k : nat) :
  k <= length acts ->
  Async.before kindOf v ready0 (acts ++ [a]) k = Async.before kindOf v ready0 acts k.
Proof. intros H. unfold Async.before. now rewrite take_app_le by lia. Qed.

Lemma position_snoc (acts : list Async.Action) (a : Async.Action) (k : nat) :
  k <= length acts ->
  Async.position kindOf v ready0 (acts ++ [a]) k = Async.position kindOf v ready0 acts k.
Proof. intros H. unfold Async.position. now rewrite before_snoc. Qed.

Lemma exec_trace (s : Async.State) (a : Async.Action) :
  exists evs, Async.trace (Async.exec kindOf s a) = Async.trace s ++ evs.
Proof.
  assert (Hnil : exists evs, Async.trace s = Async.trace s ++ evs)
    by (exists []; now rewrite app_nil_r).
  destruct a as [el|i|x|w]; cbn [Async.exec].
  - eexists. reflexivity.
  - unfold Async.resume.
    destruct (Async.tasks s !! i) as [[el p]|]; [|exact Hnil].
    destruct (negb (Async.enabled p s)); [exact Hnil|].
    destruct p as [app|e| | |]; try exact Hnil.
    + destruct (Async.closestEntity (Async.env s) el); [eexists; reflexivity | exact Hnil].
    + destruct (Async.initialDataThrows (Async.env s) el); [exact Hnil|].
      destruct (Async.entity (Async.env s) e); [eexists; reflexivity | exact Hnil].
    + destruct (Async.initComponent kindOf el s); [eexists; reflexivity | exact Hnil].
  - eexists. reflexivity.
  - exact Hnil.
Qed.

Lemma before_prefix (acts : list Async.Action) (k k' : nat) :
  k <= k' ->
  exists evs,
    Async.trace (Async.before kindOf v ready0 acts k')
    = Async.trace (Async.before kindOf v ready0 acts k) ++ evs.
Proof.
  induction 1 as [|m Hle (evs & IH)].
  - exists []. now rewrite app_nil_r.
  - destruct (acts !! m) as [a|] eqn:Ha.
    + rewrite (before_S _ _ _ Ha).
      destruct (exec_trace (Async.before kindOf v ready0 acts m) a) as (evs' & ->).
      exists (evs ++ evs'). rewrite IH. now rewrite app_assoc.
    + apply lookup_ge_None_1 in Ha.
      rewrite (before_ge acts (S m)) by lia. rewrite <- (before_ge acts m) by lia.
      exists evs. exact IH.
Qed.

Lemma final_prefix (acts : list Async.Action) (k : nat) :
  exists evs,
    Async.trace (Async.run kindOf acts (Async.init v ready0))
    = Async.trace (Async.before kindOf v ready0 acts k) ++ evs.
Proof.
  destruct (le_lt_dec k (length acts)) as [Hle|Hlt].
  - destruct (before_prefix acts k (length acts) Hle) as (evs & H).
    rewrite before_ge in H by lia. exists evs. exact H.
  - rewrite before_ge by lia. exists []. now rewrite app_nil_r.
Qed.

Lemma resolved_before_prefix (tr evs : list Async.Event) (n : nat) (x : Async.elem) :
  Async.resolved_before ready0 tr n x -> Async.resolved_before ready0 (tr ++ evs) n x.
Proof.
  intros [H|(j & Hj & Hev)]; [left; exact H|].
  right. exists j. split; [exact Hj|]. now apply lookup_app_l_Some.
Qed.

Lemma connected_at_snoc (acts : list Async.Action) (a : Async.Action) (k i : nat)
    (el : Async.elem) (app : option Async.elem) :
  k < length acts ->
  Async.connected_at kindOf v ready0 acts k i el app ->
  Async.connected_at kindOf v ready0 (acts ++ [a]) k i el app.
Proof.
  intros Hk (H1 & H2 & H3). unfold Async.connected_at.
  rewrite before_snoc by lia. rewrite lookup_app_l by lia. auto.
Qed.

Lemma app_awaited_at_snoc (acts : list Async.Action) (a : Async.Action) (k i : nat)
    (el : Async.elem) (app : option Async.elem) (e : Async.elem) :
  k < length acts ->
  Async.app_awaited_at kindOf v ready0 acts k i el app e ->
  Async.app_awaited_at kindOf v ready0 (acts ++ [a]) k i el app e.
Proof.
  intros Hk (H1 & H2 & H3 & H4). unfold Async.app_awaited_at.
  rewrite before_snoc by lia. rewrite lookup_app_l by lia. auto.
Qed.

Lemma entity_awaited_at_snoc (acts : list Async.Action) (a : Async.Action) (k i : nat)
    (el e : Async.elem) (ent : loc) :
  k < length acts ->
  Async.entity_awaited_at kindOf v ready0 acts k i el e ent ->
  Async.entity_awaited_at kindOf v ready0 (acts ++ [a]) k i el e ent.
Proof.
  intros Hk (H1 & H2 & H3 & H4). unfold Async.entity_awaited_at.
  rewrite before_snoc by lia. rewrite lookup_app_l by lia. auto.
Qed.

Lemma task_hist_snoc (acts : list Async.Action) (a : Async.Action) (i : nat)
    (el : Async.elem) (p : Async.pc) :
  Async.task_hist kindOf v ready0 acts i el p ->
  Async.task_hist kindOf v ready0 (acts ++ [a]) i el p.
Proof.
  destruct p as [app|e| | |]; simpl; auto.
  - intros (ka & Hka & Hc). exists ka. rewrite length_app. simpl.
    split; [lia|]. now apply connected_at_snoc.
  - intros (ka & ke & app & Hlt & Hke & Hc & Ha).
    exists ka, ke, app. rewrite length_app. simpl.
    split; [exact Hlt|]. split; [lia|].
    split; [apply connected_at_snoc; [lia | exact Hc]|].
    now apply app_awaited_at_snoc.
Qed.

Lemma added_hist_snoc (acts : list Async.Action) (a : Async.Action) (n i : nat)
    (el e : Async.elem) (ent : loc) (name : string) :
  Async.added_hist kindOf v ready0 acts n i el e ent name ->
  Async.added_hist kindOf v ready0 (acts ++ [a]) n i el e ent name.
Proof.
  intros (ka & ke & kn & app & H1 & H2 & H3 & Hc & Ha & He & Hname & Hn).
  exists ka, ke, kn, app. rewrite length_app. simpl.
  split; [exact H1|]. split; [exact H2|]. split; [lia|].
  split; [apply connected_at_snoc; [lia | exact Hc]|].
  split; [apply app_awaited_at_snoc; [lia | exact Ha]|].
  split; [apply entity_awaited_at_snoc; [lia | exact He]|].
  split; [exact Hname|]. rewrite position_snoc by lia. exact Hn.
Qed.

(** One more action that changes neither the tasks nor the
    [EvAddComponent] events of the trace. *)
Lemma history_same (acts : list Async.Action) (a : Async.Action) :
  Async.tasks (Async.run kindOf (acts ++ [a]) (Async.init v ready0))
    = Async.tasks (Async.run kindOf acts (Async.init v ready0)) ->
  (forall n i el e ent name,
      Async.trace (Async.run kindOf (acts ++ [a]) (Async.init v ready0)) !! n
        = Some (Async.EvAddComponent i el e ent name) ->
      Async.trace (Async.run kindOf acts (Async.init v ready0)) !! n
        = Some (Async.EvAddComponent i el e ent name)) ->
  Async.history kindOf v ready0 acts ->
  Async.history kindOf v ready0 (acts ++ [a]).
Proof.
  intros Htasks Htrace [Ht Ha]. split.
  - intros i el p Hlook. rewrite Htasks in Hlook. apply task_hist_snoc. now apply Ht.
  - intros n i el e ent name Hlook. apply added_hist_snoc. eapply Ha, Htrace, Hlook.
Qed.

(** One more action that moves task [j] to [p'] and emits [evs]. *)
Lemma history_update (acts : list Async.Action) (a : Async.Action)
    (j : nat) (el : Async.elem) (p' : Async.pc) (evs : list Async.Event) :
  let s := Async.run kindOf acts (Async.init v ready0) in
  let s' := Async.run kindOf (acts ++ [a]) (Async.init v ready0) in
  Async.tasks s' = <[j := (el, p')]> (Async.tasks s) ->
  Async.trace s' = Async.trace s ++ evs ->
  Async.task_hist kindOf v ready0 (acts ++ [a]) j el p' ->
  (forall n i el' e ent name,
      evs !! n = Some (Async.EvAddComponent i el' e ent name) ->
      Async.added_hist kindOf v ready0 (acts ++ [a]) (length (Async.trace s) + n)
        i el' e ent name) ->
  Async.history kindOf v ready0 acts ->
  Async.history kindOf v ready0 (acts ++ [a]).
Proof.
  intros s s' Htasks Htrace Hp Hev [Ht Ha]. split.
  - intros i el' p Hlook. fold s' in Hlook. rewrite Htasks in Hlook.
    apply list_lookup_insert_Some in Hlook as [(-> & Heq & _)|[_ Hlook]].
    + injection Heq as <- <-. exact Hp.
    + apply task_hist_snoc. now apply Ht.
  - intros n i el' e ent name Hlook. fold s' in Hlook. rewrite Htrace in Hlook.
    apply lookup_app_Some in Hlook as [Hlook|[Hge Hlook]].
    + apply added_hist_snoc. now apply Ha.
    + replace n with (length (Async.trace s) + (n - length (Async.trace s))) by lia.
      eapply Hev. exact Hlook.
Qed.

Lemma history_nil : Async.history kindOf v ready0 [].
Proof.
  split; simpl.
  - intros i el p H. rewrite lookup_nil in H. discriminate.
  - intros n i el e ent name H. rewrite lookup_nil in H. discriminate.
Qed.

Lemma history_snoc (acts : list Async.Action) (a : Async.Action) :
  Async.history kindOf v ready0 acts -> Async.history kindOf v ready0 (acts ++ [a]).
Proof.
  intros Hh.
  set (s := Async.run kindOf acts (Async.init v ready0)).
  assert (Hrun : Async.run kindOf (acts ++ [a]) (Async.init v ready0) = Async.exec kindOf s a)
    by apply run_snoc.
  assert (Hb : Async.before kindOf v ready0 (acts ++ [a]) (length acts) = s).
  { rewrite before_snoc by lia. now apply before_ge. }
  assert (Hl : (acts ++ [a]) !! length acts = Some a) by apply list_lookup_middle, eq_refl.
  assert (Hlen : length (acts ++ [a]) = S (length acts)) by (rewrite length_app; simpl; lia).
  destruct a as [el|j|x|w].
  - (* a connection: one more task *)
    destruct Hh as [Ht Ha]. split.
    + intros i el' p Hlook. rewrite Hrun in Hlook. cbn in Hlook.
      apply lookup_snoc_Some in Hlook as [[_ Hlook]|[-> Heq]].
      * apply task_hist_snoc. now apply Ht.
      * injection Heq as <- <-. simpl. exists (length acts). rewrite Hlen.
        split; [lia|]. unfold Async.connected_at. rewrite Hb, Hl. auto.
    + intros n i el' e ent name Hlook. rewrite Hrun in Hlook. cbn in Hlook.
      apply lookup_snoc_Some in Hlook as [[_ Hlook]|[_ Heq]]; [|discriminate].
      apply added_hist_snoc. now apply Ha.
  - (* a resumption *)
    assert (Hsame : Async.exec kindOf s (Async.Resume j) = s ->
                    Async.history kindOf v ready0 (acts ++ [Async.Resume j])).
    { intros Heq. apply history_same; [now rewrite Hrun, Heq| |exact Hh].
      intros n i el e ent name. now rewrite Hrun, Heq. }
    pose proof Hrun as Hrun'. cbn [Async.exec] in Hrun', Hsame. unfold Async.resume in Hrun', Hsame.
    destruct (Async.tasks s !! j) as [[el p]|] eqn:Hj; [|now apply Hsame].
    destruct (negb (Async.enabled p s)) eqn:Hen; [now apply Hsame|].
    apply negb_false_iff in Hen.
    pose proof (proj1 Hh j el p Hj) as Htask.
    destruct p as [app|e| | |]; try (now apply Hsame); clear Hsame.
    + (* resumed after the app *)
      simpl in Htask. destruct Htask as (ka & Hka & Hc).
      destruct (Async.closestEntity (Async.env s) el) as [e|] eqn:He.
      * apply (history_update acts (Async.Resume j) j el (Async.AwaitEntity e)
                 [Async.EvAwaitEntity j el e]); [now rewrite Hrun'|now rewrite Hrun'| | |exact Hh].
        -- simpl. exists ka, (length acts), app. rewrite Hlen.
           split; [exact Hka|]. split; [lia|].
           split; [now apply connected_at_snoc|].
           unfold Async.app_awaited_at. rewrite Hb, Hl.
           split; [reflexivity|]. split; [exact Hj|]. split; [|exact He].
           intros a0 ->. simpl in Hen. now apply bool_decide_eq_true in Hen.
        -- intros n i el' e' ent name Hlook.
           destruct n; simpl in Hlook; discriminate.
      * apply (history_update acts (Async.Resume j) j el Async.AwaitAddComponent []);
          [now rewrite Hrun'|rewrite Hrun'; cbn; now rewrite app_nil_r|exact I| |exact Hh].
        intros n i el' e' ent name Hlook. now rewrite lookup_nil in Hlook.
    + (* resumed after the entity *)
      simpl in Htask. destruct Htask as (ka & ke & app & Hlt & Hke & Hc & Ha).
      destruct (Async.initialDataThrows (Async.env s) el) eqn:Hthrow.
      { apply (history_update acts (Async.Resume j) j el Async.Rejected []);
          [now rewrite Hrun'|rewrite Hrun'; cbn; now rewrite app_nil_r|exact I| |exact Hh].
        intros n i el' e' ent name Hlook. now rewrite lookup_nil in Hlook. }
      destruct (Async.entity (Async.env s) e) as [ent|] eqn:Hent.
      * apply (history_update acts (Async.Resume j) j el Async.AwaitAddComponent
                 [Async.EvAddComponent j el e ent (componentName (kindOf el))]);
          [now rewrite Hrun'|now rewrite Hrun'|exact I| |exact Hh].
        intros n i el' e' ent' name Hlook.
        destruct n; simpl in Hlook; [|discriminate].
        injection Hlook as <- <- <- <- <-.
        exists ka, ke, (length acts), app. rewrite Hlen.
        split; [exact Hlt|]. split; [exact Hke|]. split; [lia|].
        split; [apply connected_at_snoc; [lia | exact Hc]|].
        split; [now apply app_awaited_at_snoc|].
        split.
        { unfold Async.entity_awaited_at. rewrite Hb, Hl.
          split; [reflexivity|]. split; [exact Hj|]. split; [|exact Hent].
          simpl in Hen. now apply bool_decide_eq_true in Hen. }
        split; [reflexivity|].
        unfold Async.position. rewrite Hb. fold s. lia.
      * apply (history_update acts (Async.Resume j) j el Async.Rejected []);
          [now rewrite Hrun'|rewrite Hrun'; cbn; now rewrite app_nil_r|exact I| |exact Hh].
        intros n i el' e' ent name Hlook. now rewrite lookup_nil in Hlook.
    + (* resumed after addComponent *)
      destruct (Async.initComponent kindOf el s).
      * apply (history_update acts (Async.Resume j) j el Async.Completed [Async.EvReady el]);
          [now rewrite Hrun'|now rewrite Hrun'|exact I| |exact Hh].
        intros n i el' e' ent name Hlook.
        destruct n; simpl in Hlook; discriminate.
      * apply (history_update acts (Async.Resume j) j el Async.Rejected []);
          [now rewrite Hrun'|rewrite Hrun'; cbn; now rewrite app_nil_r|exact I| |exact Hh].
        intros n i el' e' ent name Hlook. now rewrite lookup_nil in Hlook.
  - (* a readiness signal *)
    apply history_same; [now rewrite Hrun| |exact Hh].
    intros n i el e ent name Hlook. rewrite Hrun in Hlook. cbn in Hlook.
    apply lookup_snoc_Some in Hlook as [[_ Hlook]|[_ Heq]]; [exact Hlook|discriminate].
  - (* a change of the document *)
    apply history_same; [now rewrite Hrun| |exact Hh].
    intros n i el e ent name Hlook. now rewrite Hrun in Hlook.
Qed.

Lemma run_history (acts : list Async.Action) : Async.history kindOf v ready0 acts.
Proof.
  induction acts as [|a acts IH] using rev_ind.
  - apply history_nil.
  - now apply history_snoc.
Qed.

(** The event that a connection emits. *)
Lemma connected_at_event (acts : list Async.Action) (k i : nat) (el : Async.elem)
    (app : option Async.elem) :
  Async.connected_at kindOf v ready0 acts k i el app ->
  Async.trace (Async.before kindOf v ready0 acts (S k))
  = Async.trace (Async.before kindOf v ready0 acts k) ++ [Async.EvAwaitApp i el app].
Proof.
  intros (Ha & -> & ->). rewrite (before_S _ _ _ Ha). reflexivity.
Qed.

(** The event that the resumption after the app's readiness emits. *)
Lemma app_awaited_at_event (acts : list Async.Action) (k i : nat) (el : Async.elem)
    (app : option Async.elem) (e : Async.elem) :
  Async.app_awaited_at kindOf v ready0 acts k i el app e ->
  Async.trace (Async.before kindOf v ready0 acts (S k))
  = Async.trace (Async.before kindOf v ready0 acts k) ++ [Async.EvAwaitEntity i el e].
Proof.
  intros (Ha & Ht & Hr & He). rewrite (before_S _ _ _ Ha).
  cbn [Async.exec]. unfold Async.resume. rewrite Ht.
  assert (Hen : Async.enabled (Async.AwaitApp app) (Async.before kindOf v ready0 acts k) = true).
  { destruct app as [a0|]; simpl; [|reflexivity].
    apply bool_decide_eq_true. now apply Hr. }
  rewrite Hen. cbn [negb]. rewrite He. reflexivity.
Qed.

End AsyncHistoryFacts.

(** C1: in every run of the element layer (any interleaving of
    connections, resumptions of suspended callbacks, readiness signals of
    other elements and changes of the document), and for every component
    element class, each engine [addComponent] call is made by a
    [connectedCallback] of the element that, when the element was
    connected, awaited the readiness of the element's closest pc-app as
    the document was then, was resumed once that promise was resolved,
    then awaited the readiness of the element's closest pc-entity as the
    document was at that resumption, and was resumed once that promise was
    resolved; the call is made at this last resumption, with the component
    name of the element's class, on the entity that this entity element
    holds then. The two awaits and the call are in the trace in this
    order, and the promises were resolved before the second await and
    before the call. *)
Theorem component_added_after_both_ready
    (kindOf : Async.elem -> ComponentKind) (v : Async.Env) (ready0 : gset Async.elem)
    (acts : list Async.Action)
    (n i : nat) (el e : Async.elem) (ent : loc) (name : string) :
  Async.trace (Async.run kindOf acts (Async.init v ready0)) !! n
    = Some (Async.EvAddComponent i el e ent name) ->
  Async.added_by_connection kindOf v ready0 acts n i el e ent name.
Proof.
  intros Hn.
  destruct (proj2 (run_history kindOf v ready0 acts) n i el e ent name Hn)
    as (ka & ke & kn & app & H1 & H2 & H3 & Hc & Ha & He & Hname & Hpos).
  pose proof (connected_at_event kindOf v ready0 acts ka i el app Hc) as Heva.
  pose proof (app_awaited_at_event kindOf v ready0 acts ke i el app e Ha) as Heve.
  destruct (before_prefix kindOf v ready0 acts (S ka) ke ltac:(lia)) as (evs1 & Hp1).
  destruct (before_prefix kindOf v ready0 acts (S ke) kn ltac:(lia)) as (evs2 & Hp2).
  destruct (final_prefix kindOf v ready0 acts (S ka)) as (evs3 & Hf1).
  destruct (final_prefix kindOf v ready0 acts (S ke)) as (evs4 & Hf2).
  destruct (final_prefix kindOf v ready0 acts ke) as (evs5 & Hf3).
  destruct (final_prefix kindOf v ready0 acts kn) as (evs6 & Hf4).
  assert (Hlt1 : Async.position kindOf v ready0 acts ka < Async.position kindOf v ready0 acts ke).
  { unfold Async.position. rewrite Hp1, Heva. rewrite !length_app. simpl. lia. }
  assert (Hlt2 : Async.position kindOf v ready0 acts ke < Async.position kindOf v ready0 acts kn).
  { unfold Async.position. rewrite Hp2, Heve. rewrite !length_app. simpl. lia. }
  exists ka, ke, kn, app.
  split; [exact H1|]. split; [exact H2|]. split; [exact H3|].
  split; [exact Hc|]. split; [exact Ha|]. split; [exact He|].
  split; [exact Hname|]. split; [exact Hpos|].
  split; [exact Hlt1|]. split; [rewrite Hpos; exact Hlt2|].
  split.
  { rewrite Hf1, Heva. unfold Async.position.
    rewrite <- app_assoc. rewrite lookup_app_r by lia. now rewrite Nat.sub_diag. }
  split.
  { rewrite Hf2, Heve. unfold Async.position.
    rewrite <- app_assoc. rewrite lookup_app_r by lia. now rewrite Nat.sub_diag. }
  split.
  - intros a0 Happ. rewrite Hf3. apply resolved_before_prefix.
    apply (Async.inv_ready ready0 _
             (run_invariant kindOf ready0 (take ke acts) _ (init_invariant ready0 v))).
    destruct Ha as (_ & _ & Hr & _). now apply Hr.
  - rewrite Hf4, Hpos. apply resolved_before_prefix.
    apply (Async.inv_ready ready0 _
             (run_invariant kindOf ready0 (take kn acts) _ (init_invariant ready0 v))).
    destruct He as (_ & _ & Hr & _). exact Hr.
Qed.

Lemma component_added_after_both_ready_witness :
  let v := Async.mkEnv (fun _ => Some 10%positive) (fun _ => Some 20%positive)
             (fun _ => Some 5%positive) (fun _ => false)
             (fun _ _ => Some 7%positive) (fun _ => false) in
  let acts := [Async.Connect 1%positive; Async.OnReady 10%positive; Async.Resume 0;
               Async.OnReady 20%positive; Async.Resume 0] in
  Async.trace (Async.run (fun _ => CameraComponent) acts (Async.init v ∅)) !! 4
    = Some (Async.EvAddComponent 0 1%positive 20%positive 5%positive "camera") /\
  Async.added_by_connection (fun _ => CameraComponent) v ∅ acts
    4 0 1%positive 20%positive 5%positive "camera".
Proof.
  intros v acts.
  assert (H : Async.trace (Async.run (fun _ => CameraComponent) acts (Async.init v ∅)) !! 4
              = Some (Async.EvAddComponent 0 1%positive 20%positive 5%positive "camera"))
    by (vm_compute; reflexivity).
  split; [exact H|].
  exact (component_added_after_both_ready (fun _ => CameraComponent) v ∅ acts
           4 0 1%positive 20%positive 5%positive "camera" H).
Defined.

(** ** A component element outside any entity *)

Lemma resume_rejected (kindOf : Async.elem -> ComponentKind) (s : Async.State)
    (el : Async.elem) (j : nat) :
  Async.tasks s = [(el, Async.Rejected)] -> Async.resume kindOf j s = s.
Proof.
  intros Ht. unfold Async.resume. rewrite Ht.
  destruct j as [|[|j]]; reflexivity.
Qed.

Lemma resumes_rejected (kindOf : Async.elem -> ComponentKind) (s : Async.State)
    (el : Async.elem) (more : list nat) :
  Async.tasks s = [(el, Async.Rejected)] ->
  Async.run kindOf (List.map Async.Resume more) s = s.
Proof.
  intros Ht. induction more as [|j rest IH]; simpl; [reflexivity|].
  rewrite (resume_rejected kindOf s el j Ht). exact IH.
Qed.

Lemma app_enabled (v : Async.Env) (ready0 : gset Async.elem) (el : Async.elem)
    (cs : gmap Async.elem loc) (ts : list (Async.elem * Async.pc)) (tr : list Async.Event) :
  (forall a, Async.closestApp v el = Some a -> a ∈ ready0) ->
  Async.enabled (Async.AwaitApp (Async.closestApp v el))
    (Async.mkState v ready0 cs ts tr) = true.
Proof.
  intros Happ. simpl. destruct (Async.closestApp v el) as [a|]; [|reflexivity].
  apply bool_decide_eq_true. now apply Happ.
Qed.

(** The callback as far as [initComponent], when no pc-entity encloses the
    element and the app, if there is one, is ready. *)
Lemma no_entity_reaches_initComponent (kindOf : Async.elem -> ComponentKind)
    (v : Async.Env) (ready0 : gset Async.elem) (el : Async.elem) :
  Async.closestEntity v el = None ->
  (forall a, Async.closestApp v el = Some a -> a ∈ ready0) ->
  Async.run kindOf [Async.Connect el; Async.Resume 0] (Async.init v ready0)
  = Async.mkState v ready0 ∅ [(el, Async.AwaitAddComponent)]
      [Async.EvAwaitApp 0 el (Async.closestApp v el)].
Proof.
  intros Hent Happ. simpl. unfold Async.connectedCallback, Async.resume. simpl.
  pose proof (app_enabled v ready0 el ∅ [(el, Async.AwaitApp (Async.closestApp v el))]
                [Async.EvAwaitApp 0 el (Async.closestApp v el)] Happ) as Hen.
  simpl in Hen. rewrite Hen. simpl. rewrite Hent. reflexivity.
Qed.

(** C10 fails for the element component: with no enclosing pc-entity
    [addComponent] creates nothing, [initComponent] then reads
    [this.component._text] on null and throws, and the callback ends
    rejected before [_onReady]: the element's readiness promise is never
    resolved by it, however often the event loop comes back. *)
Theorem element_component_without_entity_never_ready
    (kindOf : Async.elem -> ComponentKind) (v : Async.Env) (ready0 : gset Async.elem)
    (el : Async.elem) (more : list nat) :
  kindOf el = ElementComponent ->
  Async.closestEntity v el = None ->
  (forall a, Async.closestApp v el = Some a -> a ∈ ready0) ->
  el ∉ ready0 ->
  let s := Async.run kindOf
             (Async.Connect el :: Async.Resume 0 :: Async.Resume 0
                :: List.map Async.Resume more)
             (Async.init v ready0) in
  Async.tasks s = [(el, Async.Rejected)] /\
  (el ∉ Async.readied s) /\
  Async.components s !! el = None /\
  ~ In (Async.EvReady el) (Async.trace s).
Proof.
  intros Hkind Hent Happ Hnot s.
  assert (Hs : s = Async.mkState v ready0 ∅ [(el, Async.Rejected)]
                 [Async.EvAwaitApp 0 el (Async.closestApp v el)]).
  { subst s.
    change (Async.Connect el :: Async.Resume 0 :: Async.Resume 0 :: List.map Async.Resume more)
      with ([Async.Connect el; Async.Resume 0]
              ++ (Async.Resume 0 :: List.map Async.Resume more)).
    unfold Async.run. rewrite fold_left_app.
    fold (Async.run kindOf [Async.Connect el; Async.Resume 0] (Async.init v ready0)).
    rewrite (no_entity_reaches_initComponent kindOf v ready0 el Hent Happ).
    simpl fold_left at 1.
    change (fold_left (Async.exec kindOf) (List.map Async.Resume more) ?x)
      with (Async.run kindOf (List.map Async.Resume more) x).
    assert (Hstep : Async.resume kindOf 0
                      (Async.mkState v ready0 ∅ [(el, Async.AwaitAddComponent)]
                         [Async.EvAwaitApp 0 el (Async.closestApp v el)])
                    = Async.mkState v ready0 ∅ [(el, Async.Rejected)]
                        [Async.EvAwaitApp 0 el (Async.closestApp v el)]).
    { unfold Async.resume, Async.initComponent. simpl. rewrite Hkind.
      rewrite lookup_empty. reflexivity. }
    simpl Async.exec. rewrite Hstep.
    apply (resumes_rejected kindOf _ el more). reflexivity. }
  rewrite Hs. simpl. split; [reflexivity|]. split; [exact Hnot|].
  split; [apply lookup_empty|].
  intros [H|[]]. discriminate H.
Qed.

Lemma element_component_without_entity_never_ready_witness :
  let v := Async.mkEnv (fun _ => Some 10%positive) (fun _ => None)
             (fun _ => None) (fun _ => false) (fun _ _ => None) (fun _ => true) in
  let s := Async.run (fun _ => ElementComponent)
             [Async.Connect 1%positive; Async.Resume 0; Async.Resume 0; Async.Resume 0]
             (Async.init v {[10%positive]}) in
  Async.tasks s = [(1%positive, Async.Rejected)] /\
  (1%positive ∉ Async.readied s) /\
  Async.components s !! 1%positive = None /\
  ~ In (Async.EvReady 1%positive) (Async.trace s).
Proof.
  intros v.
  apply (element_component_without_entity_never_ready (fun _ => ElementComponent) v
           {[10%positive]} 1%positive [0]).
  - reflexivity.
  - reflexivity.
  - intros a Ha. injection Ha as <-. apply elem_of_singleton. reflexivity.
  - intros H. apply elem_of_singleton in H. discriminate H.
Defined.

(** For every other class C10 holds: with no enclosing pc-entity (and the
    app, if any, ready) the callback runs to its end, the readiness promise
    is resolved and the component stays null. *)
Lemma other_components_without_entity_become_ready
    (kindOf : Async.elem -> ComponentKind) (v : Async.Env) (ready0 : gset Async.elem)
    (el : Async.elem) :
  kindOf el <> ElementComponent ->
  Async.closestEntity v el = None ->
  (forall a, Async.closestApp v el = Some a -> a ∈ ready0) ->
  let s := Async.run kindOf [Async.Connect el; Async.Resume 0; Async.Resume 0]
             (Async.init v ready0) in
  Async.tasks s = [(el, Async.Completed)] /\
  el ∈ Async.readied s /\
  Async.components s !! el = None /\
  Async.trace s = [Async.EvAwaitApp 0 el (Async.closestApp v el); Async.EvReady el].
Proof.
  intros Hkind Hent Happ s. subst s.
  change [Async.Connect el; Async.Resume 0; Async.Resume 0]
    with ([Async.Connect el; Async.Resume 0] ++ [Async.Resume 0]).
  unfold Async.run. rewrite fold_left_app.
  fold (Async.run kindOf [Async.Connect el; Async.Resume 0] (Async.init v ready0)).
  rewrite (no_entity_reaches_initComponent kindOf v ready0 el Hent Happ).
  simpl. unfold Async.resume. simpl.
  assert (Hinit : Async.initComponent kindOf el
                    (Async.mkState v ready0 ∅ [(el, Async.AwaitAddComponent)]
                       [Async.EvAwaitApp 0 el (Async.closestApp v el)]) = true).
  { unfold Async.initComponent. destruct (kindOf el); try reflexivity. congruence. }
  rewrite Hinit. simpl.
  split; [reflexivity|]. split; [apply elem_of_union_l, elem_of_singleton; reflexivity|].
  split; [apply lookup_empty | reflexivity].
Qed.

Lemma other_components_without_entity_become_ready_witness :
  let v := Async.mkEnv (fun _ => None) (fun _ => None)
             (fun _ => None) (fun _ => false) (fun _ _ => None) (fun _ => true) in
  let s := Async.run (fun _ => LightComponent)
             [Async.Connect 1%positive; Async.Resume 0; Async.Resume 0] (Async.init v ∅) in
  Async.tasks s = [(1%positive, Async.Completed)] /\
  1%positive ∈ Async.readied s /\
  Async.components s !! 1%positive = None /\
  Async.trace s = [Async.EvAwaitApp 0 1%positive None; Async.EvReady 1%positive].
Proof.
  intros v.
  apply (other_components_without_entity_become_ready (fun _ => LightComponent) v ∅ 1%positive).
  - discriminate.
  - reflexivity.
  - intros a Ha. discriminate Ha.
Defined.

(** ** Entity creation and hierarchy building *)

Section HierarchyFacts.

Import Hierarchy.

Lemma select_unfold (sel : string) (tag : string) (kids : list Node) :
  select sel (El tag kids)
  = (if String.eqb tag sel then [[]] else []) ++ select_forest sel kids 0.
Proof.
  simpl. f_equal. generalize 0.
  induction kids as [|k rest IH]; intros i; simpl; [reflexivity|].
  f_equal. apply IH.
Qed.

Lemma select_forest_split (sel : string) (l : list Node) (i j : nat) (k : Node) :
  nth_error l j = Some k ->
  exists front back,
    select_forest sel l i = front ++ List.map (cons (i + j)) (select sel k) ++ back.
Proof.
  revert i j. induction l as [|n rest IH]; intros i j Hj.
  - destruct j; discriminate.
  - destruct j as [|j]; simpl in Hj.
    + injection Hj as ->. exists [], (select_forest sel rest (S i)).
      rewrite Nat.add_0_r. reflexivity.
    + destruct (IH (S i) j Hj) as (front & back & Heq).
      exists (List.map (cons i) (select sel n) ++ front), back.
      simpl. rewrite Heq. rewrite <- app_assoc.
      replace (S i + j) with (i + S j) by lia. reflexivity.
Qed.

Lemma has_tag_cons (forest : list Node) (sel : string) (i : nat) (rest : path) :
  has_tag forest sel (i :: rest) = true ->
  exists n, nth_error forest i = Some n /\
            match rest with
            | [] => String.eqb (tag_of n) sel = true
            | _ => has_tag (children_of n) sel rest = true
            end.
Proof.
  unfold has_tag. simpl.
  destruct (nth_error forest i) as [n|]; [|discriminate].
  intros H. exists n. split; [reflexivity|].
  destruct rest; exact H.
Qed.

Lemma select_of_children (sel : string) (n : Node) (p : path) :
  In p (select_forest sel (children_of n) 0) -> In p (select sel n).
Proof.
  destruct n as [tag kids]. rewrite select_unfold. simpl.
  intros H. apply in_or_app. right. exact H.
Qed.

(** Every element with the tag is selected. *)
Lemma has_tag_selected (sel : string) (p : path) (forest : list Node) :
  has_tag forest sel p = true -> In p (select_forest sel forest 0).
Proof.
  revert forest. induction p as [|i rest IH]; intros forest H.
  - discriminate.
  - apply has_tag_cons in H as (n & Hn & Hrest).
    destruct (select_forest_split sel forest 0 i n Hn) as (front & back & ->).
    apply in_or_app. right. apply in_or_app. left.
    change (0 + i) with i. apply in_map.
    destruct rest as [|j rest'].
    + destruct n as [tag kids]. rewrite select_unfold. simpl in Hrest.
      rewrite Hrest. left. reflexivity.
    + apply select_of_children. apply IH. exact Hrest.
Qed.

Lemma before_map {A B : Type} (f : A -> B) (x y : A) (l : list A) :
  before x y l -> before (f x) (f y) (List.map f l).
Proof.
  intros (l1 & l2 & l3 & ->).
  exists (List.map f l1), (List.map f l2), (List.map f l3).
  rewrite List.map_app. simpl. rewrite List.map_app. reflexivity.
Qed.

Lemma before_app {A : Type} (x y : A) (front l back : list A) :
  before x y l -> before x y (front ++ l ++ back).
Proof.
  intros (l1 & l2 & l3 & ->).
  exists (front ++ l1), l2, (l3 ++ back).
  rewrite <- !app_assoc. simpl. rewrite <- app_assoc. reflexivity.
Qed.

Lemma before_select (sel : string) (n : Node) (q p : path) :
  before q p (select_forest sel (children_of n) 0) -> before q p (select sel n).
Proof.
  destruct n as [tag kids]. rewrite select_unfold. simpl. intros H.
  pose proof (before_app q p (if String.eqb tag sel then [[]] else []) _ [] H) as H'.
  rewrite app_nil_r in H'. exact H'.
Qed.

(** Document order: an element with the tag comes before its descendants
    with the tag. *)
Lemma ancestor_selected_first (sel : string) (q : path) :
  forall (forest : list Node) (rest : path),
    rest <> [] ->
    has_tag forest sel q = true ->
    has_tag forest sel (q ++ rest) = true ->
    before q (q ++ rest) (select_forest sel forest 0).
Proof.
  induction q as [|i qrest IH]; intros forest rest Hrest Hq Hp.
  - discriminate.
  - apply has_tag_cons in Hq as (n & Hn & Hq).
    simpl in Hp. apply has_tag_cons in Hp as (n' & Hn' & Hp).
    rewrite Hn in Hn'. injection Hn' as <-.
    destruct (select_forest_split sel forest 0 i n Hn) as (front & back & ->).
    apply before_app. change (0 + i) with i.
    change ((i :: qrest) ++ rest) with (i :: (qrest ++ rest)).
    apply (before_map (cons i)).
    destruct qrest as [|j qrest'].
    + simpl in Hp |- *. destruct rest as [|r rest']; [congruence|].
      apply has_tag_selected in Hp.
      destruct n as [tag kids]. rewrite select_unfold. simpl in Hq, Hp. rewrite Hq.
      apply in_split in Hp as (l2 & l3 & ->).
      exists [], l2, l3. reflexivity.
    + apply before_select. apply IH; [exact Hrest | exact Hq | exact Hp].
Qed.

End HierarchyFacts.

Section ClosestFacts.

Import Hierarchy.

Variable forest : list Node.
Variable sel : string.

Lemma prefix_snoc (q l : path) (x : nat) (d : path) :
  l ++ [x] = q ++ d -> q = l ++ [x] \/ exists d', l = q ++ d'.
Proof.
  intros H. destruct d as [|y d' _] using rev_ind.
  - left. rewrite app_nil_r in H. auto.
  - right. exists d'. rewrite app_assoc in H.
    apply app_inj_tail in H as [H _]. exact H.
Qed.

Lemma closest_Some (rp : list nat) (q : path) :
  closest forest sel rp = Some q ->
  has_tag forest sel q = true /\
  (exists d, rev rp = q ++ d) /\
  (forall q' d', rev rp = q' ++ d' -> has_tag forest sel q' = true -> exists d'', q = q' ++ d'').
Proof.
  induction rp as [|x up IH]; simpl; [discriminate|].
  destruct (has_tag forest sel (rev up ++ [x])) eqn:Htag.
  - intros Hq. injection Hq as <-. split; [exact Htag|]. split.
    + exists []. now rewrite app_nil_r.
    + intros q' d' Heq _. exists d'. exact Heq.
  - intros Hq. destruct (IH Hq) as (Hq1 & (d & Hd) & Hnear).
    split; [exact Hq1|]. split.
    + exists (d ++ [x]). rewrite Hd. now rewrite app_assoc.
    + intros q' d' Heq Htag'.
      apply prefix_snoc in Heq as [->|(d'' & Hup)]; [congruence|].
      now apply (Hnear q' d'').
Qed.

Lemma closest_None (rp : list nat) :
  closest forest sel rp = None ->
  forall q' d', rev rp = q' ++ d' -> has_tag forest sel q' = false.
Proof.
  induction rp as [|x up IH]; simpl.
  - intros _ q' d' Heq. symmetry in Heq. apply app_eq_nil in Heq as [-> _]. reflexivity.
  - destruct (has_tag forest sel (rev up ++ [x])) eqn:Htag; [discriminate|].
    intros Hnone q' d' Heq.
    apply prefix_snoc in Heq as [->|(d'' & Hup)]; [exact Htag|].
    now apply (IH Hnone q' d'').
Qed.

(** The ancestors of [p] are the prefixes of [p] without its last index. *)
Lemma ancestor_is_prefix (q p : path) :
  ancestor q p -> exists d, rev (tl (rev p)) = q ++ d.
Proof.
  intros (rest & Hne & ->).
  destruct rest as [|y r _] using rev_ind; [congruence|].
  exists r. rewrite app_assoc, rev_app_distr. simpl. now rewrite rev_involutive.
Qed.

Lemma prefix_is_ancestor (q p : path) (d : path) :
  p <> [] -> rev (tl (rev p)) = q ++ d -> ancestor q p.
Proof.
  intros Hp Hd. destruct p as [|y l _] using rev_ind; [congruence|].
  rewrite rev_app_distr in Hd. simpl in Hd. rewrite rev_involutive in Hd.
  exists (d ++ [y]). split.
  - intros H. apply app_eq_nil in H as [_ H]. discriminate.
  - rewrite Hd. now rewrite app_assoc.
Qed.

(** [closest] finds the nearest ancestor with the tag, and finds one
    whenever there is one. *)
Lemma closest_is_nearest (p : path) :
  p <> [] ->
  match closest forest sel (tl (rev p)) with
  | Some q =>
      ancestor q p /\ has_tag forest sel q = true /\
      forall q', ancestor q' p -> has_tag forest sel q' = true -> q' = q \/ ancestor q' q
  | None => forall q', ancestor q' p -> has_tag forest sel q' = false
  end.
Proof.
  intros Hp. destruct (closest forest sel (tl (rev p))) as [q|] eqn:Hc.
  - apply closest_Some in Hc as (Htag & (d & Hd) & Hnear).
    split; [now apply (prefix_is_ancestor q p d)|]. split; [exact Htag|].
    intros q' Hanc Htag'. apply ancestor_is_prefix in Hanc as (d' & Hd').
    destruct (Hnear q' d' Hd' Htag') as (d'' & ->).
    destruct d'' as [|x d'']; [left; now rewrite app_nil_r|].
    right. exists (x :: d''). split; [discriminate | reflexivity].
  - intros q' Hanc. apply ancestor_is_prefix in Hanc as (d' & Hd').
    now apply (closest_None _ Hc q' d').
Qed.

End ClosestFacts.

Section ConnectFacts.

Import Hierarchy.

Variable forest : list Node.
Variable outerEntity : option EntityObj.

Lemma create_loop_trace (ps : list path) (s : State) :
  trace (fold_left createEntity ps s) = trace s ++ List.map EvCreate ps.
Proof.
  revert s. induction ps as [|p rest IH]; intros s; simpl.
  - now rewrite app_nil_r.
  - rewrite IH. simpl. now rewrite <- app_assoc.
Qed.

Lemma create_loop_entity (ps : list path) (s : State) (q : path) :
  In q ps \/ entityOf s !! q = Some (NewEntity q) ->
  entityOf (fold_left createEntity ps s) !! q = Some (NewEntity q).
Proof.
  revert s. induction ps as [|p rest IH]; intros s H; simpl.
  - destruct H as [[]|H]. exact H.
  - apply IH. simpl.
    destruct (decide (p = q)) as [->|Hne].
    + right. apply lookup_insert_eq.
    + destruct H as [[H|H]|H]; [congruence | left; exact H |].
      right. rewrite lookup_insert_ne by exact Hne. exact H.
Qed.

(** Once every pc-entity element holds its new entity, [buildHierarchy]
    attaches to the expected parent and signals readiness. *)
Lemma buildHierarchy_created (s : State) (p : path) :
  (forall q, has_tag forest "pc-entity" q = true -> entityOf s !! q = Some (NewEntity q)) ->
  entityOf s !! p = Some (NewEntity p) ->
  buildHierarchy forest outerEntity s p
  = mkState (entityOf s) (trace s ++ attach_events forest outerEntity p).
Proof.
  intros Hall Hp. unfold buildHierarchy, closestEntity_entity, attach_events, expected_parent.
  rewrite Hp.
  destruct (closest forest "pc-entity" (tl (rev p))) as [q|] eqn:Hc.
  - apply closest_Some in Hc as (Htag & _). rewrite (Hall q Htag). reflexivity.
  - destruct outerEntity; reflexivity.
Qed.

Lemma build_loop (ps : list path) (s : State) :
  (forall q, has_tag forest "pc-entity" q = true -> entityOf s !! q = Some (NewEntity q)) ->
  (forall p, In p ps -> entityOf s !! p = Some (NewEntity p)) ->
  fold_left (buildHierarchy forest outerEntity) ps s
  = mkState (entityOf s) (trace s ++ flat_map (attach_events forest outerEntity) ps).
Proof.
  revert s. induction ps as [|p rest IH]; intros s Hall Hps.
  - simpl. rewrite app_nil_r. destruct s; reflexivity.
  - cbn [fold_left flat_map].
    rewrite (buildHierarchy_created s p Hall (Hps p (or_introl eq_refl))).
    rewrite IH; simpl.
    + now rewrite <- app_assoc.
    + exact Hall.
    + intros p' Hp'. apply Hps. now right.
Qed.

Lemma before_ready (q p : path) (ps : list path) :
  before q p ps ->
  before (EvReady q) (EvReady p) (flat_map (attach_events forest outerEntity) ps).
Proof.
  intros (l1 & l2 & l3 & ->).
  exists (flat_map (attach_events forest outerEntity) l1
            ++ [EvAddChild (expected_parent forest outerEntity q) (NewEntity q)]),
    (flat_map (attach_events forest outerEntity) l2
            ++ [EvAddChild (expected_parent forest outerEntity p) (NewEntity p)]),
    (flat_map (attach_events forest outerEntity) l3).
  rewrite flat_map_app. cbn [flat_map]. rewrite flat_map_app. cbn [flat_map].
  unfold attach_events at 2 4. rewrite <- !app_assoc. reflexivity.
Qed.

End ConnectFacts.

Section SelectedFacts.

Import Hierarchy.

Lemma select_forest_In (sel : string) (l : list Node) (i : nat) (p : path) :
  In p (select_forest sel l i) ->
  exists j n rest, p = (i + j) :: rest /\ nth_error l j = Some n /\ In rest (select sel n).
Proof.
  revert i. induction l as [|k tail IH]; intros i H; simpl in H; [contradiction|].
  apply in_app_or in H as [H|H].
  - apply in_map_iff in H as (rest & <- & Hrest).
    exists 0, k, rest. rewrite Nat.add_0_r. auto.
  - destruct (IH (S i) H) as (j & n & rest & -> & Hn & Hrest).
    exists (S j), n, rest. replace (i + S j) with (S i + j) by lia. auto.
Qed.

(** Only elements with the tag are selected. *)
Lemma selected_has_tag (sel : string) (p : path) (forest : list Node) :
  In p (select_forest sel forest 0) -> has_tag forest sel p = true.
Proof.
  revert forest. induction p as [|i rest IH]; intros forest H.
  - apply select_forest_In in H as (j & n & rest & Heq & _). discriminate.
  - apply select_forest_In in H as (j & n & rest' & Heq & Hn & Hrest).
    simpl in Heq. injection Heq as -> ->.
    destruct n as [tag kids]. rewrite select_unfold in Hrest.
    unfold has_tag. simpl. rewrite Hn.
    apply in_app_or in Hrest as [Hhead|Hbelow].
    + destruct (String.eqb tag sel) eqn:Htag; [|contradiction].
      destruct Hhead as [<-|[]]. simpl. exact Htag.
    + pose proof (IH kids Hbelow) as Htag.
      destruct rest' as [|r rest'']; [discriminate Htag|].
      exact Htag.
Qed.

Lemma querySelectorAll_spec (forest : list Node) (sel : string) (p : path) :
  In p (querySelectorAll forest sel) <-> has_tag forest sel p = true.
Proof.
  split; [apply selected_has_tag | apply has_tag_selected].
Qed.

End SelectedFacts.

(** C5: in [AppElement.connectedCallback] the trace of the entity part is
    the creation of the entity of every pc-entity element of the subtree,
    in document order, followed by one attachment and one readiness signal
    per element, in document order. So every entity is created before any
    is attached; the readiness promise of a pc-entity element resolves
    before that of any pc-entity element nested in it; and each entity is
    attached to the new entity of its closest ancestor pc-entity element
    when there is one in the subtree (the nearest ancestor with the tag),
    otherwise to the application root (or to the entity of a pc-entity
    element that encloses the app itself, should there be one). *)
Theorem entities_created_then_attached_in_document_order
    (forest : list Hierarchy.Node) (outerEntity : option Hierarchy.EntityObj)
    (s0 : Hierarchy.State) :
  let is_entity := fun p => Hierarchy.has_tag forest "pc-entity" p = true in
  let entityElements := Hierarchy.querySelectorAll forest "pc-entity" in
  let s := Hierarchy.connect_entities forest outerEntity s0 in
  (forall p, In p entityElements <-> is_entity p) /\
  Hierarchy.trace s
  = Hierarchy.trace s0
      ++ List.map Hierarchy.EvCreate entityElements
      ++ flat_map (Hierarchy.attach_events forest outerEntity) entityElements /\
  (forall q p,
      is_entity q -> is_entity p -> Hierarchy.ancestor q p ->
      Hierarchy.before (Hierarchy.EvReady q) (Hierarchy.EvReady p) (Hierarchy.trace s)) /\
  (forall p,
      is_entity p ->
      Hierarchy.entityOf s !! p = Some (Hierarchy.NewEntity p) /\
      In (Hierarchy.EvAddChild (Hierarchy.expected_parent forest outerEntity p)
            (Hierarchy.NewEntity p)) (Hierarchy.trace s) /\
      match Hierarchy.closest forest "pc-entity" (tl (rev p)) with
      | Some q =>
          Hierarchy.expected_parent forest outerEntity p
            = Hierarchy.Entity (Hierarchy.NewEntity q) /\
          Hierarchy.ancestor q p /\ is_entity q /\
          (forall q', Hierarchy.ancestor q' p -> is_entity q' ->
                      q' = q \/ Hierarchy.ancestor q' q)
      | None =>
          Hierarchy.expected_parent forest outerEntity p
            = match outerEntity with
              | Some o => Hierarchy.Entity o
              | None => Hierarchy.AppRoot
              end /\
          (forall q', Hierarchy.ancestor q' p -> ~ is_entity q')
      end).
Proof.
  intros is_entity entityElements s.
  assert (Hsel : forall p, In p entityElements <-> is_entity p)
    by (intros p; apply querySelectorAll_spec).
  set (s1 := fold_left Hierarchy.createEntity entityElements s0).
  assert (Hcreated : forall p, is_entity p ->
                               Hierarchy.entityOf s1 !! p = Some (Hierarchy.NewEntity p)).
  { intros p Hp. apply create_loop_entity. left. now apply Hsel. }
  assert (Hs : s = Hierarchy.mkState (Hierarchy.entityOf s1)
                     (Hierarchy.trace s1
                        ++ flat_map (Hierarchy.attach_events forest outerEntity) entityElements)).
  { subst s. unfold Hierarchy.connect_entities. fold entityElements. fold s1.
    apply build_loop; [exact Hcreated|].
    intros p Hp. apply Hcreated. now apply Hsel. }
  assert (Htrace : Hierarchy.trace s
                   = Hierarchy.trace s0 ++ List.map Hierarchy.EvCreate entityElements
                       ++ flat_map (Hierarchy.attach_events forest outerEntity) entityElements).
  { rewrite Hs. simpl. subst s1. rewrite create_loop_trace. now rewrite <- app_assoc. }
  split; [exact Hsel|]. split; [exact Htrace|]. split.
  - intros q p Hq Hp (rest & Hrest & ->).
    rewrite Htrace.
    pose proof (ancestor_selected_first "pc-entity" q forest rest Hrest Hq Hp) as Hbefore.
    apply (before_ready forest outerEntity) in Hbefore.
    rewrite app_assoc.
    pose proof (before_app _ _ (Hierarchy.trace s0 ++ List.map Hierarchy.EvCreate entityElements)
                  _ [] Hbefore) as H.
    rewrite app_nil_r in H. exact H.
  - intros p Hp. split; [rewrite Hs; simpl; now apply Hcreated|]. split.
    + rewrite Htrace. apply in_or_app. right. apply in_or_app. right.
      apply in_flat_map. exists p. split; [now apply Hsel | left; reflexivity].
    + assert (Hne : p <> []) by (intros ->; discriminate Hp).
      pose proof (closest_is_nearest forest "pc-entity" p Hne) as Hnear.
      unfold Hierarchy.expected_parent.
      destruct (Hierarchy.closest forest "pc-entity" (tl (rev p))) as [q|].
      * destruct Hnear as (Hanc & Htag & Hmin). split; [reflexivity|].
        split; [exact Hanc|]. split; [exact Htag | exact Hmin].
      * split; [reflexivity|]. intros q' Hanc Hq'. unfold is_entity in Hq'.
        pose proof (Hnear q' Hanc) as Hno. congruence.
Qed.

Lemma entities_created_then_attached_in_document_order_witness :
  let forest :=
    [Hierarchy.El "pc-entity"
       [Hierarchy.El "pc-camera" [];
        Hierarchy.El "div" [Hierarchy.El "pc-entity" []]];
     Hierarchy.El "pc-entity" []] in
  let s := Hierarchy.connect_entities forest None (Hierarchy.mkState ∅ []) in
  Hierarchy.trace s
  = [Hierarchy.EvCreate [0]; Hierarchy.EvCreate [0; 1; 0]; Hierarchy.EvCreate [1];
     Hierarchy.EvAddChild Hierarchy.AppRoot (Hierarchy.NewEntity [0]);
     Hierarchy.EvReady [0];
     Hierarchy.EvAddChild (Hierarchy.Entity (Hierarchy.NewEntity [0]))
       (Hierarchy.NewEntity [0; 1; 0]);
     Hierarchy.EvReady [0; 1; 0];
     Hierarchy.EvAddChild Hierarchy.AppRoot (Hierarchy.NewEntity [1]);
     Hierarchy.EvReady [1]] /\
  Hierarchy.before (Hierarchy.EvReady [0]) (Hierarchy.EvReady [0; 1; 0]) (Hierarchy.trace s).
Proof.
  intros forest s.
  destruct (entities_created_then_attached_in_document_order forest None
              (Hierarchy.mkState ∅ []))
    as (_ & Htrace & Horder & _).
  split.
  - fold s in Htrace. rewrite Htrace. vm_compute. reflexivity.
  - apply Horder.
    + reflexivity.
    + reflexivity.
    + exists [1; 0]. split; [discriminate | reflexivity].
Defined.

(** ** The models at work *)

Example split_on_spaces : JS.split " " "1  2 3" = ["1"; ""; "2"; "3"].
Proof. reflexivity. Qed.

Example extension_of_url : AssetElement.extension "a/b.tar.glb" = Some "glb".
Proof. reflexivity. Qed.

Example parseColor_name :
  Parse.parseColor Parse.digits_Number "RebeccaPurple"
  = Parse.Color_fromString (Parse.VString "#663399").
Proof. vm_compute. reflexivity. Qed.

Example parseColor_hex :
  Parse.parseColor Parse.digits_Number "#fa0"
  = Parse.Color_fromString (Parse.VString "#fa0").
Proof. vm_compute. reflexivity. Qed.

Example parseColor_components :
  Parse.parseColor Parse.digits_Number "1 0 0"
  = Parse.Color_new [Some 1%N; Some 0%N; Some 0%N].
Proof. vm_compute. reflexivity. Qed.

Example parseVec3_two_components :
  Parse.parseVec3 Parse.digits_Number None "1 2"
  = Parse.mkVec3 (Parse.FArray [Some 1%N; Some 2%N]) (Parse.FNum None) (Parse.FNum None).
Proof. reflexivity. Qed.

Example wheel_down_zooms_out :
  exists d, FrameScene.targetDistance
              (FrameScene.handleWheel (fun q => q) (FrameScene.initialize (fun q => q) false)
                 (FrameScene.mkInput 100 None)) = Some d
            /\ (d == 575 # 100)%Q.
Proof. eexists. split; [reflexivity|]. vm_compute. reflexivity. Qed.

Example wheel_clamps_at_max :
  exists d, FrameScene.targetDistance
              (FrameScene.handleWheel (fun q => q) (FrameScene.initialize (fun q => q) false)
                 (FrameScene.mkInput 1 (Some (40%Q, FrameScene.mkVec3 0 0 0)))) = Some d
            /\ (d == 50)%Q.
Proof. eexists. split; [reflexivity|]. vm_compute. reflexivity. Qed.

(** * Further properties of the element layer and the viewer script *)

(** ** Splitting attribute values *)

Lemma split_nonempty (sep : ascii) (s : string) : JS.split sep s <> [].
Proof.
  destruct s as [|c rest]; simpl; [discriminate|].
  destruct (Ascii.eqb c sep); [discriminate|].
  destruct (JS.split sep rest); discriminate.
Qed.

Lemma split_length (sep : ascii) (s : string) :
  length (JS.split sep s) = S (ParseMore.count sep s).
Proof.
  induction s as [|c rest IH]; simpl; [reflexivity|].
  destruct (Ascii.eqb c sep); simpl.
  - now rewrite IH.
  - pose proof (split_nonempty sep rest) as Hne.
    destruct (JS.split sep rest) as [|piece pieces]; [congruence|].
    simpl in *. exact IH.
Qed.

(** [parseVec3] hands the engine one number per piece of the value, and
    the pieces are one more than the spaces: the vector gets three numeric
    components exactly when the value holds exactly two spaces. A doubled,
    leading or trailing space, or a missing component, leaves the whole
    array in [x]. *)
Theorem parseVec3_numeric_iff_two_spaces {num : Type} (Number : string -> num) (zero : num)
    (value : string) :
  (exists a b c,
      Parse.parseVec3 Number zero value
      = Parse.mkVec3 (Parse.FNum a) (Parse.FNum b) (Parse.FNum c))
  <-> ParseMore.count " " value = 2.
Proof.
  unfold Parse.parseVec3.
  pose proof (split_length " " value) as Hlen.
  rewrite <- (length_map Number) in Hlen.
  destruct (List.map Number (JS.split " " value)) as [|c0 [|c1 [|c2 [|c3 more]]]];
    simpl in *; split; try (intros (a & b & c & H); discriminate H); try lia.
  intros _. eexists _, _, _. reflexivity.
Qed.

(** [parseQuat] takes the first three pieces of the value and ignores the
    rest; a piece that is missing is passed on as [undefined]; a value of
    exactly three pieces gives its three numbers. *)
Theorem parseQuat_first_three {num : Type} (Number : string -> num)
    (sx sy sz rest : string) :
  Parse.all_chars (fun c => negb (Ascii.eqb c " ")) sx = true ->
  Parse.all_chars (fun c => negb (Ascii.eqb c " ")) sy = true ->
  Parse.all_chars (fun c => negb (Ascii.eqb c " ")) sz = true ->
  ParseMore.parseQuat Number (sx ++ " " ++ sy ++ " " ++ sz ++ " " ++ rest)%string
  = ParseMore.Quat_setFromEulerAngles (Some (Number sx)) (Some (Number sy)) (Some (Number sz))
  /\ ParseMore.parseQuat Number (sx ++ " " ++ sy)%string
     = ParseMore.Quat_setFromEulerAngles (Some (Number sx)) (Some (Number sy)) None
  /\ ParseMore.parseQuat Number sx
     = ParseMore.Quat_setFromEulerAngles (Some (Number sx)) None None
  /\ ParseMore.parseQuat Number (sx ++ " " ++ sy ++ " " ++ sz)%string
     = ParseMore.Quat_setFromEulerAngles (Some (Number sx)) (Some (Number sy)) (Some (Number sz)).
Proof.
  intros Hx Hy Hz. unfold ParseMore.parseQuat. split; [|split; [|split]].
  - change (sx ++ " " ++ sy ++ " " ++ sz ++ " " ++ rest)%string
      with (sx ++ String " " (sy ++ String " " (sz ++ String " " rest)))%string.
    rewrite (split_append " " sx _ Hx), (split_append " " sy _ Hy), (split_append " " sz _ Hz).
    reflexivity.
  - change (sx ++ " " ++ sy)%string with (sx ++ String " " sy)%string.
    rewrite (split_append " " sx _ Hx), (split_no_sep " " sy Hy). reflexivity.
  - rewrite (split_no_sep " " sx Hx). reflexivity.
  - change (sx ++ " " ++ sy ++ " " ++ sz)%string
      with (sx ++ String " " (sy ++ String " " sz))%string.
    rewrite (split_append " " sx _ Hx), (split_append " " sy _ Hy), (split_no_sep " " sz Hz).
    reflexivity.
Qed.

Lemma parseQuat_first_three_witness :
  ParseMore.parseQuat Parse.digits_Number "10 20 30 40 50"
  = ParseMore.Quat_setFromEulerAngles (Some (Some 10%N)) (Some (Some 20%N)) (Some (Some 30%N)).
Proof.
  exact (proj1 (parseQuat_first_three Parse.digits_Number "10" "20" "30" "40 50"
                  eq_refl eq_refl eq_refl)).
Defined.

(** ** Assets *)

Lemma split_append_front (sep : ascii) (s t : string) :
  exists piece pieces,
    JS.split sep (s ++ String sep t)%string = (piece :: pieces) ++ JS.split sep t.
Proof.
  induction s as [|c rest IH]; simpl.
  - rewrite Ascii.eqb_refl. exists "", []. reflexivity.
  - destruct IH as (piece & pieces & ->).
    destruct (Ascii.eqb c sep).
    + exists "", (piece :: pieces). reflexivity.
    + exists (String c piece), pieces. reflexivity.
Qed.

Lemma last_app_nonempty {A : Type} (front l : list A) (d : A) :
  l <> [] -> List.last (front ++ l) d = List.last l d.
Proof.
  intros Hl. induction front as [|x front IH]; [reflexivity|].
  simpl. destruct (front ++ l) eqn:E; [|exact IH].
  apply app_eq_nil in E as [_ E]. congruence.
Qed.

Lemma pop_split_append (sep : ascii) (s t : string) :
  JS.pop (JS.split sep (s ++ String sep t)%string) = JS.pop (JS.split sep t).
Proof.
  unfold JS.pop. destruct (split_append_front sep s t) as (piece & pieces & ->).
  rewrite List.map_app. apply last_app_nonempty.
  pose proof (split_nonempty sep t) as Hne.
  destruct (JS.split sep t); [congruence | discriminate].
Qed.

(** The extension is the text after the last dot, and the whole [src]
    when it has no dot. *)
Lemma extension_after_last_dot (base ext : string) :
  Parse.all_chars (fun c => negb (Ascii.eqb c ".")) ext = true ->
  AssetElement.extension (base ++ String "." ext)%string = Some ext /\
  AssetElement.extension ext = Some ext.
Proof.
  intros Hext. unfold AssetElement.extension.
  rewrite pop_split_append, (split_no_sep "." ext Hext). split; reflexivity.
Qed.

Lemma extToType_values_truthy (ext t : string) :
  AssetElement.extToType !! ext = Some t -> JS.truthy (Some t) = true /\ JS.or_empty (Some t) = t.
Proof.
  intros Hlook.
  assert (Hall : map_Forall (fun _ v => JS.truthy (Some v) = true) AssetElement.extToType).
  { apply map_Forall_to_list. vm_compute.
    repeat (apply Forall_cons; split; [reflexivity|]). apply Forall_nil. constructor. }
  pose proof (Hall _ _ Hlook) as Ht. split; [exact Ht|].
  unfold JS.or_empty. rewrite Ht. reflexivity.
Qed.

(** Without a [type] attribute, [createAsset] infers the type from what
    follows the last dot of [src] (from the whole [src] when it has no dot):
    when the table has it, the element gets an asset with the [id]
    attribute as name (empty when absent), the table's type, the [src] as
    url and preload set unless the element is lazy; nothing is logged. *)
Theorem createAsset_infers_type_from_extension
    (el : AssetElement.t) (console : list string) (src base ext t : string) :
  AssetElement.getAttribute "type" el = None ->
  AssetElement.getAttribute "src" el = Some src ->
  src = (base ++ String "." ext)%string \/ src = ext ->
  Parse.all_chars (fun c => negb (Ascii.eqb c ".")) ext = true ->
  AssetElement.extToType !! ext = Some t ->
  AssetElement.createAsset el console
  = (AssetElement.mk (AssetElement.attributes el) (AssetElement._lazy el)
       (Some (AssetElement.mkAsset (JS.or_empty (AssetElement.getAttribute "id" el)) t src
                (negb (AssetElement._lazy el)))),
     console).
Proof.
  intros Htype Hsrc Hshape Hext Ht.
  destruct (extension_after_last_dot base ext Hext) as [Hdot Hplain].
  assert (Hextn : AssetElement.extension src = Some ext)
    by (destruct Hshape as [-> | ->]; assumption).
  assert (Hne : src <> "").
  { intros ->. destruct Hshape as [H|H].
    - destruct base; discriminate H.
    - subst ext. vm_compute in Ht. discriminate Ht. }
  assert (Hsrc' : JS.or_empty (Some src) = src) by (destruct src; reflexivity).
  assert (Hext' : JS.or_empty (Some ext) = ext) by (destruct ext; reflexivity).
  destruct (extToType_values_truthy ext t Ht) as [Htruthy Hor].
  unfold AssetElement.createAsset, AssetElement.resolve_type.
  rewrite Htype, Hsrc, Hsrc', Hextn, Hext', Ht.
  change (JS.truthy None) with false. cbv iota.
  rewrite Htruthy, Hor. reflexivity.
Qed.

Lemma createAsset_infers_type_from_extension_witness :
  AssetElement.createAsset
    (AssetElement.mk {["id" := "statue"; "src" := "models/v1.2/statue.glb"]} true None) []
  = (AssetElement.mk {["id" := "statue"; "src" := "models/v1.2/statue.glb"]} true
       (Some (AssetElement.mkAsset "statue" "container" "models/v1.2/statue.glb" false)),
     []).
Proof.
  rewrite (createAsset_infers_type_from_extension
             (AssetElement.mk {["id" := "statue"; "src" := "models/v1.2/statue.glb"]} true None)
             [] "models/v1.2/statue.glb" "models/v1.2/statue" "glb" "container").
  - vm_compute. reflexivity.
  - vm_compute. reflexivity.
  - vm_compute. reflexivity.
  - left. reflexivity.
  - reflexivity.
  - vm_compute. reflexivity.
Defined.

Lemma createAsset_preload (s : AssetOps.State) :
  AssetOps.preload_matches_lazy s -> AssetOps.preload_matches_lazy (AssetOps.createAsset s).
Proof.
  unfold AssetOps.preload_matches_lazy, AssetOps.createAsset, AssetElement.createAsset.
  intros H. destruct (negb (JS.truthy _)); simpl; [exact H|].
  intros a Ha. injection Ha as <-. reflexivity.
Qed.

Lemma set_lazy_preload (v : bool) (s : AssetOps.State) :
  AssetOps.preload_matches_lazy (AssetOps.set_lazy v s).
Proof.
  unfold AssetOps.preload_matches_lazy, AssetOps.set_lazy. simpl.
  destruct (AssetElement.asset (AssetOps.element s)) as [a0|]; intros a Ha; [|discriminate].
  injection Ha as <-. reflexivity.
Qed.

Lemma destroyAsset_preload (s : AssetOps.State) :
  AssetOps.preload_matches_lazy s -> AssetOps.preload_matches_lazy (AssetOps.destroyAsset s).
Proof.
  unfold AssetOps.preload_matches_lazy, AssetOps.destroyAsset. intros H.
  destruct (AssetElement.asset (AssetOps.element s)) as [a0|] eqn:E.
  - simpl. discriminate.
  - intros a Ha. rewrite E in Ha. discriminate Ha.
Qed.

Lemma attributeChanged_preload (name : string) (attrs : gmap string string)
    (s : AssetOps.State) :
  AssetOps.preload_matches_lazy s ->
  AssetOps.preload_matches_lazy
    (if AssetOps.observed name
     then AssetOps.attributeChangedCallback name (AssetOps.with_attributes attrs s)
     else AssetOps.with_attributes attrs s).
Proof.
  intros H. unfold AssetOps.attributeChangedCallback, AssetOps.observed.
  destruct (String.eqb name "lazy"); [apply set_lazy_preload | exact H].
Qed.

Lemma step_preload (op : AssetOps.Op) (s : AssetOps.State) :
  AssetOps.preload_matches_lazy s -> AssetOps.preload_matches_lazy (AssetOps.step s op).
Proof.
  intros H. destruct op as [| | |v|n v|n]; simpl.
  - now apply createAsset_preload.
  - now apply destroyAsset_preload.
  - now apply destroyAsset_preload.
  - apply set_lazy_preload.
  - unfold AssetOps.setAttribute. now apply attributeChanged_preload.
  - unfold AssetOps.removeAttribute.
    destruct (AssetElement.attributes (AssetOps.element s) !! n); [|exact H].
    now apply attributeChanged_preload.
Qed.

(** Whatever is done to a pc-asset element after its construction
    (creating and destroying its asset, disconnecting it, assigning [lazy],
    setting and removing attributes, in any order), its asset, when it has
    one, is preloaded exactly when the element is not lazy. *)
Theorem asset_preload_follows_lazy (attrs : gmap string string) (ops : list AssetOps.Op) :
  AssetOps.preload_matches_lazy (AssetOps.run ops (AssetOps.constructor attrs)).
Proof.
  assert (Hgen : forall s, AssetOps.preload_matches_lazy s ->
                           AssetOps.preload_matches_lazy (AssetOps.run ops s)).
  { induction ops as [|op rest IH]; intros s H; simpl; [exact H|].
    apply IH. now apply step_preload. }
  apply Hgen. intros a Ha. discriminate Ha.
Qed.

(** The [lazy] markup attribute and the [lazy] property: after the
    attribute is set the element is lazy and an existing asset is no longer
    preloaded; after it is removed the element is not lazy and the asset is
    preloaded again, whatever the property was before. *)
Theorem lazy_attribute_round_trip (s : AssetOps.State) (value : string) :
  let s1 := AssetOps.setAttribute "lazy" value s in
  let s2 := AssetOps.removeAttribute "lazy" s1 in
  AssetElement._lazy (AssetOps.element s1) = true /\
  AssetElement._lazy (AssetOps.element s2) = false /\
  (forall a, AssetElement.asset (AssetOps.element s) = Some a ->
             exists a1 a2,
               AssetElement.asset (AssetOps.element s1) = Some a1 /\
               AssetElement.asset_preload a1 = false /\
               AssetElement.asset (AssetOps.element s2) = Some a2 /\
               AssetElement.asset_preload a2 = true /\
               AssetElement.asset_url a2 = AssetElement.asset_url a /\
               AssetElement.asset_type a2 = AssetElement.asset_type a) /\
  AssetElement.attributes (AssetOps.element s2)
  = delete "lazy" (AssetElement.attributes (AssetOps.element s)).
Proof.
  cbv zeta.
  assert (Hhas : AssetOps.hasAttribute "lazy"
                   (AssetOps.with_attributes
                      (<["lazy" := value]> (AssetElement.attributes (AssetOps.element s))) s)
                 = true).
  { unfold AssetOps.hasAttribute. simpl. apply bool_decide_eq_true.
    rewrite lookup_insert_eq. eauto. }
  assert (H1 : AssetOps.setAttribute "lazy" value s
               = AssetOps.set_lazy true
                   (AssetOps.with_attributes
                      (<["lazy" := value]> (AssetElement.attributes (AssetOps.element s))) s)).
  { unfold AssetOps.setAttribute, AssetOps.attributeChangedCallback. simpl.
    rewrite Hhas. reflexivity. }
  rewrite H1.
  unfold AssetOps.removeAttribute. simpl. rewrite lookup_insert_eq.
  unfold AssetOps.attributeChangedCallback. simpl.
  assert (Hno : AssetOps.hasAttribute "lazy"
                  (AssetOps.with_attributes
                     (delete "lazy"
                        (<["lazy" := value]> (AssetElement.attributes (AssetOps.element s))))
                     (AssetOps.set_lazy true
                        (AssetOps.with_attributes
                           (<["lazy" := value]> (AssetElement.attributes (AssetOps.element s)))
                           s)))
                = false).
  { unfold AssetOps.hasAttribute. simpl. apply bool_decide_eq_false.
    rewrite lookup_delete_eq. intros [x Hx]. discriminate Hx. }
  rewrite Hno. simpl.
  split; [reflexivity|]. split; [reflexivity|]. split.
  - intros a Ha. rewrite Ha. eexists _, _. repeat split; reflexivity.
  - apply delete_insert_eq.
Qed.

Lemma lazy_attribute_round_trip_witness :
  let a := AssetElement.mkAsset "m" "container" "m.glb" true in
  let s := AssetOps.mkState (AssetElement.mk {["src" := "m.glb"]} false (Some a)) [] [] in
  AssetElement.asset (AssetOps.element (AssetOps.setAttribute "lazy" "" s))
  = Some (AssetElement.mkAsset "m" "container" "m.glb" false) /\
  AssetElement.asset
    (AssetOps.element (AssetOps.removeAttribute "lazy" (AssetOps.setAttribute "lazy" "" s)))
  = Some a.
Proof.
  intros a s.
  destruct (lazy_attribute_round_trip s "") as (_ & _ & Hasset & _).
  destruct (Hasset a eq_refl) as (a1 & a2 & H1 & _ & H2 & _).
  split; vm_compute; reflexivity.
Defined.

(** ** The light type *)

Lemma set_type_keeps_valid_and_synced (value : string) (el : LightComponentElement.t)
    (w : World) :
  LightOps.type_valid_and_synced el w ->
  LightOps.type_valid_and_synced (fst (LightComponentElement.set_type value el w))
    (snd (LightComponentElement.set_type value el w)).
Proof.
  intros [Hvalid Hsync]. unfold LightComponentElement.set_type.
  destruct (JS.includes LightComponentElement.light_types value) eqn:Hin; simpl.
  - apply includes_In in Hin.
    destruct (ComponentElement._component (LightComponentElement.base el)) as [c|] eqn:Hc.
    + unfold ComponentElement.component in *. simpl. rewrite Hc.
      destruct (Hsync c Hc) as (obj & Hobj & _). rewrite Hobj. simpl.
      split; [exact Hin|]. intros c' Hc'.
      change (ComponentElement._component (LightComponentElement.base el) = Some c') in Hc'.
      rewrite Hc in Hc'.
      injection Hc' as <-. eexists. split; [apply lookup_insert_eq | reflexivity].
    + unfold ComponentElement.component in *. simpl. rewrite Hc. simpl.
      split; [exact Hin|]. intros c' Hc'.
      change (ComponentElement._component (LightComponentElement.base el) = Some c') in Hc'.
      congruence.
  - split; [exact Hvalid | exact Hsync].
Qed.

(** However many values, valid or not, are assigned to a light's [type]
    one after the other, the element's type stays one of 'directional',
    'omni' and 'spot', and the engine light component, when it exists, keeps
    the same type as the element. *)
Theorem light_type_stays_valid_and_synced
    (values : list string) (el : LightComponentElement.t) (w : World) :
  LightOps.type_valid_and_synced el w ->
  LightOps.type_valid_and_synced (fst (LightOps.assign_types values el w))
    (snd (LightOps.assign_types values el w)).
Proof.
  unfold LightOps.assign_types. revert el w.
  induction values as [|v rest IH]; intros el w H; simpl; [exact H|].
  destruct (LightComponentElement.set_type v el w) as [el1 w1] eqn:E.
  apply IH. pose proof (set_type_keeps_valid_and_synced v el w H) as H1.
  rewrite E in H1. exact H1.
Qed.

Lemma light_type_stays_valid_and_synced_witness :
  let el := LightComponentElement.mk (ComponentElement.mk true (Some 4%positive) "light")
              false (LightComponentElement.mkColor 1 1 1 1) 40 1 (5 # 100) 45 10 (2 # 10)
              16 1 1024 "pcf3-32f" "directional" (1 # 100) in
  let w := mkWorld {[4%positive := mkEngineComponent (Some 2%positive) true "directional"]}
             [] [] in
  LightOps.type_valid_and_synced
    (fst (LightOps.assign_types ["spot"; "area"; "omni"; ""] el w))
    (snd (LightOps.assign_types ["spot"; "area"; "omni"; ""] el w)).
Proof.
  intros el w. apply light_type_stays_valid_and_synced.
  split.
  - left. reflexivity.
  - intros c Hc. injection Hc as <-. eexists. split; [apply lookup_singleton_eq | reflexivity].
Defined.

(** ** Pointer listeners and the canvas *)

Section PointerFacts.

Import Pointer.

Lemma iter_idempotent {A : Type} (f : A -> A) (n : nat) (x : A) :
  f (f x) = f x -> 1 <= n -> Nat.iter n f x = f x.
Proof.
  intros Hf Hn. destruct n as [|n]; [lia|]. clear Hn.
  induction n as [|n IH]; [reflexivity|].
  change (Nat.iter (S (S n)) f x) with (f (Nat.iter (S n) f x)).
  rewrite IH. exact Hf.
Qed.

Lemma get_put_flag (t : PointerType) (v : bool) (f : Flags) :
  get_flag t (put_flag t v f) = v.
Proof. destruct t; reflexivity. Qed.

Lemma get_put_flag_other (t t' : PointerType) (v : bool) (f : Flags) :
  t <> t' -> get_flag t (put_flag t' v f) = get_flag t f.
Proof. destruct t, t'; intros H; try reflexivity; congruence. Qed.

Lemma put_put_flag (t : PointerType) (v : bool) (f : Flags) :
  put_flag t v (put_flag t v f) = put_flag t v f.
Proof. destruct t; reflexivity. Qed.

Lemma elem_of_canvas_add (p : PointerType * handler) (t : PointerType) (h : handler)
    (c : Canvas) :
  p ∈ canvas_add t h c <-> p ∈ c \/ p = (t, h).
Proof.
  unfold canvas_add. destruct (decide ((t, h) ∈ c)) as [Hin|Hnot].
  - split; [auto | intros [H| ->]; assumption].
  - rewrite elem_of_app, list_elem_of_singleton. reflexivity.
Qed.

Lemma elem_of_canvas_remove (p : PointerType * handler) (t : PointerType) (h : handler)
    (c : Canvas) :
  p ∈ canvas_remove t h c <-> p ∈ c /\ p <> (t, h).
Proof.
  unfold canvas_remove. rewrite !list_elem_of_In, filter_In, negb_true_iff, bool_decide_eq_false.
  reflexivity.
Qed.

Lemma canvas_remove_idempotent (t : PointerType) (h : handler) (c : Canvas) :
  canvas_remove t h (canvas_remove t h c) = canvas_remove t h c.
Proof.
  unfold canvas_remove. induction c as [|p c IH]; [reflexivity|].
  simpl. destruct (negb (bool_decide (p = (t, h)))) eqn:Hp; simpl.
  - rewrite Hp. f_equal. exact IH.
  - exact IH.
Qed.

Lemma added_idempotent (t : PointerType) (a : App) :
  _onPointerListenerAdded t (_onPointerListenerAdded t a) = _onPointerListenerAdded t a.
Proof.
  unfold _onPointerListenerAdded.
  destruct (_canvas a) as [c|] eqn:Hc; [|now rewrite Hc].
  destruct (get_flag t (_hasPointerListeners a)) eqn:Hf.
  - now rewrite Hc, Hf.
  - simpl. unfold set_flag. simpl. now rewrite get_put_flag.
Qed.

Lemma removed_idempotent (es : list EntityListeners) (t : PointerType) (a : App) :
  _onPointerListenerRemoved es t (_onPointerListenerRemoved es t a)
  = _onPointerListenerRemoved es t a.
Proof.
  unfold _onPointerListenerRemoved.
  destruct (_canvas a) as [c|] eqn:Hc; [|now rewrite Hc].
  destruct (existsb (hasListeners t) es) eqn:Hs; [now rewrite Hc|].
  simpl. unfold set_flag, handler_for, pointerHandler. simpl.
  rewrite put_put_flag.
  destruct t; simpl;
    match goal with
    | |- context [match ?h with Some _ => _ | None => _ end] =>
        destruct h; simpl; rewrite ?canvas_remove_idempotent; reflexivity
    end.
Qed.

Lemma existsb_insert_same {A : Type} (P : A -> bool) (l : list A) (i : nat) (x y : A) :
  l !! i = Some x -> P y = P x -> existsb P (<[i := y]> l) = existsb P l.
Proof.
  revert i. induction l as [|z l IH]; intros i Hi Hxy; [discriminate|].
  destruct i as [|i]; simpl in *.
  - injection Hi as ->. now rewrite Hxy.
  - f_equal. now apply IH.
Qed.

Lemma existsb_insert_true {A : Type} (P : A -> bool) (l : list A) (i : nat) (x y : A) :
  l !! i = Some x -> P y = true -> existsb P (<[i := y]> l) = true.
Proof.
  revert i. induction l as [|z l IH]; intros i Hi Hy; [discriminate|].
  destruct i as [|i]; simpl in *.
  - now rewrite Hy.
  - rewrite (IH i Hi Hy). apply orb_true_r.
Qed.

Lemma existsb_insert_weaker {A : Type} (P : A -> bool) (l : list A) (i : nat) (x y : A) :
  l !! i = Some x -> (P y = true -> P x = true) ->
  existsb P (<[i := y]> l) = true -> existsb P l = true.
Proof.
  revert i. induction l as [|z l IH]; intros i Hi Hyx; [discriminate|].
  destruct i as [|i]; simpl in *.
  - injection Hi as ->. intros H. apply orb_true_iff in H as [H|H].
    + rewrite (Hyx H). reflexivity.
    + rewrite H. apply orb_true_r.
  - intros H. apply orb_true_iff in H as [H|H].
    + now rewrite H.
    + rewrite (IH i Hi Hyx H). apply orb_true_r.
Qed.

Lemma hasListeners_push (t : PointerType) (l : listener) (e : EntityListeners) :
  hasListeners t (push_listener t l e) = true.
Proof.
  unfold hasListeners, push_listener. destruct (decide (t = t)); [|congruence].
  destruct (e t); reflexivity.
Qed.

Lemma hasListeners_push_other (t t' : PointerType) (l : listener) (e : EntityListeners) :
  t <> t' -> hasListeners t (push_listener t' l e) = hasListeners t e.
Proof.
  intros H. unfold hasListeners, push_listener. destruct (decide (t = t')); [congruence|].
  reflexivity.
Qed.

Lemma hasListeners_drop_other (t t' : PointerType) (l : listener) (e : EntityListeners) :
  t <> t' -> hasListeners t (drop_listener t' l e) = hasListeners t e.
Proof.
  intros H. unfold hasListeners, drop_listener. destruct (decide (t = t')); [congruence|].
  reflexivity.
Qed.

Lemma hasListeners_drop (t : PointerType) (l : listener) (e : EntityListeners) :
  hasListeners t (drop_listener t l e) = true -> hasListeners t e = true.
Proof.
  unfold hasListeners, drop_listener. destruct (decide (t = t)); [|congruence].
  destruct (e t); [discriminate | reflexivity].
Qed.

End PointerFacts.

Section PointerRouting.

Import Pointer.

Lemma own_type_canvas (t t' : PointerType) :
  own_type t -> t <> t' -> canvas_type t' <> t.
Proof. intros [-> | ->] H; destruct t'; simpl; congruence. Qed.

Lemma own_type_handler (t : PointerType) (a : App) :
  own_type t -> canvas_type t = t /\ handler_for t a = pointerHandler t a.
Proof. intros [-> | ->]; split; reflexivity. Qed.

Lemma add_keeps_own_type_inv (t : PointerType) (i : nat) (t' : PointerType) (l : listener)
    (s : System) :
  own_type t -> own_type_inv t s -> own_type_inv t (addEventListener i t' l s).
Proof.
  intros Hown (c & h & Hc & Hh & Hreg & Hflag & Hcan).
  unfold addEventListener. destruct (entities s !! i) as [e|] eqn:Hi;
    [|exists c, h; auto].
  rewrite (iter_idempotent _ _ _ (added_idempotent t' (app s)) Hreg).
  destruct (own_type_handler t (app s) Hown) as [Hct Hhf].
  unfold own_type_inv, _onPointerListenerAdded. simpl. rewrite Hc.
  destruct (get_flag t' (_hasPointerListeners (app s))) eqn:Hf'.
  - exists c, h. split; [exact Hc|]. split; [exact Hh|]. split; [exact Hreg|].
    destruct (decide (t = t')) as [<-|Hne].
    + rewrite (existsb_insert_true _ _ _ e _ Hi (hasListeners_push t l e)).
      split; [exact Hf' | exact Hcan].
    + rewrite (existsb_insert_same _ _ _ e _ Hi (hasListeners_push_other t t' l e Hne)).
      split; [exact Hflag | exact Hcan].
  - simpl. destruct (decide (t = t')) as [<-|Hne].
    + rewrite Hhf, Hh, Hct. exists (canvas_add t h c), h.
      split; [reflexivity|]. split; [destruct Hown as [-> | ->]; exact Hh|].
      split; [exact Hreg|]. unfold set_flag. rewrite get_put_flag.
      rewrite (existsb_insert_true _ _ _ e _ Hi (hasListeners_push t l e)).
      split; [reflexivity|]. split; [reflexivity|].
      intros _. apply elem_of_canvas_add. now right.
    + exists (match handler_for t' (app s) with
              | Some h' => canvas_add (canvas_type t') h' c
              | None => c
              end), h.
      split; [reflexivity|]. split; [destruct Hown as [-> | ->]; exact Hh|].
      split; [exact Hreg|]. unfold set_flag. rewrite (get_put_flag_other t t' _ _ Hne).
      rewrite (existsb_insert_same _ _ _ e _ Hi (hasListeners_push_other t t' l e Hne)).
      split; [exact Hflag|]. rewrite <- Hcan.
      destruct (handler_for t' (app s)) as [h'|]; [|reflexivity].
      rewrite elem_of_canvas_add. split; [|auto].
      intros [H|H]; [exact H|]. injection H as H _.
      exfalso. apply (own_type_canvas t t' Hown Hne). now symmetry.
Qed.

Lemma remove_keeps_own_type_inv (t : PointerType) (i : nat) (t' : PointerType) (l : listener)
    (s : System) :
  own_type t -> own_type_inv t s -> own_type_inv t (removeEventListener i t' l s).
Proof.
  intros Hown (c & h & Hc & Hh & Hreg & Hflag & Hcan).
  unfold removeEventListener. destruct (entities s !! i) as [e|] eqn:Hi;
    [|exists c, h; auto].
  rewrite (iter_idempotent _ _ _ (removed_idempotent _ t' (app s)) Hreg).
  destruct (own_type_handler t (app s) Hown) as [Hct Hhf].
  unfold own_type_inv, _onPointerListenerRemoved. simpl. rewrite Hc.
  destruct (existsb (hasListeners t') (<[i := drop_listener t' l e]> (entities s))) eqn:Hsome.
  - exists c, h. split; [exact Hc|]. split; [exact Hh|]. split; [exact Hreg|].
    destruct (decide (t = t')) as [<-|Hne].
    + rewrite Hsome. split; [|exact Hcan]. rewrite Hflag.
      apply (existsb_insert_weaker _ _ _ e _ Hi (hasListeners_drop t l e) Hsome).
    + rewrite (existsb_insert_same _ _ _ e _ Hi (hasListeners_drop_other t t' l e Hne)).
      split; [exact Hflag | exact Hcan].
  - simpl. destruct (decide (t = t')) as [<-|Hne].
    + rewrite Hhf, Hh, Hct. exists (canvas_remove t h c), h.
      split; [reflexivity|]. split; [destruct Hown as [-> | ->]; exact Hh|].
      split; [exact Hreg|]. unfold set_flag. rewrite get_put_flag, Hsome.
      split; [reflexivity|]. split; [|discriminate].
      intros H. apply elem_of_canvas_remove in H as [_ H]. congruence.
    + exists (match handler_for t' (app s) with
              | Some h' => canvas_remove (canvas_type t') h' c
              | None => c
              end), h.
      split; [reflexivity|]. split; [destruct Hown as [-> | ->]; exact Hh|].
      split; [exact Hreg|]. unfold set_flag. rewrite (get_put_flag_other t t' _ _ Hne).
      rewrite (existsb_insert_same _ _ _ e _ Hi (hasListeners_drop_other t t' l e Hne)).
      split; [exact Hflag|]. rewrite <- Hcan.
      destruct (handler_for t' (app s)) as [h'|]; [|reflexivity].
      rewrite elem_of_canvas_remove. split; [tauto|].
      intros H. split; [exact H|]. intros Heq. injection Heq as Heq _.
      apply (own_type_canvas t t' Hown Hne). now symmetry.
Qed.

Lemma existsb_repeat_no_listeners (t : PointerType) (n : nat) :
  existsb (hasListeners t) (repeat no_listeners n) = false.
Proof. induction n as [|n IH]; [reflexivity | exact IH]. Qed.

Lemma fresh_own_type_inv (t : PointerType) (es : list EntityListeners) :
  own_type t ->
  existsb (hasListeners t) es = false ->
  own_type_inv t (mkSystem (connect_picker constructor) es).
Proof.
  intros Hown Hnone. exists [], (match t with pointerdown => 1 | _ => 2 end).
  split; [reflexivity|]. split; [destruct Hown as [-> | ->]; reflexivity|].
  split; [simpl; lia|]. simpl entities. rewrite Hnone.
  split; [destruct Hown as [-> | ->]; reflexivity|].
  split.
  - intros H. apply elem_of_nil in H. contradiction.
  - destruct Hown as [-> | ->]; discriminate.
Qed.

Lemma run_keeps_own_type_inv (t : PointerType) (ops : list Op) (s : System) :
  own_type t -> own_type_inv t s -> own_type_inv t (run ops s).
Proof.
  intros Hown. revert s. induction ops as [|op rest IH]; intros s H; simpl; [exact H|].
  apply IH. destruct op as [i t' l|i t' l]; simpl.
  - now apply add_keeps_own_type_inv.
  - now apply remove_keeps_own_type_inv.
Qed.

End PointerRouting.

(** From an app connected once and entities that have no listener of the
    type yet, after any sequence of [addEventListener] and
    [removeEventListener] calls on the entities, for pointerdown and for
    pointerup: the canvas has the
    app's handler of the type exactly when some entity has a listener of the
    type, and the [_hasPointerListeners] flag says the same. *)
Theorem pointer_down_up_routed_iff_listened
    (es : list Pointer.EntityListeners) (ops : list Pointer.Op) (t : Pointer.PointerType) :
  t = Pointer.pointerdown \/ t = Pointer.pointerup ->
  existsb (Pointer.hasListeners t) es = false ->
  let s := Pointer.run ops (Pointer.mkSystem (Pointer.connect_picker Pointer.constructor) es) in
  (Pointer.routed t (Pointer.app s)
   <-> existsb (Pointer.hasListeners t) (Pointer.entities s) = true) /\
  Pointer.get_flag t (Pointer._hasPointerListeners (Pointer.app s))
  = existsb (Pointer.hasListeners t) (Pointer.entities s).
Proof.
  intros Hown Hnone s.
  destruct (run_keeps_own_type_inv t ops _ Hown (fresh_own_type_inv t es Hown Hnone))
    as (c & h & Hc & Hh & _ & Hflag & Hcan).
  fold s in Hc, Hh, Hflag, Hcan.
  destruct (own_type_handler t (Pointer.app s) Hown) as [Hct Hhf].
  split; [|exact Hflag].
  rewrite <- Hflag, <- Hcan. unfold Pointer.routed. rewrite Hct, Hhf. split.
  - intros (c' & h' & Hc' & Hh' & Hin). congruence.
  - intros Hin. exists c, h. auto.
Qed.

Lemma pointer_down_up_routed_iff_listened_witness :
  let s := Pointer.run
             [Pointer.OpAdd 0 Pointer.pointerdown 7; Pointer.OpAdd 1 Pointer.pointerdown 8;
              Pointer.OpRemove 0 Pointer.pointerdown 7]
             (Pointer.fresh 2) in
  Pointer.routed Pointer.pointerdown (Pointer.app s) /\
  ~ Pointer.routed Pointer.pointerup (Pointer.app s).
Proof.
  intros s.
  destruct (pointer_down_up_routed_iff_listened (repeat Pointer.no_listeners 2)
              [Pointer.OpAdd 0 Pointer.pointerdown 7; Pointer.OpAdd 1 Pointer.pointerdown 8;
               Pointer.OpRemove 0 Pointer.pointerdown 7]
              Pointer.pointerdown (or_introl eq_refl) eq_refl) as [Hdown _].
  destruct (pointer_down_up_routed_iff_listened (repeat Pointer.no_listeners 2)
              [Pointer.OpAdd 0 Pointer.pointerdown 7; Pointer.OpAdd 1 Pointer.pointerdown 8;
               Pointer.OpRemove 0 Pointer.pointerdown 7]
              Pointer.pointerup (or_intror eq_refl) eq_refl) as [Hup _].
  split.
  - apply Hdown. reflexivity.
  - intros H. apply Hup in H. discriminate H.
Defined.

(** The canvas's pointermove handler serves three types. When the last
    pointerenter (or pointerleave) listener is removed from the entities,
    the handler is detached from the canvas whatever pointermove listeners
    the entities still have; the pointermove flag is left as it was, and
    when it is set, adding a pointermove listener afterwards attaches
    nothing. *)
Theorem removing_last_enter_listener_detaches_move
    (s : Pointer.System) (t : Pointer.PointerType) (i : nat) (e : Pointer.EntityListeners)
    (l : Pointer.listener) (c : Pointer.Canvas) (hm : Pointer.handler) :
  t = Pointer.pointerenter \/ t = Pointer.pointerleave ->
  Pointer.entities s !! i = Some e ->
  1 <= Pointer.registrations (Pointer.app s) ->
  Pointer._canvas (Pointer.app s) = Some c ->
  Pointer.handler_move (Pointer.app s) = Some hm ->
  existsb (Pointer.hasListeners t) (<[i := Pointer.drop_listener t l e]> (Pointer.entities s))
  = false ->
  let s' := Pointer.removeEventListener i t l s in
  ~ Pointer.routed Pointer.pointermove (Pointer.app s') /\
  existsb (Pointer.hasListeners Pointer.pointermove) (Pointer.entities s')
  = existsb (Pointer.hasListeners Pointer.pointermove) (Pointer.entities s) /\
  Pointer.get_flag Pointer.pointermove (Pointer._hasPointerListeners (Pointer.app s'))
  = Pointer.get_flag Pointer.pointermove (Pointer._hasPointerListeners (Pointer.app s)) /\
  (Pointer.get_flag Pointer.pointermove (Pointer._hasPointerListeners (Pointer.app s)) = true ->
   forall j l',
     Pointer.app (Pointer.addEventListener j Pointer.pointermove l' s') = Pointer.app s').
Proof.
  intros Ht Hi Hreg Hc Hm Hnone s'.
  assert (Hne : Pointer.pointermove <> t) by (destruct Ht as [-> | ->]; discriminate).
  assert (Happ : Pointer.app s'
                 = Pointer.mkApp (Some (Pointer.canvas_remove Pointer.pointermove hm c))
                     (Pointer._picker (Pointer.app s))
                     (Pointer.put_flag t false (Pointer._hasPointerListeners (Pointer.app s)))
                     (Pointer.handler_move (Pointer.app s))
                     (Pointer.handler_down (Pointer.app s))
                     (Pointer.handler_up (Pointer.app s))
                     (Pointer.registrations (Pointer.app s))
                     (Pointer.next_handler (Pointer.app s))).
  { subst s'. unfold Pointer.removeEventListener. rewrite Hi. simpl.
    rewrite (iter_idempotent _ _ _ (removed_idempotent _ t (Pointer.app s)) Hreg).
    unfold Pointer._onPointerListenerRemoved. rewrite Hc, Hnone.
    unfold Pointer.set_flag, Pointer.handler_for.
    destruct Ht as [-> | ->]; simpl; rewrite Hm; reflexivity. }
  assert (Hents : Pointer.entities s' = <[i := Pointer.drop_listener t l e]> (Pointer.entities s)).
  { subst s'. unfold Pointer.removeEventListener. rewrite Hi. reflexivity. }
  split; [|split; [|split]].
  - intros (c' & h' & Hc' & Hh' & Hin). rewrite Happ in Hc', Hh'. simpl in Hc', Hh'.
    unfold Pointer.handler_for in Hh'. simpl in Hh'. rewrite Hm in Hh'.
    injection Hc' as <-. injection Hh' as <-.
    apply elem_of_canvas_remove in Hin as [_ Hin]. now apply Hin.
  - rewrite Hents. apply (existsb_insert_same _ _ _ e _ Hi).
    now apply hasListeners_drop_other.
  - rewrite Happ. cbn [Pointer._hasPointerListeners]. now apply get_put_flag_other.
  - intros Hflag j l'. unfold Pointer.addEventListener.
    destruct (Pointer.entities s' !! j); [|reflexivity]. simpl.
    assert (Hid : Pointer._onPointerListenerAdded Pointer.pointermove (Pointer.app s')
                  = Pointer.app s').
    { unfold Pointer._onPointerListenerAdded. rewrite Happ.
      cbn [Pointer._canvas Pointer._hasPointerListeners].
      rewrite (get_put_flag_other _ _ _ _ Hne), Hflag. reflexivity. }
    rewrite iter_idempotent; [exact Hid | now rewrite Hid |].
    rewrite Happ. simpl. exact Hreg.
Qed.

Lemma removing_last_enter_listener_detaches_move_witness :
  let s := Pointer.run
             [Pointer.OpAdd 0 Pointer.pointermove 7; Pointer.OpAdd 1 Pointer.pointerenter 8]
             (Pointer.fresh 2) in
  let s' := Pointer.removeEventListener 1 Pointer.pointerenter 8 s in
  Pointer.routed Pointer.pointermove (Pointer.app s) /\
  ~ Pointer.routed Pointer.pointermove (Pointer.app s') /\
  existsb (Pointer.hasListeners Pointer.pointermove) (Pointer.entities s') = true.
Proof.
  intros s s'.
  assert (He : exists e, Pointer.entities s !! 1 = Some e) by (eexists; reflexivity).
  destruct He as (e & He).
  destruct (removing_last_enter_listener_detaches_move s Pointer.pointerenter 1 e 8
              [(Pointer.pointermove, 0)] 0 (or_introl eq_refl) He)
    as (Hnot & Hsame & _).
  - simpl. lia.
  - reflexivity.
  - reflexivity.
  - injection He as <-. reflexivity.
  - split; [|split].
    + exists [(Pointer.pointermove, 0)], 0. split; [reflexivity|]. split; [reflexivity|].
      apply list_elem_of_singleton. reflexivity.
    + exact Hnot.
    + fold s' in Hsame. rewrite Hsame. reflexivity.
Defined.

(** [_pickerDestroy] and [disconnectedCallback] leave the
    [_hasPointerListeners] flags as they are. So when the app is
    disconnected and connected again, it has a new canvas without handlers,
    and for every type whose flag was set, adding a listener to an entity
    attaches nothing: events of that type are no longer routed. *)
Theorem reconnected_app_keeps_stale_flags
    (a : Pointer.App) (t : Pointer.PointerType) (es : list Pointer.EntityListeners)
    (i : nat) (l : Pointer.listener) :
  Pointer.get_flag t (Pointer._hasPointerListeners a) = true ->
  let a' := Pointer.connect_picker (Pointer.disconnect_picker a) in
  let s' := Pointer.addEventListener i t l (Pointer.mkSystem a' es) in
  Pointer._canvas a' = Some [] /\
  Pointer.app s' = a' /\
  ~ Pointer.routed t (Pointer.app s').
Proof.
  intros Hflag a' s'.
  assert (Hid : Pointer._onPointerListenerAdded t a' = a').
  { unfold Pointer._onPointerListenerAdded. subst a'. simpl. rewrite Hflag. reflexivity. }
  assert (Hiter : forall n, Nat.iter n (Pointer._onPointerListenerAdded t) a' = a').
  { induction n as [|n IH]; [reflexivity|]. simpl. rewrite IH. exact Hid. }
  assert (Happ : Pointer.app s' = a').
  { subst s'. unfold Pointer.addEventListener.
    cbn [Pointer.entities Pointer.app].
    destruct (es !! i); [|reflexivity]. cbn [Pointer.app]. apply Hiter. }
  split; [reflexivity|]. split; [exact Happ|].
  rewrite Happ. intros (c & h & Hc & _ & Hin).
  subst a'. simpl in Hc. injection Hc as <-. apply elem_of_nil in Hin. exact Hin.
Qed.

Lemma reconnected_app_keeps_stale_flags_witness :
  let s := Pointer.run [Pointer.OpAdd 0 Pointer.pointerdown 7] (Pointer.fresh 1) in
  let a' := Pointer.connect_picker (Pointer.disconnect_picker (Pointer.app s)) in
  let s' := Pointer.addEventListener 0 Pointer.pointerdown 9
              (Pointer.mkSystem a' (Pointer.entities s)) in
  Pointer.routed Pointer.pointerdown (Pointer.app s) /\
  ~ Pointer.routed Pointer.pointerdown (Pointer.app s').
Proof.
  intros s a' s'.
  destruct (reconnected_app_keeps_stale_flags (Pointer.app s) Pointer.pointerdown
              (Pointer.entities s) 0 9 eq_refl) as (_ & _ & Hnot).
  split; [|exact Hnot].
  exists [(Pointer.pointerdown, 1)], 1. split; [reflexivity|]. split; [reflexivity|].
  apply list_elem_of_singleton. reflexivity.
Defined.

(** ** Entities that come and go while the app runs *)

Section LifecycleFacts.

Import Hierarchy EntityLifecycle.

Variable forest : list Node.
Variable outerEntity : option EntityObj.

Lemma node_at_app (p rel : path) (n : Node) :
  forall l, node_at l p = Some n -> rel <> [] -> node_at l (p ++ rel) = node_at (children_of n) rel.
Proof.
  induction p as [|i rest IH]; intros l Hp Hrel; [discriminate|].
  simpl in Hp |- *. destruct (nth_error l i) as [m|]; [|discriminate].
  destruct rest as [|j rest'].
  - injection Hp as ->. simpl. destruct rel; [congruence | reflexivity].
  - change ((j :: rest') ++ rel) with (j :: (rest' ++ rel)).
    change (j :: (rest' ++ rel)) with ((j :: rest') ++ rel).
    rewrite <- (IH (children_of m) Hp Hrel). reflexivity.
Qed.

Lemma has_tag_app (p rel : path) (n : Node) (sel : string) :
  node_at forest p = Some n -> rel <> [] ->
  has_tag forest sel (p ++ rel) = has_tag (children_of n) sel rel.
Proof.
  intros Hp Hrel. unfold has_tag. now rewrite (node_at_app p rel n forest Hp Hrel).
Qed.

Lemma descendants_spec (p q : path) (n : Node) :
  node_at forest p = Some n ->
  In q (descendants forest p) <-> ancestor p q /\ has_tag forest "pc-entity" q = true.
Proof.
  intros Hp. unfold descendants. rewrite Hp. rewrite in_map_iff. split.
  - intros (rel & <- & Hin). apply selected_has_tag in Hin.
    assert (Hrel : rel <> []) by (intros ->; discriminate Hin).
    split; [exists rel; auto|]. now rewrite (has_tag_app p rel n _ Hp Hrel).
  - intros ((rel & Hrel & ->) & Htag). exists rel. split; [reflexivity|].
    apply has_tag_selected. now rewrite <- (has_tag_app p rel n _ Hp Hrel).
Qed.

Lemma clear_lookup_in (l : list path) (m : gmap path EntityObj) (x : path) :
  In x l \/ m !! x = None -> fold_left (fun m q => delete q m) l m !! x = None.
Proof.
  revert m. induction l as [|q l IH]; intros m H.
  - destruct H as [[]|H]. exact H.
  - simpl. apply IH. destruct (decide (q = x)) as [->|Hne].
    + right. apply lookup_delete_eq.
    + destruct H as [[H|H]|H]; [congruence | now left |].
      right. rewrite lookup_delete_ne by exact Hne. exact H.
Qed.

Lemma clear_lookup_out (l : list path) (m : gmap path EntityObj) (x : path) :
  ~ In x l -> fold_left (fun m q => delete q m) l m !! x = m !! x.
Proof.
  revert m. induction l as [|q l IH]; intros m Hout; [reflexivity|].
  simpl. rewrite IH by (intros H; apply Hout; now right).
  apply lookup_delete_ne. intros ->. apply Hout. now left.
Qed.

End LifecycleFacts.

(** When a pc-entity element that holds an entity is disconnected, that
    entity is destroyed (one destroy call), the element and every pc-entity
    element below it are left without entity, and no other element is
    touched; disconnecting it again, or running [buildHierarchy] on one of
    the cleared elements, does nothing. *)
Theorem entity_disconnect_clears_subtree
    (forest : list Hierarchy.Node) (outerEntity : option Hierarchy.EntityObj)
    (p : Hierarchy.path) (n : Hierarchy.Node) (ent : Hierarchy.EntityObj)
    (s : EntityLifecycle.LState) :
  Hierarchy.node_at forest p = Some n ->
  Hierarchy.entityOf (EntityLifecycle.st s) !! p = Some ent ->
  let s' := EntityLifecycle.disconnectedCallback forest p s in
  EntityLifecycle.destroyed s' = EntityLifecycle.destroyed s ++ [ent] /\
  Hierarchy.trace (EntityLifecycle.st s') = Hierarchy.trace (EntityLifecycle.st s) /\
  (forall q, EntityLifecycle.in_subtree forest p q ->
             Hierarchy.entityOf (EntityLifecycle.st s') !! q = None /\
             Hierarchy.buildHierarchy forest outerEntity (EntityLifecycle.st s') q
             = EntityLifecycle.st s') /\
  (forall q, ~ EntityLifecycle.in_subtree forest p q ->
             Hierarchy.entityOf (EntityLifecycle.st s') !! q
             = Hierarchy.entityOf (EntityLifecycle.st s) !! q) /\
  EntityLifecycle.disconnectedCallback forest p s' = s'.
Proof.
  intros Hp Hent s'.
  assert (Hs : s' = EntityLifecycle.mkL
                      (Hierarchy.mkState
                         (delete p (fold_left (fun m q => delete q m)
                                      (EntityLifecycle.descendants forest p)
                                      (Hierarchy.entityOf (EntityLifecycle.st s))))
                         (Hierarchy.trace (EntityLifecycle.st s)))
                      (EntityLifecycle.destroyed s ++ [ent])).
  { subst s'. unfold EntityLifecycle.disconnectedCallback. rewrite Hent. reflexivity. }
  assert (Hclear : forall q, EntityLifecycle.in_subtree forest p q ->
                             Hierarchy.entityOf (EntityLifecycle.st s') !! q = None).
  { intros q Hq. rewrite Hs. simpl. destruct Hq as [->|Hq]; [apply lookup_delete_eq|].
    destruct (decide (p = q)) as [->|Hne]; [apply lookup_delete_eq|].
    rewrite lookup_delete_ne by exact Hne.
    apply clear_lookup_in. left. now apply (descendants_spec forest p q n Hp). }
  split; [rewrite Hs; reflexivity|]. split; [rewrite Hs; reflexivity|].
  split; [|split].
  - intros q Hq. split; [now apply Hclear|].
    unfold Hierarchy.buildHierarchy. now rewrite (Hclear q Hq).
  - intros q Hq. rewrite Hs. simpl.
    assert (Hne : p <> q) by (intros ->; apply Hq; now left).
    rewrite lookup_delete_ne by exact Hne.
    apply clear_lookup_out. intros Hin. apply Hq. right.
    now apply (descendants_spec forest p q n Hp).
  - unfold EntityLifecycle.disconnectedCallback at 1.
    rewrite (Hclear p (or_introl eq_refl)). reflexivity.
Qed.

Lemma entity_disconnect_clears_subtree_witness :
  let forest :=
    [Hierarchy.El "pc-entity"
       [Hierarchy.El "div" [Hierarchy.El "pc-entity" []]];
     Hierarchy.El "pc-entity" []] in
  let s := EntityLifecycle.mkL (Hierarchy.connect_entities forest None (Hierarchy.mkState ∅ []))
             [] in
  let s' := EntityLifecycle.disconnectedCallback forest [0] s in
  EntityLifecycle.destroyed s' = [Hierarchy.NewEntity [0]] /\
  Hierarchy.entityOf (EntityLifecycle.st s') !! [0; 0; 0] = None /\
  Hierarchy.entityOf (EntityLifecycle.st s') !! [1] = Some (Hierarchy.NewEntity [1]).
Proof.
  intros forest s s'.
  destruct (entity_disconnect_clears_subtree forest None [0]
              (Hierarchy.El "pc-entity" [Hierarchy.El "div" [Hierarchy.El "pc-entity" []]])
              (Hierarchy.NewEntity [0]) s)
    as (Hd & _ & Hin & Hout & _).
  - reflexivity.
  - vm_compute. reflexivity.
  - split; [exact Hd|]. split.
    + apply Hin. right. split; [exists [0; 0]; split; [discriminate | reflexivity]|].
      reflexivity.
    + fold s' in Hout. rewrite Hout; [vm_compute; reflexivity|].
      intros [H|[(rest & _ & H) _]]; discriminate H.
Defined.

Section ConnectIntoApp.

Import Hierarchy EntityLifecycle.

Variable forest : list Node.
Variable outerEntity : option EntityObj.

Lemma ancestor_neq (c p : path) : ancestor c p -> c <> p.
Proof.
  intros (rest & Hrest & ->) Heq.
  apply (f_equal (@length nat)) in Heq. rewrite length_app in Heq.
  destruct rest; [congruence | simpl in Heq; lia].
Qed.

Lemma buildHierarchy_local (s : State) (q : path) :
  entityOf s !! q = Some (NewEntity q) ->
  (forall c, closest forest "pc-entity" (tl (rev q)) = Some c ->
             entityOf s !! c = Some (NewEntity c)) ->
  buildHierarchy forest outerEntity s q
  = mkState (entityOf s) (trace s ++ attach_events forest outerEntity q).
Proof.
  intros Hq Hc. unfold buildHierarchy, closestEntity_entity, attach_events, expected_parent.
  rewrite Hq. destruct (closest forest "pc-entity" (tl (rev q))) as [c|].
  - rewrite (Hc c eq_refl). reflexivity.
  - destruct outerEntity; reflexivity.
Qed.

Lemma build_loop_local (l : list path) (s : State) :
  (forall q, In q l -> entityOf s !! q = Some (NewEntity q)) ->
  (forall q c, In q l -> closest forest "pc-entity" (tl (rev q)) = Some c ->
               entityOf s !! c = Some (NewEntity c)) ->
  fold_left (buildHierarchy forest outerEntity) l s
  = mkState (entityOf s) (trace s ++ flat_map (attach_events forest outerEntity) l).
Proof.
  revert s. induction l as [|q l IH]; intros s Hq Hc.
  - simpl. rewrite app_nil_r. destruct s; reflexivity.
  - cbn [fold_left flat_map].
    rewrite (buildHierarchy_local s q (Hq q (or_introl eq_refl))
               (fun c => Hc q c (or_introl eq_refl))).
    rewrite IH; simpl.
    + now rewrite <- app_assoc.
    + intros q' Hq'. apply Hq. now right.
    + intros q' c Hq'. apply Hc. now right.
Qed.

Lemma forEach_build_local (application : bool) (l : list path) (s : State) :
  (forall q, In q l -> entityOf s !! q = Some (NewEntity q)) ->
  (forall q, In q l ->
     exists c, closest forest "pc-entity" (tl (rev q)) = Some c /\
               entityOf s !! c = Some (NewEntity c)) ->
  forEach_buildHierarchy forest outerEntity application l s
  = (fold_left (buildHierarchy forest outerEntity) l s, Returned).
Proof.
  revert s. induction l as [|q l IH]; intros s Hq Hc; [reflexivity|].
  cbn [forEach_buildHierarchy fold_left].
  assert (Hb : buildHierarchy_app forest outerEntity application s q
               = Some (buildHierarchy forest outerEntity s q)).
  { unfold buildHierarchy_app. rewrite (Hq q (or_introl eq_refl)).
    destruct (Hc q (or_introl eq_refl)) as (c & Hcl & Hent).
    unfold closestEntity_entity. rewrite Hcl, Hent. reflexivity. }
  rewrite Hb.
  assert (Hsame : entityOf (buildHierarchy forest outerEntity s q) = entityOf s).
  { unfold buildHierarchy. now destruct (entityOf s !! q). }
  apply IH.
  - intros q' Hq'. rewrite Hsame. apply Hq. now right.
  - intros q' Hq'. rewrite Hsame. apply Hc. now right.
Qed.

End ConnectIntoApp.

(** A pc-entity element connected into an app: without an enclosing
    pc-app, or while the app's hierarchy is not ready, nothing happens.
    When the app's hierarchy is marked ready but the app holds no
    application (the pc-app was disconnected, or disconnected and appended
    again) and the element has no entity to attach to, the element's entity
    is created and the callback throws at [app.root]: nothing is attached
    and nothing is signalled ready. When the app holds its application, or
    the element has an entity to attach to, the callback returns: the
    element's entity is created, attached (to the entity its closest
    ancestor pc-entity element holds, else to what lies outside the app's
    subtree or the root) and signalled ready first; then the entity of
    every pc-entity element below it is created, in document order; then
    each of these is attached to the new entity of its nearest pc-entity
    ancestor, which lies in the connected subtree, and signalled ready, in
    document order. So the element is ready before everything below it, and
    every element before the elements nested in it. *)
Theorem entity_connected_into_running_app
    (forest : list Hierarchy.Node) (outerEntity : option Hierarchy.EntityObj)
    (p : Hierarchy.path) (n : Hierarchy.Node) (s : EntityLifecycle.LState) :
  Hierarchy.has_tag forest "pc-entity" p = true ->
  Hierarchy.node_at forest p = Some n ->
  let below := EntityLifecycle.descendants forest p in
  let attachTo := Hierarchy.closestEntity_entity forest outerEntity p (EntityLifecycle.st s) in
  let parent :=
    match attachTo with
    | Some pe => Hierarchy.Entity pe
    | None => Hierarchy.AppRoot
    end in
  EntityLifecycle.connectedCallback forest outerEntity None p s = (s, Returned) /\
  (forall a, EntityLifecycle.hierarchyReady a = false ->
     EntityLifecycle.connectedCallback forest outerEntity (Some a) p s = (s, Returned)) /\
  (forall a,
     EntityLifecycle.hierarchyReady a = true ->
     EntityLifecycle.application a = false ->
     attachTo = None ->
     EntityLifecycle.connectedCallback forest outerEntity (Some a) p s
     = (EntityLifecycle.mkL
          (Hierarchy.mkState
             (<[p := Hierarchy.NewEntity p]> (Hierarchy.entityOf (EntityLifecycle.st s)))
             (Hierarchy.trace (EntityLifecycle.st s) ++ [Hierarchy.EvCreate p]))
          (EntityLifecycle.destroyed s),
        Thrown)) /\
  (forall a,
     EntityLifecycle.hierarchyReady a = true ->
     EntityLifecycle.application a = true \/ attachTo <> None ->
     exists s',
       EntityLifecycle.connectedCallback forest outerEntity (Some a) p s = (s', Returned) /\
       Hierarchy.trace (EntityLifecycle.st s')
       = Hierarchy.trace (EntityLifecycle.st s)
           ++ [Hierarchy.EvCreate p; Hierarchy.EvAddChild parent (Hierarchy.NewEntity p);
               Hierarchy.EvReady p]
           ++ List.map Hierarchy.EvCreate below
           ++ flat_map (Hierarchy.attach_events forest outerEntity) below /\
       (forall q, EntityLifecycle.in_subtree forest p q ->
                  Hierarchy.entityOf (EntityLifecycle.st s') !! q
                  = Some (Hierarchy.NewEntity q)) /\
       (forall q, In q below ->
                  exists c, Hierarchy.closest forest "pc-entity" (tl (rev q)) = Some c /\
                            EntityLifecycle.in_subtree forest p c /\
                            Hierarchy.expected_parent forest outerEntity q
                            = Hierarchy.Entity (Hierarchy.NewEntity c)) /\
       (forall q, In q below ->
                  Hierarchy.before (Hierarchy.EvReady p) (Hierarchy.EvReady q)
                    (Hierarchy.trace (EntityLifecycle.st s'))) /\
       (forall q1 q2, In q1 below -> In q2 below -> Hierarchy.ancestor q1 q2 ->
                      Hierarchy.before (Hierarchy.EvReady q1) (Hierarchy.EvReady q2)
                        (Hierarchy.trace (EntityLifecycle.st s'))) /\
       EntityLifecycle.destroyed s' = EntityLifecycle.destroyed s).
Proof.
  intros Htag Hp below attachTo parent.
  assert (Hpne : p <> []) by (intros ->; discriminate Htag).
  set (m0 := Hierarchy.entityOf (EntityLifecycle.st s)).
  set (tr0 := Hierarchy.trace (EntityLifecycle.st s)).
  set (s1 := Hierarchy.createEntity (EntityLifecycle.st s) p).
  (* the element itself *)
  assert (Hparent : Hierarchy.closestEntity_entity forest outerEntity p s1 = attachTo).
  { unfold attachTo, Hierarchy.closestEntity_entity.
    pose proof (closest_is_nearest forest "pc-entity" p Hpne) as Hnear.
    destruct (Hierarchy.closest forest "pc-entity" (tl (rev p))) as [c|]; [|reflexivity].
    destruct Hnear as (Hanc & _). simpl.
    apply lookup_insert_ne. intros ->. now apply (ancestor_neq c c). }
  assert (Hself : Hierarchy.entityOf s1 !! p = Some (Hierarchy.NewEntity p))
    by (subst s1; simpl; apply lookup_insert_eq).
  split; [reflexivity|].
  split.
  { intros a Ha. unfold EntityLifecycle.connectedCallback. now rewrite Ha. }
  split.
  { intros a Hready Happ Hnone.
    unfold EntityLifecycle.connectedCallback. rewrite Hready. cbv zeta. fold s1.
    unfold EntityLifecycle.buildHierarchy_app.
    rewrite Hself, Hparent, Hnone, Happ. reflexivity. }
  intros a Hready Happ.
  set (s2 := Hierarchy.buildHierarchy forest outerEntity s1 p).
  assert (Hs2 : s2 = Hierarchy.mkState (<[p := Hierarchy.NewEntity p]> m0)
                       (tr0 ++ [Hierarchy.EvCreate p;
                                Hierarchy.EvAddChild parent (Hierarchy.NewEntity p);
                                Hierarchy.EvReady p])).
  { subst s2. unfold Hierarchy.buildHierarchy. rewrite Hparent. fold parent.
    subst s1. simpl. rewrite lookup_insert_eq. fold m0 tr0.
    rewrite <- app_assoc. reflexivity. }
  assert (Hbuild : EntityLifecycle.buildHierarchy_app forest outerEntity
                     (EntityLifecycle.application a) s1 p = Some s2).
  { unfold EntityLifecycle.buildHierarchy_app. rewrite Hself, Hparent.
    destruct attachTo as [pe|]; [reflexivity|].
    destruct Happ as [-> | Hne]; [reflexivity | congruence]. }
  set (s3 := fold_left Hierarchy.createEntity below s2).
  assert (Hcreated : forall q, EntityLifecycle.in_subtree forest p q ->
                               Hierarchy.entityOf s3 !! q = Some (Hierarchy.NewEntity q)).
  { intros q Hq. apply create_loop_entity. destruct Hq as [->|Hq].
    - right. rewrite Hs2. simpl. apply lookup_insert_eq.
    - left. now apply (descendants_spec forest p q n Hp). }
  assert (Hclosest : forall q, In q below ->
                               exists c, Hierarchy.closest forest "pc-entity" (tl (rev q)) = Some c
                                         /\ EntityLifecycle.in_subtree forest p c).
  { intros q Hq. apply (descendants_spec forest p q n Hp) in Hq as [Hanc Hqtag].
    assert (Hqne : q <> []) by (intros ->; discriminate Hqtag).
    pose proof (closest_is_nearest forest "pc-entity" q Hqne) as Hnear.
    destruct (Hierarchy.closest forest "pc-entity" (tl (rev q))) as [c|].
    - exists c. split; [reflexivity|]. destruct Hnear as (_ & Hctag & Hmin).
      destruct (Hmin p Hanc Htag) as [->|Hpc]; [now left | right; now split].
    - rewrite (Hnear p Hanc) in Htag. discriminate Htag. }
  set (s4 := fold_left (Hierarchy.buildHierarchy forest outerEntity) below s3).
  assert (Hloop : EntityLifecycle.forEach_buildHierarchy forest outerEntity
                    (EntityLifecycle.application a) below s3 = (s4, Returned)).
  { apply forEach_build_local.
    - intros q Hq. apply Hcreated. right. now apply (descendants_spec forest p q n Hp).
    - intros q Hq. destruct (Hclosest q Hq) as (c & Hc & Hin).
      exists c. split; [exact Hc | now apply Hcreated]. }
  assert (Hs4 : s4 = Hierarchy.mkState (Hierarchy.entityOf s3)
                       (Hierarchy.trace s3
                          ++ flat_map (Hierarchy.attach_events forest outerEntity) below)).
  { apply build_loop_local.
    - intros q Hq. apply Hcreated. right. now apply (descendants_spec forest p q n Hp).
    - intros q c Hq Hc. destruct (Hclosest q Hq) as (c' & Hc' & Hin).
      rewrite Hc in Hc'. injection Hc' as <-. now apply Hcreated. }
  exists (EntityLifecycle.mkL s4 (EntityLifecycle.destroyed s)).
  assert (Htrace : Hierarchy.trace s4
                   = tr0 ++ [Hierarchy.EvCreate p;
                             Hierarchy.EvAddChild parent (Hierarchy.NewEntity p);
                             Hierarchy.EvReady p]
                       ++ List.map Hierarchy.EvCreate below
                       ++ flat_map (Hierarchy.attach_events forest outerEntity) below).
  { rewrite Hs4. simpl. subst s3. rewrite create_loop_trace, Hs2. simpl.
    rewrite <- !app_assoc. reflexivity. }
  split.
  { unfold EntityLifecycle.connectedCallback. rewrite Hready. cbv zeta. fold s1.
    rewrite Hbuild. fold below. fold s3. rewrite Hloop. reflexivity. }
  cbn [EntityLifecycle.st EntityLifecycle.destroyed].
  split; [exact Htrace|].
  split; [|split; [|split; [|split]]].
  - intros q Hq. rewrite Hs4. simpl. now apply Hcreated.
  - intros q Hq. destruct (Hclosest q Hq) as (c & Hc & Hin).
    exists c. split; [exact Hc|]. split; [exact Hin|].
    unfold Hierarchy.expected_parent. now rewrite Hc.
  - intros q Hq. rewrite Htrace. apply in_split in Hq as (l1 & l2 & Hbelow).
    exists (tr0 ++ [Hierarchy.EvCreate p;
                    Hierarchy.EvAddChild parent (Hierarchy.NewEntity p)]),
      (List.map Hierarchy.EvCreate below
         ++ flat_map (Hierarchy.attach_events forest outerEntity) l1
         ++ [Hierarchy.EvAddChild (Hierarchy.expected_parent forest outerEntity q)
               (Hierarchy.NewEntity q)]),
      (flat_map (Hierarchy.attach_events forest outerEntity) l2).
    rewrite Hbelow at 2. rewrite flat_map_app. cbn [flat_map].
    unfold Hierarchy.attach_events at 2. rewrite <- !app_assoc. reflexivity.
  - intros q1 q2 Hq1 Hq2 (rest & Hrest & Heq).
    apply (descendants_spec forest p q1 n Hp) in Hq1 as [(r1 & Hr1 & ->) Ht1].
    apply (descendants_spec forest p q2 n Hp) in Hq2 as [(r2 & Hr2 & ->) Ht2].
    rewrite <- app_assoc in Heq. apply app_inv_head in Heq. subst r2.
    rewrite (has_tag_app forest p r1 n _ Hp Hr1) in Ht1.
    assert (Hr12 : r1 ++ rest <> [])
      by (intros H; apply app_eq_nil in H as [H _]; congruence).
    rewrite (has_tag_app forest p (r1 ++ rest) n _ Hp Hr12) in Ht2.
    pose proof (ancestor_selected_first "pc-entity" r1 _ rest Hrest Ht1 Ht2) as Hb.
    apply (before_map (app p)) in Hb.
    assert (Hbelow : below = List.map (app p)
                               (Hierarchy.select_forest "pc-entity" (Hierarchy.children_of n) 0)).
    { subst below. unfold EntityLifecycle.descendants. now rewrite Hp. }
    rewrite <- Hbelow in Hb.
    apply (before_ready forest outerEntity) in Hb.
    rewrite Htrace.
    pose proof (before_app _ _
                  (tr0 ++ [Hierarchy.EvCreate p;
                           Hierarchy.EvAddChild parent (Hierarchy.NewEntity p);
                           Hierarchy.EvReady p]
                       ++ List.map Hierarchy.EvCreate below) _ [] Hb) as H.
    rewrite app_nil_r in H. rewrite <- !app_assoc in H. exact H.
  - reflexivity.
Qed.

Lemma entity_connected_into_running_app_witness :
  let forest :=
    [Hierarchy.El "pc-entity"
       [Hierarchy.El "pc-entity"
          [Hierarchy.El "div" [Hierarchy.El "pc-entity" []]]]] in
  let s := EntityLifecycle.mkL
             (Hierarchy.mkState {[ [0] := Hierarchy.NewEntity [0] ]} []) [] in
  let s0 := EntityLifecycle.mkL (Hierarchy.mkState ∅ []) [] in
  (exists s',
     EntityLifecycle.connectedCallback forest None
       (Some (EntityLifecycle.mkAppEl true true)) [0; 0] s = (s', Returned) /\
     Hierarchy.trace (EntityLifecycle.st s')
     = [Hierarchy.EvCreate [0; 0];
        Hierarchy.EvAddChild (Hierarchy.Entity (Hierarchy.NewEntity [0]))
          (Hierarchy.NewEntity [0; 0]);
        Hierarchy.EvReady [0; 0];
        Hierarchy.EvCreate [0; 0; 0; 0];
        Hierarchy.EvAddChild (Hierarchy.Entity (Hierarchy.NewEntity [0; 0]))
          (Hierarchy.NewEntity [0; 0; 0; 0]);
        Hierarchy.EvReady [0; 0; 0; 0]] /\
     Hierarchy.before (Hierarchy.EvReady [0; 0]) (Hierarchy.EvReady [0; 0; 0; 0])
       (Hierarchy.trace (EntityLifecycle.st s'))) /\
  EntityLifecycle.connectedCallback forest None
    (Some (EntityLifecycle.mkAppEl true false)) [0] s0
  = (EntityLifecycle.mkL
       (Hierarchy.mkState {[ [0] := Hierarchy.NewEntity [0] ]} [Hierarchy.EvCreate [0]]) [],
     Thrown).
Proof.
  intros forest s s0. split.
  - destruct (entity_connected_into_running_app forest None [0; 0]
                (Hierarchy.El "pc-entity"
                   [Hierarchy.El "div" [Hierarchy.El "pc-entity" []]]) s)
      as (_ & _ & _ & Hrun).
    + reflexivity.
    + reflexivity.
    + destruct (Hrun (EntityLifecycle.mkAppEl true true) eq_refl (or_introl eq_refl))
        as (s' & Hcb & Htrace & _ & _ & Hfirst & _).
      exists s'. split; [exact Hcb|]. split.
      * rewrite Htrace. vm_compute. reflexivity.
      * apply Hfirst. vm_compute. left. reflexivity.
  - destruct (entity_connected_into_running_app forest None [0]
                (Hierarchy.El "pc-entity"
                   [Hierarchy.El "pc-entity"
                      [Hierarchy.El "div" [Hierarchy.El "pc-entity" []]]]) s0)
      as (_ & _ & Hthrow & _).
    + reflexivity.
    + reflexivity.
    + rewrite (Hthrow (EntityLifecycle.mkAppEl true false) eq_refl eq_refl eq_refl).
      reflexivity.
Defined.

Section PickingFacts.

Import Pointer Picking.

Variable es : list EntityEl.

Lemma hover_protocol_app (e : nat) (l1 l2 : list (PointerType * nat)) (b : bool) :
  hover_protocol e b (l1 ++ l2)
  = match hover_protocol e b l1 with
    | Some b' => hover_protocol e b' l2
    | None => None
    end.
Proof.
  revert b. induction l1 as [|[t x] l1 IH]; intros b; [reflexivity|].
  simpl. destruct (Nat.eqb x e); [|apply IH].
  destruct t, b; try reflexivity; apply IH.
Qed.

Lemma hover_protocol_other (e : nat) (t : PointerType) (target : option nat) (b : bool) :
  target <> Some e ->
  hover_protocol e b (dispatch_if es t target) = Some b.
Proof.
  intros Hne. destruct target as [x|]; [|reflexivity].
  unfold dispatch_if. destruct (has es t x); [|reflexivity].
  simpl. destruct (Nat.eqb_spec x e) as [->|_]; [congruence | reflexivity].
Qed.

Lemma hover_protocol_down (e i : nat) (b : bool) :
  hover_protocol e b [(pointerdown, i)] = Some b.
Proof. simpl. now destruct (Nat.eqb i e). Qed.

Lemma hover_protocol_up (e : nat) (target : option nat) (b : bool) :
  hover_protocol e b (dispatch_if es pointerup target) = Some b.
Proof.
  destruct target as [x|]; [|reflexivity].
  unfold dispatch_if. destruct (has es pointerup x); [|reflexivity].
  simpl. now destruct (Nat.eqb x e).
Qed.

Lemma hover_protocol_self (e : nat) (t : PointerType) :
  has es t e = true ->
  dispatch_if es t (Some e) = [(t, e)].
Proof. intros H. unfold dispatch_if. now rewrite H. Qed.

Lemma hover_protocol_move (e : nat) (target : option nat) :
  has es pointerenter e = true ->
  hover_protocol e (bool_decide (target = Some e)) (dispatch_if es pointermove target)
  = Some (bool_decide (target = Some e)).
Proof.
  intros _. destruct (decide (target = Some e)) as [->|Hne].
  - rewrite bool_decide_eq_true_2 by reflexivity.
    unfold dispatch_if. destruct (has es pointermove e); [|reflexivity].
    simpl. now rewrite Nat.eqb_refl.
  - now apply hover_protocol_other.
Qed.

Lemma move_keeps_protocol (e : nat) (ev : PointerEv) (s : State) :
  has es pointerenter e = true ->
  has es pointerleave e = true ->
  hover_protocol e false (dispatched s) = Some (bool_decide (_hoveredEntity s = Some e)) ->
  hover_protocol e false (dispatched (_onPointerMove es ev s))
  = Some (bool_decide (_hoveredEntity (_onPointerMove es ev s) = Some e)).
Proof.
  intros Henter Hleave Hinv. unfold _onPointerMove.
  destruct (negb (picker ev) || negb (application ev)); [exact Hinv|].
  destruct (negb (camera ev)); [exact Hinv|].
  set (new := match selection ev with Some chain => hover_walk es chain | None => None end).
  cbn [dispatched _hoveredEntity].
  rewrite hover_protocol_app, Hinv, hover_protocol_app.
  destruct (decide (_hoveredEntity s = new)) as [Heq|Hne].
  - rewrite (bool_decide_eq_true_2 _ Heq). cbn [hover_protocol]. rewrite Heq.
    now apply hover_protocol_move.
  - rewrite (bool_decide_eq_false_2 _ Hne). rewrite hover_protocol_app.
    destruct (decide (_hoveredEntity s = Some e)) as [Hh|Hh].
    + (* the pointer leaves [e] *)
      assert (Hn : new <> Some e) by congruence.
      rewrite Hh, (bool_decide_eq_true_2 _ eq_refl), (hover_protocol_self e _ Hleave).
      cbn [hover_protocol]. rewrite Nat.eqb_refl.
      rewrite (hover_protocol_other e _ new false Hn).
      rewrite (bool_decide_eq_false_2 _ Hn).
      now apply hover_protocol_other.
    + rewrite (bool_decide_eq_false_2 _ Hh).
      rewrite (hover_protocol_other e _ _ false Hh).
      destruct (decide (new = Some e)) as [Hn|Hn].
      * (* the pointer enters [e] *)
        rewrite Hn, (hover_protocol_self e _ Henter).
        cbn [hover_protocol]. rewrite Nat.eqb_refl.
        pose proof (hover_protocol_move e (Some e) Henter) as Hmove.
        now rewrite (bool_decide_eq_true_2 (Some e = Some e) eq_refl) in Hmove |- *.
      * rewrite (hover_protocol_other e _ new false Hn).
        rewrite (bool_decide_eq_false_2 _ Hn).
        now apply hover_protocol_other.
Qed.

Lemma handle_keeps_protocol (e : nat) (c : CanvasEvent) (s : State) :
  has es pointerenter e = true ->
  has es pointerleave e = true ->
  hover_protocol e false (dispatched s) = Some (bool_decide (_hoveredEntity s = Some e)) ->
  hover_protocol e false (dispatched (handle es s c))
  = Some (bool_decide (_hoveredEntity (handle es s c) = Some e)).
Proof.
  intros Henter Hleave Hinv. destruct c as [ev|ev|ev]; cbn [handle].
  - now apply move_keeps_protocol.
  - unfold _onPointerDown.
    destruct (negb (picker ev) || negb (application ev)); [exact Hinv|].
    destruct (negb (camera ev)); [exact Hinv|].
    destruct (selection ev) as [chain|]; [|exact Hinv].
    destruct (down_walk es chain) as [i|]; [|exact Hinv].
    cbn [dispatched _hoveredEntity].
    rewrite hover_protocol_app, Hinv. apply hover_protocol_down.
  - unfold _onPointerUp.
    destruct (negb (picker ev) || negb (application ev)); [exact Hinv|].
    destruct (negb (camera ev)); [exact Hinv|].
    destruct (selection ev) as [[|nm up]|]; try exact Hinv.
    cbn [dispatched _hoveredEntity].
    rewrite hover_protocol_app, Hinv. apply hover_protocol_up.
Qed.

Lemma handle_all_keeps_protocol (e : nat) (cs : list CanvasEvent) (s : State) :
  has es pointerenter e = true ->
  has es pointerleave e = true ->
  hover_protocol e false (dispatched s) = Some (bool_decide (_hoveredEntity s = Some e)) ->
  hover_protocol e false (dispatched (handle_all es cs s))
  = Some (bool_decide (_hoveredEntity (handle_all es cs s) = Some e)).
Proof.
  intros Henter Hleave. unfold handle_all. revert s.
  induction cs as [|c cs IH]; intros s Hinv; [exact Hinv|].
  simpl. apply IH. now apply handle_keeps_protocol.
Qed.

End PickingFacts.



Section PickingTargets.

Import Pointer Picking.

Variable es : list EntityEl.

Lemma dispatch_if_ok (t : PointerType) (target : option nat) :
  (forall i, target = Some i -> first_of_name es i) ->
  Forall (target_ok es) (dispatch_if es t target).
Proof.
  intros Hfirst. destruct target as [i|]; [|constructor].
  unfold dispatch_if. destruct (has es t i) eqn:Hhas; [|constructor].
  constructor; [|constructor]. split; [exact Hhas | now apply Hfirst].
Qed.

Lemma hover_walk_first (chain : list string) (i : nat) :
  hover_walk es chain = Some i -> first_of_name es i.
Proof.
  induction chain as [|nm up IH]; [discriminate|]. simpl.
  destruct (querySelector es nm) as [j|] eqn:Hq; [|exact IH].
  intros [= <-]. now exists nm.
Qed.

Lemma down_walk_ok (chain : list string) (i : nat) :
  down_walk es chain = Some i -> target_ok es (pointerdown, i).
Proof.
  induction chain as [|nm up IH]; [discriminate|]. simpl.
  destruct (querySelector es nm) as [j|] eqn:Hq; [|exact IH].
  destruct (has es pointerdown j) eqn:Hhas; [|exact IH].
  intros [= <-]. split; [exact Hhas | now exists nm].
Qed.

Lemma handle_keeps_targets (c : CanvasEvent) (s : State) :
  targets_inv es s -> targets_inv es (handle es s c).
Proof.
  intros [Hhover Hlog]. destruct c as [ev|ev|ev]; cbn [handle].
  - unfold _onPointerMove.
    destruct (negb (picker ev) || negb (application ev)); [now split|].
    destruct (negb (camera ev)); [now split|].
    set (new := match selection ev with Some chain => hover_walk es chain | None => None end).
    assert (Hnew : forall i, new = Some i -> first_of_name es i).
    { subst new. destruct (selection ev) as [chain|]; [|discriminate].
      apply hover_walk_first. }
    split; [exact Hnew|]. cbn [dispatched].
    apply Forall_app. split; [exact Hlog|]. apply Forall_app. split.
    + destruct (bool_decide (_hoveredEntity s = new)); [constructor|].
      apply Forall_app. split; now apply dispatch_if_ok.
    + now apply dispatch_if_ok.
  - unfold _onPointerDown.
    destruct (negb (picker ev) || negb (application ev)); [now split|].
    destruct (negb (camera ev)); [now split|].
    destruct (selection ev) as [chain|]; [|now split].
    destruct (down_walk es chain) as [i|] eqn:Hwalk; [|now split].
    split; [exact Hhover|]. cbn [dispatched].
    apply Forall_app. split; [exact Hlog|].
    constructor; [|constructor]. now apply (down_walk_ok chain).
  - unfold _onPointerUp.
    destruct (negb (picker ev) || negb (application ev)); [now split|].
    destruct (negb (camera ev)); [now split|].
    destruct (selection ev) as [[|nm up]|]; try now split.
    split; [exact Hhover|]. cbn [dispatched].
    apply Forall_app. split; [exact Hlog|].
    apply dispatch_if_ok. intros i Hi. now exists nm.
Qed.

Lemma handle_all_keeps_targets (cs : list CanvasEvent) (s : State) :
  targets_inv es s -> targets_inv es (handle_all es cs s).
Proof.
  unfold handle_all. revert s.
  induction cs as [|c cs IH]; intros s Hinv; [exact Hinv|].
  simpl. apply IH. now apply handle_keeps_targets.
Qed.

Lemma querySelector_from_spec (l : list EntityEl) (nm : string) (k i : nat) :
  querySelector_from k l nm = Some i ->
  exists j el, i = k + j /\ l !! j = Some el /\ name el = Some nm /\
               forall j' el', j' < j -> l !! j' = Some el' -> name el' <> Some nm.
Proof.
  revert k. induction l as [|e l IH]; intros k; [discriminate|]. simpl.
  destruct (decide (name e = Some nm)) as [Hname|Hname].
  - rewrite (bool_decide_eq_true_2 _ Hname). intros [= <-].
    exists 0, e. split; [lia|]. split; [reflexivity|]. split; [exact Hname|].
    intros j' el' Hlt. lia.
  - rewrite (bool_decide_eq_false_2 _ Hname). intros Hq.
    destruct (IH _ Hq) as (j & el & -> & Hel & Hnm & Hmin).
    exists (S j), el. split; [lia|]. split; [exact Hel|]. split; [exact Hnm|].
    intros [|j'] el' Hlt Hel'.
    + simpl in Hel'. injection Hel' as <-. exact Hname.
    + simpl in Hel'. apply (Hmin j' el'); [lia | exact Hel'].
Qed.

End PickingTargets.



Section AsyncCountFacts.

Import Async AsyncCount.

Variable kindOf : elem -> ComponentKind.

Lemma adds_snoc (i : nat) (tr : list Event) (ev : Event) :
  adds i (tr ++ [ev]) = adds i tr + (if is_add i ev then 1 else 0).
Proof.
  unfold adds. rewrite List.filter_app, length_app. simpl.
  now destruct (is_add i ev).
Qed.

Lemma once_inv_emit_other (s : State) (ev : Event) :
  (forall i, is_add i ev = false) ->
  once_inv s -> once_inv (emit ev s).
Proof.
  intros Hev Hinv i. simpl. rewrite adds_snoc, Hev, Nat.add_0_r. apply Hinv.
Qed.

(** Moving a task that has not added its component yet. *)
Lemma once_inv_set_pc_before (s : State) (j : nat) (el : elem) (p p' : pc) :
  tasks s !! j = Some (el, p) -> past_add p = false ->
  once_inv s -> once_inv (set_pc j el p' s).
Proof.
  intros Hj Hp Hinv i. simpl. destruct (Hinv i) as [Hle Hone].
  split; [exact Hle|]. intros H1. destruct (Hone H1) as (el0 & p0 & Hlook & Hp0).
  destruct (decide (i = j)) as [->|Hne].
  - rewrite Hj in Hlook. injection Hlook as <- <-. congruence.
  - exists el0, p0. split; [|exact Hp0].
    rewrite list_lookup_insert_ne by congruence. exact Hlook.
Qed.

(** Moving a task to a state past its [addComponent] call. *)
Lemma once_inv_set_pc_past (s : State) (j : nat) (el : elem) (p p' : pc) :
  tasks s !! j = Some (el, p) -> past_add p' = true ->
  once_inv s -> once_inv (set_pc j el p' s).
Proof.
  intros Hj Hp' Hinv i. simpl. destruct (Hinv i) as [Hle Hone].
  split; [exact Hle|]. intros H1. destruct (Hone H1) as (el0 & p0 & Hlook & Hp0).
  destruct (decide (i = j)) as [->|Hne].
  - exists el, p'. split; [|exact Hp'].
    apply list_lookup_insert_eq. now apply lookup_lt_Some in Hj.
  - exists el0, p0. split; [|exact Hp0].
    rewrite list_lookup_insert_ne by congruence. exact Hlook.
Qed.

Lemma once_inv_resume (j : nat) (s : State) :
  once_inv s -> once_inv (resume kindOf j s).
Proof.
  intros Hinv. unfold resume.
  destruct (tasks s !! j) as [[el p]|] eqn:Hj; [|exact Hinv].
  destruct (negb (enabled p s)); [exact Hinv|].
  destruct p as [app|e| | |]; try exact Hinv.
  - destruct (closestEntity (env s) el) as [e|].
    + apply once_inv_emit_other; [reflexivity|].
      now apply (once_inv_set_pc_before s j el (AwaitApp app)).
    + apply (once_inv_set_pc_past s j el (AwaitApp app)); auto.
  - destruct (initialDataThrows (env s) el).
    { apply (once_inv_set_pc_past s j el (AwaitEntity e)); auto. }
    destruct (entity (env s) e) as [ent|].
    2:{ apply (once_inv_set_pc_past s j el (AwaitEntity e)); auto. }
    intros i. cbn [trace tasks set_pc set_component emit].
    rewrite adds_snoc. cbn [is_add]. destruct (Hinv i) as [Hle Hone].
    destruct (Nat.eqb_spec j i) as [<-|Hne].
    + assert (H0 : adds j (trace s) = 0).
      { destruct (adds j (trace s)) as [|[|n]] eqn:Hn; [reflexivity | | lia].
        destruct (Hone eq_refl) as (el0 & p0 & Hlook & Hp0).
        rewrite Hj in Hlook. injection Hlook as <- <-. discriminate Hp0. }
      rewrite H0. split; [lia|]. intros _. exists el, AwaitAddComponent.
      split; [|reflexivity]. apply list_lookup_insert_eq. now apply lookup_lt_Some in Hj.
    + rewrite Nat.add_0_r. split; [exact Hle|]. intros H1.
      destruct (Hone H1) as (el0 & p0 & Hlook & Hp0). exists el0, p0.
      split; [|exact Hp0]. rewrite list_lookup_insert_ne by congruence. exact Hlook.
  - destruct (initComponent kindOf el s).
    + intros i. cbn [trace tasks set_pc _onReady emit].
      rewrite adds_snoc. cbn [is_add]. rewrite Nat.add_0_r.
      destruct (Hinv i) as [Hle Hone]. split; [exact Hle|]. intros H1.
      destruct (Hone H1) as (el0 & p0 & Hlook & Hp0).
      destruct (decide (i = j)) as [->|Hne].
      * exists el, Completed. split; [|reflexivity].
        apply list_lookup_insert_eq. now apply lookup_lt_Some in Hj.
      * exists el0, p0. split; [|exact Hp0].
        rewrite list_lookup_insert_ne by congruence. exact Hlook.
    + apply (once_inv_set_pc_past s j el AwaitAddComponent); auto.
Qed.

Lemma once_inv_exec (a : Action) (s : State) :
  once_inv s -> once_inv (exec kindOf s a).
Proof.
  intros Hinv. destruct a as [el|j|x|v]; cbn [exec].
  - unfold connectedCallback. apply once_inv_emit_other; [reflexivity|].
    intros i. cbn [trace tasks]. destruct (Hinv i) as [Hle Hone].
    split; [exact Hle|]. intros H1. destruct (Hone H1) as (el0 & p0 & Hlook & Hp0).
    exists el0, p0. split; [|exact Hp0]. now apply lookup_app_l_Some.
  - now apply once_inv_resume.
  - unfold _onReady. apply once_inv_emit_other; [reflexivity|]. exact Hinv.
  - exact Hinv.
Qed.

Lemma once_inv_run (acts : list Action) (s : State) :
  once_inv s -> once_inv (run kindOf acts s).
Proof.
  unfold run. revert s. induction acts as [|a acts IH]; intros s Hinv; [exact Hinv|].
  simpl. apply IH. now apply once_inv_exec.
Qed.

Lemma filter_insert_length {A : Type} (f : A -> bool) (l : list A) (j : nat) (x y : A) :
  l !! j = Some y ->
  length (List.filter f (<[j := x]> l)) + (if f y then 1 else 0)
  = length (List.filter f l) + (if f x then 1 else 0).
Proof.
  revert j. induction l as [|z l IH]; intros j Hj; [discriminate|].
  destruct j as [|j]; simpl in Hj |- *.
  - injection Hj as ->. destruct (f x), (f y); simpl; lia.
  - specialize (IH j Hj). destruct (f z); simpl; lia.
Qed.

Lemma adds_of_snoc (el : elem) (tr : list Event) (ev : Event) :
  adds_of el (tr ++ [ev]) = adds_of el tr + (if is_add_of el ev then 1 else 0).
Proof.
  unfold adds_of. rewrite List.filter_app, length_app. simpl.
  now destruct (is_add_of el ev).
Qed.

Lemma waiting_of_unfold (el el0 : elem) (p : pc) :
  waiting_of el (el0, p) = bool_decide (el0 = el) && negb (past_add p).
Proof. reflexivity. Qed.

Lemma task_of_unfold (el el0 : elem) (p : pc) :
  task_of el (el0, p) = bool_decide (el0 = el).
Proof. reflexivity. Qed.

(** What [set_pc] does to the two task counts of [budget_inv]. *)
Lemma set_pc_counts (el : elem) (s : State) (j : nat) (el0 : elem) (p p' : pc) :
  tasks s !! j = Some (el0, p) ->
  length (List.filter (task_of el) (tasks (set_pc j el0 p' s)))
  = length (List.filter (task_of el) (tasks s)) /\
  length (List.filter (waiting_of el) (tasks (set_pc j el0 p' s)))
    + (if waiting_of el (el0, p) then 1 else 0)
  = length (List.filter (waiting_of el) (tasks s))
    + (if waiting_of el (el0, p') then 1 else 0).
Proof.
  intros Hj. cbn [tasks set_pc]. split.
  - pose proof (filter_insert_length (task_of el) (tasks s) j (el0, p') (el0, p) Hj) as H.
    unfold task_of in H at 2 4. cbn [fst] in H.
    destruct (bool_decide (el0 = el)); lia.
  - exact (filter_insert_length (waiting_of el) (tasks s) j (el0, p') (el0, p) Hj).
Qed.

Lemma budget_inv_resume (el : elem) (j : nat) (s : State) :
  budget_inv el s -> budget_inv el (resume kindOf j s).
Proof.
  unfold budget_inv. intros Hinv. unfold resume.
  destruct (tasks s !! j) as [[el0 p]|] eqn:Hj; [|exact Hinv].
  destruct (negb (enabled p s)); [exact Hinv|].
  destruct p as [app|e| | |]; try exact Hinv.
  - destruct (closestEntity (env s) el0) as [e|].
    + destruct (set_pc_counts el s j el0 (AwaitApp app) (AwaitEntity e) Hj) as [Ht Hw].
      cbn [trace tasks emit set_pc set_component _onReady readied components env] in *. rewrite adds_of_snoc. cbn [is_add_of].
      unfold waiting_of in Hw at 2 4. cbn [fst snd past_add] in Hw.
      destruct (bool_decide (el0 = el)); simpl in Hw; lia.
    + destruct (set_pc_counts el s j el0 (AwaitApp app) AwaitAddComponent Hj) as [Ht Hw].
      cbn [trace tasks emit set_pc set_component _onReady readied components env] in *.
      unfold waiting_of in Hw at 2 4. cbn [fst snd past_add] in Hw.
      destruct (bool_decide (el0 = el)); simpl in Hw; lia.
  - destruct (initialDataThrows (env s) el0).
    { destruct (set_pc_counts el s j el0 (AwaitEntity e) Rejected Hj) as [Ht Hw].
      cbn [trace tasks emit set_pc set_component _onReady readied components env] in *.
      unfold waiting_of in Hw at 2 4. cbn [fst snd past_add] in Hw.
      destruct (bool_decide (el0 = el)); simpl in Hw; lia. }
    destruct (entity (env s) e) as [ent|].
    2:{ destruct (set_pc_counts el s j el0 (AwaitEntity e) Rejected Hj) as [Ht Hw].
        cbn [trace tasks emit set_pc set_component _onReady readied components env] in *.
        unfold waiting_of in Hw at 2 4. cbn [fst snd past_add] in Hw.
        destruct (bool_decide (el0 = el)); simpl in Hw; lia. }
    destruct (set_pc_counts el s j el0 (AwaitEntity e) AwaitAddComponent Hj) as [Ht Hw].
    cbn [trace tasks emit set_pc set_component _onReady readied components env] in *.
    rewrite adds_of_snoc. cbn [is_add_of].
    unfold waiting_of in Hw at 2 4. cbn [fst snd past_add] in Hw.
    destruct (bool_decide (el0 = el)); simpl in Hw; lia.
  - destruct (initComponent kindOf el0 s).
    + destruct (set_pc_counts el s j el0 AwaitAddComponent Completed Hj) as [Ht Hw].
      cbn [trace tasks emit set_pc set_component _onReady readied components env] in *.
      rewrite adds_of_snoc. cbn [is_add_of].
      unfold waiting_of in Hw at 2 4. cbn [fst snd past_add] in Hw.
      destruct (bool_decide (el0 = el)); simpl in Hw; lia.
    + destruct (set_pc_counts el s j el0 AwaitAddComponent Rejected Hj) as [Ht Hw].
      cbn [trace tasks emit set_pc set_component _onReady readied components env] in *.
      unfold waiting_of in Hw at 2 4. cbn [fst snd past_add] in Hw.
      destruct (bool_decide (el0 = el)); simpl in Hw; lia.
Qed.

Lemma tasks_of_resume (el : elem) (j : nat) (s : State) :
  length (List.filter (task_of el) (tasks (resume kindOf j s)))
  = length (List.filter (task_of el) (tasks s)).
Proof.
  unfold resume.
  destruct (tasks s !! j) as [[el0 p]|] eqn:Hj; [|reflexivity].
  destruct (negb (enabled p s)); [reflexivity|].
  destruct p as [app|e| | |]; try reflexivity.
  - destruct (closestEntity (env s) el0) as [e|].
    + exact (proj1 (set_pc_counts el s j el0 (AwaitApp app) (AwaitEntity e) Hj)).
    + exact (proj1 (set_pc_counts el s j el0 (AwaitApp app) AwaitAddComponent Hj)).
  - destruct (initialDataThrows (env s) el0).
    { exact (proj1 (set_pc_counts el s j el0 (AwaitEntity e) Rejected Hj)). }
    destruct (entity (env s) e) as [ent|].
    + exact (proj1 (set_pc_counts el s j el0 (AwaitEntity e) AwaitAddComponent Hj)).
    + exact (proj1 (set_pc_counts el s j el0 (AwaitEntity e) Rejected Hj)).
  - destruct (initComponent kindOf el0 s).
    + exact (proj1 (set_pc_counts el s j el0 AwaitAddComponent Completed Hj)).
    + exact (proj1 (set_pc_counts el s j el0 AwaitAddComponent Rejected Hj)).
Qed.

Lemma budget_run (el : elem) (acts : list Action) (s : State) :
  budget_inv el s ->
  budget_inv el (run kindOf acts s) /\
  length (List.filter (task_of el) (tasks (run kindOf acts s)))
  = length (List.filter (task_of el) (tasks s)) + connects el acts.
Proof.
  unfold run. revert s. induction acts as [|a acts IH]; intros s Hinv.
  - simpl. split; [exact Hinv|]. unfold connects. simpl. lia.
  - simpl. assert (Hstep : budget_inv el (exec kindOf s a) /\
                           length (List.filter (task_of el) (tasks (exec kindOf s a)))
                           = length (List.filter (task_of el) (tasks s))
                             + (if is_connect el a then 1 else 0)).
    { destruct a as [el'|j|x|v]; cbn [exec is_connect].
      - unfold budget_inv, connectedCallback in *. cbn [trace tasks emit].
        rewrite adds_of_snoc. cbn [is_add_of].
        rewrite !List.filter_app, !length_app. cbn [List.filter].
        rewrite (waiting_of_unfold el el'), (task_of_unfold el el'). cbn [past_add negb].
        destruct (bool_decide (el' = el)); simpl; split; lia.
      - split; [now apply budget_inv_resume|]. rewrite tasks_of_resume. lia.
      - unfold budget_inv, _onReady in *. cbn [trace tasks emit].
        rewrite adds_of_snoc. cbn [is_add_of]. split; lia.
      - unfold budget_inv in *. cbn [trace tasks]. split; lia. }
    destruct Hstep as [Hinv' Hlen]. destruct (IH _ Hinv') as [Hfin Hcount].
    split; [exact Hfin|]. rewrite Hcount, Hlen. unfold connects. cbn [List.filter].
    destruct (is_connect el a); simpl; lia.
Qed.

End AsyncCountFacts.

(** However connections, resumptions, readiness signals and changes of
    the document interleave: one invocation of a component element's
    [connectedCallback] calls the engine's [addComponent] at most once, and
    an element is given a component at most as many times as it was
    connected. *)
Theorem connection_adds_component_at_most_once
    (kindOf : Async.elem -> ComponentKind) (v : Async.Env) (ready0 : gset Async.elem)
    (acts : list Async.Action) (i : nat) (el : Async.elem) :
  let s := Async.run kindOf acts (Async.init v ready0) in
  AsyncCount.adds i (Async.trace s) <= 1 /\
  AsyncCount.adds_of el (Async.trace s) <= AsyncCount.connects el acts.
Proof.
  intros s. split.
  - apply (once_inv_run kindOf acts).
    intros j. unfold AsyncCount.adds. simpl. split; [lia | discriminate].
  - destruct (budget_run kindOf el acts (Async.init v ready0)) as [Hinv Hcount].
    { unfold AsyncCount.budget_inv, AsyncCount.adds_of. simpl. lia. }
    fold s in Hinv, Hcount. unfold AsyncCount.budget_inv in Hinv.
    simpl in Hcount. lia.
Qed.

Section AsyncProgress.

Import Async.

Variable kindOf : elem -> ComponentKind.

Lemma lookup_snoc_length {A : Type} (l : list A) (x : A) :
  (l ++ [x]) !! length l = Some x.
Proof. induction l as [|y l IH]; [reflexivity | exact IH]. Qed.

Lemma insert_snoc_length {A : Type} (l : list A) (x y : A) :
  <[length l := y]> (l ++ [x]) = l ++ [y].
Proof. induction l as [|z l IH]; [reflexivity|]. simpl. now rewrite IH. Qed.

(** The first resumption of a fresh task whose app is ready: the task
    goes on to await the entity element. *)
Lemma resume_after_app (ts : list (elem * pc)) (v : Env) (rd : gset elem)
    (cs : gmap elem loc) (tr : list Event) (el e : elem) :
  (forall a, closestApp v el = Some a -> a ∈ rd) ->
  closestEntity v el = Some e ->
  resume kindOf (length ts)
    (mkState v rd cs (ts ++ [(el, AwaitApp (closestApp v el))]) tr)
  = mkState v rd cs (ts ++ [(el, AwaitEntity e)])
      (tr ++ [EvAwaitEntity (length ts) el e]).
Proof.
  intros Happ He. unfold resume. cbn [tasks]. rewrite lookup_snoc_length.
  assert (Hen : enabled (AwaitApp (closestApp v el))
                  (mkState v rd cs (ts ++ [(el, AwaitApp (closestApp v el))]) tr) = true).
  { unfold enabled. destruct (closestApp v el) as [a|]; [|reflexivity].
    apply bool_decide_eq_true_2. now apply Happ. }
  rewrite Hen. cbn [negb env]. rewrite He.
  unfold emit, set_pc. cbn [env readied components tasks trace].
  now rewrite insert_snoc_length.
Qed.

(** The second resumption, once the entity element is ready: the
    component is added. *)
Lemma resume_after_entity (ts : list (elem * pc)) (v : Env) (rd : gset elem)
    (cs : gmap elem loc) (tr : list Event) (el e : elem) (ent : loc) :
  e ∈ rd -> initialDataThrows v el = false -> entity v e = Some ent ->
  resume kindOf (length ts) (mkState v rd cs (ts ++ [(el, AwaitEntity e)]) tr)
  = set_pc (length ts) el AwaitAddComponent
      (set_component el (addComponentResult v ent (componentName (kindOf el)))
         (mkState v rd cs (ts ++ [(el, AwaitEntity e)])
            (tr ++ [EvAddComponent (length ts) el e ent (componentName (kindOf el))]))).
Proof.
  intros He Hthrow Hent. unfold resume. cbn [tasks]. rewrite lookup_snoc_length.
  unfold enabled. cbn [readied]. rewrite (bool_decide_eq_true_2 _ He).
  cbn [negb env]. rewrite Hthrow, Hent. reflexivity.
Qed.

End AsyncProgress.

(** A component element connected below a ready app and a ready entity
    element that holds an entity, whose initial data can be read and whose
    [initComponent] does not throw, completes in three resumptions of its
    task, whatever other tasks are under way: it awaits the app, awaits the
    entity element, adds the component of its class to the entity, keeps
    what the engine returned as its component, and signals ready. *)
Theorem component_element_becomes_ready
    (kindOf : Async.elem -> ComponentKind) (s : Async.State)
    (el e : Async.elem) (ent : loc) :
  let i := length (Async.tasks s) in
  let v := Async.env s in
  let name := componentName (kindOf el) in
  (forall a, Async.closestApp v el = Some a -> a ∈ Async.readied s) ->
  Async.closestEntity v el = Some e ->
  e ∈ Async.readied s ->
  Async.entity v e = Some ent ->
  Async.initialDataThrows v el = false ->
  (kindOf el = ElementComponent ->
   exists c, Async.addComponentResult v ent name = Some c /\
             Async.hasTextMaterial v c = true) ->
  let s' := Async.run kindOf
              [Async.Connect el; Async.Resume i; Async.Resume i; Async.Resume i] s in
  Async.tasks s' = Async.tasks s ++ [(el, Async.Completed)] /\
  el ∈ Async.readied s' /\
  Async.components s' !! el = Async.addComponentResult v ent name /\
  Async.trace s'
  = Async.trace s
      ++ [Async.EvAwaitApp i el (Async.closestApp v el);
          Async.EvAwaitEntity i el e;
          Async.EvAddComponent i el e ent name;
          Async.EvReady el].
Proof.
  intros i v name Happ He Hready Hent Hthrow Hinit s'.
  destruct s as [v0 rd cs ts tr]. cbn [Async.tasks Async.env Async.readied Async.trace] in *.
  subst v i s'. unfold Async.run. cbn [fold_left Async.exec].
  unfold Async.connectedCallback, Async.emit.
  cbn [Async.tasks Async.env Async.readied Async.trace Async.components].
  rewrite (resume_after_app kindOf ts v0 rd cs _ el e Happ He).
  rewrite (resume_after_entity kindOf ts v0 rd cs _ el e ent Hready Hthrow Hent).
  fold name.
  set (c := Async.addComponentResult v0 ent name) in *.
  set (cs' := match c with Some l => <[el := l]> cs | None => delete el cs end).
  assert (Hcs : cs' !! el = c).
  { subst cs'. destruct c as [l|]; [apply lookup_insert_eq | apply lookup_delete_eq]. }
  unfold Async.set_component, Async.set_pc.
  cbn [Async.tasks Async.env Async.readied Async.trace Async.components].
  rewrite insert_snoc_length. fold cs'.
  unfold Async.resume. cbn [Async.tasks]. rewrite lookup_snoc_length.
  cbn [Async.enabled negb].
  assert (Hok : Async.initComponent kindOf el
                  (Async.mkState v0 rd cs' (ts ++ [(el, Async.AwaitAddComponent)])
                     (((tr ++ [Async.EvAwaitApp (length ts) el (Async.closestApp v0 el)])
                         ++ [Async.EvAwaitEntity (length ts) el e])
                        ++ [Async.EvAddComponent (length ts) el e ent name])) = true).
  { unfold Async.initComponent. destruct (kindOf el) eqn:Hkind; try reflexivity.
    cbn [Async.components Async.env]. rewrite Hcs.
    destruct (Hinit eq_refl) as (l & Hl & Hmat).
    rewrite Hl. exact Hmat. }
  rewrite Hok. unfold Async.set_pc, Async._onReady, Async.emit.
  cbn [Async.tasks Async.env Async.readied Async.trace Async.components].
  rewrite insert_snoc_length.
  split; [reflexivity|]. split; [apply elem_of_union_l, elem_of_singleton; reflexivity|].
  split; [exact Hcs|]. rewrite <- !app_assoc. reflexivity.
Qed.

Lemma component_element_becomes_ready_witness :
  let v := Async.mkEnv (fun _ => Some 10%positive) (fun _ => Some 20%positive)
             (fun _ => Some 5%positive) (fun _ => false)
             (fun _ _ => Some 7%positive) (fun _ => true) in
  let s := Async.init v {[10%positive; 20%positive]} in
  let s' := Async.run (fun _ => ElementComponent)
              [Async.Connect 1%positive; Async.Resume 0; Async.Resume 0; Async.Resume 0] s in
  Async.tasks s' = [(1%positive, Async.Completed)] /\
  Async.components s' !! 1%positive = Some 7%positive.
Proof.
  intros v s s'.
  destruct (component_element_becomes_ready (fun _ => ElementComponent) s
              1%positive 20%positive 5%positive)
    as (Htasks & _ & Hcomp & _).
  - intros a [= <-]. set_solver.
  - reflexivity.
  - set_solver.
  - reflexivity.
  - reflexivity.
  - intros _. exists 7%positive. split; reflexivity.
  - split; [exact Htasks | exact Hcomp].
Defined.

Section CameraAnimFacts.

Import CameraAnim.

Variable fl : Q -> Q.
Variable Math_pow : Q -> Q -> Q.
Variable evaluate : Q -> list Q.
Variable noanim : bool.
Variable track : Track.

Local Abbreviation step := (CameraAnim.step fl Math_pow evaluate noanim track).
Local Abbreviation run := (CameraAnim.run fl Math_pow evaluate noanim track).

Lemma run_app (evs1 evs2 : list Event) (s : State) :
  run (evs1 ++ evs2) s = run evs2 (run evs1 s).
Proof. unfold CameraAnim.run. apply fold_left_app. Qed.

Lemma cancelAnimation_fields (s : State) :
  animating (cancelAnimation s) = false /\
  cameraAnim (cancelAnimation s) = cameraAnim s /\
  canvas_handler (cancelAnimation s) = canvas_handler s /\
  sorter_handle (cancelAnimation s) = sorter_handle s /\
  frame_handle (cancelAnimation s) = frame_handle s.
Proof.
  unfold cancelAnimation. destruct (animating s) eqn:Ha; simpl; auto.
Qed.

Lemma update_fields (dt : Q) (s : State) :
  animating (update fl Math_pow evaluate noanim track dt s) = animating s /\
  canvas_handler (update fl Math_pow evaluate noanim track dt s) = canvas_handler s /\
  sorter_handle (update fl Math_pow evaluate noanim track dt s) = sorter_handle s /\
  frame_handle (update fl Math_pow evaluate noanim track dt s) = frame_handle s /\
  (cameraAnim s <> None -> cameraAnim (update fl Math_pow evaluate noanim track dt s) <> None).
Proof.
  unfold update. destruct (cameraAnim s) as [a|] eqn:Hc; [|now repeat split].
  destruct (animating s && negb noanim); cbn [animating canvas_handler sorter_handle
                                                frame_handle cameraAnim].
  - repeat split; try reflexivity. intros _. discriminate.
  - rewrite Hc. now repeat split.
Qed.

Lemma step_started_inv (ev : Event) (s : State) :
  started_inv s -> started_inv (step s ev).
Proof.
  intros [Hanim Hframe]. destruct ev as [type|key c a m| | |dt]; cbn [CameraAnim.step].
  - destruct (JS.includes (canvas_handler s) type); [|now split].
    unfold handler. destruct (cancelAnimation_fields s) as (Ha & Hc & _ & Hs & Hf).
    split; cbn [animating sorter_handle frame_handle cameraAnim].
    + rewrite Ha. discriminate.
    + rewrite Hs, Hf. exact Hframe.
  - unfold keydown. destruct (keydown_handle s); cbn [negb]; [|now split].
    destruct (c || a || m); [now split|].
    destruct (cancelAnimation_fields s) as (Ha & Hc & _ & Hs & Hf).
    destruct (String.eqb key "f"); [|destruct (String.eqb key "r"); [|now split]];
      (split; cbn [log animating sorter_handle frame_handle cameraAnim];
       [rewrite Ha; discriminate | rewrite Hs, Hf; exact Hframe]).
  - unfold sorter_updated. destruct (sorter_handle s) eqn:Hs; [|now split].
    split; cbn [animating sorter_handle frame_handle cameraAnim]; [|reflexivity].
    intros Ha. destruct (Hanim Ha) as [[Hs' _] _]. congruence.
  - unfold frameend. destruct (frame_handle s) eqn:Hf; [|split; [exact Hanim | intros H; congruence]].
    split; cbn [animating sorter_handle frame_handle cameraAnim]; [|discriminate].
    intros Ha. split; [split; [now apply Hframe | reflexivity]|].
    destruct (cameraAnim s); [discriminate|]. now apply Hanim.
  - destruct (update_fields dt s) as (Ha & _ & Hs & Hf & Hc).
    split.
    + rewrite Ha. intros H. destruct (Hanim H) as [[Hs' Hf'] Hc'].
      split; [split; congruence | now apply Hc].
    + rewrite Hs, Hf. exact Hframe.
Qed.

Lemma run_started_inv (evs : list Event) (s : State) :
  started_inv s -> started_inv (run evs s).
Proof.
  unfold CameraAnim.run. revert s.
  induction evs as [|ev evs IH]; intros s H; [exact H|].
  simpl. apply IH. now apply step_started_inv.
Qed.

Lemma initCamera_started_inv (anim : option Anim) (hasSorter reset hasTarget rnf : bool) :
  started_inv (initCamera anim hasSorter reset hasTarget rnf).
Proof.
  unfold initCamera. destruct (reset && negb hasTarget); split; simpl; intros H; discriminate H.
Qed.

Lemma initCamera_canvas_handler (anim : option Anim) (hasSorter reset hasTarget rnf : bool) :
  canvas_handler (initCamera anim hasSorter reset hasTarget rnf) = events \/
  canvas_handler (initCamera anim hasSorter reset hasTarget rnf) = [].
Proof.
  unfold initCamera. destruct (reset && negb hasTarget); [now right | now left].
Qed.

(** With nothing left to start it, a stopped animation stays stopped. *)
Lemma step_stays_stopped (ev : Event) (s : State) :
  start_spent s -> animating s = false ->
  start_spent (step s ev) /\ animating (step s ev) = false.
Proof.
  intros [Hs Hf] Ha. destruct ev as [type|key c a m| | |dt]; cbn [CameraAnim.step].
  - destruct (JS.includes (canvas_handler s) type); [|now repeat split].
    unfold handler. destruct (cancelAnimation_fields s) as (Ha' & _ & _ & Hs' & Hf').
    unfold start_spent. cbn [animating sorter_handle frame_handle].
    rewrite Ha', Hs', Hf'. auto.
  - unfold keydown. destruct (keydown_handle s); cbn [negb]; [|now repeat split].
    destruct (c || a || m); [now repeat split|].
    destruct (cancelAnimation_fields s) as (Ha' & _ & _ & Hs' & Hf').
    destruct (String.eqb key "f"); [|destruct (String.eqb key "r"); [|now repeat split]];
      unfold start_spent; cbn [log animating sorter_handle frame_handle];
      rewrite Ha', Hs', Hf'; auto.
  - unfold sorter_updated. rewrite Hs. now repeat split.
  - unfold frameend. rewrite Hf. now repeat split.
  - destruct (update_fields dt s) as (Ha' & _ & Hs' & Hf' & _).
    unfold start_spent. rewrite Ha', Hs', Hf'. auto.
Qed.

Lemma run_stays_stopped (evs : list Event) (s : State) :
  start_spent s -> animating s = false ->
  start_spent (run evs s) /\ animating (run evs s) = false.
Proof.
  unfold CameraAnim.run. revert s.
  induction evs as [|ev evs IH]; intros s Hs Ha; [now split|].
  simpl. destruct (step_stays_stopped ev s Hs Ha) as [Hs' Ha']. now apply IH.
Qed.

Lemma step_keeps_spent (ev : Event) (s : State) :
  start_spent s -> start_spent (step s ev).
Proof.
  intros [Hs Hf]. destruct ev as [type|key c a m| | |dt]; cbn [CameraAnim.step].
  - destruct (JS.includes (canvas_handler s) type); [|now split].
    unfold handler. destruct (cancelAnimation_fields s) as (_ & _ & _ & Hs' & Hf').
    unfold start_spent. cbn [sorter_handle frame_handle]. rewrite Hs', Hf'. auto.
  - unfold keydown. destruct (keydown_handle s); cbn [negb]; [|now split].
    destruct (c || a || m); [now split|].
    destruct (cancelAnimation_fields s) as (_ & _ & _ & Hs' & Hf').
    destruct (String.eqb key "f"); [|destruct (String.eqb key "r"); [|now split]];
      unfold start_spent; cbn [log sorter_handle frame_handle]; rewrite Hs', Hf'; auto.
  - unfold sorter_updated. rewrite Hs. now split.
  - unfold frameend. rewrite Hf. now split.
  - destruct (update_fields dt s) as (_ & _ & Hs' & Hf' & _).
    unfold start_spent. rewrite Hs', Hf'. auto.
Qed.

Lemma run_keeps_spent (evs : list Event) (s : State) :
  start_spent s -> start_spent (run evs s).
Proof.
  unfold CameraAnim.run. revert s.
  induction evs as [|ev evs IH]; intros s Hs; [exact Hs|].
  simpl. apply IH. now apply step_keeps_spent.
Qed.

(** The handler is attached for all three events or for none. *)
Lemma step_canvas_handler (ev : Event) (s : State) :
  canvas_handler s = events \/ canvas_handler s = [] ->
  canvas_handler (step s ev) = events \/ canvas_handler (step s ev) = [].
Proof.
  intros Hc. destruct ev as [type|key c a m| | |dt]; cbn [CameraAnim.step].
  - destruct (JS.includes (canvas_handler s) type); [|exact Hc].
    right. unfold handler. cbn [canvas_handler].
    destruct (cancelAnimation_fields s) as (_ & _ & Hc' & _). rewrite Hc'.
    destruct Hc as [-> | ->]; reflexivity.
  - unfold keydown. destruct (keydown_handle s); cbn [negb]; [|exact Hc].
    destruct (c || a || m); [exact Hc|].
    destruct (cancelAnimation_fields s) as (_ & _ & Hc' & _).
    destruct (String.eqb key "f"); [|destruct (String.eqb key "r"); [|exact Hc]];
      cbn [log canvas_handler]; rewrite Hc'; exact Hc.
  - unfold sorter_updated. destruct (sorter_handle s); exact Hc.
  - unfold frameend. destruct (frame_handle s); exact Hc.
  - destruct (update_fields dt s) as (_ & Hc' & _). rewrite Hc'. exact Hc.
Qed.

Lemma run_canvas_handler (evs : list Event) (s : State) :
  canvas_handler s = events \/ canvas_handler s = [] ->
  canvas_handler (run evs s) = events \/ canvas_handler (run evs s) = [].
Proof.
  unfold CameraAnim.run. revert s.
  induction evs as [|ev evs IH]; intros s Hs; [exact Hs|].
  simpl. apply IH. now apply step_canvas_handler.
Qed.

Lemma interaction_detaches (type : string) (s : State) :
  In type events ->
  canvas_handler s = events \/ canvas_handler s = [] ->
  canvas_handler (step s (CanvasEvent type)) = [].
Proof.
  intros Hin Hc. cbn [CameraAnim.step].
  destruct (JS.includes (canvas_handler s) type) eqn:Hinc.
  - unfold handler. cbn [canvas_handler].
    destruct (cancelAnimation_fields s) as (_ & _ & Hc' & _). rewrite Hc'.
    destruct Hc as [-> | ->]; reflexivity.
  - destruct Hc as [Hc | Hc]; [|exact Hc].
    rewrite Hc in Hinc. simpl in Hin.
    destruct Hin as [<-|[<-|[<-|[]]]]; discriminate Hinc.
Qed.

(** Without the canvas handler, only the f and r keys stop the
    animation. *)
Lemma step_keeps_animating (ev : Event) (s : State) :
  canvas_handler s = [] -> animating s = true -> cancel_key ev = false ->
  canvas_handler (step s ev) = [] /\ animating (step s ev) = true.
Proof.
  intros Hc Ha Hkey. destruct ev as [type|key c a m| | |dt]; cbn [CameraAnim.step].
  - rewrite Hc. simpl. now split.
  - unfold keydown. simpl in Hkey. destruct (keydown_handle s); cbn [negb]; [|now split].
    destruct (c || a || m); [now split|].
    simpl in Hkey. apply orb_false_iff in Hkey as [-> ->]. now split.
  - unfold sorter_updated. destruct (sorter_handle s); now split.
  - unfold frameend. destruct (frame_handle s); [|now split].
    cbn [canvas_handler animating]. split; [exact Hc|]. now destruct (cameraAnim s).
  - destruct (update_fields dt s) as (Ha' & Hc' & _). rewrite Ha', Hc'. now split.
Qed.

Lemma run_keeps_animating (evs : list Event) (s : State) :
  canvas_handler s = [] -> animating s = true -> forallb (fun ev => negb (cancel_key ev)) evs = true ->
  animating (run evs s) = true.
Proof.
  unfold CameraAnim.run. revert s.
  induction evs as [|ev evs IH]; intros s Hc Ha Hkeys; [exact Ha|].
  simpl in Hkeys |- *. apply andb_true_iff in Hkeys as [Hkey Hkeys].
  apply negb_true_iff in Hkey.
  destruct (step_keeps_animating ev s Hc Ha Hkey) as [Hc' Ha']. now apply IH.
Qed.

Lemma run_keeps_detached (evs : list Event) (s : State) :
  canvas_handler s = [] -> canvas_handler (run evs s) = [].
Proof.
  intros Hc. destruct (run_canvas_handler evs s (or_intror Hc)) as [H|H]; [|exact H].
  exfalso. revert s Hc H. unfold CameraAnim.run.
  induction evs as [|ev evs IH]; intros s Hc H.
  - simpl in H. rewrite Hc in H. discriminate H.
  - simpl in H. apply (IH (step s ev)); [|exact H].
    destruct ev as [type|key c a m| | |dt]; cbn [CameraAnim.step].
    + rewrite Hc. exact Hc.
    + unfold keydown. destruct (keydown_handle s); cbn [negb]; [|exact Hc].
    destruct (c || a || m); [exact Hc|].
      destruct (cancelAnimation_fields s) as (_ & _ & Hc' & _).
      destruct (String.eqb key "f"); [|destruct (String.eqb key "r"); [|exact Hc]];
        cbn [log canvas_handler]; rewrite Hc'; exact Hc.
    + unfold sorter_updated. destruct (sorter_handle s); exact Hc.
    + unfold frameend. destruct (frame_handle s); exact Hc.
    + destruct (update_fields dt s) as (_ & Hc' & _). rewrite Hc'. exact Hc.
Qed.

End CameraAnimFacts.

(** The camera animation of the viewer starts at most once: in any
    sequence of canvas events, key presses, sorter updates, frame ends and
    updates after [initCamera], once the animation has run and has been
    stopped it never runs again. *)
Theorem camera_animation_never_restarts
    (fl : Q -> Q) (Math_pow : Q -> Q -> Q) (evaluate : Q -> list Q) (noanim : bool)
    (track : CameraAnim.Track) (anim : option CameraAnim.Anim)
    (hasSorter reset hasTarget rnf : bool)
    (evs1 evs2 evs3 : list CameraAnim.Event) :
  let run := CameraAnim.run fl Math_pow evaluate noanim track in
  let s0 := CameraAnim.initCamera anim hasSorter reset hasTarget rnf in
  CameraAnim.animating (run evs1 s0) = true ->
  CameraAnim.animating (run (evs1 ++ evs2) s0) = false ->
  CameraAnim.animating (run (evs1 ++ evs2 ++ evs3) s0) = false.
Proof.
  intros run s0 Hon Hoff. subst run.
  rewrite run_app in Hoff. rewrite !run_app.
  set (s1 := CameraAnim.run fl Math_pow evaluate noanim track evs1 s0) in *.
  assert (Hspent : CameraAnim.start_spent s1).
  { destruct (run_started_inv fl Math_pow evaluate noanim track evs1 s0
                (initCamera_started_inv anim hasSorter reset hasTarget rnf)) as [H _].
    now destruct (H Hon). }
  apply run_stays_stopped; [|exact Hoff].
  now apply run_keeps_spent.
Qed.

Lemma camera_animation_never_restarts_witness :
  let run := CameraAnim.run (fun x => x) (fun x _ => x) (fun t => [t; t; t; t; t; t]) false
               (CameraAnim.mkTrack 10 "repeat") in
  let s0 := CameraAnim.initCamera (Some CameraAnim.new_cameraAnim) true false false false in
  let evs1 := [CameraAnim.SorterUpdated; CameraAnim.FrameEnd; CameraAnim.Update 1] in
  let evs2 := [CameraAnim.CanvasEvent "pointerdown"] in
  let evs3 := [CameraAnim.SorterUpdated; CameraAnim.FrameEnd; CameraAnim.Update 1] in
  CameraAnim.animating (run evs1 s0) = true /\
  CameraAnim.animating (run (evs1 ++ evs2 ++ evs3) s0) = false.
Proof.
  intros run s0 evs1 evs2 evs3. split; [reflexivity|].
  apply (camera_animation_never_restarts (fun x => x) (fun x _ => x)
           (fun t => [t; t; t; t; t; t]) false (CameraAnim.mkTrack 10 "repeat")
           (Some CameraAnim.new_cameraAnim) true false false false evs1 evs2 evs3);
    reflexivity.
Defined.

(** The canvas handler that stops the camera animation is used up by
    the first wheel, pointerdown or contextmenu event on the canvas, also
    when no animation runs yet: if the animation runs at some time after such
    an event, no later canvas event stops it; it keeps running until the f
    or the r key is pressed without a modifier. *)
Theorem early_interaction_spends_cancel_handler
    (fl : Q -> Q) (Math_pow : Q -> Q -> Q) (evaluate : Q -> list Q) (noanim : bool)
    (track : CameraAnim.Track) (anim : option CameraAnim.Anim)
    (hasSorter reset hasTarget rnf : bool)
    (evs1 evs2 evs3 : list CameraAnim.Event) (type : string) :
  let run := CameraAnim.run fl Math_pow evaluate noanim track in
  let s0 := CameraAnim.initCamera anim hasSorter reset hasTarget rnf in
  In type CameraAnim.events ->
  CameraAnim.animating (run (evs1 ++ [CameraAnim.CanvasEvent type] ++ evs2) s0) = true ->
  forallb (fun ev => negb (CameraAnim.cancel_key ev)) evs3 = true ->
  CameraAnim.animating (run (evs1 ++ [CameraAnim.CanvasEvent type] ++ evs2 ++ evs3) s0) = true.
Proof.
  intros run s0 Htype Hon Hkeys. subst run.
  rewrite !run_app in Hon. rewrite !run_app.
  set (s1 := CameraAnim.run fl Math_pow evaluate noanim track evs1 s0) in *.
  assert (Hc1 : CameraAnim.canvas_handler s1 = CameraAnim.events \/
                CameraAnim.canvas_handler s1 = []).
  { apply run_canvas_handler. apply initCamera_canvas_handler. }
  set (s2 := CameraAnim.run fl Math_pow evaluate noanim track
               [CameraAnim.CanvasEvent type] s1) in *.
  assert (Hc2 : CameraAnim.canvas_handler s2 = []).
  { apply (interaction_detaches fl Math_pow evaluate noanim track type s1 Htype Hc1). }
  apply run_keeps_animating; [|exact Hon|exact Hkeys].
  now apply run_keeps_detached.
Qed.

Lemma early_interaction_spends_cancel_handler_witness :
  let run := CameraAnim.run (fun x => x) (fun x _ => x) (fun t => [t; t; t; t; t; t]) false
               (CameraAnim.mkTrack 10 "repeat") in
  let s0 := CameraAnim.initCamera (Some CameraAnim.new_cameraAnim) true false false false in
  let evs2 := [CameraAnim.SorterUpdated; CameraAnim.FrameEnd] in
  let evs3 := [CameraAnim.CanvasEvent "wheel"; CameraAnim.CanvasEvent "pointerdown";
               CameraAnim.Update 1] in
  CameraAnim.animating
    (run ([] ++ [CameraAnim.CanvasEvent "pointerdown"] ++ evs2 ++ evs3) s0) = true.
Proof.
  intros run s0 evs2 evs3.
  apply (early_interaction_spends_cancel_handler (fun x => x) (fun x _ => x)
           (fun t => [t; t; t; t; t; t]) false (CameraAnim.mkTrack 10 "repeat")
           (Some CameraAnim.new_cameraAnim) true false false false [] evs2 evs3 "pointerdown").
  - simpl. tauto.
  - reflexivity.
  - reflexivity.
Defined.

Section CameraCursorFacts.

Import CameraAnim CameraCursor.

Local Open Scope Q_scope.

Variable fl : Q -> Q.
Variable Math_pow : Q -> Q -> Q.
Variable evaluate : Q -> list Q.
Variable noanim : bool.
Variable track : Track.

Hypothesis fl_nonneg : forall x, 0 <= x -> 0 <= fl x.
Hypothesis pow_nonneg : forall x, 0 <= x -> 0 <= Math_pow x (1 # 2).
Hypothesis duration_pos : 0 < duration track.

Lemma Qlt_bool_true (a b : Q) : Qlt_bool a b = true <-> a < b.
Proof.
  unfold Qlt_bool. rewrite negb_true_iff. split.
  - intros H. apply Qnot_le_lt. intros Hle. apply Qle_bool_iff in Hle. congruence.
  - intros H. destruct (Qle_bool b a) eqn:Hle; [|reflexivity].
    apply Qle_bool_iff in Hle. exfalso. apply (Qlt_not_le _ _ H Hle).
Qed.

Lemma Qlt_bool_false (a b : Q) : Qlt_bool a b = false <-> b <= a.
Proof.
  unfold Qlt_bool. rewrite negb_false_iff. apply Qle_bool_iff.
Qed.

Lemma Qle_bool_false (a b : Q) : Qle_bool a b = false -> b < a.
Proof.
  intros H. apply Qnot_le_lt. intros Hle. apply Qle_bool_iff in Hle. congruence.
Qed.

(** The remainder of a dividend that is not negative by a positive
    divisor. *)
Lemma js_rem_range (a b : Q) :
  0 < b -> 0 <= a -> 0 <= js_rem a b /\ js_rem a b < b.
Proof.
  intros Hb Ha. unfold js_rem, trunc.
  assert (Hbne : ~ b == 0) by (intros H; rewrite H in Hb; apply (Qlt_irrefl _ Hb)).
  pose proof (Qmult_div_r a b Hbne) as Hq.
  set (q := a / b) in *.
  assert (Hq0 : 0 <= q) by nra.
  apply Qle_bool_iff in Hq0. rewrite Hq0.
  pose proof (Qfloor_le q) as Hlo. pose proof (Qlt_floor q) as Hhi.
  rewrite inject_Z_plus in Hhi. change (inject_Z 1) with 1 in Hhi.
  set (k := inject_Z (Qfloor q)) in *.
  split; nra.
Qed.

Lemma wrap_in_range (t : Q) :
  0 <= t -> cursor_in_range track (wrap track t).
Proof.
  intros Ht. unfold wrap, cursor_in_range.
  destruct (Qle_bool (duration track) t) eqn:Hle.
  - apply Qle_bool_iff in Hle.
    destruct (String.eqb_spec (loopMode track) "none") as [Hm|Hm].
    { rewrite Hm. repeat split; try (intros H; discriminate H); lra. }
    destruct (String.eqb_spec (loopMode track) "repeat") as [Hm'|Hm'].
    { destruct (js_rem_range t (duration track) duration_pos Ht) as [H0 H1].
      rewrite Hm'. repeat split; try (intros H; discriminate H); lra. }
    destruct (String.eqb_spec (loopMode track) "pingpong") as [Hm''|Hm''].
    { assert (Hpos : 0 < duration track * 2) by lra.
      destruct (js_rem_range t (duration track * 2) Hpos Ht) as [H0 H1].
      rewrite Hm''. repeat split; try (intros H; discriminate H); lra. }
    repeat split; try (intros H; congruence); lra.
  - apply Qle_bool_false in Hle.
    repeat split; intros; lra.
Qed.

Lemma evaluation_time_ok (t : Q) :
  cursor_in_range track t ->
  loopMode track = "none" \/ loopMode track = "repeat" \/ loopMode track = "pingpong" ->
  eval_ok fl track (evaluation_time fl track t).
Proof.
  intros (H0 & Hnone & Hrepeat & Hping) Hmode. unfold evaluation_time, eval_ok.
  destruct (Qlt_bool (duration track) t) eqn:Hlt.
  - apply Qlt_bool_true in Hlt. destruct Hmode as [Hm|[Hm|Hm]].
    + specialize (Hnone Hm). lra.
    + specialize (Hrepeat Hm). lra.
    + right. split; [exact Hm|]. exists t. auto.
  - apply Qlt_bool_false in Hlt. left. split; assumption.
Qed.

Lemma cursor_inv_same (s s' : State) :
  animationTimer s' = animationTimer s ->
  cameraAnim s' = cameraAnim s ->
  (forall t, In (Evaluate t) (calls s') -> In (Evaluate t) (calls s)) ->
  cursor_inv fl track s -> cursor_inv fl track s'.
Proof.
  intros Ht Hc Hcalls (H0 & Ha & He). unfold cursor_inv. rewrite Ht, Hc.
  split; [exact H0|]. split; [exact Ha|].
  intros t Hin. apply He. now apply Hcalls.
Qed.

Lemma cancelAnimation_cursor_inv (s : State) :
  cursor_inv fl track s -> cursor_inv fl track (cancelAnimation s).
Proof.
  apply cursor_inv_same; unfold cancelAnimation;
    destruct (animating s); try reflexivity; try (intros t H; exact H).
  cbn [calls]. intros t Hin. apply in_app_or in Hin as [Hin|Hin]; [exact Hin|].
  destruct (cameraAnim s); simpl in Hin; [destruct Hin as [H|[]]; discriminate H | destruct Hin].
Qed.

Lemma log_cursor_inv (c : Call) (s : State) :
  (forall t, c <> Evaluate t) ->
  cursor_inv fl track s -> cursor_inv fl track (log c s).
Proof.
  intros Hc. apply cursor_inv_same; try reflexivity.
  cbn [log calls]. intros t Hin. apply in_app_or in Hin as [Hin|[Hin|[]]]; [exact Hin|].
  now destruct (Hc t).
Qed.

Lemma update_cursor_inv (dt : Q) (s : State) :
  0 <= dt ->
  cursor_inv fl track s ->
  cursor_inv fl track (update fl Math_pow evaluate noanim track dt s).
Proof.
  intros Hdt Hinv. pose proof Hinv as (H0 & (a & Ha & Hrange) & He).
  unfold update. rewrite Ha.
  destruct (animating s && negb noanim); [|exact Hinv].
  set (timer := fl (animationTimer s + dt)).
  assert (Htimer : 0 <= timer) by (apply fl_nonneg; lra).
  set (time1 := if Qlt_bool timer 5
                then fl (time a + fl (dt * Math_pow (fl (timer / 5)) (1 # 2)))
                else fl (time a + dt)).
  assert (Htime1 : 0 <= time1).
  { destruct Hrange as (Hta & _). subst time1. destruct (Qlt_bool timer 5).
    - apply fl_nonneg.
      assert (Hdiv : 0 <= timer / 5).
      { unfold Qdiv. apply Qmult_le_0_compat; [exact Htimer | discriminate]. }
      pose proof (pow_nonneg _ (fl_nonneg _ Hdiv)) as Hp.
      pose proof (fl_nonneg _ (Qmult_le_0_compat _ _ Hdt Hp)). lra.
    - apply fl_nonneg. lra. }
  pose proof (wrap_in_range time1 Htime1) as Hwrap.
  unfold cursor_inv. cbn [animationTimer cameraAnim calls time].
  split; [exact Htimer|]. split; [eexists; split; [reflexivity | exact Hwrap]|].
  intros t Hin Hmode. apply in_app_or in Hin as [Hin|Hin]; [now apply He|].
  destruct Hin as [Heq|[Heq|[Heq|[]]]]; try discriminate Heq.
  injection Heq as <-. now apply evaluation_time_ok.
Qed.

Lemma step_cursor_inv (ev : Event) (s : State) :
  (forall dt, ev = Update dt -> 0 <= dt) ->
  cursor_inv fl track s ->
  cursor_inv fl track (CameraAnim.step fl Math_pow evaluate noanim track s ev).
Proof.
  intros Hdt Hinv. destruct ev as [type|key c a m| | |dt]; cbn [CameraAnim.step].
  - destruct (JS.includes (canvas_handler s) type); [|exact Hinv].
    apply (cursor_inv_same (cancelAnimation s)); try reflexivity; [auto|].
    now apply cancelAnimation_cursor_inv.
  - unfold keydown. destruct (keydown_handle s); cbn [negb]; [|exact Hinv].
    destruct (c || a || m); [exact Hinv|].
    destruct (String.eqb key "f"); [|destruct (String.eqb key "r"); [|exact Hinv]];
      (apply log_cursor_inv; [discriminate | now apply cancelAnimation_cursor_inv]).
  - unfold sorter_updated. destruct (sorter_handle s); [|exact Hinv].
    revert Hinv. apply cursor_inv_same; try reflexivity. auto.
  - unfold frameend. destruct (frame_handle s); [|exact Hinv].
    revert Hinv. apply cursor_inv_same; try reflexivity.
    cbn [calls]. intros t Hin. apply in_app_or in Hin as [Hin|[Hin|[]]]; [exact Hin|].
    discriminate Hin.
  - apply update_cursor_inv; [|exact Hinv]. now apply Hdt.
Qed.

Lemma run_cursor_inv (evs : list Event) (s : State) :
  (forall dt, In (Update dt) evs -> 0 <= dt) ->
  cursor_inv fl track s ->
  cursor_inv fl track (CameraAnim.run fl Math_pow evaluate noanim track evs s).
Proof.
  unfold CameraAnim.run. revert s.
  induction evs as [|ev evs IH]; intros s Hdt Hinv; [exact Hinv|].
  simpl. apply IH.
  - intros dt Hin. apply Hdt. now right.
  - apply step_cursor_inv; [|exact Hinv]. intros dt ->. apply Hdt. now left.
Qed.

Lemma initCamera_cursor_inv (hasSorter reset hasTarget rnf : bool) :
  cursor_inv fl track (initCamera (Some new_cameraAnim) hasSorter reset hasTarget rnf).
Proof.
  unfold initCamera.
  destruct (reset && negb hasTarget); (split; [simpl; lra|]; split).
  - exists new_cameraAnim. split; [reflexivity|]. unfold cursor_in_range. simpl.
    repeat split; intros; lra.
  - intros t Hin. simpl in Hin. destruct Hin as [H|[]]; discriminate H.
  - exists new_cameraAnim. split; [reflexivity|]. unfold cursor_in_range. simpl.
    repeat split; intros; lra.
  - intros t Hin. simpl in Hin. destruct reset; destruct Hin as [H|[]]; discriminate H.
Qed.

End CameraCursorFacts.

(** With a track of positive duration, a rounding and a power function
    that keep non-negative numbers non-negative, and frame times that are not
    negative, the cursor of the camera animation is never negative and stays
    within the track: at most the duration in mode none, below the duration
    in mode repeat, below twice the duration in mode pingpong. In modes none
    and repeat the spline is only evaluated at times between 0 and the
    duration. In mode pingpong it is also evaluated, while the cursor is in
    the second half of its cycle, at the rounding of [duration - cursor],
    which is a time between minus the duration and 0. *)
Theorem animation_cursor_stays_in_range
    (fl : Q -> Q) (Math_pow : Q -> Q -> Q) (evaluate : Q -> list Q) (noanim : bool)
    (track : CameraAnim.Track) (hasSorter reset hasTarget rnf : bool)
    (evs : list CameraAnim.Event) :
  (forall x, 0 <= x -> 0 <= fl x)%Q ->
  (forall x, 0 <= x -> 0 <= Math_pow x (1 # 2))%Q ->
  (0 < CameraAnim.duration track)%Q ->
  (forall dt, In (CameraAnim.Update dt) evs -> 0 <= dt)%Q ->
  let s := CameraAnim.run fl Math_pow evaluate noanim track evs
             (CameraAnim.initCamera (Some CameraAnim.new_cameraAnim) hasSorter reset hasTarget
                rnf) in
  (exists a, CameraAnim.cameraAnim s = Some a /\
             CameraAnim.cursor_in_range track (CameraAnim.time a)) /\
  (forall t, In (CameraAnim.Evaluate t) (CameraAnim.calls s) ->
             (CameraAnim.loopMode track = "none" \/ CameraAnim.loopMode track = "repeat" ->
              0 <= t /\ t <= CameraAnim.duration track)%Q /\
             (CameraAnim.loopMode track = "pingpong" ->
              (0 <= t /\ t <= CameraAnim.duration track)%Q \/
              exists c, (CameraAnim.duration track < c /\ c < CameraAnim.duration track * 2 /\
                         - CameraAnim.duration track < CameraAnim.duration track - c /\
                         CameraAnim.duration track - c < 0)%Q /\
                        t = fl (CameraAnim.duration track - c)%Q)).
Proof.
  intros Hfl Hpow Hdur Hdt s.
  destruct (run_cursor_inv fl Math_pow evaluate noanim track Hfl Hpow Hdur evs _ Hdt
              (initCamera_cursor_inv fl track Hdur hasSorter reset hasTarget rnf))
    as (_ & Ha & He).
  fold s in Ha, He. split; [exact Ha|].
  intros t Hin. split.
  - intros Hmode.
    destruct (He t Hin) as [Hok|(Hping & _)]; [tauto | exact Hok |].
    destruct Hmode as [Hm|Hm]; rewrite Hm in Hping; discriminate Hping.
  - intros Hmode. destruct (He t Hin) as [Hok|(_ & c & H1 & H2 & Ht)]; [tauto | now left |].
    right. exists c. split; [|exact Ht]. repeat split; lra.
Qed.

Lemma animation_cursor_stays_in_range_witness :
  let track := CameraAnim.mkTrack 10 "pingpong" in
  let evs := [CameraAnim.SorterUpdated; CameraAnim.FrameEnd; CameraAnim.Update 6;
              CameraAnim.Update 6] in
  let s := CameraAnim.run (fun x => x) (fun x _ => x) (fun t => [t]) false track evs
             (CameraAnim.initCamera (Some CameraAnim.new_cameraAnim) true false false false) in
  In (CameraAnim.Evaluate (10 - 12)) (CameraAnim.calls s) /\
  exists a, CameraAnim.cameraAnim s = Some a /\
            CameraAnim.cursor_in_range track (CameraAnim.time a).
Proof.
  intros track evs s. split.
  - vm_compute. tauto.
  - apply (animation_cursor_stays_in_range (fun x => x) (fun x _ => x) (fun t => [t]) false
             track true false false false evs).
    + intros x Hx. exact Hx.
    + intros x Hx. exact Hx.
    + reflexivity.
    + intros dt [H|[H|[H|[H|[]]]]]; try discriminate H; injection H as <-; discriminate.
Defined.

Section OnDemandFacts.

Import OnDemand.

Local Open Scope Q_scope.

Variable fl : Q -> Q.

Lemma some_far_nil (eps : Q) (a : list Q) : some_far fl eps a [] = false.
Proof. induction a as [|v a IH]; [reflexivity | exact IH]. Qed.

Lemma some_far_false (eps : Q) (a b : list Q) :
  some_far fl eps a b = false <->
  forall i v w, a !! i = Some v -> b !! i = Some w -> Qabs (fl (v - w)) < eps.
Proof.
  revert b. induction a as [|v a IH]; intros b.
  - split; [|reflexivity]. intros _ i v w H. destruct i; discriminate H.
  - destruct b as [|w b].
    + simpl. rewrite some_far_nil. split; [|reflexivity].
      intros _ i v' w' _ H. destruct i; discriminate H.
    + simpl. rewrite orb_false_iff, IH. split.
      * intros [Hhead Htail] i v' w' Hv Hw. destruct i as [|i]; simpl in Hv, Hw.
        -- injection Hv as <-. injection Hw as <-.
           apply Qnot_le_lt. intros Hle. apply Qle_bool_iff in Hle. congruence.
        -- now apply (Htail i).
      * intros H. split.
        -- destruct (Qle_bool eps (Qabs (fl (v - w)))) eqn:Hle; [|reflexivity].
           apply Qle_bool_iff in Hle. exfalso.
           apply (Qlt_not_le _ _ (H 0%nat v w eq_refl eq_refl) Hle).
        -- intros i v' w' Hv Hw. now apply (H (S i)).
Qed.

Lemma nearlyEquals_within (a b : list Q) :
  nearlyEquals fl a b (epsilon fl) = true <-> within fl a b.
Proof.
  unfold nearlyEquals, within. rewrite negb_true_iff. apply some_far_false.
Qed.

End OnDemandFacts.

(** On-demand rendering: when the app neither renders every frame nor
    has a frame requested, the 'framerender' handler requests one exactly
    when some entry of the camera's world transform or projection matrix
    differs by epsilon or more from the matrices it recorded last, and it
    records the current matrices only then; otherwise it changes nothing,
    so a slow drift is measured against the last recorded matrices and not
    against the previous frame. *)
Theorem framerender_requests_render_iff_moved
    (fl : Q -> Q) (world proj : list Q) (s : OnDemand.State) :
  OnDemand.autoRender s = false ->
  OnDemand.renderNextFrame s = false ->
  let s' := OnDemand.framerender fl world proj s in
  (OnDemand.renderNextFrame s' = false <->
   OnDemand.within fl world (OnDemand.prevWorld s) /\
   OnDemand.within fl proj (OnDemand.prevProj s)) /\
  (OnDemand.renderNextFrame s' = true ->
   OnDemand.prevWorld s' = world /\ OnDemand.prevProj s' = proj) /\
  (OnDemand.renderNextFrame s' = false -> s' = s) /\
  OnDemand.autoRender s' = false.
Proof.
  intros Hauto Hnext s'. subst s'. unfold OnDemand.framerender.
  rewrite Hauto, Hnext. cbn [negb andb].
  pose proof (nearlyEquals_within fl world (OnDemand.prevWorld s)) as Hw.
  pose proof (nearlyEquals_within fl proj (OnDemand.prevProj s)) as Hp.
  destruct (OnDemand.nearlyEquals fl world (OnDemand.prevWorld s) (OnDemand.epsilon fl));
    destruct (OnDemand.nearlyEquals fl proj (OnDemand.prevProj s) (OnDemand.epsilon fl));
    cbn [negb OnDemand.renderNextFrame OnDemand.prevWorld OnDemand.prevProj
         OnDemand.autoRender].
  - split; [split; [intros _; split; [now apply Hw | now apply Hp] | reflexivity]|].
    split; [discriminate|]. split; [|reflexivity].
    intros _. destruct s; simpl in *. now subst.
  - split; [split; [discriminate|]|].
    + intros [_ H]. apply Hp in H. discriminate H.
    + split; [auto|]. split; [discriminate | reflexivity].
  - split; [split; [discriminate|]|].
    + intros [H _]. apply Hw in H. discriminate H.
    + split; [auto|]. split; [discriminate | reflexivity].
  - split; [split; [discriminate|]|].
    + intros [H _]. apply Hw in H. discriminate H.
    + split; [auto|]. split; [discriminate | reflexivity].
Qed.

Lemma framerender_requests_render_iff_moved_witness :
  let identity := [1; 0; 0; 0; 0; 1; 0; 0; 0; 0; 1; 0; 0; 0; 0; 1]%Q in
  let moved := [1; 0; 0; 0; 0; 1; 0; 0; 0; 0; 1; 0; 2; 0; 0; 1]%Q in
  let s := OnDemand.mkState false false identity identity in
  let s' := OnDemand.framerender (fun x => x) moved identity s in
  OnDemand.renderNextFrame s' = true /\ OnDemand.prevWorld s' = moved.
Proof.
  intros identity moved s s'. split; [reflexivity|].
  destruct (framerender_requests_render_iff_moved (fun x => x) moved identity s
              eq_refl eq_refl) as (_ & Hrec & _).
  apply Hrec. reflexivity.
Defined.

Section SkyFacts.

Import SkyOps.

Variable build : Build.

Lemma generate_synced (a : nat) (s : State) :
  _scene (el s) = true -> synced (_generateSkybox build a s).
Proof.
  intros Hs. unfold _generateSkybox. rewrite Hs. unfold synced. cbn [el scene].
  cbn [sky_type sky_scale sky_center skyboxIntensity skybox_layer].
  repeat split; try exact Hs.
  intros b. unfold set_layer. destruct (skybox_layer (scene s)); [|discriminate].
  now intros [= <-].
Qed.

Lemma step_synced (op : Op) (s : State) :
  is_disconnect op = false -> synced s -> synced (step build s op).
Proof.
  intros Hop (Hs & Ht & Hsc & Hc & Hi & Hl).
  destruct op; try discriminate Hop; cbn [step]; try rewrite Hs;
    try (unfold synced; cbn; repeat split; assumption).
  - (* type *)
    unfold synced. cbn. repeat split; try assumption.
    intros b. unfold set_layer. destruct (skybox_layer (scene s)); [|discriminate].
    now intros [= <-].
  - (* _loadSkybox *)
    unfold _loadSkybox. destruct (negb app); [now repeat split|].
    destruct asset as [[a loaded]|]; [|now repeat split].
    destruct loaded.
    + now apply generate_synced.
    + unfold synced. cbn. repeat split; assumption.
  - now apply generate_synced.
Qed.

Lemma run_synced (ops : list Op) (s : State) :
  forallb (fun op => negb (is_disconnect op)) ops = true ->
  synced s -> synced (run build ops s).
Proof.
  unfold run. revert s. induction ops as [|op ops IH]; intros s Hops Hs; [exact Hs|].
  simpl in Hops |- *. apply andb_true_iff in Hops as [Hop Hops].
  apply IH; [exact Hops|]. apply step_synced; [|exact Hs]. now apply negb_true_iff.
Qed.

(** Property setters leave the scene alone while the element has none. *)
Lemma setters_detached (ops : list Op) (s : State) :
  forallb is_setter ops = true -> _scene (el s) = false ->
  _scene (el (run build ops s)) = false /\ scene (run build ops s) = scene s.
Proof.
  unfold run. revert s. induction ops as [|op ops IH]; intros s Hops Hs; [now split|].
  simpl in Hops |- *. apply andb_true_iff in Hops as [Hop Hops].
  assert (Hstep : _scene (el (step build s op)) = false /\ scene (step build s op) = scene s).
  { destruct op; try discriminate Hop; cbn [step el scene _scene]; rewrite Hs; now split. }
  destruct Hstep as [Hs' Hsc']. destruct (IH _ Hops Hs') as [H1 H2].
  split; [exact H1 | now rewrite H2].
Qed.

Lemma step_keeps_rotation (op : Op) (s : State) :
  sets_rotation_or_level op = false ->
  skyboxRotation (scene (step build s op)) = skyboxRotation (scene s) /\
  _rotation (el (step build s op)) = _rotation (el s) /\
  _level (el (step build s op)) = _level (el s).
Proof.
  intros Hop. destruct op; try discriminate Hop; cbn [step el scene];
    try (destruct (_scene (el s)); now repeat split).
  - unfold _loadSkybox. destruct (negb app); [now repeat split|].
    destruct asset as [[a loaded]|]; [|now repeat split].
    destruct loaded; [|now repeat split].
    unfold _generateSkybox. cbn. now repeat split.
  - unfold _generateSkybox. destruct (_scene (el s)); now repeat split.
  - unfold _unloadSkybox. destruct (_scene (el s)); now repeat split.
Qed.

Lemma run_keeps_rotation (ops : list Op) (s : State) :
  forallb (fun op => negb (sets_rotation_or_level op)) ops = true ->
  skyboxRotation (scene (run build ops s)) = skyboxRotation (scene s) /\
  _rotation (el (run build ops s)) = _rotation (el s) /\
  _level (el (run build ops s)) = _level (el s).
Proof.
  unfold run. revert s. induction ops as [|op ops IH]; intros s Hops; [now repeat split|].
  simpl in Hops |- *. apply andb_true_iff in Hops as [Hop Hops].
  apply negb_true_iff in Hop.
  destruct (step_keeps_rotation op s Hop) as (H1 & H2 & H3).
  destruct (IH (step build s op) Hops) as (H1' & H2' & H3').
  repeat split; congruence.
Qed.

(** The mip level of the scene after a step that assigns neither
    rotation nor level: the element's level when the step generates a
    skybox in the second build, and what it was otherwise. *)
Lemma step_level (op : Op) (s : State) :
  sets_rotation_or_level op = false ->
  skyboxMip (scene (step build s op))
  = match build with
    | FirstBuild => skyboxMip (scene s)
    | SecondBuild => if generates s op then _level (el s) else skyboxMip (scene s)
    end.
Proof.
  intros Hop. destruct op; try discriminate Hop; cbn [step el scene generates];
    try (destruct (_scene (el s)), build; reflexivity).
  - unfold _loadSkybox. destruct app; cbn [negb andb]; [|now destruct build, asset as [[? ?]|]].
    destruct asset as [[a loaded]|]; [|now destruct build].
    destruct loaded; [|now destruct build].
    unfold _generateSkybox. cbn. now destruct build.
  - unfold _generateSkybox. destruct (_scene (el s)); now destruct build.
  - unfold _unloadSkybox. destruct (_scene (el s)); now destruct build.
Qed.

Lemma run_level (ops : list Op) (s : State) :
  forallb (fun op => negb (sets_rotation_or_level op)) ops = true ->
  skyboxMip (scene (run build ops s))
  = match build with
    | FirstBuild => skyboxMip (scene s)
    | SecondBuild => if generated build ops s then _level (el s) else skyboxMip (scene s)
    end.
Proof.
  unfold run. revert s. induction ops as [|op ops IH]; intros s Hops;
    [now destruct build|].
  simpl in Hops. apply andb_true_iff in Hops as [Hop Hops].
  apply negb_true_iff in Hop.
  cbn [fold_left generated]. rewrite (IH _ Hops), (step_level op s Hop).
  destruct (step_keeps_rotation op s Hop) as (_ & _ & Hlevel). rewrite Hlevel.
  destruct build; [reflexivity|].
  destruct (generates s op), (generated SecondBuild ops (step SecondBuild s op)); reflexivity.
Qed.

End SkyFacts.

(** Once a pc-sky element that holds the app's scene has generated its
    skybox, and until it is disconnected, the scene's sky type, scale,
    center and skybox intensity are those of the element, and the skybox
    layer, when there is one, is enabled exactly when the type is not
    'none', whatever properties are assigned and whatever skyboxes are
    loaded in between, in both builds of the element layer. *)
Theorem sky_scene_follows_element
    (build : SkyOps.Build) (s : SkyOps.State) (a : nat) (ops : list SkyOps.Op) :
  SkyOps._scene (SkyOps.el s) = true ->
  forallb (fun op => negb (SkyOps.is_disconnect op)) ops = true ->
  SkyOps.synced (SkyOps.run build ops (SkyOps.step build s (SkyOps.AssetLoad a))).
Proof.
  intros Hs Hops. apply run_synced; [exact Hops|].
  cbn [SkyOps.step]. now apply generate_synced.
Qed.

Lemma sky_scene_follows_element_witness :
  let sc := SkyOps.mkScene None None (Some true) None (1, 1, 1)%Q (0, 0, 0)%Q 1 0 None [] in
  let s := SkyOps.mkState (SkyOps.with_scene true SkyOps.constructor) sc in
  let ops := [SkyOps.SetType (Some "none"); SkyOps.SetScale (2, 2, 2)%Q] in
  let s' := SkyOps.run SkyOps.SecondBuild ops
              (SkyOps.step SkyOps.SecondBuild s (SkyOps.AssetLoad 1)) in
  SkyOps.sky_scale (SkyOps.scene s') = (2, 2, 2)%Q /\
  SkyOps.skybox_layer (SkyOps.scene s') = Some false /\
  SkyOps.synced s'.
Proof.
  intros sc s ops s'. split; [reflexivity|]. split; [reflexivity|].
  apply (sky_scene_follows_element SkyOps.SecondBuild s 1 ops); reflexivity.
Defined.

(** A rotation assigned to a pc-sky element before it holds a scene, as
    the attributes of the markup are, never reaches the scene, in either
    build: whatever is loaded, generated or assigned afterwards, short of
    another assignment to rotation or level, the scene's skybox rotation
    stays what it was, while the element keeps the assigned rotation and
    level in its own fields. A level assigned that way never reaches the
    scene in the first build; in the second build the scene's mip level
    stays what it was until a skybox is generated, and is the element's
    level from then on. *)
Theorem sky_rotation_from_markup_not_applied_level_by_build
    (build : SkyOps.Build) (sc0 : SkyOps.Scene) (setters later : list SkyOps.Op) :
  forallb SkyOps.is_setter setters = true ->
  forallb (fun op => negb (SkyOps.sets_rotation_or_level op)) later = true ->
  let s1 := SkyOps.run build setters (SkyOps.mkState SkyOps.constructor sc0) in
  let s2 := SkyOps.run build later s1 in
  SkyOps.scene s1 = sc0 /\
  SkyOps.skyboxRotation (SkyOps.scene s2) = SkyOps.skyboxRotation sc0 /\
  SkyOps.skyboxMip (SkyOps.scene s2)
  = match build with
    | SkyOps.FirstBuild => SkyOps.skyboxMip sc0
    | SkyOps.SecondBuild =>
        if SkyOps.generated build later s1
        then SkyOps._level (SkyOps.el s1)
        else SkyOps.skyboxMip sc0
    end /\
  SkyOps._rotation (SkyOps.el s2) = SkyOps._rotation (SkyOps.el s1) /\
  SkyOps._level (SkyOps.el s2) = SkyOps._level (SkyOps.el s1).
Proof.
  intros Hset Hlater s1 s2.
  destruct (setters_detached build setters (SkyOps.mkState SkyOps.constructor sc0)
              Hset eq_refl) as [_ Hscene].
  destruct (run_keeps_rotation build later s1 Hlater) as (H1 & H3 & H4).
  pose proof (run_level build later s1 Hlater) as H2.
  fold s1 in Hscene. cbn [SkyOps.scene] in Hscene.
  split; [exact Hscene|].
  subst s2. rewrite H1, H2, Hscene. now repeat split.
Qed.

Lemma sky_rotation_from_markup_not_applied_level_by_build_witness :
  let sc0 := SkyOps.mkScene None None (Some true) None (1, 1, 1)%Q (0, 0, 0)%Q 1 0 None [] in
  let setters := [SkyOps.SetAsset "sky"; SkyOps.SetRotation (0, 90, 0)%Q; SkyOps.SetLevel 2] in
  let later := [SkyOps.LoadSkybox true (Some (1, true))] in
  let first :=
    SkyOps.run SkyOps.FirstBuild later
      (SkyOps.run SkyOps.FirstBuild setters (SkyOps.mkState SkyOps.constructor sc0)) in
  let second :=
    SkyOps.run SkyOps.SecondBuild later
      (SkyOps.run SkyOps.SecondBuild setters (SkyOps.mkState SkyOps.constructor sc0)) in
  SkyOps.skybox (SkyOps.scene first) = Some 1 /\
  SkyOps._rotation (SkyOps.el first) = (0, 90, 0)%Q /\
  SkyOps.skyboxRotation (SkyOps.scene first) = None /\
  SkyOps.skyboxMip (SkyOps.scene first) = 0%Q /\
  SkyOps.skyboxRotation (SkyOps.scene second) = None /\
  SkyOps.skyboxMip (SkyOps.scene second) = 2%Q.
Proof.
  intros sc0 setters later first second. split; [reflexivity|]. split; [reflexivity|].
  destruct (sky_rotation_from_markup_not_applied_level_by_build SkyOps.FirstBuild
              sc0 setters later eq_refl eq_refl) as (_ & H1 & H2 & _).
  destruct (sky_rotation_from_markup_not_applied_level_by_build SkyOps.SecondBuild
              sc0 setters later eq_refl eq_refl) as (_ & H3 & H4 & _).
  split; [exact H1|]. split; [exact H2|]. split; [exact H3 | exact H4].
Defined.

Section MeshoptWorkersFacts.

Import MeshoptWorkers.

Local Open Scope Z_scope.

Lemma least_pending_spec (ws : list Worker) :
  forall (front : list Worker) (best : nat) (wb : Worker),
    front !! best = Some wb ->
    (forall j w, front !! j = Some w -> pending wb <= pending w) ->
    (forall j w, (j < best)%nat -> front !! j = Some w -> pending wb < pending w) ->
    let i := least_pending best (pending wb) (length front) ws in
    exists w, (front ++ ws) !! i = Some w /\
              (forall j w', (front ++ ws) !! j = Some w' -> pending w <= pending w') /\
              (forall j w', (j < i)%nat -> (front ++ ws) !! j = Some w' -> pending w < pending w').
Proof.
  induction ws as [|w ws IH]; intros front best wb Hbest Hmin Hfirst.
  - simpl. rewrite app_nil_r. exists wb. auto.
  - simpl. destruct (Z.ltb_spec (pending w) (pending wb)) as [Hlt|Hge].
    + specialize (IH (front ++ [w]) (length front) w).
      rewrite length_app, Nat.add_1_r, <- app_assoc in IH. apply IH.
      * apply lookup_snoc_length.
      * intros j w' Hj. apply lookup_snoc_Some in Hj as [[_ Hj]|[_ <-]]; [|lia].
        specialize (Hmin j w' Hj). lia.
      * intros j w' Hlen Hj. apply lookup_snoc_Some in Hj as [[_ Hj]|[-> _]]; [|lia].
        specialize (Hmin j w' Hj). lia.
    + specialize (IH (front ++ [w]) best wb).
      rewrite length_app, Nat.add_1_r, <- app_assoc in IH. apply IH.
      * now apply lookup_app_l_Some.
      * intros j w' Hj. apply lookup_snoc_Some in Hj as [[_ Hj]|[_ <-]]; [|lia].
        now apply (Hmin j).
      * intros j w' Hlt Hj. apply lookup_snoc_Some in Hj as [[_ Hj]|[-> _]].
        -- now apply (Hfirst j).
        -- apply lookup_lt_Some in Hbest. lia.
Qed.

Lemma choose_spec (ws : list Worker) (i : nat) :
  choose ws = Some i ->
  exists w, ws !! i = Some w /\
            (forall j w', ws !! j = Some w' -> pending w <= pending w') /\
            (forall j w', (j < i)%nat -> ws !! j = Some w' -> pending w < pending w').
Proof.
  destruct ws as [|w0 rest]; [discriminate|]. intros [= <-].
  apply (least_pending_spec rest [w0] 0%nat w0).
  - reflexivity.
  - intros [|j] w Hj; [|destruct j; discriminate Hj]. injection Hj as <-. lia.
  - intros j w Hlt. lia.
Qed.

Lemma sum_app (l1 l2 : list Z) :
  fold_right Z.add 0 (l1 ++ l2) = fold_right Z.add 0 l1 + fold_right Z.add 0 l2.
Proof. induction l1 as [|x l1 IH]; simpl; lia. Qed.

Lemma all_in_flight_insert (ws : list Worker) (i : nat) (w w' : Worker) :
  ws !! i = Some w ->
  exists pre post,
    concat (List.map in_flight ws) = pre ++ in_flight w ++ post /\
    concat (List.map in_flight (<[i := w']> ws)) = pre ++ in_flight w' ++ post.
Proof.
  revert i. induction ws as [|x ws IH]; intros i Hi; [discriminate|].
  destruct i as [|i]; simpl in Hi.
  - injection Hi as ->. exists [], (concat (List.map in_flight ws)). now split.
  - destruct (IH i Hi) as (pre & post & H1 & H2).
    exists (in_flight x ++ pre), post. simpl. rewrite H1, H2, <- !app_assoc. now split.
Qed.

Lemma filter_head_NoDup (id : nat) (l : list nat) :
  NoDup (id :: l) ->
  List.filter (fun x => negb (Nat.eqb x id)) (id :: l) = l.
Proof.
  intros Hnd. apply NoDup_cons in Hnd as [Hnot _]. simpl. rewrite Nat.eqb_refl. simpl.
  induction l as [|x l IH]; [reflexivity|]. simpl.
  destruct (Nat.eqb_spec x id) as [->|Hne].
  - exfalso. apply Hnot. left.
  - simpl. rewrite IH; [reflexivity|]. intros H. apply Hnot. now right.
Qed.

Lemma decodeWorker_ok (count : Z) (p : Pool) :
  pool_ok p -> pool_ok (decodeWorker count p).
Proof.
  intros [Hws Hperm]. unfold decodeWorker.
  destruct (choose (workers p)) as [i|] eqn:Hch; [|now split].
  destruct (choose_spec _ _ Hch) as (w & Hw & _). rewrite Hw.
  set (w' := mkWorker _ _ _ _).
  assert (Hflight : in_flight w' = in_flight w ++ [requestId p]).
  { unfold in_flight. simpl. rewrite List.map_app, app_assoc. reflexivity. }
  split; cbn [workers requestId settled].
  - apply Forall_insert; [exact Hws|].
    rewrite Forall_lookup in Hws. destruct (Hws i w Hw) as [Hp Hr].
    split.
    + unfold in_flight_count in *. simpl. rewrite List.map_app, sum_app. simpl. lia.
    + rewrite Hflight. simpl. now rewrite Hr.
  - unfold all_in_flight in *. cbn [workers].
    destruct (all_in_flight_insert (workers p) i w w' Hw) as (pre & post & H1 & H2).
    rewrite H2, Hflight. rewrite H1 in Hperm.
    rewrite seq_S. simpl. rewrite <- Hperm.
    rewrite <- !app_assoc. simpl.
    rewrite (Permutation_app_comm post [requestId p]). simpl.
    rewrite !app_assoc. reflexivity.
Qed.

Lemma workerProcess_ok (i : nat) (ok : bool) (p : Pool) :
  pool_ok p -> pool_ok (workerProcess i ok p).
Proof.
  intros [Hws Hperm]. unfold workerProcess.
  destruct (workers p !! i) as [w|] eqn:Hw; [|now split].
  destruct (inbox w) as [|r rest] eqn:Hin; [now split|].
  set (w' := mkWorker _ _ _ _).
  assert (Hflight : in_flight w' = in_flight w).
  { unfold in_flight. simpl. rewrite Hin, List.map_app, <- app_assoc. reflexivity. }
  split; cbn [workers requestId settled].
  - apply Forall_insert; [exact Hws|].
    rewrite Forall_lookup in Hws. destruct (Hws i w Hw) as [Hp Hr].
    split; [|now rewrite Hflight].
    unfold in_flight_count in *. simpl. rewrite Hin in Hp. simpl in Hp.
    rewrite List.map_app, sum_app. simpl. lia.
  - unfold all_in_flight in *. cbn [workers].
    destruct (all_in_flight_insert (workers p) i w w' Hw) as (pre & post & H1 & H2).
    rewrite H2, Hflight, <- H1. exact Hperm.
Qed.

Lemma onmessage_ok (i : nat) (p : Pool) :
  pool_ok p -> pool_ok (onmessage i p).
Proof.
  intros [Hws Hperm]. unfold onmessage.
  destruct (workers p !! i) as [w|] eqn:Hw; [|now split].
  destruct (outbox w) as [|a rest] eqn:Hout; [now split|].
  pose proof Hws as Hws'. rewrite Forall_lookup in Hws'. destruct (Hws' i w Hw) as [Hp Hr].
  assert (Hflight : in_flight w
                    = resp_id a :: (List.map resp_id rest ++ List.map req_id (inbox w))).
  { unfold in_flight. now rewrite Hout. }
  destruct (all_in_flight_insert (workers p) i w
              (mkWorker (pending w - resp_count a)
                 (List.filter (fun id => negb (Nat.eqb id (resp_id a))) (requests w))
                 (inbox w) rest) Hw) as (pre & post & H1 & H2).
  unfold all_in_flight in Hperm. rewrite H1 in Hperm.
  assert (Hnd : NoDup (in_flight w)).
  { assert (Hall : NoDup (List.map fst (settled p) ++ pre ++ in_flight w ++ post)).
    { rewrite Hperm. apply NoDup_ListNoDup, List.seq_NoDup. }
    apply NoDup_app in Hall as (_ & _ & Hall).
    apply NoDup_app in Hall as (_ & _ & Hall).
    now apply NoDup_app in Hall as (Hall & _). }
  assert (Hin : resp_id a ∈ requests w).
  { rewrite Hr, Hflight. left. }
  rewrite (bool_decide_eq_true_2 _ Hin).
  split; cbn [workers requestId settled].
  - apply Forall_insert; [exact Hws|]. split; cbn [pending requests].
    + unfold in_flight_count in *. cbn [outbox inbox]. rewrite Hout in Hp. simpl in Hp. lia.
    + rewrite Hr, Hflight. rewrite Hflight in Hnd.
      rewrite (filter_head_NoDup _ _ Hnd). reflexivity.
  - unfold all_in_flight. cbn [workers]. rewrite H2.
    set (X := List.map resp_id rest ++ List.map req_id (inbox w)) in *.
    change (in_flight (mkWorker (pending w - resp_count a)
                         (List.filter (fun id => negb (Nat.eqb id (resp_id a))) (requests w))
                         (inbox w) rest)) with X.
    rewrite List.map_app. cbn [List.map fst]. rewrite <- Hperm, Hflight.
    rewrite <- app_assoc. apply Permutation_app_head.
    exact (Permutation_middle pre (X ++ post) (resp_id a)).
Qed.

Lemma run_pool_ok (ops : list Op) (p : Pool) :
  pool_ok p -> pool_ok (run ops p).
Proof.
  unfold run. revert p. induction ops as [|op ops IH]; intros p Hp; [exact Hp|].
  simpl. apply IH. destruct op; cbn [step].
  - now apply decodeWorker_ok.
  - now apply workerProcess_ok.
  - now apply onmessage_ok.
Qed.

Lemma initWorkers_ok (n : nat) : pool_ok (initWorkers n).
Proof.
  split.
  - simpl. apply Forall_forall. intros w Hin.
    apply list_elem_of_In, repeat_spec in Hin. subst w. now split.
  - simpl. unfold all_in_flight. simpl.
    induction n as [|n IH]; [reflexivity | exact IH].
Qed.

End MeshoptWorkersFacts.

(** Along any run of the decoder's worker pool from [initWorkers]: the
    pending count of every worker is the total count of its requests under
    way, and its request table holds exactly their ids; every request id
    handed out so far is either settled or under way, never both, and no
    promise is settled twice. *)
Theorem worker_pool_accounts_for_every_request
    (n : nat) (ops : list MeshoptWorkers.Op) :
  let p := MeshoptWorkers.run ops (MeshoptWorkers.initWorkers n) in
  (forall i w, MeshoptWorkers.workers p !! i = Some w ->
               MeshoptWorkers.pending w = MeshoptWorkers.in_flight_count w /\
               MeshoptWorkers.requests w = MeshoptWorkers.in_flight w) /\
  NoDup (List.map fst (MeshoptWorkers.settled p)) /\
  (forall id, id < MeshoptWorkers.requestId p <->
              id ∈ List.map fst (MeshoptWorkers.settled p) \/
              id ∈ MeshoptWorkers.all_in_flight p) /\
  (forall id, id ∈ List.map fst (MeshoptWorkers.settled p) ->
              id ∉ MeshoptWorkers.all_in_flight p).
Proof.
  intros p.
  destruct (run_pool_ok ops _ (initWorkers_ok n)) as [Hws Hperm]. fold p in Hws, Hperm.
  assert (Hnd : NoDup (List.map fst (MeshoptWorkers.settled p)
                         ++ MeshoptWorkers.all_in_flight p)).
  { rewrite Hperm. apply NoDup_ListNoDup, List.seq_NoDup. }
  apply NoDup_app in Hnd as (Hnd1 & Hdisj & _).
  split; [|split; [exact Hnd1|split; [|exact Hdisj]]].
  - intros i w Hw. rewrite Forall_lookup in Hws. exact (Hws i w Hw).
  - intros id. rewrite <- elem_of_app, Hperm, list_elem_of_In, List.in_seq. lia.
Qed.

(** [decodeWorker] hands a request to the first of the workers whose
    pending count is least: it adds the request's count to that worker's
    pending count, files the callbacks under a fresh id and posts the
    request to it; no other worker is touched. *)
Theorem request_goes_to_least_loaded_worker
    (p : MeshoptWorkers.Pool) (count : Z) :
  MeshoptWorkers.workers p <> [] ->
  exists i w,
    MeshoptWorkers.workers p !! i = Some w /\
    (forall j w', MeshoptWorkers.workers p !! j = Some w' ->
                  (MeshoptWorkers.pending w <= MeshoptWorkers.pending w')%Z) /\
    (forall j w', j < i -> MeshoptWorkers.workers p !! j = Some w' ->
                  (MeshoptWorkers.pending w < MeshoptWorkers.pending w')%Z) /\
    MeshoptWorkers.decodeWorker count p
    = MeshoptWorkers.mkPool
        (<[i := MeshoptWorkers.mkWorker
                  (MeshoptWorkers.pending w + count)
                  (MeshoptWorkers.requests w ++ [MeshoptWorkers.requestId p])
                  (MeshoptWorkers.inbox w
                     ++ [MeshoptWorkers.mkRequest (MeshoptWorkers.requestId p) count])
                  (MeshoptWorkers.outbox w)]> (MeshoptWorkers.workers p))
        (S (MeshoptWorkers.requestId p)) (MeshoptWorkers.settled p).
Proof.
  intros Hne. unfold MeshoptWorkers.decodeWorker.
  destruct (MeshoptWorkers.choose (MeshoptWorkers.workers p)) as [i|] eqn:Hch.
  - destruct (choose_spec _ _ Hch) as (w & Hw & Hmin & Hfirst).
    exists i, w. rewrite Hw. auto.
  - destruct (MeshoptWorkers.workers p); [congruence | discriminate Hch].
Qed.

Lemma request_goes_to_least_loaded_worker_witness :
  let busy := MeshoptWorkers.mkWorker 5 [0] [MeshoptWorkers.mkRequest 0 5] [] in
  let p := MeshoptWorkers.mkPool
             [busy; MeshoptWorkers.createWorker; MeshoptWorkers.createWorker] 1 [] in
  exists i w,
    MeshoptWorkers.workers p !! i = Some w /\
    (forall j w', j < i -> MeshoptWorkers.workers p !! j = Some w' ->
                  (MeshoptWorkers.pending w < MeshoptWorkers.pending w')%Z) /\
    MeshoptWorkers.pending w = 0%Z.
Proof.
  intros busy p.
  destruct (request_goes_to_least_loaded_worker p 3) as (i & w & Hw & Hmin & Hfirst & _).
  - discriminate.
  - exists i, w. split; [exact Hw|]. split; [exact Hfirst|].
    specialize (Hmin 1 MeshoptWorkers.createWorker eq_refl). simpl in Hmin.
    assert (Hin : w ∈ MeshoptWorkers.workers p) by (eapply list_elem_of_lookup_2; exact Hw).
    simpl in Hin. rewrite !elem_of_cons in Hin.
    destruct Hin as [->|[->|[->|Hin]]]; try reflexivity.
    + simpl in Hmin. lia.
    + now apply elem_of_nil in Hin.
Defined.

Section EntityHandlersFacts.

Import EntityHandlers.

Lemma substring2_pointer (name : string) :
  In name pointerEvents -> In (substring2 name) pointerTypes.
Proof.
  intros [<-|[<-|[<-|[<-|[<-|[]]]]]]; vm_compute; tauto.
Qed.

(** [createEntity] adds listeners that keep their code and leaves the
    attributes alone. *)
Lemma createEntity_spec (el : Element) :
  attributes (createEntity el) = attributes el /\
  exists news, listeners (createEntity el) = listeners el ++ news /\
               forall type l, In (type, l) news -> exists code, l = FromCreate code.
Proof.
  unfold createEntity. generalize pointerEvents. intros names. revert el.
  induction names as [|n names IH]; intros el.
  - simpl. split; [reflexivity|]. exists []. rewrite app_nil_r. split; [reflexivity|].
    intros type l [].
  - cbn [fold_left]. set (el1 := match getAttribute n el with
                       | Some handler =>
                           if JS.truthy (Some handler)
                           then addEventListener (substring2 n) (FromCreate handler) el
                           else el
                       | None => el
                       end).
    assert (H1 : attributes el1 = attributes el /\
                 exists news, listeners el1 = listeners el ++ news /\
                              forall type l, In (type, l) news -> exists code, l = FromCreate code).
    { subst el1. destruct (getAttribute n el) as [handler|].
      - destruct (JS.truthy (Some handler)).
        + split; [reflexivity|]. exists [(substring2 n, FromCreate handler)].
          split; [reflexivity|]. intros type l [[= _ <-]|[]]. now exists handler.
        + split; [reflexivity|]. exists []. rewrite app_nil_r. split; [reflexivity|].
          intros type l [].
      - split; [reflexivity|]. exists []. rewrite app_nil_r. split; [reflexivity|].
        intros type l []. }
    destruct H1 as (Ha1 & news1 & Hl1 & Hn1).
    destruct (IH el1) as (Ha2 & news2 & Hl2 & Hn2).
    split; [rewrite Ha2; exact Ha1|]. exists (news1 ++ news2).
    rewrite Hl2, Hl1, <- app_assoc. split; [reflexivity|].
    intros type l Hin. apply in_app_or in Hin as [Hin|Hin]; eauto.
Qed.

Lemma step_handlers_inv (op : Op) (el : Element) :
  plain_op op = true -> handlers_inv el -> handlers_inv (step el op).
Proof.
  intros Hop [Hattr Hlis]. destruct op as [name value|name|]; cbn [step].
  - cbn [plain_op] in Hop. apply negb_true_iff in Hop.
    assert (Hname : ~ In name pointerTypes).
    { intros H. apply includes_In in H. congruence. }
    unfold setAttribute, attributeChangedCallback.
    destruct (JS.includes pointerEvents name) eqn:Hinc;
      [destruct (JS.truthy (Some value))|]; split; cbn [attributes listeners addEventListener].
    + intros t Ht. rewrite lookup_insert_ne; [now apply Hattr | congruence].
    + intros type ev Hin. apply in_app_or in Hin as [Hin|[[= _ <-]|[]]].
      * now apply (Hlis type).
      * apply substring2_pointer. now apply includes_In.
    + intros t Ht. rewrite lookup_insert_ne; [now apply Hattr | congruence].
    + exact Hlis.
    + intros t Ht. rewrite lookup_insert_ne; [now apply Hattr | congruence].
    + exact Hlis.
  - unfold removeAttribute. destruct (attributes el !! name); [|now split].
    unfold attributeChangedCallback. cbn [JS.truthy].
    destruct (JS.includes pointerEvents name); split; cbn [attributes listeners];
      try exact Hlis; intros t Ht; apply lookup_delete_None; right; now apply Hattr.
  - destruct (createEntity_spec el) as (Ha & news & Hl & Hn).
    split.
    + rewrite Ha. exact Hattr.
    + rewrite Hl. intros type ev Hin. apply in_app_or in Hin as [Hin|Hin].
      * now apply (Hlis type).
      * destruct (Hn _ _ Hin) as (code & Hcode). discriminate Hcode.
Qed.

Lemma run_handlers_inv (ops : list Op) (el : Element) :
  forallb plain_op ops = true -> handlers_inv el -> handlers_inv (run ops el).
Proof.
  unfold run. revert el. induction ops as [|op ops IH]; intros el Hops Hinv; [exact Hinv|].
  simpl in Hops |- *. apply andb_true_iff in Hops as [Hop Hops].
  apply IH; [exact Hops|]. now apply step_handlers_inv.
Qed.

(** Under the invariant a listener made by [attributeChangedCallback]
    runs the empty code. *)
Lemma code_of_inv (el : Element) (type : string) (l : Listener) :
  handlers_inv el -> In (type, l) (listeners el) ->
  code_of el l = match l with FromCreate code => code | FromAttribute _ => "" end.
Proof.
  intros [Hattr Hlis] Hin. destruct l as [code|ev]; [reflexivity|].
  unfold code_of, getAttribute. rewrite (Hattr ev (Hlis type ev Hin)). reflexivity.
Qed.

Lemma dispatched_code_inv (el : Element) (type : string) :
  handlers_inv el ->
  dispatched_code type el
  = List.map (fun tl => match snd tl with FromCreate code => code | FromAttribute _ => "" end)
      (List.filter (fun tl => String.eqb (fst tl) type) (listeners el)).
Proof.
  intros Hinv. unfold dispatched_code. apply List.map_ext_in.
  intros [t l] Hin. apply List.filter_In in Hin as [Hin _].
  now apply (code_of_inv el t).
Qed.

Lemma change_keeps_code (op : Op) (el : Element) (type : string) :
  plain_op op = true -> is_create op = false -> handlers_inv el ->
  nonempty (dispatched_code type (step el op)) = nonempty (dispatched_code type el).
Proof.
  intros Hop Hcreate Hinv.
  pose proof (step_handlers_inv op el Hop Hinv) as Hinv'.
  rewrite (dispatched_code_inv _ type Hinv'), (dispatched_code_inv _ type Hinv).
  destruct op as [name value|name|]; [| |discriminate Hcreate]; cbn [step].
  - unfold setAttribute, attributeChangedCallback.
    destruct (JS.includes pointerEvents name); [destruct (JS.truthy (Some value))|];
      cbn [listeners addEventListener]; try reflexivity.
    rewrite List.filter_app, List.map_app. unfold nonempty. rewrite List.filter_app.
    cbn [List.filter fst]. destruct (String.eqb (substring2 name) type); simpl;
      now rewrite app_nil_r.
  - unfold removeAttribute. destruct (attributes el !! name); [|reflexivity].
    unfold attributeChangedCallback. cbn [JS.truthy].
    now destruct (JS.includes pointerEvents name).
Qed.

Lemma changes_keep_code (changes : list Op) (el : Element) (type : string) :
  forallb plain_op changes = true ->
  forallb (fun op => negb (is_create op)) changes = true ->
  handlers_inv el ->
  nonempty (dispatched_code type (run changes el)) = nonempty (dispatched_code type el).
Proof.
  unfold run. revert el. induction changes as [|op ops IH]; intros el Hp Hc Hinv;
    [reflexivity|].
  simpl in Hp, Hc |- *. apply andb_true_iff in Hp as [Hop Hp].
  apply andb_true_iff in Hc as [Hcr Hc]. apply negb_true_iff in Hcr.
  rewrite IH; [now apply change_keeps_code | exact Hp | exact Hc |].
  now apply step_handlers_inv.
Qed.

End EntityHandlersFacts.

(** The code that the pointer handler attributes of a pc-entity element
    run is fixed when its entity is created: setting or removing attributes
    afterwards never changes the non-empty code that a pointer event runs.
    Each such change of an [onpointer...] attribute only adds a listener that
    reads the attribute named like the event type, without the [on], and so
    runs the empty code as long as the element has no attribute of that
    name. *)
Theorem pointer_attribute_change_never_changes_handler_code
    (ops changes : list EntityHandlers.Op) (type : string) :
  forallb EntityHandlers.plain_op (ops ++ changes) = true ->
  forallb (fun op => negb (EntityHandlers.is_create op)) changes = true ->
  EntityHandlers.nonempty
    (EntityHandlers.dispatched_code type
       (EntityHandlers.run (ops ++ changes) EntityHandlers.constructor))
  = EntityHandlers.nonempty
      (EntityHandlers.dispatched_code type
         (EntityHandlers.run ops EntityHandlers.constructor)).
Proof.
  intros Hplain Hchanges. rewrite forallb_app in Hplain.
  apply andb_true_iff in Hplain as [Hops Hch].
  unfold EntityHandlers.run at 1. rewrite fold_left_app.
  fold (EntityHandlers.run ops EntityHandlers.constructor).
  fold (EntityHandlers.run changes (EntityHandlers.run ops EntityHandlers.constructor)).
  apply changes_keep_code; [exact Hch | exact Hchanges |].
  apply run_handlers_inv; [exact Hops|].
  split; [intros t _; apply lookup_empty | intros type' ev []].
Qed.

Lemma pointer_attribute_change_never_changes_handler_code_witness :
  let ops := [EntityHandlers.SetAttribute "onpointerdown" "first()";
              EntityHandlers.CreateEntity] in
  let changes := [EntityHandlers.SetAttribute "onpointerdown" "second()"] in
  let el := EntityHandlers.run (ops ++ changes) EntityHandlers.constructor in
  EntityHandlers.dispatched_code "pointerdown" el = [""; "first()"; ""] /\
  EntityHandlers.nonempty (EntityHandlers.dispatched_code "pointerdown" el) = ["first()"].
Proof.
  intros ops changes el. split; [vm_compute; reflexivity|].
  subst el.
  rewrite (pointer_attribute_change_never_changes_handler_code ops changes "pointerdown"
             eq_refl eq_refl).
  vm_compute. reflexivity.
Defined.

Section ScriptAttributesFacts.

Import ScriptAttributes.

Variable asset_element : string -> Lookup.
Variable entity_element : string -> Lookup.
Variable Number : string -> option Q.

Lemma Json_nested_ind (P : Json -> Prop) :
  P JNull -> (forall b, P (JBool b)) -> (forall n, P (JNumber n)) ->
  (forall s, P (JString s)) ->
  (forall items, Forall P items -> P (JArray items)) ->
  (forall fields, Forall (fun kv => P (snd kv)) fields -> P (JObject fields)) ->
  forall j, P j.
Proof.
  intros Hnull Hbool Hnum Hstr Harr Hobj. fix IH 1.
  intros [ |b|n|s|items|fields].
  - exact Hnull.
  - apply Hbool.
  - apply Hnum.
  - apply Hstr.
  - apply Harr. induction items as [|x rest IHl]; constructor; [apply IH | exact IHl].
  - apply Hobj. induction fields as [|[k x] rest IHl]; constructor; [apply IH | exact IHl].
Qed.

Lemma convert_vector_leaf (s : string) :
  string_or_leaf s (convert_vector Number s).
Proof.
  unfold convert_vector.
  repeat match goal with
         | |- context [if ?c then _ else _] => destruct c
         | |- context [match numbers ?n ?f ?i with _ => _ end] =>
             destruct (numbers n f i) as [[|?[|?[|?[|?[|? ?]]]]]|]
         end; simpl; auto.
Qed.

Lemma convert_string_leaf (s : string) (v : Value) :
  convert_string asset_element entity_element Number s = Some v ->
  string_or_leaf s v.
Proof.
  unfold convert_string.
  assert (Hent : forall v',
             (if String.prefix "entity:" s
              then match entity_element (slice 7 s) with
                   | Throws => None
                   | NotFound => Some (convert_vector Number s)
                   | Found field => Some (field_value field VEntity)
                   end
              else Some (convert_vector Number s)) = Some v' ->
             string_or_leaf s v').
  { intros v'. destruct (String.prefix "entity:" s).
    - destruct (entity_element (slice 7 s)) as [| |[e|]]; try discriminate;
        intros [= <-]; simpl; auto. apply convert_vector_leaf.
    - intros [= <-]. apply convert_vector_leaf. }
  destruct (String.prefix "asset:" s); [|apply Hent].
  destruct (asset_element (slice 6 s)) as [| |[a|]]; try discriminate;
    try (intros [= <-]; simpl; auto). apply Hent.
Qed.

Lemma convert_string_no_lookup (s : string) :
  String.prefix "asset:" s = false -> String.prefix "entity:" s = false ->
  convert_string asset_element entity_element Number s = Some (convert_vector Number s).
Proof. intros Ha He. unfold convert_string. now rewrite Ha, He. Qed.

Variable inherited : Value -> string -> Assignment.

Lemma has_key_app (key : string) (done new : list (string * Value)) :
  has_key key (done ++ new) = has_key key done || has_key key new.
Proof.
  induction done as [|[k x] done IH]; [reflexivity|].
  simpl. rewrite IH. now rewrite orb_assoc.
Qed.

Lemma set_property_fresh (key : string) (v : Value) (done : list (string * Value)) :
  has_key key done = false -> set_property key v done = done ++ [(key, v)].
Proof.
  induction done as [|[k x] done IH]; [reflexivity|].
  simpl. intros H. apply orb_false_iff in H as [Hk Hrest].
  rewrite Hk. now rewrite IH.
Qed.

(** On a fresh object, a key that is new and is not [__proto__] becomes
    the last own property. *)
Lemma assign_ordinary (key : string) (v : Value) (done : list (string * Value)) :
  String.eqb key "__proto__" = false -> has_key key done = false ->
  assign inherited key v (ObjectPrototype, done)
  = Some (ObjectPrototype, done ++ [(key, v)]).
Proof.
  intros Hkey Hnew. unfold assign, resolve. rewrite Hnew, Hkey.
  now rewrite set_property_fresh.
Qed.

(** Over keys that are distinct, new and not [__proto__], the loop adds
    the converted properties in order and leaves the prototype alone. *)
Lemma assign_each_ordinary (convert : Json -> option Value) (fields : list (string * Json)) :
  forall done,
    distinct (List.map fst fields) = true ->
    JS.includes (List.map fst fields) "__proto__" = false ->
    (forall k, In k (List.map fst fields) -> has_key k done = false) ->
    assign_each inherited convert fields (ObjectPrototype, done)
    = match convert_fields convert fields with
      | Some new => Some (ObjectPrototype, done ++ new)
      | None => None
      end.
Proof.
  induction fields as [|[k x] rest IH]; intros done Hdist Hproto Hnew.
  - simpl. now rewrite app_nil_r.
  - cbn [assign_each convert_fields]. destruct (convert x) as [v|]; [|reflexivity].
    cbn [List.map fst distinct JS.includes] in Hdist, Hproto.
    apply andb_true_iff in Hdist as [Hk Hdist]. apply negb_true_iff in Hk.
    destruct (String.eqb k "__proto__") eqn:Hkp; [discriminate Hproto|].
    rewrite (assign_ordinary k v done Hkp (Hnew k (or_introl eq_refl))).
    rewrite (IH (done ++ [(k, v)]) Hdist Hproto).
    + destruct (convert_fields convert rest) as [new|]; [|reflexivity].
      now rewrite <- app_assoc.
    + intros k' Hk'. rewrite has_key_app, (Hnew k' (or_intror Hk')). simpl.
      rewrite orb_false_r. apply String.eqb_neq. intros ->.
      apply includes_In in Hk'. congruence.
Qed.

End ScriptAttributesFacts.



Section UnpackFacts.

Import Unpack.

Lemma decode_length (bytes : list Z) : length (decode bytes) <= length bytes.
Proof.
  assert (H : forall n bs, length bs <= n -> length (decode bs) <= length bs).
  { induction n as [|n IH]; intros bs Hn.
    - destruct bs; [simpl; lia | simpl in Hn; lia].
    - destruct bs as [|b [|c rest]]; simpl; [lia | destruct (b <? 60)%Z; simpl; lia |].
      simpl in Hn. destruct (b <? 60)%Z; simpl.
      + specialize (IH (c :: rest)). simpl in IH. specialize (IH ltac:(lia)). lia.
      + specialize (IH rest ltac:(lia)). lia. }
  now apply (H (length bytes)).
Qed.

(** The second loop never writes where it still has to read: from indices
    [write <= i] on it leaves, in the first [write'] cells, what it had
    written before followed by the decoding of the cells from [i] on. *)
Lemma second_pass_spec (fuel : nat) :
  forall (i write : nat) (result : list Z),
    write <= i ->
    length result - i <= fuel ->
    let '(write', result') := second_pass fuel i write result in
    take write' result' = take write result ++ decode (drop i result).
Proof.
  induction fuel as [|fuel IH]; intros i write result Hwi Hfuel.
  - simpl. rewrite drop_ge by lia. simpl. now rewrite app_nil_r.
  - simpl. destruct (result !! i) as [b|] eqn:Hb.
    2:{ apply lookup_ge_None_1 in Hb. rewrite drop_ge by lia. simpl. now rewrite app_nil_r. }
    pose proof (lookup_lt_Some _ _ _ Hb) as Hlt.
    rewrite (drop_S _ _ _ Hb). cbn [decode].
    destruct (b <? 60)%Z.
    + specialize (IH (S i) (S write) (<[write := wasmpack_at b]> result)).
      rewrite length_insert in IH. specialize (IH ltac:(lia) ltac:(lia)).
      destruct (second_pass fuel (S i) (S write) (<[write := wasmpack_at b]> result))
        as [write' result'].
      rewrite IH.
      rewrite (take_S_r _ _ (wasmpack_at b)) by (apply list_lookup_insert_eq; lia).
      rewrite take_insert_ge by lia. rewrite drop_insert_lt by lia.
      rewrite <- app_assoc. reflexivity.
    + specialize (IH (S (S i)) (S write) (<[write := escaped b (result !! S i)]> result)).
      rewrite length_insert in IH. specialize (IH ltac:(lia) ltac:(lia)).
      destruct (second_pass fuel (S (S i)) (S write)
                  (<[write := escaped b (result !! S i)]> result)) as [write' result'].
      rewrite IH.
      rewrite (take_S_r _ _ (escaped b (result !! S i))) by (apply list_lookup_insert_eq; lia).
      rewrite take_insert_ge by lia. rewrite drop_insert_lt by lia.
      rewrite <- app_assoc. f_equal.
      destruct (result !! S i) as [c|] eqn:Hc.
      * rewrite (drop_S _ _ _ Hc). reflexivity.
      * apply lookup_ge_None_1 in Hc. rewrite (drop_ge _ (S i)) by lia.
        rewrite (drop_ge _ (S (S i))) by lia. reflexivity.
Qed.

End UnpackFacts.

(** The in-place second loop of [unpack] is safe: although it overwrites
    the array it reads from, the bytes it returns are those of decoding the
    first loop's bytes into a separate list, and they are never more than
    the characters of the packed text. *)
Theorem unpack_in_place_decodes_first_pass (data : list Z) :
  Unpack.unpack data = Unpack.decode (List.map Unpack.first_pass data) /\
  length (Unpack.unpack data) <= length data.
Proof.
  assert (H : Unpack.unpack data = Unpack.decode (List.map Unpack.first_pass data)).
  { unfold Unpack.unpack.
    pose proof (second_pass_spec (length data) 0 0 (List.map Unpack.first_pass data)
                  (le_n 0)) as Hspec.
    rewrite length_map in Hspec. specialize (Hspec ltac:(lia)).
    destruct (Unpack.second_pass (length data) 0 0 (List.map Unpack.first_pass data))
      as [write result'].
    rewrite Hspec. reflexivity. }
  split; [exact H|]. rewrite H.
  etransitivity; [apply decode_length|]. now rewrite length_map.
Qed.

Section EntityPropsFacts.

Import EntityProps.

Context {num : Type}.
Variable Number : string -> num.
Variable zero one : num.

Lemma assign_alike (a : Assign) (e1 e2 : @Element num) :
  alike e1 e2 ->
  alike (assign e1 a) (if is_name a then assign e2 a else e2).
Proof.
  intros (Ha & Hn & H1 & H2 & Hc1 & Hc2). unfold alike.
  destruct a; cbn [is_name assign attributes _name entity calls]; unfold forward;
    rewrite ?H1, ?H2; auto 10.
Qed.

Lemma assign_all_alike (l : list Assign) (e1 e2 : @Element num) :
  alike e1 e2 ->
  alike (assign_all l e1) (assign_all (List.filter is_name l) e2).
Proof.
  unfold assign_all. revert e1 e2. induction l as [|a l IH]; intros e1 e2 H; [exact H|].
  simpl. pose proof (assign_alike a e1 e2 H) as Hstep.
  destruct (is_name a); simpl; now apply IH.
Qed.

Lemma createEntity_alike (e1 e2 : @Element num) :
  alike e1 e2 ->
  calls (createEntity Number zero e1) = calls (createEntity Number zero e2).
Proof.
  intros (Ha & Hn & _ & _ & Hc1 & Hc2). unfold createEntity, when_set.
  cbn [calls]. now rewrite Ha, Hn, Hc1, Hc2.
Qed.

Lemma assign_all_attributes (l : list Assign) (e : @Element num) :
  attributes (assign_all l e) = attributes e.
Proof.
  unfold assign_all. revert e. induction l as [|a l IH]; intros e; [reflexivity|].
  simpl. rewrite IH. now destruct a.
Qed.

End EntityPropsFacts.

(** Property values assigned to a pc-entity element before its entity
    exists are not applied when the entity is created: the assignments make
    no engine call, and [createEntity] then makes the calls it would make
    had only the names been assigned; with a non-empty [name] attribute, the
    calls it would make had nothing been assigned at all. The new entity
    takes its enabled flag, position, rotation, scale and tags from the
    attributes only. *)
Theorem entity_properties_assigned_before_creation_are_dropped
    {num : Type} (Number : string -> num) (zero one : num)
    (attrs : gmap string string) (assigns : list (@EntityProps.Assign num)) :
  let el0 := EntityProps.constructor zero one attrs in
  let el := EntityProps.assign_all assigns el0 in
  EntityProps.calls el = [] /\
  EntityProps.calls (EntityProps.createEntity Number zero el)
  = EntityProps.calls
      (EntityProps.createEntity Number zero
         (EntityProps.assign_all (List.filter EntityProps.is_name assigns) el0)) /\
  (JS.truthy (attrs !! "name") = true ->
   EntityProps.calls (EntityProps.createEntity Number zero el)
   = EntityProps.calls (EntityProps.createEntity Number zero el0)).
Proof.
  intros el0 el.
  assert (H0 : EntityProps.alike el0 el0) by (unfold EntityProps.alike; simpl; auto 10).
  pose proof (assign_all_alike assigns el0 el0 H0) as Hall. fold el in Hall.
  split; [apply Hall|]. split; [now apply createEntity_alike|].
  intros Hname. destruct Hall as (_ & _ & _ & _ & Hc & _).
  pose proof (assign_all_attributes assigns el0) as Ha. fold el in Ha.
  unfold EntityProps.createEntity, EntityProps.when_set. cbn [EntityProps.calls].
  rewrite Ha, Hc. cbn [EntityProps.attributes EntityProps.calls el0 EntityProps.constructor].
  now rewrite Hname.
Qed.

Lemma entity_properties_assigned_before_creation_are_dropped_witness :
  let Number := fun s : string => s in
  let v := Parse.mkVec3 (Parse.FNum "1") (Parse.FNum "2") (Parse.FNum "3") in
  let attrs : gmap string string := {[ "name" := "box"; "position" := "4 5 6" ]} in
  let el := EntityProps.assign_all
              [EntityProps.AssignPosition v; EntityProps.AssignEnabled false]
              (EntityProps.constructor "0" "1" attrs) in
  EntityProps.calls (EntityProps.createEntity Number "0" el)
  = [EntityProps.NewEntity "box";
     EntityProps.SetLocalPosition
       (Parse.mkVec3 (Parse.FNum "4") (Parse.FNum "5") (Parse.FNum "6"))].
Proof.
  intros Number v attrs el. subst el.
  destruct (entity_properties_assigned_before_creation_are_dropped Number "0" "1" attrs
              [EntityProps.AssignPosition v; EntityProps.AssignEnabled false])
    as (_ & _ & Hname).
  rewrite Hname by (vm_compute; reflexivity).
  vm_compute. reflexivity.
Defined.
